(** * NcbiTaxonomy: a shallow embedding of the taxonomy engine

    The development follows [NcbiTaxonomy.cpp]: the dump loaders and the
    direct-addressed table [D], the Euler tour ([elh]), the sparse table for
    range-minimum queries, the LCA helpers, lineage strings, clade counts and
    the weighted-majority LCA.

    Integer values are kept in [Z].  Where the source converts a number to a
    narrower type, the conversion is written out: the ids that [strtol] and
    [strtoul] read are cast to [int] and [unsigned int], and the clade
    counters are [unsigned int] sums that wrap at [2^32].  Counters of
    records and positions in the tables stay far below [2^31] and are not
    wrapped.  Weights and percentages are IEEE 754 [double] and [float]
    values, computed as [SpecFloat] of the Standard Library specifies them.
    An access [v[i]] to a [std::vector] or an array outside its bounds, and a
    dereference of a null pointer, are undefined behaviour; [EXIT(EXIT_FAILURE)]
    ends the process.  All three are results of the error monad [res]. *)

From Stdlib Require Import ZArith String Ascii SpecFloat Lia.
From stdpp Require Import base option list gmap strings numbers sorting.

Local Open Scope Z_scope.

(** ** The error monad *)

Inductive fault : Type :=
| ExitFailure   (* EXIT(EXIT_FAILURE) *)
| OutOfBounds   (* v[i] outside the allocated range *)
| NullDeref     (* node->... on a NULL pointer *)
| AssertFailed  (* assert(...) does not hold *)
| OutOfFuel.    (* the recursion or loop did not finish within the fuel *)

Inductive res (A : Type) : Type :=
| Ok (a : A)
| Err (e : fault).
Arguments Ok {A} a.
Arguments Err {A} e.

Definition bind {A B : Type} (m : res A) (f : A -> res B) : res B :=
  match m with
  | Ok a => f a
  | Err e => Err e
  end.

Notation "'let*' x ':=' m 'in' k" := (bind m (fun x => k))
  (at level 10, x name, m at level 100, k at level 200).

Definition is_ok {A} (r : res A) : bool :=
  match r with Ok _ => true | Err _ => false end.

(** [for x in xs: st = body st x], stopping at the first fault. *)
Fixpoint foldM {A S : Type} (body : S -> A -> res S) (st : S) (xs : list A) : res S :=
  match xs with
  | [] => Ok st
  | x :: xs' => let* st' := body st x in foldM body st' xs'
  end.

(** ** Vectors and arrays indexed by an [int] *)

Definition at_ {A} (v : list A) (i : Z) : res A :=
  if decide (0 <= i) then
    match v !! Z.to_nat i with
    | Some x => Ok x
    | None => Err OutOfBounds
    end
  else Err OutOfBounds.

Definition set_ {A} (v : list A) (i : Z) (x : A) : res (list A) :=
  if decide (0 <= i < Z.of_nat (length v)) then Ok (<[Z.to_nat i := x]> v)
  else Err OutOfBounds.

(** [v.resize(n, x)] *)
Definition resize_ {A} (v : list A) (n : Z) (x : A) : list A :=
  take (Z.to_nat n) v ++ replicate (Z.to_nat n - length v)%nat x.

(** ** Text helpers: [std::string::find], [substr], [strtol], [SSTR] *)

Definition TAB : ascii := Ascii.ascii_of_nat 9.
Definition tab : string := String TAB EmptyString.
(** The field separator, tabulator bar tabulator. *)
Definition SEP : string := tab +:+ "|" +:+ tab.

(** [s.find(pat, from)]; [None] is [std::string::npos]. *)
Definition find (s pat : string) (from : nat) : option nat := String.index from pat s.

Definition isspace (c : ascii) : bool :=
  let n := Ascii.nat_of_ascii c in
  (n =? 32)%nat || ((9 <=? n)%nat && (n <=? 13)%nat).

Definition digit_of (c : ascii) : option Z :=
  let n := Ascii.nat_of_ascii c in
  if ((48 <=? n)%nat && (n <=? 57)%nat)%bool then Some (Z.of_nat n - 48) else None.

Fixpoint skip_space (s : string) : string :=
  match s with
  | String c r => if isspace c then skip_space r else s
  | EmptyString => s
  end.

Fixpoint read_digits (s : string) (acc : Z) : Z :=
  match s with
  | String c r =>
      match digit_of c with
      | Some d => read_digits r (10 * acc + d)
      | None => acc
      end
  | EmptyString => acc
  end.

(** What [strtol(s, NULL, 10)] and [strtoul(s, NULL, 10)] read: leading white
    space, an optional sign, then the longest run of digits.  The result is
    whether the sign is a minus, and the number that the digits write; [0]
    when there is no digit. *)
Definition read_number (s : string) : bool * Z :=
  match skip_space s with
  | String "-"%char r => (true, read_digits r 0)
  | String "+"%char r => (false, read_digits r 0)
  | r => (false, read_digits r 0)
  end.

(** A [long] has 64 bits and an [int] 32; the conversion of a [long] or of an
    [unsigned int] to [int] keeps the low 32 bits. *)
Definition LONG_MAX : Z := 2 ^ 63 - 1.
Definition LONG_MIN : Z := - 2 ^ 63.
Definition ULONG_MAX : Z := 2 ^ 64 - 1.
Definition long_to_int (x : Z) : Z := (x + 2 ^ 31) mod 2 ^ 32 - 2 ^ 31.
Definition uint_to_int (x : Z) : Z := long_to_int x.

(** [strtol(s, NULL, 10)]: a number outside the range of a [long] is replaced
    by [LONG_MIN] or [LONG_MAX]. *)
Definition strtol_long (s : string) : Z :=
  let x := if (read_number s).1 then - (read_number s).2 else (read_number s).2 in
  if x <? LONG_MIN then LONG_MIN else if LONG_MAX <? x then LONG_MAX else x.

(** [(int) strtol(s, NULL, 10)] and [(TaxID) strtol(s, NULL, 10)] *)
Definition strtol (s : string) : Z := long_to_int (strtol_long s).

(** [strtoul(s, NULL, 10)]: digits that write a number above [ULONG_MAX] give
    [ULONG_MAX]; otherwise a minus sign negates the number as an
    [unsigned long]. *)
Definition strtoul_ulong (s : string) : Z :=
  if ULONG_MAX <? (read_number s).2 then ULONG_MAX
  else if (read_number s).1 then (- (read_number s).2) mod 2 ^ 64
  else (read_number s).2.

(** [(unsigned int) strtoul(s, NULL, 10)] *)
Definition strtoul (s : string) : Z := strtoul_ulong s mod 2 ^ 32.

Definition digit_char (d : Z) : ascii := Ascii.ascii_of_nat (48 + Z.to_nat d).

(** Decimal digits of a positive number, most significant first. *)
Fixpoint digits_fuel (fuel : nat) (n : Z) (acc : string) : string :=
  match fuel with
  | O => acc
  | S f =>
      let acc' := String (digit_char (n mod 10)) acc in
      if n / 10 =? 0 then acc' else digits_fuel f (n / 10) acc'
  end.

(** [SSTR(x)]: the decimal text of an [int], as [operator<<] prints it. *)
Definition SSTR (x : Z) : string :=
  if x <? 0 then String "-"%char (digits_fuel (S (Z.to_nat (Z.log2 (- x)))) (- x) EmptyString)
  else digits_fuel (S (Z.to_nat (Z.log2 x))) x EmptyString.

(** The [do ... while] of [splitByDelimiter], started at offset [prev];
    [more] is the number of further rounds that [i < maxCol] still allows. *)
Fixpoint splitFrom (more : nat) (s delimiter : string) (prev : nat) : list string :=
  let pos := default (String.length s) (find s delimiter prev) in
  let field := substring prev (pos - prev) s in
  let prev' := (pos + String.length delimiter)%nat in
  match more with
  | S m =>
      if ((pos <? String.length s)%nat && (prev' <? String.length s)%nat)%bool
      then field :: splitFrom m s delimiter prev'
      else [field]
  | O => [field]
  end.

Definition splitByDelimiter (s delimiter : string) (maxCol : nat) : list string :=
  splitFrom (maxCol - 1) s delimiter 0.

(** ** The taxon store *)

Definition TaxID := Z.

Record TaxonNode : Type := mkTaxonNode {
  id : Z;
  taxId : TaxID;
  parentTaxId : TaxID;
  rank : string;
  name : string
}.

Definition set_name (n : TaxonNode) (s : string) : TaxonNode :=
  mkTaxonNode (id n) (taxId n) (parentTaxId n) (rank n) s.

(** The part of the engine that the loaders fill: the records in insertion
    order and the direct-addressed table from external id to internal index,
    [-1] marking an unused slot. *)
Record Store : Type := mkStore {
  taxonNodes : list TaxonNode;
  D : list Z
}.

Definition nodeExists (st : Store) (taxonId : TaxID) : res bool :=
  let* d := at_ (D st) taxonId in Ok (negb (d =? -1)).

Definition nodeId (st : Store) (taxonId : TaxID) : res Z :=
  if taxonId <? 0 then Err ExitFailure
  else
    let* ex := nodeExists st taxonId in
    if ex then at_ (D st) taxonId else Err ExitFailure.

(** [taxonNode(taxonId, fail)]: [None] is the NULL pointer. *)
Definition taxonNode (st : Store) (taxonId : TaxID) (fail : bool) : res (option TaxonNode) :=
  if taxonId =? 0 then Ok None
  else
    let* skip := (if fail then Ok false else let* ex := nodeExists st taxonId in Ok (negb ex)) in
    if (skip : bool) then Ok None
    else let* i := nodeId st taxonId in let* n := at_ (taxonNodes st) i in Ok (Some n).

(** [taxonNode(id)->...]: the default [fail = true], then the dereference. *)
Definition taxonNode_deref (st : Store) (taxonId : TaxID) : res TaxonNode :=
  let* o := taxonNode st taxonId true in
  match o with
  | Some n => Ok n
  | None => Err NullDeref
  end.

(** *** loadNodes *)

Record NodesAcc : Type := mkNodesAcc {
  acc_nodes : list TaxonNode;
  acc_Dm : gmap Z Z;
  acc_maxTaxID : Z;
  acc_currentId : Z
}.

Definition loadNodes_line (a : NodesAcc) (line : string) : res NodesAcc :=
  let result := splitByDelimiter line SEP 3 in
  let* r0 := at_ result 0 in
  let* r1 := at_ result 1 in
  let taxId := strtol r0 in
  let parentTaxId := strtol r1 in
  let maxTaxID := if acc_maxTaxID a <? taxId then taxId else acc_maxTaxID a in
  let* r2 := at_ result 2 in
  Ok (mkNodesAcc
        (acc_nodes a ++ [mkTaxonNode (acc_currentId a) taxId parentTaxId r2 EmptyString])
        (match acc_Dm a !! taxId with       (* emplace keeps an existing entry *)
         | Some _ => acc_Dm a
         | None => <[taxId := acc_currentId a]> (acc_Dm a)
         end)
        maxTaxID
        (acc_currentId a + 1)).

Definition loadNodes (lines : list string) : res Store :=
  let* a := foldM loadNodes_line (mkNodesAcc [] ∅ 0 0) lines in
  let D0 := resize_ [] (acc_maxTaxID a + 1) (-1) in
  let* D1 := foldM (fun Dv (kv : Z * Z) => set_ Dv kv.1 kv.2) D0 (map_to_list (acc_Dm a)) in
  let st := mkStore (acc_nodes a) D1 in
  let* _ := foldM (fun (_ : unit) n =>
               let* ex := nodeExists st (parentTaxId n) in
               if (ex : bool) then Ok tt else Err ExitFailure) tt (acc_nodes a) in
  Ok st.

(** *** loadMerged *)

(** The two ids of a row of the merged file, both [unsigned int]. *)
Definition parseMerged (line : string) : res (Z * Z) :=
  let result := splitByDelimiter line SEP 2 in
  if negb (length result =? 2)%nat then Err ExitFailure
  else
    let* r0 := at_ result 0 in
    let* r1 := at_ result 1 in
    Ok (strtoul r0, strtoul r1).

(** [nodeExists] takes a [TaxID], so the [unsigned int] ids are converted to
    [int] for it; the table is indexed by the [unsigned int] ids themselves. *)
Definition loadMerged_line (st : Store) (line : string) : res Store :=
  let* ids := parseMerged line in
  let oldId := ids.1 in
  let mergedId := ids.2 in
  let* exOld := nodeExists st (uint_to_int oldId) in
  if (exOld : bool) then Ok st
  else
    let* exNew := nodeExists st (uint_to_int mergedId) in
    if (exNew : bool) then
      let* d := at_ (D st) mergedId in
      let* D' := set_ (D st) oldId d in
      Ok (mkStore (taxonNodes st) D')
    else Ok st.

Definition loadMerged (st : Store) (lines : list string) : res Store :=
  foldM loadMerged_line st lines.

(** *** loadNames *)

Definition parseName (line : string) : res (Z * string) :=
  let result := splitByDelimiter line SEP 2 in
  if negb (length result =? 2)%nat then Err ExitFailure
  else
    let* r0 := at_ result 0 in
    let* r1 := at_ result 1 in
    Ok (strtol r0, r1).

Definition is_scientific (line : string) : bool :=
  bool_decide (find line "scientific name" 0 ≠ None).

Definition loadNames_line (st : Store) (line : string) : res Store :=
  if negb (is_scientific line) then Ok st
  else
    let* entry := parseName line in
    let* ex := nodeExists st entry.1 in
    if negb ex then Err ExitFailure
    else
      let* i := nodeId st entry.1 in
      let* n := at_ (taxonNodes st) i in
      let* nodes' := set_ (taxonNodes st) i (set_name n entry.2) in
      Ok (mkStore nodes' (D st)).

Definition loadNames (st : Store) (lines : list string) : res Store :=
  foldM loadNames_line st lines.

(** Rows of the dump files, with the end-of-record marker. *)
Definition row3 (a b c : string) : string :=
  a +:+ SEP +:+ b +:+ SEP +:+ c +:+ SEP +:+ tab +:+ "|".
Definition row4 (a b c d : string) : string :=
  a +:+ SEP +:+ b +:+ SEP +:+ c +:+ SEP +:+ d +:+ tab +:+ "|".
Definition row2 (a b : string) : string := a +:+ SEP +:+ b +:+ tab +:+ "|".

(** ** Euler tour *)

(** The arrays the traversal fills: [E] (visit), [L] (depth) and the first
    occurrence table [H]. *)
Record Tour : Type := mkTour {
  tE : list Z;
  tL : list Z;
  tH : list Z
}.

Definition assert_ (b : bool) : res unit := if b then Ok tt else Err AssertFailed.

(** [children[nodeId(parentTaxId)].push_back(taxId)] for every record that is
    not its own parent. *)
Definition add_child (st : Store) (children : list (list TaxID)) (n : TaxonNode)
  : res (list (list TaxID)) :=
  if parentTaxId n =? taxId n then Ok children
  else
    let* p := nodeId st (parentTaxId n) in
    let* cs := at_ children p in
    set_ children p (cs ++ [taxId n]).

Definition make_children (st : Store) : res (list (list TaxID)) :=
  foldM (add_child st) (replicate (length (taxonNodes st)) []) (taxonNodes st).

(** [elh]; the recursion depth is bounded by [fuel]. *)
Fixpoint elh (fuel : nat) (st : Store) (children : list (list TaxID))
    (taxId : TaxID) (level : Z) (t : Tour) : res Tour :=
  match fuel with
  | O => Err OutOfFuel
  | S f =>
      let* _ := assert_ (0 <? taxId) in
      let* id := nodeId st taxId in
      let* h := at_ (tH t) id in
      let* H' := (if h =? 0 then set_ (tH t) id (Z.of_nat (length (tE t))) else Ok (tH t)) in
      let t1 := mkTour (tE t ++ [id]) (tL t ++ [level]) H' in
      let* cs := at_ children id in
      let* t2 := foldM (fun t' child => elh f st children child (level + 1) t') t1 cs in
      let* n := at_ (taxonNodes st) id in
      let* p := nodeId st (parentTaxId n) in
      Ok (mkTour (tE t2 ++ [p]) (tL t2 ++ [level - 1]) (tH t2))
  end.

(** ** Range-minimum queries *)

(** Modelled from the spec: [MathUtil::flog2] is declared in [MathUtil.h],
    which is not part of the sources at hand; the spec uses it as the floor of
    the binary logarithm ([k = ⌊log2(r − l + 1)⌋]). *)
Definition flog2 (x : Z) : Z := Z.log2 x.

(** Modelled from the spec: [MathUtil::ipow<int>(2, k)] is the power [2^k]. *)
Definition ipow (b k : Z) : Z := b ^ k.

Definition makeMatrix (maxNodes : Z) : list (list Z) :=
  let dimension := maxNodes * 2 in
  let k := flog2 dimension + 1 in
  replicate (Z.to_nat dimension) (replicate (Z.to_nat k) 0).

Definition mget (M : list (list Z)) (i j : Z) : res Z :=
  let* row := at_ M i in at_ row j.

Definition mset (M : list (list Z)) (i j v : Z) : res (list (list Z)) :=
  let* row := at_ M i in
  let* row' := set_ row j v in
  set_ M i row'.

(** Body of the inner loop of [InitRangeMinimumQuery]. *)
Definition rmq_cell (Lv : list Z) (j : Z) (M : list (list Z)) (i : Z) : res (list (list Z)) :=
  let* A := mget M i (j - 1) in
  let* B := mget M (i + 2 ^ (j - 1)) (j - 1) in
  let* la := at_ Lv A in
  let* lb := at_ Lv B in
  if la <? lb then mset M i j A else mset M i j B.

(** [for (i = 0; i + 2^j - 1 < dim; ++i)] runs over [0 .. dim - 2^j]. *)
Definition rmq_level (Lv : list Z) (dim : Z) (M : list (list Z)) (j : Z) : res (list (list Z)) :=
  foldM (rmq_cell Lv j) M (seqZ 0 (dim - 2 ^ j + 1)).

(** [for (j = 1; 2^j <= dim; ++j)] runs over [1 .. ⌊log2 dim⌋]. *)
Definition InitRangeMinimumQuery (Lv : list Z) (maxNodes : Z) (M : list (list Z))
  : res (list (list Z)) :=
  let dim := maxNodes * 2 in
  let* M0 := foldM (fun M i => mset M i 0 i) M (seqZ 0 dim) in
  foldM (rmq_level Lv dim) M0 (seqZ 1 (Z.log2 dim)).

(** ** The engine *)

Record NcbiTaxonomy : Type := mkNcbiTaxonomy {
  store : Store;
  maxNodes : Z;
  E : list Z;
  L : list Z;
  H : list Z;
  M : list (list Z)
}.

(** The constructor after the three loaders (lines 41 to 61). *)
Definition index_store (fuel : nat) (st : Store) : res NcbiTaxonomy :=
  let maxNodes := Z.of_nat (length (taxonNodes st)) in
  let H0 := replicate (length (taxonNodes st)) 0 in
  let* children := make_children st in
  let* t := elh fuel st children 1 0 (mkTour [] [] H0) in
  let E' := resize_ (tE t) (maxNodes * 2) 0 in
  let L' := resize_ (tL t) (maxNodes * 2) 0 in
  let* M' := InitRangeMinimumQuery L' maxNodes (makeMatrix maxNodes) in
  Ok (mkNcbiTaxonomy st maxNodes E' L' (tH t) M').

(** [NcbiTaxonomy::NcbiTaxonomy(namesFile, nodesFile, mergedFile)], on the
    lines of the three files. *)
Definition NcbiTaxonomy_new (fuel : nat) (names nodes merged : list string) : res NcbiTaxonomy :=
  let* st1 := loadNodes nodes in
  let* st2 := loadMerged st1 merged in
  let* st3 := loadNames st2 names in
  index_store fuel st3.

Definition RangeMinimumQuery (t : NcbiTaxonomy) (i j : Z) : res Z :=
  let* _ := assert_ (i <=? j) in
  let k := flog2 (j - i + 1) in
  let* A := mget (M t) i k in
  let* B := mget (M t) (j - ipow 2 k + 1) k in
  let* la := at_ (L t) A in
  let* lb := at_ (L t) B in
  if la <=? lb then Ok A else Ok B.

Definition lcaHelper (t : NcbiTaxonomy) (i j : Z) : res Z :=
  if (i =? 0) || (j =? 0) then Ok 0
  else
    let* _ := assert_ (0 <? i) in
    let* _ := assert_ (0 <? j) in
    if i =? j then Ok i
    else
      let* v1 := at_ (H t) i in
      let* v2 := at_ (H t) j in
      let* rmq := (if v2 <? v1 then RangeMinimumQuery t v2 v1 else RangeMinimumQuery t v1 v2) in
      let* e := at_ (E t) rmq in
      let* _ := assert_ (0 <=? e) in
      Ok e.

(** [TaxID LCA(TaxID taxonA, TaxID taxonB)] *)
Definition LCA (t : NcbiTaxonomy) (taxonA taxonB : TaxID) : res TaxID :=
  let* exA := nodeExists (store t) taxonA in
  if negb exA then Ok taxonB
  else
    let* exB := nodeExists (store t) taxonB in
    if negb exB then Ok taxonA
    else
      let* a := nodeId (store t) taxonA in
      let* b := nodeId (store t) taxonB in
      let* r := lcaHelper t a b in
      let* n := at_ (taxonNodes (store t)) r in
      Ok (taxId n).

(** ** Rank tables and lineage strings *)

Section RankTables.

(** [NcbiRanks] and [NcbiShortRanks] are constant tables of [NcbiTaxonomy.h],
    which is not part of the sources at hand; the functions below take them as
    they are. *)
Context (NcbiRanks : gmap string Z) (NcbiShortRanks : gmap string ascii).

Definition findRankIndex (rank : string) : Z :=
  match NcbiRanks !! rank with
  | Some i => i
  | None => -1
  end.

Definition findShortRank (rank : string) : ascii :=
  match NcbiShortRanks !! rank with
  | Some c => c
  | None => "-"%char
  end.

(** The [do ... while] of [taxLineage]: push the node, step to its parent,
    go on while that parent is not its own parent. *)
Fixpoint lineage_walk (fuel : nat) (st : Store) (node : TaxonNode) (vec : list TaxonNode)
  : res (list TaxonNode) :=
  match fuel with
  | O => Err OutOfFuel
  | S f =>
      let vec' := vec ++ [node] in
      let* node' := taxonNode_deref st (parentTaxId node) in
      if negb (parentTaxId node' =? taxId node') then lineage_walk f st node' vec'
      else Ok vec'
  end.

Definition lineage_token (infoAsName : bool) (n : TaxonNode) : string :=
  if infoAsName then String (findShortRank (rank n)) ("_" +:+ name n)
  else SSTR (taxId n).

(** The output loop, [i] running from [size - 1] down to [0]: [back] holds the
    entries still to be written, in that order, so [i > 0] holds exactly when
    more entries follow. *)
Fixpoint lineage_emit (infoAsName : bool) (back : list TaxonNode) : string :=
  match back with
  | [] => EmptyString
  | n :: rest =>
      lineage_token infoAsName n +:+
      (match rest with [] => EmptyString | _ => ";" end) +:+
      lineage_emit infoAsName rest
  end.

Definition taxLineage (fuel : nat) (st : Store) (node : TaxonNode) (infoAsName : bool)
  : res string :=
  let* vec := lineage_walk fuel st node [] in
  Ok (lineage_emit infoAsName (reverse vec)).

(** ** Weighted-majority LCA *)

(** Weights and percentages are [double] values, and [majorityCutoff] is a
    [float]: IEEE 754 binary64 and binary32 numbers, with their zeros,
    infinities and NaN, and with rounding to nearest, ties to even, as
    [SpecFloat] of the Standard Library specifies them.  A [float] is kept by
    its value as a [double], which is what the conversions of the source
    make of it. *)
Definition double : Type := spec_float.

Definition dzero : double := S754_zero false.
Definition dadd (x y : double) : double := SFadd 53 1024 x y.
Definition ddiv (x y : double) : double := SFdiv 53 1024 x y.

(** [x >= y] and [x > y]; both are false when [x] or [y] is a NaN. *)
Definition dge (x y : double) : bool := SFleb y x.
Definition dgt (x y : double) : bool := SFltb y x.

(** [float(x)]: the [double] rounded to a [float], overflowing to an
    infinity; the result is again kept as a [double]. *)
Definition to_float (x : double) : double :=
  match x with
  | S754_finite s m e =>
      match binary_round 24 128 s m e with
      | S754_finite s' m' e' => binary_round 53 1024 s' m' e'
      | y => y
      end
  | _ => x
  end.

Definition ROOT_TAXID : TaxID := 1.
Definition INT_MAX : Z := 2147483647.
Definition ROOT_RANK : Z := INT_MAX.

Record TaxNode : Type := mkTaxNode {
  weight : double;
  isCandidate : bool;
  childTaxon : TaxID
}.

Definition TaxNode_update (tn : TaxNode) (weightToAdd : double) (childTaxonInput : TaxID)
  : TaxNode :=
  if bool_decide (childTaxon tn ≠ childTaxonInput)
  then mkTaxNode (dadd (weight tn) weightToAdd) true childTaxonInput
  else mkTaxNode (dadd (weight tn) weightToAdd) (isCandidate tn) (childTaxon tn).

(** [hit_weight] is the field [weight] as [double currWeight = setTaxa[i].weight]
    reads it. *)
Record WeightedTaxHit : Type := mkWeightedTaxHit {
  taxon : TaxID;
  hit_weight : double
}.

Record WeightedTaxResult : Type := mkWeightedTaxResult {
  res_taxon : TaxID;
  assignedSeqs : Z;
  unassignedSeqs : Z;
  seqsAgreeWithSelectedTaxon : Z;
  res_selectedPercent : double
}.

(** [find] then [update], or [emplace] of a fresh counter. *)
Definition count_at (m : gmap Z TaxNode) (key : TaxID) (w : double) (fresh_candidate : bool)
    (child : TaxID) : gmap Z TaxNode :=
  match m !! key with
  | Some tn => <[key := TaxNode_update tn w child]> m
  | None => <[key := mkTaxNode w fresh_candidate child]> m
  end.

(** [node = taxonNode(id, false)] followed by [node->...] *)
Definition taxonNode_lenient (st : Store) (taxonId : TaxID) : res TaxonNode :=
  let* o := taxonNode st taxonId false in
  match o with
  | Some n => Ok n
  | None => Err NullDeref
  end.

(** The ancestors loop of the aggregation. *)
Fixpoint agg_walk (fuel : nat) (st : Store) (m : gmap Z TaxNode)
    (currTaxId currParentTaxId : TaxID) (currWeight : double) : res (gmap Z TaxNode) :=
  if currParentTaxId =? currTaxId then Ok m
  else
    match fuel with
    | O => Err OutOfFuel
    | S f =>
        let m' := count_at m currParentTaxId currWeight false currTaxId in
        let* node := taxonNode_lenient st currParentTaxId in
        agg_walk f st m' currParentTaxId (parentTaxId node) currWeight
    end.

Record Agg : Type := mkAgg {
  ancTaxIdsCounts : gmap Z TaxNode;
  agg_assigned : Z;
  agg_unassigned : Z;
  totalAssignedSeqsWeights : double
}.

Definition agg_hit (fuel : nat) (st : Store) (a : Agg) (h : WeightedTaxHit) : res Agg :=
  let currTaxId := taxon h in
  let currWeight := hit_weight h in
  if currTaxId =? 0
  then Ok (mkAgg (ancTaxIdsCounts a) (agg_assigned a) (agg_unassigned a + 1)
             (totalAssignedSeqsWeights a))
  else
    let* o := taxonNode st currTaxId false in
    match o with
    | None => Err ExitFailure
    | Some node =>
        let m1 := count_at (ancTaxIdsCounts a) currTaxId currWeight true 0 in
        let* m2 := agg_walk fuel st m1 currTaxId (parentTaxId node) currWeight in
        Ok (mkAgg m2 (agg_assigned a + 1) (agg_unassigned a)
              (dadd (totalAssignedSeqsWeights a) currWeight))
    end.

(** The walk that looks for the lineage min rank of a candidate. *)
Fixpoint rank_walk (fuel : nat) (st : Store) (currTaxId : TaxID) (node : TaxonNode)
    (currMinRank : Z) : res Z :=
  let currParentTaxId := parentTaxId node in
  if currParentTaxId =? currTaxId then Ok currMinRank
  else
    match fuel with
    | O => Err OutOfFuel
    | S f =>
        let currRankInd := findRankIndex (rank node) in
        if (0 <? currRankInd) && (currRankInd <? currMinRank) then Ok currRankInd
        else
          let* node' := taxonNode_lenient st currParentTaxId in
          rank_walk f st currParentTaxId node' currMinRank
    end.

Record Sel : Type := mkSel {
  minRank : Z;
  selctedTaxon : TaxID;
  selectedPercent : double
}.

(** [float(it->second.weight) / totalAssignedSeqsWeights] *)
Definition currPercent_of (tn : TaxNode) (total : double) : double :=
  ddiv (to_float (weight tn)) total.

Definition select_step (fuel : nat) (st : Store) (total majorityCutoff : double)
    (s : Sel) (it : TaxID * TaxNode) : res Sel :=
  if negb (isCandidate it.2) then Ok s
  else
    let currPercent := currPercent_of it.2 total in
    if dge currPercent majorityCutoff then
      let* node := taxonNode_lenient st it.1 in
      let* currMinRank := rank_walk fuel st it.1 node ROOT_RANK in
      if (currMinRank <? minRank s)
         || ((currMinRank =? minRank s) && dgt currPercent (selectedPercent s))
      then Ok (mkSel currMinRank it.1 currPercent)
      else Ok s
    else Ok s.

(** Iteration over a [std::map]: the entries in increasing key order. *)
Definition key_le {V} (a b : Z * V) : Prop := a.1 <= b.1.
#[global] Instance key_le_dec {V} (a b : Z * V) : Decision (key_le a b) := Z_le_dec a.1 b.1.
Definition in_key_order {V} (m : gmap Z V) : list (Z * V) := merge_sort key_le (map_to_list m).

(** The walk that counts a hit as agreeing with the selection. *)
Fixpoint agree_walk (fuel : nat) (st : Store) (selected currTaxId : TaxID) (node : TaxonNode)
  : res bool :=
  let currParentTaxId := parentTaxId node in
  if currParentTaxId =? currTaxId then Ok false
  else
    match fuel with
    | O => Err OutOfFuel
    | S f =>
        if currTaxId =? selected then Ok true
        else
          let* node' := taxonNode_lenient st currParentTaxId in
          agree_walk f st selected currParentTaxId node'
    end.

Definition agree_hit (fuel : nat) (st : Store) (selected : TaxID) (n : Z) (h : WeightedTaxHit)
  : res Z :=
  if taxon h =? 0 then Ok n
  else
    let* node := taxonNode_lenient st (taxon h) in
    let* b := agree_walk fuel st selected (taxon h) node in
    Ok (if (b : bool) then n + 1 else n).

Definition weightedMajorityLCA (fuel : nat) (st : Store) (setTaxa : list WeightedTaxHit)
    (majorityCutoff : double) : res WeightedTaxResult :=
  let* a := foldM (agg_hit fuel st) (mkAgg ∅ 0 0 dzero) setTaxa in
  let* s := foldM (select_step fuel st (totalAssignedSeqsWeights a) majorityCutoff)
              (mkSel INT_MAX 0 dzero) (in_key_order (ancTaxIdsCounts a)) in
  if selctedTaxon s =? ROOT_TAXID then
    Ok (mkWeightedTaxResult (selctedTaxon s) (agg_assigned a) (agg_unassigned a)
          (agg_assigned a) (selectedPercent s))
  else if selctedTaxon s =? 0 then
    Ok (mkWeightedTaxResult (selctedTaxon s) (agg_assigned a) (agg_unassigned a)
          0 (selectedPercent s))
  else
    let* agree := foldM (agree_hit fuel st (selctedTaxon s)) 0 setTaxa in
    Ok (mkWeightedTaxResult (selctedTaxon s) (agg_assigned a) (agg_unassigned a)
          agree (selectedPercent s)).

End RankTables.

(** ** Clade counts *)

(** [TaxonCounts] is declared in [NcbiTaxonomy.h], which is not part of the
    sources at hand.  Its two counters are [unsigned int] values, as the
    input counts are: an addition wraps at [2^32]. *)
Record TaxonCounts : Type := mkTaxonCounts {
  taxCount : Z;
  cladeCount : Z;
  children : list TaxID
}.

Definition UINT_RANGE : Z := 2 ^ 32.

(** [cladeCounts[key]]: [operator[]] inserts a zero entry when the key is new. *)
Definition counts_at (cc : gmap Z TaxonCounts) (key : TaxID) : TaxonCounts :=
  default (mkTaxonCounts 0 0 []) (cc !! key).

Definition set_taxCount (cc : gmap Z TaxonCounts) (key : TaxID) (c : Z) : gmap Z TaxonCounts :=
  let e := counts_at cc key in <[key := mkTaxonCounts c (cladeCount e) (children e)]> cc.

Definition add_cladeCount (cc : gmap Z TaxonCounts) (key : TaxID) (c : Z) : gmap Z TaxonCounts :=
  let e := counts_at cc key in
  <[key := mkTaxonCounts (taxCount e) ((cladeCount e + c) mod UINT_RANGE) (children e)]> cc.

(** The [while] loop over the ancestors of a known id. *)
Fixpoint clade_walk (fuel : nat) (st : Store) (taxon : TaxonNode) (c : Z)
    (cc : gmap Z TaxonCounts) : res (gmap Z TaxonCounts) :=
  if parentTaxId taxon =? taxId taxon then Ok cc
  else
    let* ex := nodeExists st (parentTaxId taxon) in
    if negb ex then Ok cc
    else
      match fuel with
      | O => Err OutOfFuel
      | S f =>
          let* taxon' := taxonNode_deref st (parentTaxId taxon) in
          clade_walk f st taxon' c (add_cladeCount cc (taxId taxon') c)
      end.

Definition clade_entry (fuel : nat) (st : Store) (cc : gmap Z TaxonCounts) (it : TaxID * Z)
  : res (gmap Z TaxonCounts) :=
  let cc1 := set_taxCount cc it.1 it.2 in
  let cc2 := add_cladeCount cc1 it.1 it.2 in
  let* ex := nodeExists st it.1 in
  if (ex : bool) then
    let* taxon := taxonNode_deref st it.1 in
    clade_walk fuel st taxon it.2 cc2
  else Ok cc2.

Definition clade_child (cc : gmap Z TaxonCounts) (tn : TaxonNode) : res (gmap Z TaxonCounts) :=
  if negb (parentTaxId tn =? taxId tn) && bool_decide (is_Some (cc !! taxId tn)) then
    match cc !! parentTaxId tn with
    | Some e => Ok (<[parentTaxId tn :=
                       mkTaxonCounts (taxCount e) (cladeCount e) (children e ++ [taxId tn])]> cc)
    | None => Err NullDeref   (* [itp] is [end()] *)
    end
  else Ok cc.

(** The input [unordered_map] is enumerated in some order without repeated
    keys; [map_to_list] is one such enumeration.  The input counts are
    [unsigned int] values. *)
Definition getCladeCounts (fuel : nat) (st : Store) (taxonCounts : gmap Z Z)
  : res (gmap Z TaxonCounts) :=
  let* cc := foldM (clade_entry fuel st) ∅ (map_to_list taxonCounts) in
  foldM clade_child cc (taxonNodes st).

(** ** The rooted tree behind a store *)

(** The internal index of the parent of record [i]. *)
Definition parent_index (st : Store) (i : nat) : nat :=
  match taxonNodes st !! i with
  | Some n =>
      match at_ (D st) (parentTaxId n) with
      | Ok j => Z.to_nat j
      | Err _ => i
      end
  | None => i
  end.

(** Number of parent links from [i] up to a record that is its own parent. *)
Fixpoint depth_from (fuel : nat) (par : nat -> nat) (i : nat) : option nat :=
  if (par i =? i)%nat then Some O
  else
    match fuel with
    | O => None
    | S f => S <$> depth_from f par (par i)
    end.

(** The depth of record [i] in the rooted tree, the root having depth 0. *)
Definition tree_depth (st : Store) (i : nat) : nat :=
  default O (depth_from (length (taxonNodes st)) (parent_index st) i).

#[global] Instance fault_eq_dec : EqDecision fault.
Proof. solve_decision. Defined.
#[global] Instance res_eq_dec {A} `{EqDecision A} : EqDecision (res A).
Proof. solve_decision. Defined.

(** Record [i] is well placed: a positive external id that [D] sends back to
    [i]; a parent id that is the external id of a record; only taxon 1 is its
    own parent; and the parent links lead to a root. *)
Definition record_ok (st : Store) (i : nat) : bool :=
  match taxonNodes st !! i with
  | Some n =>
      (0 <? taxId n)
      && bool_decide (at_ (D st) (taxId n) = Ok (Z.of_nat i))
      && bool_decide (at_ (D st) (parentTaxId n) = Ok (Z.of_nat (parent_index st i)))
      && match taxonNodes st !! parent_index st i with
         | Some m => taxId m =? parentTaxId n
         | None => false
         end
      && ((taxId n =? 1) || negb (parentTaxId n =? taxId n))
      && bool_decide (is_Some (depth_from (length (taxonNodes st)) (parent_index st) i))
  | None => false
  end.

(** The store holds a tree rooted at taxon 1. *)
Definition tree_store (st : Store) : bool :=
  forallb (record_ok st) (seq 0 (length (taxonNodes st)))
  && bool_decide (1 ∈ taxId <$> taxonNodes st).

(** The children of [v] in insertion order, as [make_children] collects them. *)
Definition kids (N : nat) (par : nat -> nat) (v : nat) : list nat :=
  filter (fun i => par i = v /\ par i <> i) (seq 0 N).

(** The records entered by the traversal started at [v], in order of entry. *)
Fixpoint pre (fuel : nat) (N : nat) (par : nat -> nat) (v : nat) : list nat :=
  match fuel with
  | O => []
  | S f => v :: (kids N par v ≫= pre f N par)
  end.

(** The tour written by the traversal started at [v] on level [lvl]: pairs of
    an internal index and a level. *)
Fixpoint euler (fuel : nat) (N : nat) (par : nat -> nat) (v : nat) (lvl : Z)
  : list (nat * Z) :=
  match fuel with
  | O => []
  | S f =>
      (v, lvl) :: (kids N par v ≫= fun c => euler f N par c (lvl + 1))
        ++ [(par v, lvl - 1)]
  end.

(** The external id of record [i]. *)
Definition tid (st : Store) (i : nat) : TaxID :=
  match taxonNodes st !! i with
  | Some n => taxId n
  | None => 0
  end.

(** The internal index of the record that external id 1 resolves to. *)
Definition root_index (st : Store) : nat :=
  match at_ (D st) 1 with
  | Ok j => Z.to_nat j
  | Err _ => O
  end.

(** ** What the traversal keeps true *)

(** [H[u]] points at an entry of the tour that names [u] on its depth. *)
Definition registered (st : Store) (t : Tour) (u : nat) : Prop :=
  exists p, at_ (tH t) (Z.of_nat u) = Ok p
    /\ at_ (tE t) p = Ok (Z.of_nat u)
    /\ at_ (tL t) p = Ok (Z.of_nat (tree_depth st u)).

(** The two arrays of the tour grow together, and every [H[u]] that has been
    written is as [registered] says. *)
Definition tour_inv (st : Store) (t : Tour) : Prop :=
  length (tE t) = length (tL t)
  /\ forall u p, at_ (tH t) (Z.of_nat u) = Ok p -> p <> 0 -> registered st t u.

(** From [t] to [t'] the traversal has appended the entries [seg] and entered
    the records [entered]. *)
Definition tour_extends (st : Store) (t t' : Tour) (seg : list (nat * Z)) (entered : list nat)
  : Prop :=
  tE t' = tE t ++ ((fun e => Z.of_nat e.1) <$> seg)
  /\ tL t' = tL t ++ (snd <$> seg)
  /\ length (tH t') = length (tH t)
  /\ (tour_inv st t ->
      tour_inv st t'
      /\ (forall u, registered st t u -> registered st t' u)
      /\ (forall u, u ∈ entered -> registered st t' u)).

(** The contract of [elh] with fuel [f], for a call on record [v] at its
    depth. *)
Definition elh_spec (st : Store) (ch : list (list TaxID)) (f : nat) : Prop :=
  forall v n t,
    taxonNodes st !! v = Some n ->
    (length (taxonNodes st) < f + tree_depth st v)%nat ->
    length (tH t) = length (taxonNodes st) ->
    exists t', elh f st ch (taxId n) (Z.of_nat (tree_depth st v)) t = Ok t'
      /\ tour_extends st t t'
           (euler f (length (taxonNodes st)) (parent_index st) v (Z.of_nat (tree_depth st v)))
           (pre f (length (taxonNodes st)) (parent_index st) v).

(** [par] links the indices below [N] into a tree rooted at [r]. *)
Definition rooted (N : nat) (par : nat -> nat) (r : nat) : Prop :=
  (r < N)%nat
  /\ par r = r
  /\ (forall i, (i < N)%nat -> (par i < N)%nat)
  /\ (forall i, (i < N)%nat -> par i = i -> i = r)
  /\ (forall i, (i < N)%nat -> is_Some (depth_from N par i)).

(** ** Lineage strings: splitting at a separator *)

Fixpoint has_char (c : ascii) (s : string) : bool :=
  match s with
  | EmptyString => false
  | String a r => Ascii.eqb a c || has_char c r
  end.

(** The fields of [s] between the occurrences of [c]. *)
Fixpoint split_on (c : ascii) (s : string) : list string :=
  match s with
  | EmptyString => [EmptyString]
  | String a r =>
      if Ascii.eqb a c then EmptyString :: split_on c r
      else
        match split_on c r with
        | x :: xs => String a x :: xs
        | [] => [String a EmptyString]
        end
  end.

(** The ancestor of record [i] just below the root; [i] itself when [i] is
    the root or a child of the root. *)
Definition top_index (st : Store) (i : nat) : nat :=
  Nat.iter (tree_depth st i - 1) (parent_index st) i.

(** ** Clade counts: the sums of the conservation property *)

Definition sumZ (m : gmap Z Z) : Z := map_fold (fun _ c acc => c + acc) 0 m.

(** Sum of [self_count] over all entries of the output. *)
Definition total_taxCount (cc : gmap Z TaxonCounts) : Z := sumZ (taxCount <$> cc).

(** The total of the input counts. *)
Definition total_input (taxonCounts : gmap Z Z) : Z := sumZ taxonCounts.

(** The used slots of [D] hold internal indices of records, and id 0 is not
    in the table. *)
Definition table_ok (st : Store) : bool :=
  forallb (fun d => (d =? -1) || ((0 <=? d) && (d <? Z.of_nat (length (taxonNodes st))))) (D st)
  && bool_decide (at_ (D st) 0 = Ok (-1)).

(** The id is known, and its count reaches the entry of the root: it is the
    root's own id, or it resolves to a record other than the root. *)
Definition reaches_root (st : Store) (taxonId : TaxID) : bool :=
  match at_ (D st) taxonId with
  | Ok d => negb (d =? -1) && ((taxonId =? 1) || negb (d =? Z.of_nat (root_index st)))
  | Err _ => false
  end.

(** Sum of the input counts of the ids whose count reaches the root. *)
Definition total_reaching (st : Store) (taxonCounts : gmap Z Z) : Z :=
  map_fold (fun k c acc => (if reaches_root st k then c else 0) + acc) 0 taxonCounts.

(** The spec's words: the sum of the input counts over all ids known in the
    store. *)
Definition known_id (st : Store) (taxonId : TaxID) : bool :=
  match nodeExists st taxonId with
  | Ok b => b
  | Err _ => false
  end.

Definition total_known (st : Store) (taxonCounts : gmap Z Z) : Z :=
  map_fold (fun k c acc => (if known_id st k then c else 0) + acc) 0 taxonCounts.

(** A record below the root whose id has an entry while its parent's id has
    none. *)
Definition orphan (st : Store) (cc : gmap Z TaxonCounts) (j : nat) : Prop :=
  exists m, taxonNodes st !! j = Some m
    /\ parentTaxId m <> taxId m
    /\ is_Some (cc !! taxId m)
    /\ cc !! parentTaxId m = None.

(** ** Weighted-majority LCA: the quantities of the selection *)

(** The lineage min rank that the selection loop computes for the map key
    [k]: the rank index of the first record with a positive index, walking
    from [k] towards the root and not looking at the root; [ROOT_RANK] when
    there is none. *)
Definition lineage_rank (NcbiRanks : gmap string Z) (fuel : nat) (st : Store) (k : TaxID)
  : res Z :=
  let* node := taxonNode_lenient st k in
  rank_walk NcbiRanks fuel st k node ROOT_RANK.

(** The percentage of an accumulated weight [w]: [w] rounded to a [float],
    divided by the total weight as a [double]. *)
Definition percent_of (w total : double) : double := ddiv (to_float w) total.

(** The entry [(k, tn)] is a candidate that meets the cutoff. *)
Definition qualifies (total majorityCutoff : double) (tn : TaxNode) : bool :=
  isCandidate tn && dge (percent_of (weight tn) total) majorityCutoff.

(** The id is in the table: it resolves to a record. *)
Definition valid_key (st : Store) (k : TaxID) : Prop :=
  exists d, at_ (D st) k = Ok d /\ d <> -1.

(** The spec's words: the lowest canonical rank index found on the lineage of
    record [i], from the record up to the root. *)
Fixpoint spec_lineage_min (NcbiRanks : gmap string Z) (fuel : nat) (st : Store) (i : nat) : Z :=
  let here :=
    match taxonNodes st !! i with
    | Some n => let x := findRankIndex NcbiRanks (rank n) in if 0 <? x then x else INT_MAX
    | None => INT_MAX
    end in
  match fuel with
  | O => here
  | S f =>
      if (parent_index st i =? i)%nat then here
      else Z.min here (spec_lineage_min NcbiRanks f st (parent_index st i))
  end.

(** What the selection loop keeps true of its state [s] after the entries
    [seen]: no qualifying entry seen so far has a lower lineage min rank than
    [minRank s], nor the same rank with a larger percentage than
    [selectedPercent s]; and [s] is the initial state or describes a
    qualifying entry that was seen. *)
Definition sel_inv (NcbiRanks : gmap string Z) (fuel : nat) (st : Store)
    (total majorityCutoff : double) (seen : list (TaxID * TaxNode)) (s : Sel) : Prop :=
  minRank s <= INT_MAX
  /\ (forall it, it ∈ seen -> qualifies total majorityCutoff it.2 = true ->
        exists rk, lineage_rank NcbiRanks fuel st it.1 = Ok rk
          /\ (minRank s < rk
              \/ (minRank s = rk
                  /\ dgt (currPercent_of it.2 total) (selectedPercent s) = false)))
  /\ ((selctedTaxon s = 0 /\ minRank s = INT_MAX /\ selectedPercent s = dzero)
      \/ (selctedTaxon s <> 0
          /\ (minRank s < INT_MAX \/ dgt (selectedPercent s) dzero = true)
          /\ exists tn, (selctedTaxon s, tn) ∈ seen
               /\ qualifies total majorityCutoff tn = true
               /\ lineage_rank NcbiRanks fuel st (selctedTaxon s) = Ok (minRank s)
               /\ currPercent_of tn total = selectedPercent s)).

(** Every hit names the unassigned id 0 or an id of the table. *)
Definition hits_ok (st : Store) (setTaxa : list WeightedTaxHit) : Prop :=
  forall h, h ∈ setTaxa -> taxon h = 0 \/ valid_key st (taxon h).

(** ** Range minima: what a position returned by the table has to satisfy *)

(** [p] is a position of [lo .. hi - 1] whose depth is least there. *)
Definition argmin_in (Lv : list Z) (lo hi p : Z) : Prop :=
  lo <= p < hi /\
  exists lp, at_ Lv p = Ok lp /\
    forall q lq, lo <= q < hi -> at_ Lv q = Ok lq -> lp <= lq.

(** The matrix has [dim] rows of [k] columns. *)
Definition mshape (M : list (list Z)) (dim k : Z) : Prop :=
  Z.of_nat (length M) = dim /\ forall i row, at_ M i = Ok row -> Z.of_nat (length row) = k.

(** Column [j] holds, for every window of length [2^j], a position of least
    depth in it. *)
Definition level_ok (Lv : list Z) (dim : Z) (M : list (list Z)) (j : Z) : Prop :=
  forall i, 0 <= i -> i + 2 ^ j <= dim ->
    exists p, mget M i j = Ok p /\ argmin_in Lv i (i + 2 ^ j) p.

(** Every column of the table of an engine is filled as [level_ok] says. *)
Definition rmq_ready (t : NcbiTaxonomy) : Prop :=
  0 < maxNodes t
  /\ Z.of_nat (length (L t)) = maxNodes t * 2
  /\ forall j, 0 <= j <= Z.log2 (maxNodes t * 2) ->
       level_ok (L t) (maxNodes t * 2) (M t) j.

(** The spec's tie rule: among the positions of least depth, the smallest. *)
Definition leftmost_argmin_in (Lv : list Z) (lo hi p : Z) : Prop :=
  argmin_in Lv lo hi p /\ forall q, argmin_in Lv lo hi q -> p <= q.

(** ** Names: what the loader keeps, and what the spec says it keeps *)

(** The name that a names row gives to the record at internal index [i], if
    the loader takes the row for that record. *)
Definition retained_name_for (st : Store) (i : Z) (line : string) : option string :=
  if is_scientific line then
    match parseName line with
    | Ok entry =>
        match nodeId st entry.1 with
        | Ok j => if decide (j = i) then Some entry.2 else None
        | Err _ => None
        end
    | Err _ => None
    end
  else None.

Definition names_for (st : Store) (i : Z) (lines : list string) : list string :=
  omap (retained_name_for st i) lines.

(** The spec's words: a row is retained when its class field, the fourth
    column, contains [scientific name]; the first retained row of an id gives
    its name. *)
Definition spec_class_field (line : string) : option string :=
  splitByDelimiter line SEP 4 !! 3%nat.

Definition spec_retained (line : string) : bool :=
  match spec_class_field line with
  | Some c => bool_decide (find c "scientific name" 0 ≠ None)
  | None => false
  end.

Definition spec_row_name (external_id : Z) (line : string) : option string :=
  if spec_retained line then
    match splitByDelimiter line SEP 2 with
    | [f0; f1] => if decide (strtol f0 = external_id) then Some f1 else None
    | _ => None
    end
  else None.

Definition spec_name_of (external_id : Z) (lines : list string) : option string :=
  head (omap (spec_row_name external_id) lines).

(** ** Sample inputs *)

(** The tree of the spec's scenarios: root 1; 2 and 3 below 1; 4 and 5 below
    2; 6 below 3. *)
Definition nodes6 : list string :=
  [row3 "1" "1" "no rank"; row3 "2" "1" "genus"; row3 "3" "1" "genus";
   row3 "4" "2" "species"; row3 "5" "2" "species"; row3 "6" "3" "species"].

(** A root with two leaves. *)
Definition nodes3 : list string :=
  [row3 "1" "1" "no rank"; row3 "2" "1" "species"; row3 "3" "1" "species"].

Definition nodes1 : list string := [row3 "1" "1" "no rank"].

(** A single self-parented record with external id 2, and a merged row that
    makes 1 an alias of it. *)
Definition nodes_root2 : list string := [row3 "2" "2" "no rank"].
Definition merged_1_to_2 : list string := [row2 "1" "2"].

(** Two scientific names for taxon 2, and a synonym row whose name field
    contains the words [scientific name]. *)
Definition names_twice : list string :=
  [row4 "2" "first" "" "scientific name"; row4 "2" "second" "" "scientific name"].
Definition names_synonym : list string :=
  [row4 "2" "a scientific name" "" "synonym"].

Definition store_of (nodes : list string) : Store :=
  match loadNodes nodes with
  | Ok st => st
  | Err _ => mkStore [] []
  end.

Definition store6 : Store := Eval vm_compute in store_of nodes6.
Definition store3 : Store := Eval vm_compute in store_of nodes3.

(** A tree in which the root is not the first record: taxon 2, a child of the
    root, comes first and gets internal index 0. *)
Definition nodes_root_second : list string :=
  [row3 "2" "1" "species"; row3 "1" "1" "no rank"].
Definition store_root_second : Store := Eval vm_compute in store_of nodes_root_second.

(** The root 1 with a child 3, and a merged row that makes 2 an alias of the
    root. *)
Definition nodes_1_3 : list string := [row3 "1" "1" "no rank"; row3 "3" "1" "species"].
Definition merged_2_to_1 : list string := [row2 "2" "1"].
Definition store_alias_of_root : Store :=
  Eval vm_compute in
    match loadNodes nodes_1_3 with
    | Ok st => match loadMerged st merged_2_to_1 with Ok st' => st' | Err _ => st end
    | Err _ => mkStore [] []
    end.

(** A taxonomy whose rank indices do not grow towards the root: the genus 3
    sits below the species 2; 5 is a subgenus below the root. *)
Definition nodes_ranks_out_of_order : list string :=
  [row3 "1" "1" "no rank"; row3 "2" "1" "species"; row3 "3" "2" "genus";
   row3 "5" "1" "subgenus"].
Definition store_ranks_out_of_order : Store :=
  Eval vm_compute in store_of nodes_ranks_out_of_order.

Definition sample_ranks : gmap string Z :=
  list_to_map [("species"%string, 4); ("subgenus"%string, 7); ("genus"%string, 8)].

(** The [double] that holds an integer, and the [float] nearest to the
    quotient of two integers, which is what a decimal literal such as
    [0.34f] denotes. *)
Definition double_of_Z (w : Z) : double := binary_normalize 53 1024 w 0 false.
Definition float_of_ratio (n d : Z) : double :=
  match SFdiv 24 128 (binary_normalize 24 128 n 0 false) (binary_normalize 24 128 d 0 false) with
  | S754_finite s m e => binary_round 53 1024 s m e
  | y => y
  end.

Definition hit (t : TaxID) (w : Z) : WeightedTaxHit := mkWeightedTaxHit t (double_of_Z w).

Definition half : double := float_of_ratio 1 2.
Definition quarter : double := float_of_ratio 1 4.
Definition third : double := float_of_ratio 34 100.

(** Canonical rank indices for the tree of six records. *)
Definition ranks_genus_species : gmap string Z :=
  list_to_map [("species"%string, 4); ("genus"%string, 8)].

Definition hits_456 : list WeightedTaxHit := [hit 4 1; hit 5 1; hit 6 1].
Definition hits_3_5 : list WeightedTaxHit := [hit 3 1; hit 5 1].
Definition hits_33_5 : list WeightedTaxHit := [hit 3 2; hit 5 1].

(** ** Ancestors *)

(** [w] is [x] itself or lies on the parent links from [x] to the root. *)
Definition ancestor (par : nat -> nat) (w x : nat) : Prop :=
  exists k, Nat.iter k par x = w.

(** [w] is a common ancestor of [i] and [j] that every common ancestor of the
    two is an ancestor of. *)
Definition lowest_common_ancestor (par : nat -> nat) (w i j : nat) : Prop :=
  ancestor par w i /\ ancestor par w j
  /\ forall w', ancestor par w' i -> ancestor par w' j -> ancestor par w' w.

(** [w] is the record met when going up from [x] to the depth of [w]. *)
Definition below (N : nat) (par : nat -> nat) (w x : nat) : Prop :=
  (default O (depth_from N par w) <= default O (depth_from N par x))%nat
  /\ Nat.iter (default O (depth_from N par x) - default O (depth_from N par w)) par x = w.

(** Between any two entries of the list of records [T] there is an entry
    that all entries between the two lie below, and that lies below every
    record that the two lie below. *)
Definition lca_windows (N : nat) (par : nat -> nat) (T : list nat) : Prop :=
  forall p q a b, (p <= q)%nat -> T !! p = Some a -> T !! q = Some b ->
    exists m w, (p <= m <= q)%nat /\ T !! m = Some w
      /\ (forall m' x, (p <= m' <= q)%nat -> T !! m' = Some x -> below N par w x)
      /\ (forall w', below N par w' a -> below N par w' b -> below N par w' w).

(** ** IsAncestor and the LCA of a list *)

(** [bool IsAncestor(TaxID ancestor, TaxID child)]; the operands of the last
    comparison are evaluated from left to right. *)
Definition IsAncestor (t : NcbiTaxonomy) (ancestor child : TaxID) : res bool :=
  if ancestor =? child then Ok true
  else if (ancestor =? 0) || (child =? 0) then Ok false
  else
    let* exC := nodeExists (store t) child in
    if negb exC then Ok false
    else
      let* exA := nodeExists (store t) ancestor in
      if negb exA then Ok false
      else
        let* c := nodeId (store t) child in
        let* a := nodeId (store t) ancestor in
        let* l := lcaHelper t c a in
        let* a' := nodeId (store t) ancestor in
        Ok (l =? a').

(** The first loop of [LCA(const std::vector<TaxID>&)]: step over the ids
    without a record; what is returned is the rest of the list, from [it]. *)
Fixpoint skip_unknown (st : Store) (taxa : list TaxID) : res (list TaxID) :=
  match taxa with
  | [] => Ok []
  | x :: rest =>
      let* ex := nodeExists st x in
      if (ex : bool) then Ok taxa else skip_unknown st rest
  end.

(** Body of the second loop. *)
Definition LCA_step (t : NcbiTaxonomy) (red : Z) (x : TaxID) : res Z :=
  let* ex := nodeExists (store t) x in
  if (ex : bool) then let* i := nodeId (store t) x in lcaHelper t red i
  else Ok red.

(** [TaxonNode const * LCA(const std::vector<TaxID>& taxa)]; [None] is the
    NULL pointer. *)
Definition LCA_vector (t : NcbiTaxonomy) (taxa : list TaxID) : res (option TaxonNode) :=
  let* it := skip_unknown (store t) taxa in
  match it with
  | [] => Ok None
  | x :: rest =>
      let* red0 := nodeId (store t) x in
      let* red := foldM (LCA_step t) red0 rest in
      let* _ := assert_ ((0 <=? red) && (red <? Z.of_nat (length (taxonNodes (store t))))) in
      let* n := at_ (taxonNodes (store t)) red in
      Ok (Some n)
  end.

(** The internal index that an id of the table resolves to. *)
Definition resolve (st : Store) (taxonId : TaxID) : option nat :=
  match at_ (D st) taxonId with
  | Ok d => if d =? -1 then None else Some (Z.to_nat d)
  | Err _ => None
  end.

(** [w] is an ancestor of all the records [rs], and every record that is one
    is an ancestor of [w]. *)
Definition lowest_common_ancestor_of (par : nat -> nat) (w : nat) (rs : list nat) : Prop :=
  (forall i, i ∈ rs -> ancestor par w i)
  /\ forall w', (forall i, i ∈ rs -> ancestor par w' i) -> ancestor par w' w.

(** The id lies within the table [D]. *)
Definition in_table (st : Store) (taxonId : TaxID) : Prop :=
  0 <= taxonId < Z.of_nat (length (D st)).

(** ** AllRanks, AtRanks and parseRanks *)

(** [m.emplace(k, v)] on a [std::map]: an entry that is there stays. *)
Definition emplace {V} (m : gmap string V) (k : string) (v : V) : gmap string V :=
  match m !! k with
  | Some _ => m
  | None => <[k := v]> m
  end.

(** The [while (true)] of [AllRanks], [result] being the map filled so far. *)
Fixpoint AllRanks_loop (fuel : nat) (st : Store) (node : TaxonNode)
    (result : gmap string string) : res (gmap string string) :=
  match fuel with
  | O => Err OutOfFuel
  | S f =>
      if taxId node =? 1 then Ok (emplace result (rank node) (name node))
      else
        let result' :=
          if negb (String.eqb (rank node) "no_rank") && negb (String.eqb (rank node) "no rank")
          then emplace result (rank node) (name node)
          else result in
        let* node' := taxonNode_deref st (parentTaxId node) in
        AllRanks_loop f st node' result'
  end.

Definition AllRanks (fuel : nat) (st : Store) (node : TaxonNode) : res (gmap string string) :=
  AllRanks_loop fuel st node ∅.

(** [std::map::at] throws [std::out_of_range] for a key that is not in the
    map; nothing in the file catches it. *)
Inductive may_throw (A : Type) : Type :=
| Returns (a : A)
| Throws_out_of_range.
Arguments Returns {A} a.
Arguments Throws_out_of_range {A}.

Section AtRanks.

Context (NcbiRanks : gmap string Z).

(** Body of the loop of [AtRanks] for one level; [None] is the exception of
    [NcbiRanks.at]. *)
Definition AtRanks_level (allRanks : gmap string string) (baseRankIndex : Z)
    (baseRank : string) (level : string) : option string :=
  match allRanks !! level with
  | Some nm => Some nm
  | None =>
      match NcbiRanks !! level with
      | Some idx => if idx <? baseRankIndex then Some baseRank else Some "unknown"%string
      | None => None
      end
  end.

Fixpoint AtRanks_levels (allRanks : gmap string string) (baseRankIndex : Z)
    (baseRank : string) (levels : list string) (result : list string)
  : may_throw (list string) :=
  match levels with
  | [] => Returns result
  | level :: rest =>
      match AtRanks_level allRanks baseRankIndex baseRank level with
      | Some s => AtRanks_levels allRanks baseRankIndex baseRank rest (result ++ [s])
      | None => Throws_out_of_range
      end
  end.

Definition AtRanks (fuel : nat) (st : Store) (node : TaxonNode) (levels : list string)
  : res (may_throw (list string)) :=
  let* allRanks := AllRanks fuel st node in
  let baseRankIndex := findRankIndex NcbiRanks (rank node) in
  let baseRank := ("uc_" +:+ name node)%string in
  Ok (AtRanks_levels allRanks baseRankIndex baseRank levels []).

(** [Util::split] is defined in [Util.cpp], which is not part of the sources
    at hand; [parseRanks] takes the list it returns as it is. *)
Context (Util_split : string -> string -> list string).

Definition parseRanks (ranks : string) : res (list string) :=
  let temp := Util_split ranks "," in
  let* _ := foldM (fun (_ : unit) r =>
               if findRankIndex NcbiRanks r =? -1 then Err ExitFailure else Ok tt) tt temp in
  Ok temp.

End AtRanks.

(** The rank is one of the two spellings that [AllRanks] leaves out below
    the root. *)
Definition no_rank (s : string) : bool :=
  String.eqb s "no_rank" || String.eqb s "no rank".

(** The record [k] parent links above record [i]. *)
Definition nth_ancestor (st : Store) (i k : nat) : nat := Nat.iter k (parent_index st) i.

(** A self-parented record with external id 2, known under the ids 1 and 2. *)
Definition store_root2_alias1 : Store :=
  Eval vm_compute in
    match loadNodes nodes_root2 with
    | Ok st => match loadMerged st merged_1_to_2 with Ok st' => st' | Err _ => st end
    | Err _ => mkStore [] []
    end.

(** ** Loading the nodes input *)

(** What the first loop of [loadNodes] keeps true of its state. *)
Definition nodes_acc_inv (a : NodesAcc) : Prop :=
  acc_currentId a = Z.of_nat (length (acc_nodes a))
  /\ 0 <= acc_maxTaxID a
  /\ (forall i n, acc_nodes a !! i = Some n ->
        id n = Z.of_nat i /\ taxId n <= acc_maxTaxID a /\ is_Some (acc_Dm a !! taxId n))
  /\ (forall k d, acc_Dm a !! k = Some d ->
        exists i n, d = Z.of_nat i /\ acc_nodes a !! i = Some n /\ taxId n = k
          /\ forall j m, (j < i)%nat -> acc_nodes a !! j = Some m -> taxId m <> k).

(** ** Weighted-majority LCA: the counters of the result *)

(** The number of hits that name a taxon, and of those that name none. *)
Definition count_assigned (setTaxa : list WeightedTaxHit) : Z :=
  Z.of_nat (length (filter (fun h => taxon h <> 0) setTaxa)).
Definition count_unassigned (setTaxa : list WeightedTaxHit) : Z :=
  Z.of_nat (length (filter (fun h => taxon h = 0) setTaxa)).

(** ** Weighted-majority LCA: the hits that agree with the selection *)

(** No slot of the table is a merged alias: a slot in use holds the index
    of a record that carries the slot's id. *)
Definition alias_free (st : Store) : bool :=
  forallb (fun kd : nat * Z =>
             (kd.2 =? -1)
             || match taxonNodes st !! Z.to_nat kd.2 with
                | Some n => taxId n =? Z.of_nat kd.1
                | None => false
                end)
          (imap pair (D st)).

#[global] Instance below_dec N par w x : Decision (below N par w x).
Proof. unfold below. apply _. Defined.

(** The hit names a taxon whose record is [s] or lies below [s]. *)
Definition hit_below (st : Store) (s : nat) (h : WeightedTaxHit) : bool :=
  match resolve st (taxon h) with
  | Some i => bool_decide (below (length (taxonNodes st)) (parent_index st) s i)
  | None => false
  end.

(** ** Weighted-majority LCA: the weight behind the selection *)

(** The weight of the hits whose taxon is record [s] or lies below it: the
    weight of the first of them, to which the weights of the others are
    added in the order of the hits, each sum rounded to a [double]; [None]
    when there is no such hit. *)
Definition weight_step (st : Store) (s : nat) (acc : option double) (h : WeightedTaxHit)
  : option double :=
  if hit_below st s h
  then Some (match acc with Some a => dadd a (hit_weight h) | None => hit_weight h end)
  else acc.
Definition weight_below (st : Store) (s : nat) (setTaxa : list WeightedTaxHit) : option double :=
  foldl (weight_step st s) None setTaxa.

(** The weight of all hits that name a taxon, added to 0 in the order of the
    hits. *)
Definition weight_assigned (setTaxa : list WeightedTaxHit) : double :=
  foldl (fun acc h => if decide (taxon h <> 0) then dadd acc (hit_weight h) else acc)
        dzero setTaxa.

(** The percentage of record [s]: its weight rounded to a [float], divided
    by the weight of all hits that name a taxon. *)
Definition percent_below (st : Store) (s : nat) (setTaxa : list WeightedTaxHit) : option double :=
  (fun w => percent_of w (weight_assigned setTaxa)) <$> weight_below st s setTaxa.

(** ** Weighted-majority LCA: which taxa are candidates *)

(** What the entry [tn] under the id [k] records of the hits [hs] seen so
    far: [k] is the id of a record [x]; [childTaxon] is 0 after a hit on [x]
    itself, and otherwise the id of the child of [x] that a hit below it came
    through; and a candidate is the lowest common ancestor of the records of
    two hits. *)
Definition entry_inv (st : Store) (hs : list WeightedTaxHit) (k : TaxID) (tn : TaxNode) : Prop :=
  exists x nx, taxonNodes st !! x = Some nx /\ taxId nx = k
    /\ (exists h i, h ∈ hs /\ resolve st (taxon h) = Some i
          /\ ((childTaxon tn = 0 /\ i = x)
              \/ (exists c nc, taxonNodes st !! c = Some nc /\ childTaxon tn = taxId nc
                    /\ c ∈ kids (length (taxonNodes st)) (parent_index st) x
                    /\ below (length (taxonNodes st)) (parent_index st) c i)))
    /\ (isCandidate tn = true ->
        exists h1 h2 i1 i2, h1 ∈ hs /\ h2 ∈ hs
          /\ resolve st (taxon h1) = Some i1 /\ resolve st (taxon h2) = Some i2
          /\ lowest_common_ancestor (parent_index st) x i1 i2).

(** ** Clade counts: what reaches the entry of a record *)

(** Every clade counter holds an [unsigned int] value. *)
Definition counts_in_range (cc : gmap Z TaxonCounts) : Prop :=
  forall k, 0 <= cladeCount (counts_at cc k) < UINT_RANGE.

(** The count given for the id [k] is added to the entry of record [x]: [k]
    is the id of [x], or [k] resolves to a record that lies below [x] and is
    not [x]. *)
Definition clade_reach (st : Store) (x : nat) (k : TaxID) : bool :=
  (k =? tid st x)
  || match resolve st k with
     | Some i => bool_decide (below (length (taxonNodes st)) (parent_index st) x i /\ x <> i)
     | None => false
     end.

(** Sum of the input counts that are added to the entry of record [x]. *)
Definition clade_total (st : Store) (x : nat) (taxonCounts : gmap Z Z) : Z :=
  map_fold (fun k c acc => (if clade_reach st x k then c else 0) + acc) 0 taxonCounts.

(** ** Lineage strings: the records on the path *)

(** The records that [taxLineage] collects for record [i]: [i] and its
    ancestors below the root, [i] first; the root alone when [i] is the
    root. *)
Definition lineage_path (st : Store) (i : nat) : list nat :=
  nth_ancestor st i <$> seq 0 (Nat.max 1 (tree_depth st i)).

(** * MultiParam: reading an [int] parameter

    [MultiParam<T>::assign(const std::string &value, int &obj)] of
    [MultiParam.h]. *)

(** The digits at the start of [s], read into [acc], and what follows them. *)
Fixpoint read_digits_rest (s : string) (acc : Z) : Z * string :=
  match s with
  | String c r =>
      match digit_of c with
      | Some d => read_digits_rest r (10 * acc + d)
      | None => (acc, s)
      end
  | EmptyString => (acc, s)
  end.

(** [strtol(s, &rest, 10)] before the value is fitted into a [long]: [None]
    when no conversion is performed ([rest] is then [s] itself and the
    value 0), otherwise the number read and the text from [rest] on. *)
Definition strip_sign (t : string) : bool * string :=
  match t with
  | String "-"%char r => (true, r)
  | String "+"%char r => (false, r)
  | _ => (false, t)
  end.

Definition strtol_end (s : string) : option (Z * string) :=
  let signed := strip_sign (skip_space s) in
  match signed.2 with
  | String c _ =>
      match digit_of c with
      | Some _ =>
          let vr := read_digits_rest signed.2 0 in
          Some (if signed.1 then - vr.1 else vr.1, vr.2)
      | None => None
      end
  | EmptyString => None
  end.

(** [*rest == '\0']: [rest] is at the end of the text or at a NUL in it. *)
Definition at_nul (rest : string) : bool :=
  match rest with
  | EmptyString => true
  | String c _ => Ascii.eqb c Ascii.zero
  end.

(** What a call leaves: the value returned, [obj], and whether [errno] is
    [ERANGE]. *)
Record assigned : Type := mkAssigned {
  accepted : bool;
  obj_after : Z;
  erange_after : bool
}.

(** [assign(value, obj)] when [errno == ERANGE] is [erange] on entry:
    [strtol] sets [errno] to [ERANGE] for a number outside a [long], which it
    replaces by [LONG_MAX] or [LONG_MIN], and leaves [errno] as it is
    otherwise. *)
Definition assign_int (erange : bool) (value : string) (obj : Z) : assigned :=
  let conv := strtol_end value in
  let out_of_range :=
    match conv with
    | Some (v, _) => (v <? LONG_MIN) || (LONG_MAX <? v)
    | None => false
    end in
  let tmp :=
    match conv with
    | Some (v, _) => long_to_int (if v <? LONG_MIN then LONG_MIN
                                  else if LONG_MAX <? v then LONG_MAX else v)
    | None => long_to_int 0
    end in
  let rest_moved_not_at_nul :=
    match conv with
    | Some (_, rest) => negb (at_nul rest)
    | None => false
    end in
  let erange' := erange || out_of_range in
  if rest_moved_not_at_nul || erange' then mkAssigned false obj erange'
  else mkAssigned true tmp erange'.

(** ** Weighted-majority LCA: the rank that the selection compares *)

(** The records that the selection looks at for the map key [k], in this
    order: the record of [k] and its ancestors below the root.  The root is
    not looked at, unless [k] is a merged id of the root. *)
Definition walk_records (st : Store) (k : TaxID) : list nat :=
  match resolve st k with
  | Some i =>
      nth_ancestor st i
        <$> seq 0 (if bool_decide (k = tid st i) then tree_depth st i
                   else Nat.max 1 (tree_depth st i))
  | None => []
  end.

(** The rank index of record [j]. *)
Definition rank_index_at (NcbiRanks : gmap string Z) (st : Store) (j : nat) : Z :=
  match taxonNodes st !! j with
  | Some n => findRankIndex NcbiRanks (rank n)
  | None => -1
  end.

(** The rank index of the first record of [path] whose rank index is
    positive (and below [INT_MAX]); [INT_MAX] when there is none. *)
Fixpoint first_rank (NcbiRanks : gmap string Z) (st : Store) (path : list nat) : Z :=
  match path with
  | [] => INT_MAX
  | j :: rest =>
      if (0 <? rank_index_at NcbiRanks st j) && (rank_index_at NcbiRanks st j <? INT_MAX)
      then rank_index_at NcbiRanks st j
      else first_rank NcbiRanks st rest
  end.

(** The walk rank of the map key [k]. *)
Definition walk_rank (NcbiRanks : gmap string Z) (st : Store) (k : TaxID) : Z :=
  first_rank NcbiRanks st (walk_records st k).

(** ** Weighted-majority LCA: what the aggregation holds for a record *)

(** The child of record [x] on the path down to a record [i] below it. *)
Definition child_toward (st : Store) (x i : nat) : nat :=
  nth_ancestor st i (tree_depth st i - tree_depth st x - 1).

(** How a hit at or below record [x] arrives at [x]: 0 when it names [x]
    itself, else the id of the child of [x] that it comes through. *)
Definition hit_child (st : Store) (x : nat) (h : WeightedTaxHit) : TaxID :=
  match resolve st (taxon h) with
  | Some i => if decide (x = i) then 0 else tid st (child_toward st x i)
  | None => 0
  end.

(** The arrivals at record [x], in the order of the hits. *)
Definition arrivals (st : Store) (x : nat) (setTaxa : list WeightedTaxHit) : list TaxID :=
  hit_child st x <$> filter (fun h => hit_below st x h = true) setTaxa.

(** A hit names the record itself, or two hits come through different
    children. *)
Definition two_differ (cs : list TaxID) : bool :=
  bool_decide (0 ∈ cs) || bool_decide (Exists (fun c => Exists (fun c' => c <> c') cs) cs).

(** Record [x] is a candidate: it is itself the taxon of a hit, or hits
    arrive at it through two different children. *)
Definition candidate_below (st : Store) (x : nat) (setTaxa : list WeightedTaxHit) : bool :=
  two_differ (arrivals st x setTaxa).

(** What [count_at] leaves under its key. *)
Definition touch (o : option TaxNode) (w : double) (fresh_candidate : bool) (child : TaxID)
  : TaxNode :=
  match o with
  | Some tn => TaxNode_update tn w child
  | None => mkTaxNode w fresh_candidate child
  end.

(** The entry of record [x] after one more hit. *)
Definition entry_step (st : Store) (x : nat) (o : option TaxNode) (h : WeightedTaxHit)
  : option TaxNode :=
  if hit_below st x h
  then Some (touch o (hit_weight h) (bool_decide (hit_child st x h = 0)) (hit_child st x h))
  else o.

(** * Properties *)

(** ** The error monad and vector accesses *)

Lemma bind_Ok {A B} (m : res A) (f : A -> res B) (b : B) :
  bind m f = Ok b <-> exists a, m = Ok a /\ f a = Ok b.
Proof.
  destruct m as [a|e]; simpl; split.
  - intros Hf. exists a. auto.
  - intros (a' & Ha & Hf). congruence.
  - discriminate.
  - intros (a' & Ha & _). discriminate.
Qed.

(** Splits a hypothesis [bind m f = Ok b] into its two steps. *)
Tactic Notation "bind_inv" hyp(H) :=
  let x := fresh "x" in
  let Hx := fresh "Hx" in
  apply bind_Ok in H; destruct H as (x & Hx & H).

Tactic Notation "bind_inv" hyp(H) "as" ident(x) ident(Hx) :=
  apply bind_Ok in H; destruct H as (x & Hx & H).

Lemma at_Ok {A} (v : list A) (i : Z) (x : A) :
  at_ v i = Ok x <-> 0 <= i /\ v !! Z.to_nat i = Some x.
Proof.
  unfold at_. destruct (decide (0 <= i)) as [Hi|Hi].
  - destruct (v !! Z.to_nat i) eqn:Hv; split.
    + intros [= ->]. auto.
    + intros [_ [= ->]]. reflexivity.
    + discriminate.
    + intros [_ ?]. discriminate.
  - split; [discriminate | intros [? _]; lia].
Qed.

Lemma at_of_nat {A} (v : list A) (n : nat) (x : A) :
  v !! n = Some x -> at_ v (Z.of_nat n) = Ok x.
Proof. intros Hv. apply at_Ok. rewrite Nat2Z.id. split; [lia | done]. Qed.

Lemma at_beyond {A} (v : list A) (i : Z) :
  Z.of_nat (length v) <= i -> at_ v i = Err OutOfBounds.
Proof.
  intros Hi. unfold at_. destruct (decide (0 <= i)); [|done].
  rewrite lookup_ge_None_2; [done | lia].
Qed.

Lemma at_in_range {A} (v : list A) (i : Z) :
  0 <= i < Z.of_nat (length v) -> exists x, at_ v i = Ok x.
Proof.
  intros Hi. destruct (lookup_lt_is_Some_2 v (Z.to_nat i)) as [x Hx]; [lia|].
  exists x. apply at_Ok. split; [lia | done].
Qed.

Lemma at_Ok_range {A} (v : list A) (i : Z) (x : A) :
  at_ v i = Ok x -> 0 <= i < Z.of_nat (length v).
Proof. intros [Hi Hv]%at_Ok. apply lookup_lt_Some in Hv. lia. Qed.

Lemma set_Ok {A} (v : list A) (i : Z) (x : A) (v' : list A) :
  set_ v i x = Ok v' <-> 0 <= i < Z.of_nat (length v) /\ v' = <[Z.to_nat i := x]> v.
Proof.
  unfold set_. destruct (decide _) as [Hi|Hi]; split.
  - intros [= <-]. auto.
  - intros [_ ->]. reflexivity.
  - discriminate.
  - intros [? _]. contradiction.
Qed.

Lemma at_set_eq {A} (v v' : list A) (i : Z) (x : A) :
  set_ v i x = Ok v' -> at_ v' i = Ok x.
Proof.
  intros [Hi ->]%set_Ok. apply at_Ok. split; [lia|].
  apply list_lookup_insert_eq. lia.
Qed.

Lemma at_set_ne {A} (v v' : list A) (i j : Z) (x : A) :
  set_ v i x = Ok v' -> i <> j -> at_ v' j = at_ v j.
Proof.
  intros [Hi ->]%set_Ok Hne. unfold at_. destruct (decide (0 <= j)); [|done].
  rewrite list_lookup_insert_ne; [done | lia].
Qed.

Lemma set_length {A} (v v' : list A) (i : Z) (x : A) :
  set_ v i x = Ok v' -> length v' = length v.
Proof. intros [_ ->]%set_Ok. apply length_insert. Qed.

Lemma foldM_cons {A S} (body : S -> A -> res S) (st : S) (x : A) (xs : list A) :
  foldM body st (x :: xs) = bind (body st x) (fun st' => foldM body st' xs).
Proof. reflexivity. Qed.

Lemma foldM_app {A S} (body : S -> A -> res S) (st : S) (xs ys : list A) :
  foldM body st (xs ++ ys) = bind (foldM body st xs) (fun st' => foldM body st' ys).
Proof.
  revert st. induction xs as [|x xs IH]; intros st; simpl; [done|].
  destruct (body st x); simpl; auto.
Qed.

(** An invariant kept by every round of a loop holds at its end. *)
Lemma foldM_invariant {A S} (P : S -> Prop) (body : S -> A -> res S) (xs : list A) :
  (forall st x st', x ∈ xs -> P st -> body st x = Ok st' -> P st') ->
  forall st st', P st -> foldM body st xs = Ok st' -> P st'.
Proof.
  induction xs as [|x xs IH]; intros Hstep st st' HP Hrun; simpl in Hrun.
  - congruence.
  - bind_inv Hrun. apply (IH (fun s y s' Hy => Hstep s y s' (list_elem_of_further _ _ _ Hy)) x0 st').
    + eapply Hstep; [apply list_elem_of_here | exact HP | exact Hx].
    + exact Hrun.
Qed.

(** ** Store lookups *)

Lemma nodeExists_Ok st k b :
  nodeExists st k = Ok b <-> exists d, at_ (D st) k = Ok d /\ b = negb (d =? -1).
Proof.
  unfold nodeExists. rewrite bind_Ok. split.
  - intros (d & Hd & [= <-]). eauto.
  - intros (d & Hd & ->). eauto.
Qed.

Lemma nodeId_Ok st k i :
  nodeId st k = Ok i <-> 0 <= k /\ at_ (D st) k = Ok i /\ i <> -1.
Proof.
  unfold nodeId. destruct (Z.ltb_spec k 0) as [Hk|Hk].
  - split; [discriminate | lia].
  - rewrite bind_Ok. split.
    + intros (b & [d [Hd ->]]%nodeExists_Ok & Hi).
      rewrite Hd in Hi. destruct (Z.eqb_spec d (-1)); simpl in Hi; [discriminate|].
      injection Hi as <-. auto.
    + intros (_ & Hd & Hne). exists true. split.
      * apply nodeExists_Ok. exists i. split; [done|].
        destruct (Z.eqb_spec i (-1)); [contradiction | done].
      * exact Hd.
Qed.

Lemma nodeExists_beyond st k :
  Z.of_nat (length (D st)) <= k -> nodeExists st k = Err OutOfBounds.
Proof. intros Hk. unfold nodeExists. rewrite at_beyond; done. Qed.

Lemma nodeId_beyond st k :
  Z.of_nat (length (D st)) <= k -> nodeId st k = Err OutOfBounds.
Proof.
  intros Hk. unfold nodeId. destruct (Z.ltb_spec k 0); [lia|].
  rewrite nodeExists_beyond; done.
Qed.

Lemma taxonNode_beyond st k :
  Z.of_nat (length (D st)) <= k -> k <> 0 ->
  taxonNode st k true = Err OutOfBounds /\ taxonNode st k false = Err OutOfBounds.
Proof.
  intros Hk H0. unfold taxonNode. destruct (Z.eqb_spec k 0); [contradiction|].
  simpl. rewrite nodeId_beyond, nodeExists_beyond; done.
Qed.

(** ** The direct-addressed table is read without a bounds check *)

(** C9 (the code at the failing input).  With a nodes file whose largest id is
    1 the table [D] has two slots.  A lookup of id 2, strict or lenient, and a
    merged row whose old id is 5 read [D] outside its bounds: the model
    reports [OutOfBounds] where the claim promises an answer "absent". *)
Theorem C9_lookup_beyond_max_id_is_out_of_bounds :
  (let* st := loadNodes nodes1 in nodeExists st 2) = Err OutOfBounds
  /\ (let* st := loadNodes nodes1 in nodeId st 2) = Err OutOfBounds
  /\ (let* st := loadNodes nodes1 in taxonNode st 2 true) = Err OutOfBounds
  /\ (let* st := loadNodes nodes1 in taxonNode st 2 false) = Err OutOfBounds
  /\ (let* st := loadNodes nodes1 in loadMerged st [row2 "5" "1"]) = Err OutOfBounds.
Proof. repeat split; vm_compute; reflexivity. Qed.

(** ** Loaders and the table [D] *)

Lemma loadNames_line_D st line st' :
  loadNames_line st line = Ok st' -> D st' = D st.
Proof.
  unfold loadNames_line. destruct (negb (is_scientific line)); [congruence|].
  intros Hrun. bind_inv Hrun. bind_inv Hrun.
  destruct (negb x0); [discriminate|].
  bind_inv Hrun. bind_inv Hrun. bind_inv Hrun. injection Hrun as <-. reflexivity.
Qed.

Lemma loadNames_D st lines st' :
  loadNames st lines = Ok st' -> D st' = D st.
Proof.
  unfold loadNames. intros Hrun.
  apply (foldM_invariant (fun s => D s = D st) loadNames_line lines) with (st := st); auto.
  intros s line s' _ Hs Hstep. rewrite <- Hs. eapply loadNames_line_D; eauto.
Qed.

(** The ids of a merged row are [unsigned int] values. *)
Lemma parseMerged_range line oldId mergedId :
  parseMerged line = Ok (oldId, mergedId) ->
  0 <= oldId < 2 ^ 32 /\ 0 <= mergedId < 2 ^ 32.
Proof.
  unfold parseMerged. destruct (negb _); [done|]. intros Hrun.
  bind_inv Hrun as r0 Hr0. bind_inv Hrun as r1 Hr1. injection Hrun as <- <-.
  unfold strtoul. split; apply Z.mod_pos_bound; lia.
Qed.

(** An [unsigned int] id that [nodeExists] finds within the table is the
    same number as an [int]. *)
Lemma nodeExists_uint st u b :
  0 <= u < 2 ^ 32 -> nodeExists st (uint_to_int u) = Ok b -> uint_to_int u = u.
Proof.
  intros Hu Hex. apply nodeExists_Ok in Hex as (d & Hd & _).
  apply at_Ok in Hd as [Hpos _]. revert Hpos.
  unfold uint_to_int, long_to_int.
  change (2 ^ 31) with 2147483648. change (2 ^ 32) with 4294967296 in *.
  intros Hpos. Z.to_euclidean_division_equations. lia.
Qed.

(** A slot that is in use after a merged row was already in use, or the row
    names it as its old id. *)
Lemma loadMerged_line_D st line st' k d :
  loadMerged_line st line = Ok st' ->
  at_ (D st') k = Ok d -> d <> -1 ->
  (at_ (D st) k = Ok d) \/ (exists new, parseMerged line = Ok (k, new)).
Proof.
  unfold loadMerged_line. intros Hrun Hd Hne.
  bind_inv Hrun. destruct x as [oldId mergedId]. simpl in Hrun.
  bind_inv Hrun. destruct x; [injection Hrun as <-; auto|].
  bind_inv Hrun. destruct x; [|injection Hrun as <-; auto].
  bind_inv Hrun. bind_inv Hrun. injection Hrun as <-. simpl in Hd.
  destruct (decide (oldId = k)) as [->|Hk].
  - right. eauto.
  - left. rewrite <- Hd. symmetry. eapply at_set_ne; eauto.
Qed.

Lemma loadMerged_D st lines st' k d :
  loadMerged st lines = Ok st' ->
  at_ (D st') k = Ok d -> d <> -1 ->
  (at_ (D st) k = Ok d) \/ (exists line new, line ∈ lines /\ parseMerged line = Ok (k, new)).
Proof.
  unfold loadMerged. revert st. induction lines as [|line lines IH]; intros st Hrun Hd Hne.
  - simpl in Hrun. injection Hrun as <-. auto.
  - simpl in Hrun. bind_inv Hrun.
    destruct (IH _ Hrun Hd Hne) as [Hk | (l & new & Hl & Hp)].
    + destruct (loadMerged_line_D _ _ _ _ _ Hx Hk Hne) as [?|[new Hp]]; [auto|].
      right. exists line, new. split; [apply list_elem_of_here | done].
    + right. exists l, new. split; [by apply list_elem_of_further | done].
Qed.

Lemma loadNodes_line_Dm a line a' k d :
  loadNodes_line a line = Ok a' ->
  (forall k d, acc_Dm a !! k = Some d -> exists n, n ∈ acc_nodes a /\ taxId n = k) ->
  acc_Dm a' !! k = Some d -> exists n, n ∈ acc_nodes a' /\ taxId n = k.
Proof.
  unfold loadNodes_line. intros Hrun Hinv Hk.
  bind_inv Hrun. bind_inv Hrun. bind_inv Hrun. injection Hrun as <-. simpl in *.
  destruct (acc_Dm a !! strtol x) eqn:Hfind.
  - destruct (Hinv _ _ Hk) as (n & Hn & Hid). exists n. split; [|done].
    apply elem_of_app. auto.
  - destruct (decide (strtol x = k)) as [<-|Hne].
    + eexists. split; [apply elem_of_app; right; apply list_elem_of_here | reflexivity].
    + rewrite lookup_insert_ne in Hk by done.
      destruct (Hinv _ _ Hk) as (n & Hn & Hid). exists n. split; [|done].
      apply elem_of_app. auto.
Qed.

Lemma loadNodes_D lines st k d :
  loadNodes lines = Ok st ->
  at_ (D st) k = Ok d -> d <> -1 ->
  exists n, n ∈ taxonNodes st /\ taxId n = k.
Proof.
  unfold loadNodes. intros Hrun Hd Hne.
  bind_inv Hrun. rename x into a. bind_inv Hrun. rename x into D1.
  bind_inv Hrun. injection Hrun as <-. simpl in *.
  assert (Hacc : forall k d, acc_Dm a !! k = Some d -> exists n, n ∈ acc_nodes a /\ taxId n = k).
  { apply (foldM_invariant
             (fun a => forall k d, acc_Dm a !! k = Some d ->
                                   exists n, n ∈ acc_nodes a /\ taxId n = k)
             loadNodes_line lines) with (st := mkNodesAcc [] ∅ 0 0); [| |exact Hx].
    - intros a0 line a1 _ Hinv Hstep k0 d0. eapply loadNodes_line_Dm; eauto.
    - simpl. intros k0 d0. rewrite lookup_empty. discriminate. }
  assert (Htab : forall k d, at_ D1 k = Ok d -> d <> -1 -> acc_Dm a !! k = Some d).
  { apply (foldM_invariant
             (fun Dv => forall k d, at_ Dv k = Ok d -> d <> -1 -> acc_Dm a !! k = Some d)
             (fun Dv (kv : Z * Z) => set_ Dv kv.1 kv.2) (map_to_list (acc_Dm a)))
      with (st := resize_ [] (acc_maxTaxID a + 1) (-1)); [| |exact Hx0].
    - intros Dv [k1 v1] Dv' Hin Hinv Hstep k0 d0 Hat Hd0. simpl in Hstep.
      destruct (decide (k1 = k0)) as [->|Hk].
      + rewrite (at_set_eq _ _ _ _ Hstep) in Hat. injection Hat as ->.
        by apply elem_of_map_to_list.
      + rewrite (at_set_ne _ _ _ _ _ Hstep Hk) in Hat. auto.
    - intros k0 d0 Hat Hd0. unfold resize_ in Hat. simpl in Hat.
      apply at_Ok in Hat as [_ Hat]. rewrite take_nil in Hat. simpl in Hat.
      apply lookup_replicate in Hat as [-> _]. contradiction. }
  eauto.
Qed.

(** [loadNames] only rewrites names. *)
Definition skeleton (n : TaxonNode) : Z * TaxID * TaxID * string :=
  (id n, taxId n, parentTaxId n, rank n).

Lemma loadNames_line_skeleton st line st' :
  loadNames_line st line = Ok st' ->
  skeleton <$> taxonNodes st' = skeleton <$> taxonNodes st.
Proof.
  unfold loadNames_line. destruct (negb (is_scientific line)); [congruence|].
  intros Hrun. bind_inv Hrun as entry He. bind_inv Hrun as ex Hex.
  destruct (negb ex); [discriminate|].
  bind_inv Hrun as i Hi. bind_inv Hrun as n Hn. bind_inv Hrun as nodes' Hset.
  injection Hrun as <-. simpl.
  apply set_Ok in Hset as [Hr ->]. apply at_Ok in Hn as [_ Hn].
  rewrite list_fmap_insert. apply list_insert_id.
  rewrite list_lookup_fmap, Hn. reflexivity.
Qed.

Lemma loadNames_skeleton st lines st' :
  loadNames st lines = Ok st' ->
  skeleton <$> taxonNodes st' = skeleton <$> taxonNodes st.
Proof.
  unfold loadNames. intros Hrun.
  apply (foldM_invariant (fun s => skeleton <$> taxonNodes s = skeleton <$> taxonNodes st)
           loadNames_line lines) with (st := st); auto.
  intros s line s' _ Hs Hstep. rewrite <- Hs. eapply loadNames_line_skeleton; eauto.
Qed.

Lemma loadMerged_nodes st lines st' :
  loadMerged st lines = Ok st' -> taxonNodes st' = taxonNodes st.
Proof.
  unfold loadMerged. intros Hrun.
  apply (foldM_invariant (fun s => taxonNodes s = taxonNodes st) loadMerged_line lines)
    with (st := st); [|done|done].
  intros s line s' _ Hs Hstep. unfold loadMerged_line in Hstep.
  bind_inv Hstep as ids Hids. bind_inv Hstep as exOld HexOld. destruct exOld; [congruence|].
  bind_inv Hstep as exNew HexNew. destruct exNew; [|congruence].
  bind_inv Hstep as d Hd. bind_inv Hstep as D' HD'. injection Hstep as <-. done.
Qed.

(** ** The traversal starts at the record that id 1 resolves to *)

Lemma elh_E_prefix fuel st ch x lvl t t' :
  elh fuel st ch x lvl t = Ok t' -> tE t `prefix_of` tE t'.
Proof.
  revert x lvl t t'. induction fuel as [|f IH]; intros x lvl t t' Hrun; simpl in Hrun.
  - discriminate.
  - bind_inv Hrun as u Hu. bind_inv Hrun as i Hi. bind_inv Hrun as h Hh.
    bind_inv Hrun as H' HH'. bind_inv Hrun as cs Hcs. bind_inv Hrun as t2 Ht2.
    bind_inv Hrun as n Hn. bind_inv Hrun as p Hp. injection Hrun as <-. simpl.
    assert (Hpre : (tE t ++ [i]) `prefix_of` tE t2).
    { eapply (foldM_invariant (fun s => (tE t ++ [i]) `prefix_of` tE s)); [| |exact Ht2].
      - intros s c s' _ Hs Hstep. etrans; [exact Hs|]. eapply IH. exact Hstep.
      - done. }
    etrans; [|apply prefix_app_r; exact Hpre]. apply prefix_app_r. done.
Qed.

Lemma elh_start fuel st ch x lvl t' :
  elh fuel st ch x lvl (mkTour [] [] (replicate (length (taxonNodes st)) 0)) = Ok t' ->
  exists i n, nodeId st x = Ok i /\ tE t' !! 0%nat = Some i /\ at_ (taxonNodes st) i = Ok n.
Proof.
  destruct fuel as [|f]; simpl; [discriminate|]. intros Hrun.
  bind_inv Hrun as u Hu. bind_inv Hrun as i Hi. bind_inv Hrun as h Hh.
  bind_inv Hrun as H' HH'. bind_inv Hrun as cs Hcs. bind_inv Hrun as t2 Ht2.
  bind_inv Hrun as n Hn. bind_inv Hrun as p Hp. injection Hrun as <-. simpl in *.
  exists i, n. split; [done|]. split; [|done].
  assert (Hpre : [i] `prefix_of` tE t2).
  { eapply (foldM_invariant (fun s => [i] `prefix_of` tE s)); [| |exact Ht2].
    - intros s c s' _ Hs Hstep. etrans; [exact Hs|]. eapply elh_E_prefix. exact Hstep.
    - done. }
  destruct Hpre as [k ->]. reflexivity.
Qed.

Lemma index_store_start fuel st t :
  index_store fuel st = Ok t ->
  store t = st /\ exists i, nodeId st 1 = Ok i /\ E t !! 0%nat = Some i.
Proof.
  unfold index_store. intros Hrun. bind_inv Hrun as ch Hch. bind_inv Hrun as tr Htr.
  bind_inv Hrun as M' HM. injection Hrun as <-. simpl.
  split; [done|].
  destruct (elh_start _ _ _ _ _ _ Htr) as (i & n & Hi & HE & Hn).
  exists i. split; [done|]. apply at_Ok_range in Hn.
  unfold resize_. rewrite lookup_app_l.
  - rewrite lookup_take_lt by lia. done.
  - rewrite length_take. apply lookup_lt_Some in HE. lia.
Qed.

(** C10 (amended).  When the constructor succeeds, external id 1 resolves in
    the table [D] to an internal index, the Euler tour starts at that index,
    and id 1 got there in one of two ways: a record of the nodes input carries
    external id 1, or a row of the merged input has old id 1. *)
Theorem C10_construction_needs_id_1_resolvable fuel names nodes merged t :
  NcbiTaxonomy_new fuel names nodes merged = Ok t ->
  exists i, nodeId (store t) 1 = Ok i
    /\ E t !! 0%nat = Some i
    /\ ((exists n, n ∈ taxonNodes (store t) /\ taxId n = 1)
        \/ (exists line new, line ∈ merged /\ parseMerged line = Ok (1, new))).
Proof.
  unfold NcbiTaxonomy_new. intros Hrun.
  bind_inv Hrun as st1 H1. bind_inv Hrun as st2 H2. bind_inv Hrun as st3 H3.
  destruct (index_store_start _ _ _ Hrun) as [Hst (i & Hi & HE)]. rewrite Hst.
  exists i. split; [done|]. split; [done|].
  apply nodeId_Ok in Hi as (_ & Hd & Hne).
  rewrite (loadNames_D _ _ _ H3) in Hd.
  destruct (loadMerged_D _ _ _ _ _ H2 Hd Hne) as [Hd1 | Halias]; [|auto].
  left. destruct (loadNodes_D _ _ _ _ H1 Hd1 Hne) as (n & Hn & Hid).
  rewrite <- (loadMerged_nodes _ _ _ H2) in Hn.
  assert (Hsk : skeleton n ∈ skeleton <$> taxonNodes st3).
  { rewrite (loadNames_skeleton _ _ _ H3). apply list_elem_of_fmap. eauto. }
  apply list_elem_of_fmap in Hsk as (n' & Hsk & Hn').
  exists n'. split; [done|]. unfold skeleton in Hsk. congruence.
Qed.

(** C10 (counterexample).  A nodes input whose only record has external id 2
    and a merged row [1 -> 2]: the constructor succeeds, and no record carries
    external id 1. *)
Lemma C10_counterexample_alias_of_1 :
  exists t, NcbiTaxonomy_new 2 [] nodes_root2 merged_1_to_2 = Ok t
    /\ forall n, n ∈ taxonNodes (store t) -> taxId n <> 1.
Proof.
  eexists. split; [vm_compute; reflexivity|].
  simpl. intros n Hn. apply list_elem_of_singleton in Hn as ->. simpl. lia.
Qed.

(** C10 (instance). *)
Lemma C10_witness :
  exists t, NcbiTaxonomy_new 2 [] nodes3 [] = Ok t
    /\ exists i, nodeId (store t) 1 = Ok i
         /\ E t !! 0%nat = Some i
         /\ ((exists n, n ∈ taxonNodes (store t) /\ taxId n = 1)
             \/ (exists line new, line ∈ [] /\ parseMerged line = Ok (1, new))).
Proof.
  eexists. split; [vm_compute; reflexivity|].
  apply (C10_construction_needs_id_1_resolvable 2 [] nodes3 []).
  vm_compute; reflexivity.
Defined.

(** ** Names *)

Lemma retained_name_for_D st st' i line :
  D st' = D st -> retained_name_for st' i line = retained_name_for st i line.
Proof.
  intros HD. unfold retained_name_for, nodeId, nodeExists. rewrite HD. reflexivity.
Qed.

Lemma omap_cons {A B} (f : A -> option B) (x : A) (l : list A) :
  omap f (x :: l) = match f x with Some y => y :: omap f l | None => omap f l end.
Proof. reflexivity. Qed.

Lemma names_for_D st st' i lines :
  D st' = D st -> names_for st' i lines = names_for st i lines.
Proof.
  intros HD. unfold names_for. induction lines as [|l ls IH]; [done|].
  rewrite !omap_cons, IH, (retained_name_for_D st st' i l HD). reflexivity.
Qed.

Lemma loadNames_line_name st line st' i n :
  loadNames_line st line = Ok st' ->
  at_ (taxonNodes st) i = Ok n ->
  exists n', at_ (taxonNodes st') i = Ok n'
    /\ name n' = default (name n) (retained_name_for st i line).
Proof.
  unfold loadNames_line, retained_name_for. intros Hrun Hn.
  destruct (is_scientific line); simpl in Hrun.
  2:{ injection Hrun as <-. eauto. }
  bind_inv Hrun as entry He. rewrite He. bind_inv Hrun as ex Hex.
  destruct ex; simpl in Hrun; [|discriminate].
  bind_inv Hrun as j Hj. rewrite Hj. bind_inv Hrun as m Hm.
  bind_inv Hrun as nodes' Hset. injection Hrun as <-. simpl.
  destruct (decide (j = i)) as [->|Hne]; simpl.
  - exists (set_name m entry.2). split; [|done]. eapply at_set_eq; eauto.
  - exists n. split; [|done]. rewrite <- Hn. eapply at_set_ne; eauto.
Qed.

Lemma last_cons_default {A} (x : A) (l : list A) (d : A) :
  default d (last (x :: l)) = default x (last l).
Proof. destruct l as [|y l]; [done|]. rewrite last_cons_cons. by destruct (last (y :: l)) eqn:?; [|by apply last_None in Heqo]. Qed.

(** C4 (amended).  A names row is taken when the text [scientific name]
    occurs anywhere in the line, and a record that several taken rows resolve
    to keeps the name of the last of them; a record that no taken row resolves
    to keeps the name it had. *)
Theorem C4_last_scientific_name_is_kept lines : forall st st' i n,
  loadNames st lines = Ok st' ->
  at_ (taxonNodes st) i = Ok n ->
  exists n', at_ (taxonNodes st') i = Ok n'
    /\ name n' = default (name n) (last (names_for st i lines)).
Proof.
  unfold loadNames. induction lines as [|line lines IH]; intros st st' i n Hrun Hn.
  - simpl in Hrun. injection Hrun as <-. exists n. done.
  - simpl in Hrun. bind_inv Hrun as st1 Hst1.
    destruct (loadNames_line_name _ _ _ _ _ Hst1 Hn) as (n1 & Hn1 & Hname1).
    destruct (IH _ _ _ _ Hrun Hn1) as (n' & Hn' & Hname').
    exists n'. split; [done|]. rewrite Hname'.
    rewrite (names_for_D st st1 i lines (loadNames_line_D _ _ _ Hst1)).
    unfold names_for. rewrite omap_cons. fold (names_for st i lines).
    destruct (retained_name_for st i line) as [nm|]; simpl in *.
    + rewrite last_cons_default. destruct (last (names_for st i lines)); simpl; congruence.
    + destruct (last (names_for st i lines)); simpl; congruence.
Qed.

(** C4 (instance): the record of taxon 2 (internal index 1) after the two
    rows of [names_twice]. *)
Lemma C4_witness :
  exists st st' n,
    loadNodes nodes3 = Ok st /\ loadNames st names_twice = Ok st'
    /\ at_ (taxonNodes st) 1 = Ok n
    /\ exists n', at_ (taxonNodes st') 1 = Ok n'
         /\ name n' = default (name n) (last (names_for st 1 names_twice)).
Proof.
  do 3 eexists. split; [vm_compute; reflexivity|].
  split; [vm_compute; reflexivity|].
  split; [vm_compute; reflexivity|].
  eapply C4_last_scientific_name_is_kept; vm_compute; reflexivity.
Defined.

(** C4 (counterexample).  With two scientific-name rows for taxon 2 the spec's
    reading keeps [first], the loader stores [second]; and a synonym row whose
    name field contains the words [scientific name] is not retained by the
    spec's reading, yet the loader stores its name. *)
Lemma C4_counterexample_later_row_overwrites :
  spec_name_of 2 names_twice = Some "first"%string
  /\ (let* st := loadNodes nodes3 in
      let* st' := loadNames st names_twice in
      let* n := taxonNode_deref st' 2 in Ok (name n)) = Ok "second"%string
  /\ spec_name_of 2 names_synonym = None
  /\ (let* st := loadNodes nodes3 in
      let* st' := loadNames st names_synonym in
      let* n := taxonNode_deref st' 2 in Ok (name n)) = Ok "a scientific name"%string.
Proof. repeat split; vm_compute; reflexivity. Qed.

(** ** The sparse table *)

Lemma foldM_seqZ {St} (P : Z -> St -> Prop) (body : St -> Z -> res St) (n : nat) :
  forall start st,
  P start st ->
  (forall i s, start <= i < start + Z.of_nat n -> P i s ->
     exists s', body s i = Ok s' /\ P (i + 1) s') ->
  exists st', foldM body st (seqZ start (Z.of_nat n)) = Ok st' /\ P (start + Z.of_nat n) st'.
Proof.
  induction n as [|n IH]; intros start st HP Hstep.
  - exists st. rewrite Z.add_0_r. done.
  - rewrite seqZ_cons by lia. simpl.
    destruct (Hstep start st ltac:(lia) HP) as (s1 & Hb & HP1). rewrite Hb. simpl.
    replace (Z.pred (Z.of_nat (S n))) with (Z.of_nat n) by lia.
    destruct (IH (Z.succ start) s1) as (st' & Hrun & HP').
    + replace (Z.succ start) with (start + 1) by lia. done.
    + intros i s Hi HPi. apply Hstep; [lia | done].
    + exists st'. split; [done|].
      replace (start + Z.of_nat (S n)) with (Z.succ start + Z.of_nat n) by lia. done.
Qed.

Lemma mget_Ok M i j v :
  mget M i j = Ok v <-> exists row, at_ M i = Ok row /\ at_ row j = Ok v.
Proof. unfold mget. apply bind_Ok. Qed.

Lemma mset_total M dim k i j v :
  mshape M dim k -> 0 <= i < dim -> 0 <= j < k ->
  exists M', mset M i j v = Ok M'.
Proof.
  intros [Hlen Hrows] Hi Hj. unfold mset.
  destruct (at_in_range M i ltac:(lia)) as [row Hrow]. rewrite Hrow. simpl.
  specialize (Hrows _ _ Hrow).
  unfold set_ at 1. destruct (decide (0 <= j < Z.of_nat (length row))) as [_|Hn]; [|lia].
  simpl. unfold set_. destruct (decide (0 <= i < Z.of_nat (length M))) as [_|Hn]; [|lia].
  eauto.
Qed.

Lemma mset_shape M dim k i j v M' :
  mshape M dim k -> mset M i j v = Ok M' -> mshape M' dim k.
Proof.
  intros [Hlen Hrows] Hset. unfold mset in Hset.
  bind_inv Hset as row Hrow. bind_inv Hset as row' Hrow'.
  split.
  - rewrite (set_length _ _ _ _ Hset). done.
  - intros i' r Hr. destruct (decide (i = i')) as [<-|Hne].
    + rewrite (at_set_eq _ _ _ _ Hset) in Hr. injection Hr as <-.
      rewrite (set_length _ _ _ _ Hrow'). eauto.
    + rewrite (at_set_ne _ _ _ _ _ Hset Hne) in Hr. eauto.
Qed.

Lemma mget_mset_eq M i j v M' :
  mset M i j v = Ok M' -> mget M' i j = Ok v.
Proof.
  unfold mset. intros Hset. bind_inv Hset as row Hrow. bind_inv Hset as row' Hrow'.
  apply mget_Ok. exists row'. split; eapply at_set_eq; eauto.
Qed.

Lemma mget_mset_ne M i j v M' i' j' :
  mset M i j v = Ok M' -> (i <> i' \/ j <> j') -> mget M' i' j' = mget M i' j'.
Proof.
  unfold mset. intros Hset Hne. bind_inv Hset as row Hrow. bind_inv Hset as row' Hrow'.
  unfold mget. destruct (decide (i = i')) as [<-|Hi].
  - rewrite (at_set_eq _ _ _ _ Hset), Hrow. simpl.
    destruct Hne as [?|Hj]; [done|]. eapply at_set_ne; eauto.
  - rewrite (at_set_ne _ _ _ _ _ Hset Hi). done.
Qed.

Lemma makeMatrix_shape n :
  0 < n -> mshape (makeMatrix n) (n * 2) (Z.log2 (n * 2) + 1).
Proof.
  intros Hn. unfold makeMatrix, flog2. split.
  - rewrite length_replicate. lia.
  - intros i row [_ Hrow]%at_Ok. apply lookup_replicate in Hrow as [-> _].
    rewrite length_replicate. pose proof (Z.log2_nonneg (n * 2)). lia.
Qed.

(** Two windows that overlap or touch: the better of their minima is a
    minimum of their union.  [strict] tells which comparison decides:
    [<] as in the construction, [<=] as in the query. *)
Lemma argmin_join (strict : bool) Lv a b c d A B la lb :
  argmin_in Lv a b A -> argmin_in Lv c d B ->
  a <= c <= b -> b <= d ->
  at_ Lv A = Ok la -> at_ Lv B = Ok lb ->
  argmin_in Lv a d (if (if strict then la <? lb else la <=? lb) then A else B).
Proof.
  intros [HA (la' & Hla & HminA)] [HB (lb' & Hlb & HminB)] Hac Hbd HlA HlB.
  rewrite Hla in HlA. injection HlA as ->. rewrite Hlb in HlB. injection HlB as ->.
  assert (Hcase : forall q lq, a <= q < d -> at_ Lv q = Ok lq -> la <= lq \/ lb <= lq).
  { intros q lq Hq Hlq. destruct (decide (q < b)).
    - left. apply (HminA q lq); [lia | done].
    - right. apply (HminB q lq); [lia | done]. }
  destruct (if strict then la <? lb else la <=? lb) eqn:Hcmp.
  - split; [lia|]. exists la. split; [done|]. intros q lq Hq Hlq.
    destruct (Hcase q lq Hq Hlq); [done|]. destruct strict; lia.
  - split; [lia|]. exists lb. split; [done|]. intros q lq Hq Hlq.
    destruct (Hcase q lq Hq Hlq); [|done]. destruct strict; lia.
Qed.

Lemma init_column_0 M dim k :
  mshape M dim k -> 0 <= dim -> 0 < k ->
  exists M0, foldM (fun M i => mset M i 0 i) M (seqZ 0 dim) = Ok M0
    /\ mshape M0 dim k
    /\ forall i, 0 <= i < dim -> mget M0 i 0 = Ok i.
Proof.
  intros Hshape Hdim Hk.
  destruct (foldM_seqZ
              (fun n M' => mshape M' dim k /\ forall i, 0 <= i < n -> mget M' i 0 = Ok i)
              (fun M i => mset M i 0 i) (Z.to_nat dim) 0 M) as (M0 & Hrun & Hsh & Hcol).
  - split; [done | lia].
  - intros i M1 Hi [Hsh Hcol].
    destruct (mset_total M1 dim k i 0 i Hsh ltac:(lia) ltac:(lia)) as [M2 Hset].
    exists M2. split; [done|]. split; [eapply mset_shape; eauto|].
    intros i' Hi'. destruct (decide (i = i')) as [<-|Hne].
    + eapply mget_mset_eq; eauto.
    + rewrite (mget_mset_ne _ _ _ _ _ i' 0 Hset) by auto. apply Hcol. lia.
  - rewrite Z2Nat.id in Hrun by lia. exists M0. split; [done|]. split; [done|].
    intros i Hi. apply Hcol. lia.
Qed.

Lemma level_ok_0 Lv dim M :
  Z.of_nat (length Lv) = dim ->
  (forall i, 0 <= i < dim -> mget M i 0 = Ok i) ->
  level_ok Lv dim M 0.
Proof.
  intros Hlen Hcol i Hi Hw. change (2 ^ 0) with 1 in *.
  exists i. split; [apply Hcol; lia|]. split; [lia|].
  destruct (at_in_range Lv i ltac:(lia)) as [li Hli]. exists li. split; [done|].
  intros q lq Hq Hlq. assert (q = i) as -> by lia.
  assert (li = lq) by congruence. lia.
Qed.

Lemma rmq_level_ok Lv dim k M j :
  Z.of_nat (length Lv) = dim ->
  mshape M dim k -> 1 <= j < k -> 2 ^ j <= dim ->
  level_ok Lv dim M (j - 1) ->
  exists M', rmq_level Lv dim M j = Ok M'
    /\ mshape M' dim k
    /\ (forall i j', j' <> j -> mget M' i j' = mget M i j')
    /\ level_ok Lv dim M' j.
Proof.
  intros Hlen Hshape Hj Hpow Hprev. unfold rmq_level.
  assert (Hhalf : 2 ^ j = 2 ^ (j - 1) + 2 ^ (j - 1)).
  { replace j with (Z.succ (j - 1)) at 1 by lia. rewrite Z.pow_succ_r by lia. lia. }
  assert (Hpos : 0 < 2 ^ (j - 1)) by (apply Z.pow_pos_nonneg; lia).
  destruct (foldM_seqZ
              (fun n M' => mshape M' dim k
                 /\ (forall i j', j' <> j -> mget M' i j' = mget M i j')
                 /\ forall i, 0 <= i < n ->
                      exists p, mget M' i j = Ok p /\ argmin_in Lv i (i + 2 ^ j) p)
              (rmq_cell Lv j) (Z.to_nat (dim - 2 ^ j + 1)) 0 M)
    as (M' & Hrun & Hsh & Hother & Hcol).
  - split; [done|]. split; [done | lia].
  - intros i M1 Hi (Hsh & Hother & Hcol).
    rewrite Z2Nat.id in Hi by lia.
    destruct (Hprev i ltac:(lia) ltac:(lia)) as (A & HA & HargA).
    destruct (Hprev (i + 2 ^ (j - 1)) ltac:(lia) ltac:(lia)) as (B & HB & HargB).
    pose proof HargA as (_ & la & Hla & _). pose proof HargB as (_ & lb & Hlb & _).
    unfold rmq_cell. rewrite !Hother by lia. rewrite HA, HB. simpl. rewrite Hla, Hlb. simpl.
    destruct (mset_total M1 dim k i j (if la <? lb then A else B) Hsh ltac:(lia) ltac:(lia))
      as [M2 Hset].
    exists M2. split; [destruct (la <? lb); exact Hset|].
    split; [eapply mset_shape; eauto|]. split.
    + intros i' j' Hj'. rewrite (mget_mset_ne _ _ _ _ _ i' j' Hset) by auto. auto.
    + intros i' Hi'. destruct (decide (i = i')) as [<-|Hne].
      * eexists. split; [eapply mget_mset_eq; eauto|].
        rewrite Hhalf, Z.add_assoc.
        apply (argmin_join true Lv i (i + 2 ^ (j - 1)) (i + 2 ^ (j - 1)) _ A B la lb);
          auto; lia.
      * rewrite (mget_mset_ne _ _ _ _ _ i' j Hset) by auto. apply Hcol. lia.
  - rewrite Z2Nat.id in Hrun, Hcol by lia.
    exists M'. split; [done|]. split; [done|]. split; [done|].
    intros i Hi Hw. apply Hcol. lia.
Qed.

Lemma level_ok_ext Lv dim M M' j :
  (forall i, mget M' i j = mget M i j) -> level_ok Lv dim M j -> level_ok Lv dim M' j.
Proof. intros Heq Hok i Hi Hw. rewrite Heq. auto. Qed.

(** The construction runs without a fault and fills every column. *)
Lemma InitRangeMinimumQuery_ok Lv n :
  0 < n -> Z.of_nat (length Lv) = n * 2 ->
  exists M', InitRangeMinimumQuery Lv n (makeMatrix n) = Ok M'
    /\ forall j, 0 <= j <= Z.log2 (n * 2) -> level_ok Lv (n * 2) M' j.
Proof.
  intros Hn Hlen. unfold InitRangeMinimumQuery.
  set (dim := n * 2) in *. set (k := Z.log2 dim + 1).
  pose proof (Z.log2_nonneg dim) as Hlog.
  destruct (init_column_0 (makeMatrix n) dim k) as (M0 & Hrun0 & Hsh0 & Hcol0).
  { apply makeMatrix_shape. done. } { lia. } { lia. }
  rewrite Hrun0. simpl.
  destruct (foldM_seqZ
              (fun m M' => mshape M' dim k /\ forall j, 0 <= j < m -> level_ok Lv dim M' j)
              (rmq_level Lv dim) (Z.to_nat (Z.log2 dim)) 1 M0) as (M' & Hrun & Hsh & Hlev).
  - split; [done|]. intros j Hj. assert (j = 0) as -> by lia. by apply level_ok_0.
  - intros j M1 Hj [Hsh Hlev]. rewrite Z2Nat.id in Hj by lia.
    assert (Hpow : 2 ^ j <= dim).
    { etrans; [apply (Z.pow_le_mono_r 2 j (Z.log2 dim)); lia|].
      apply Z.log2_spec. lia. }
    destruct (rmq_level_ok Lv dim k M1 j Hlen Hsh ltac:(lia) Hpow (Hlev (j - 1) ltac:(lia)))
      as (M2 & Hrun2 & Hsh2 & Hother & Hnew).
    exists M2. split; [done|]. split; [done|].
    intros j' Hj'. destruct (decide (j' = j)) as [->|Hne]; [done|].
    apply (level_ok_ext Lv dim M1); [|apply Hlev; lia].
    intros i. apply Hother. done.
  - rewrite Z2Nat.id in Hrun, Hlev by lia. exists M'. split; [done|].
    intros j Hj. apply Hlev. lia.
Qed.

Lemma resize_length {A} (v : list A) (n : Z) (x : A) :
  0 <= n -> Z.of_nat (length (resize_ v n x)) = n.
Proof.
  intros Hn. unfold resize_. rewrite length_app, length_take, length_replicate. lia.
Qed.

Lemma index_store_rmq_ready fuel st t :
  index_store fuel st = Ok t -> rmq_ready t.
Proof.
  unfold index_store. intros Hrun. bind_inv Hrun as ch Hch. bind_inv Hrun as tr Htr.
  bind_inv Hrun as M' HM. injection Hrun as <-. unfold rmq_ready. simpl.
  destruct (elh_start _ _ _ _ _ _ Htr) as (i & n & _ & _ & Hn).
  apply at_Ok_range in Hn.
  set (N := Z.of_nat (length (taxonNodes st))) in *.
  assert (HN : 0 < N) by lia. split; [done|].
  assert (Hlen : Z.of_nat (length (resize_ (tL tr) (N * 2) 0)) = N * 2)
    by (apply resize_length; lia).
  split; [done|].
  destruct (InitRangeMinimumQuery_ok _ N HN Hlen) as (M'' & HM'' & Hlev).
  rewrite HM in HM''. injection HM'' as <-. done.
Qed.

Lemma RangeMinimumQuery_argmin t l r :
  rmq_ready t -> 0 <= l <= r -> r < maxNodes t * 2 ->
  exists p, RangeMinimumQuery t l r = Ok p /\ argmin_in (L t) l (r + 1) p.
Proof.
  intros (HN & Hlen & Hlev) Hlr Hr. unfold RangeMinimumQuery, flog2, ipow.
  destruct (Z.leb_spec l r) as [_|?]; [|lia]. simpl.
  set (k := Z.log2 (r - l + 1)).
  pose proof (Z.log2_spec (r - l + 1) ltac:(lia)) as [Hlo Hhi]. fold k in Hlo, Hhi.
  pose proof (Z.log2_nonneg (r - l + 1)) as Hk0. fold k in Hk0.
  rewrite Z.pow_succ_r in Hhi by done.
  assert (Hk : k <= Z.log2 (maxNodes t * 2)) by (apply Z.log2_le_mono; lia).
  destruct (Hlev k ltac:(lia) l ltac:(lia) ltac:(lia)) as (A & HA & HargA).
  destruct (Hlev k ltac:(lia) (r - 2 ^ k + 1) ltac:(lia) ltac:(lia)) as (B & HB & HargB).
  pose proof HargA as (_ & la & Hla & _). pose proof HargB as (_ & lb & Hlb & _).
  rewrite HA, HB. simpl. rewrite Hla, Hlb. simpl.
  exists (if la <=? lb then A else B). split; [by destruct (la <=? lb)|].
  replace (r - 2 ^ k + 1 + 2 ^ k) with (r + 1) in HargB by lia.
  apply (argmin_join false (L t) l (l + 2 ^ k) (r - 2 ^ k + 1) (r + 1) A B la lb);
    auto; lia.
Qed.

(** C3 (amended).  In a constructed engine, for all positions [l <= r] of the
    Euler depth array, the query returns without a fault a position of
    [l .. r] whose depth is least in that window.  Which of several positions
    of least depth comes back is not fixed to the smallest one. *)
Theorem C3_rmq_returns_a_position_of_least_depth fuel st t l r :
  index_store fuel st = Ok t ->
  0 <= l <= r -> r < maxNodes t * 2 ->
  exists p, RangeMinimumQuery t l r = Ok p /\ argmin_in (L t) l (r + 1) p.
Proof.
  intros Hbuilt Hlr Hr. apply RangeMinimumQuery_argmin; [|done|done].
  eapply index_store_rmq_ready. exact Hbuilt.
Qed.

(** C3 (instance): the window [1 .. 4] of the tree [nodes6]. *)
Lemma C3_witness :
  exists t, index_store 3 store6 = Ok t
    /\ exists p, RangeMinimumQuery t 1 4 = Ok p /\ argmin_in (L t) 1 (4 + 1) p.
Proof.
  eexists. split; [vm_compute; reflexivity|].
  apply (C3_rmq_returns_a_position_of_least_depth 3 store6);
    [vm_compute; reflexivity | lia | vm_compute; reflexivity].
Defined.

(** C3 (counterexample).  For a root with two leaves the depth array is
    [0; 1; 0; 1; 0; -1].  In the window [0 .. 3] the least depth 0 is at the
    positions 0 and 2; the query returns 2, which is not the smallest
    position of least depth. *)
Lemma C3_counterexample_tie_to_the_right :
  exists t, NcbiTaxonomy_new 2 [] nodes3 [] = Ok t
    /\ L t = [0; 1; 0; 1; 0; -1]
    /\ RangeMinimumQuery t 0 3 = Ok 2
    /\ ~ leftmost_argmin_in (L t) 0 (3 + 1) 2.
Proof.
  eexists. split; [vm_compute; reflexivity|]. split; [reflexivity|].
  split; [vm_compute; reflexivity|].
  intros [_ Hleft]. specialize (Hleft 0). cut (2 <= 0); [lia|]. apply Hleft.
  split; [lia|]. exists 0. split; [reflexivity|].
  intros q lq Hq Hlq.
  assert (q = 0 \/ q = 1 \/ q = 2 \/ q = 3) as [-> | [-> | [-> | ->]]] by lia;
    vm_compute in Hlq; injection Hlq as <-; lia.
Qed.

(** ** Rooted trees given by parent links *)

Lemma depth_from_le par f : forall i d, depth_from f par i = Some d -> (d <= f)%nat.
Proof.
  induction f as [|f IH]; intros i d; simpl; destruct (par i =? i)%nat; try congruence.
  - intros [= <-]. lia.
  - intros [= <-]. lia.
  - destruct (depth_from f par (par i)) as [d'|] eqn:Hd; simpl; [|discriminate].
    intros [= <-]. apply IH in Hd. lia.
Qed.

Lemma depth_from_self par f i : par i = i -> depth_from f par i = Some O.
Proof. intros He. destruct f; simpl; rewrite He, Nat.eqb_refl; reflexivity. Qed.

Lemma depth_from_up par f i d :
  depth_from f par i = Some d -> par i <> i ->
  exists f' d', f = S f' /\ d = S d' /\ depth_from f' par (par i) = Some d'.
Proof.
  intros Hd Hne. destruct f as [|f]; simpl in Hd;
    destruct (Nat.eqb_spec (par i) i) as [?|_]; try contradiction; try discriminate.
  destruct (depth_from f par (par i)) as [d'|] eqn:Hd'; simpl in Hd; [|discriminate].
  injection Hd as <-. eauto.
Qed.

Lemma depth_from_mono par f : forall i d f',
  depth_from f par i = Some d -> (f <= f')%nat -> depth_from f' par i = Some d.
Proof.
  induction f as [|f IH]; intros i d f'; simpl.
  - destruct (par i =? i)%nat eqn:Hp; [|discriminate]. intros [= <-] _.
    destruct f'; simpl; rewrite Hp; reflexivity.
  - destruct (par i =? i)%nat eqn:Hp.
    + intros [= <-] _. destruct f'; simpl; rewrite Hp; reflexivity.
    + destruct (depth_from f par (par i)) as [d'|] eqn:Hd; simpl; [|discriminate].
      intros [= <-] Hle. destruct f' as [|f']; [lia|]. simpl. rewrite Hp.
      rewrite (IH _ _ f' Hd) by lia. reflexivity.
Qed.


Section Tree.

Local Open Scope nat_scope.

Context (N : nat) (par : nat -> nat) (r : nat).
Hypothesis Htree : rooted N par r.

Local Abbreviation dep i := (default O (depth_from N par i)).

Lemma rooted_lt : r < N.
Proof using Htree. by destruct Htree as (? & ? & ? & ? & ?). Qed.
Lemma rooted_self : par r = r.
Proof using Htree. by destruct Htree as (? & ? & ? & ? & ?). Qed.
Lemma rooted_par i : i < N -> par i < N.
Proof using Htree. destruct Htree as (? & ? & ? & ? & ?). auto. Qed.
Lemma rooted_unique i : i < N -> par i = i -> i = r.
Proof using Htree. destruct Htree as (? & ? & ? & ? & ?). auto. Qed.
Lemma rooted_depth i : i < N -> is_Some (depth_from N par i).
Proof using Htree. destruct Htree as (? & ? & ? & ? & ?). auto. Qed.

Lemma dep_root : dep r = 0.
Proof using Htree. rewrite depth_from_self by apply rooted_self. done. Qed.

Lemma dep_step i : i < N -> par i <> i -> dep i = S (dep (par i)) /\ dep i <= N.
Proof using Htree.
  intros Hi Hne. destruct (rooted_depth i Hi) as [d Hd]. rewrite Hd. simpl.
  destruct (depth_from_up _ _ _ _ Hd Hne) as (f & d' & Hf & -> & Hd').
  pose proof (depth_from_le _ _ _ _ Hd').
  rewrite (depth_from_mono _ _ _ _ N Hd') by lia. simpl. lia.
Qed.

Lemma dep_le i : i < N -> dep i <= N.
Proof using Htree.
  intros Hi. destruct (decide (par i = i)) as [He|Hne].
  - rewrite (rooted_unique i Hi He), dep_root. lia.
  - apply dep_step; done.
Qed.

Lemma dep_zero i : i < N -> dep i = 0 -> i = r.
Proof using Htree.
  intros Hi H0. destruct (decide (par i = i)) as [He|Hne]; [by apply rooted_unique|].
  destruct (dep_step i Hi Hne) as [HS _]. lia.
Qed.

Lemma kids_spec v c : c ∈ kids N par v <-> c < N /\ par c = v /\ par c <> c.
Proof using Htree.
  unfold kids. rewrite list_elem_of_filter, elem_of_seq. intuition lia.
Qed.

Lemma kids_NoDup v : NoDup (kids N par v).
Proof using Htree. apply NoDup_filter, NoDup_seq. Qed.

Lemma kid_dep v c : c ∈ kids N par v -> c < N /\ c <> r /\ dep c = S (dep v) /\ dep c <= N.
Proof using Htree.
  intros (Hc & Hp & Hne)%kids_spec. destruct (dep_step c Hc Hne) as [HS Hle].
  rewrite Hp in HS. repeat split; try done. intros ->. apply Hne, rooted_self.
Qed.

Lemma pre_anc f : forall v u,
  v < N -> u ∈ pre f N par v ->
  u < N /\ dep v <= dep u /\ Nat.iter (dep u - dep v) par u = v.
Proof using Htree.
  induction f as [|f IH]; intros v u Hv Hu; simpl in Hu.
  - by apply elem_of_nil in Hu.
  - apply elem_of_cons in Hu as [->|Hu].
    + rewrite Nat.sub_diag. done.
    + apply list_elem_of_bind in Hu as (c & Hu & Hc).
      pose proof (kid_dep v c Hc) as (Hc' & _ & HS & _).
      destruct (IH c u Hc' Hu) as (Hu' & Hle & Hit).
      split; [done|]. split; [lia|].
      replace (dep u - dep v) with (S (dep u - dep c)) by lia. simpl. rewrite Hit.
      by apply kids_spec in Hc as (_ & ? & _).
Qed.

Lemma pre_NoDup f : forall v, v < N -> NoDup (pre f N par v).
Proof using Htree.
  induction f as [|f IH]; intros v Hv; simpl; [constructor|].
  apply NoDup_cons. split.
  - intros (c & Hu & Hc)%list_elem_of_bind.
    pose proof (kid_dep v c Hc) as (Hc' & _ & HS & _).
    destruct (pre_anc f c v Hc' Hu) as (_ & Hle & _). lia.
  - apply NoDup_bind; [| |apply kids_NoDup].
    + intros c1 c2 y Hc1 Hc2 Hy1 Hy2.
      pose proof (kid_dep v c1 Hc1) as (Hc1' & _ & HS1 & _).
      pose proof (kid_dep v c2 Hc2) as (Hc2' & _ & HS2 & _).
      destruct (pre_anc f c1 y Hc1' Hy1) as (_ & _ & Hit1).
      destruct (pre_anc f c2 y Hc2' Hy2) as (_ & _ & Hit2).
      rewrite <- Hit1, <- Hit2, HS1, HS2. reflexivity.
    + intros c Hc. apply IH. by apply kid_dep in Hc as (? & _).
Qed.

Lemma pre_self f v : v ∈ pre (S f) N par v.
Proof using Htree. simpl. apply list_elem_of_here. Qed.

Lemma pre_kid f : forall v p u,
  p ∈ pre f N par v -> u ∈ kids N par p -> u ∈ pre (S f) N par v.
Proof using Htree.
  induction f as [|f IH]; intros v p u Hp Hu; simpl in Hp.
  - by apply elem_of_nil in Hp.
  - change (pre (S (S f)) N par v) with (v :: (kids N par v ≫= pre (S f) N par)).
    apply list_elem_of_further, list_elem_of_bind.
    apply elem_of_cons in Hp as [->|Hp].
    + exists u. split; [apply pre_self | done].
    + apply list_elem_of_bind in Hp as (c & Hp & Hc).
      exists c. split; [|done]. eapply IH; eauto.
Qed.

Lemma pre_all d : forall u f, u < N -> dep u = d -> d < f -> u ∈ pre f N par r.
Proof using Htree.
  induction d as [|d IH]; intros u f Hu Hd Hf.
  - rewrite (dep_zero u Hu Hd). destruct f; [lia|]. apply pre_self.
  - assert (Hne : par u <> u).
    { intros He. rewrite (rooted_unique u Hu He), dep_root in Hd. lia. }
    destruct (dep_step u Hu Hne) as [HS _].
    destruct f as [|f]; [lia|].
    apply (pre_kid f r (par u) u).
    + apply IH; [by apply rooted_par | lia | lia].
    + apply kids_spec. done.
Qed.

Lemma pre_length f : N < f -> length (pre f N par r) = N.
Proof using Htree.
  intros Hf. transitivity (length (seq 0 N)); [|apply length_seq]. apply Permutation_length.
  apply NoDup_Permutation; [apply pre_NoDup, rooted_lt | apply NoDup_seq|].
  intros u. rewrite elem_of_seq. split.
  - intros Hu. apply (pre_anc f r u rooted_lt) in Hu. lia.
  - intros [_ Hu]. apply (pre_all (dep u)); [lia | done|].
    pose proof (dep_le u ltac:(lia)). lia.
Qed.

Lemma euler_length f : forall v lvl,
  length (euler f N par v lvl) = 2 * length (pre f N par v).
Proof using Htree.
  induction f as [|f IH]; intros v lvl; simpl; [done|].
  rewrite length_app. simpl.
  enough (length (kids N par v ≫= fun c => euler f N par c (lvl + 1)%Z)
          = 2 * length (kids N par v ≫= pre f N par)) by lia.
  induction (kids N par v) as [|c cs IHcs]; [done|].
  rewrite !bind_cons, !length_app, IH, IHcs. lia.
Qed.

(** Below the root every entry of a tour carries the depth of its record. *)
Lemma euler_levels f : forall v u l,
  v < N -> v <> r -> (u, l) ∈ euler f N par v (Z.of_nat (dep v)) ->
  u < N /\ l = Z.of_nat (dep u).
Proof using Htree.
  induction f as [|f IH]; intros v u l Hv Hne Hu; simpl in Hu.
  - by apply elem_of_nil in Hu.
  - assert (Hpv : par v <> v) by (intros He; by apply Hne, rooted_unique).
    destruct (dep_step v Hv Hpv) as [HS _].
    apply elem_of_cons in Hu as [[= -> ->]|Hu]; [done|].
    apply elem_of_app in Hu as [Hu|Hu].
    + apply list_elem_of_bind in Hu as (c & Hu & Hc).
      pose proof (kid_dep v c Hc) as (Hc' & Hcr & HSc & _).
      apply (IH c u l Hc' Hcr).
      replace (Z.of_nat (dep c)) with (Z.of_nat (dep v) + 1)%Z by lia. done.
    + apply list_elem_of_singleton in Hu as [= -> ->].
      split; [by apply rooted_par | lia].
Qed.

(** The tour from the root: the root on level 0, the tours of its children,
    and a last entry that names the root on level -1. *)
Lemma euler_root f :
  exists body,
    euler (S f) N par r 0 = (r, 0%Z) :: body ++ [(r, (-1)%Z)]
    /\ forall u l, (u, l) ∈ body -> u < N /\ l = Z.of_nat (dep u).
Proof using Htree.
  exists (kids N par r ≫= fun c => euler f N par c 1%Z). split.
  - simpl. rewrite rooted_self. reflexivity.
  - intros u l (c & Hu & Hc)%list_elem_of_bind.
    pose proof (kid_dep r c Hc) as (Hc' & Hcr & HSc & _).
    rewrite dep_root in HSc. apply (euler_levels f c u l Hc' Hcr).
    rewrite HSc. done.
Qed.

End Tree.

(** ** A store that holds a tree *)

Lemma depth_from_reaches_root par f : forall i d,
  depth_from f par i = Some d -> par (Nat.iter d par i) = Nat.iter d par i.
Proof.
  induction f as [|f IH]; intros i d Hd; simpl in Hd;
    destruct (Nat.eqb_spec (par i) i) as [He|Hne]; try discriminate.
  - injection Hd as <-. done.
  - injection Hd as <-. done.
  - destruct (depth_from f par (par i)) as [d'|] eqn:Hd'; simpl in Hd; [|discriminate].
    injection Hd as <-. apply IH in Hd'.
    rewrite Nat.iter_succ_r. done.
Qed.

Section StoreTree.

Context (st : Store).
Hypothesis Hwf : tree_store st = true.

Local Abbreviation N := (length (taxonNodes st)).
Local Abbreviation par := (parent_index st).
Local Abbreviation r := (root_index st).

Lemma tree_record i n :
  taxonNodes st !! i = Some n ->
  0 < taxId n
  /\ at_ (D st) (taxId n) = Ok (Z.of_nat i)
  /\ at_ (D st) (parentTaxId n) = Ok (Z.of_nat (par i))
  /\ (exists m, taxonNodes st !! par i = Some m /\ taxId m = parentTaxId n)
  /\ (parentTaxId n = taxId n -> taxId n = 1)
  /\ is_Some (depth_from N par i).
Proof.
  intros Hn. unfold tree_store in Hwf. apply andb_prop in Hwf as [Hall _].
  rewrite forallb_forall in Hall. specialize (Hall i).
  assert (Hi : (i < N)%nat) by (by apply lookup_lt_Some in Hn).
  assert (Hin : In i (seq 0 N)) by (apply in_seq; lia).
  apply Hall in Hin. unfold record_ok in Hin. rewrite Hn in Hin.
  repeat (apply andb_prop in Hin as [Hin ?]).
  repeat match goal with H : bool_decide _ = true |- _ => apply bool_decide_eq_true in H end.
  split; [lia|]. split; [done|]. split; [done|]. split.
  - destruct (taxonNodes st !! par i) as [m|]; [|discriminate]. exists m. split; [done | lia].
  - split; [|done]. intros He.
    destruct (Z.eqb_spec (taxId n) 1); [done|]. simpl in *.
    destruct (Z.eqb_spec (parentTaxId n) (taxId n)); [discriminate | contradiction].
Qed.

Lemma tree_nodeId i n : taxonNodes st !! i = Some n -> nodeId st (taxId n) = Ok (Z.of_nat i).
Proof.
  intros Hn. destruct (tree_record i n Hn) as (Hpos & HD & _).
  apply nodeId_Ok. split; [lia|]. split; [done | lia].
Qed.

Lemma tree_parent_nodeId i n :
  taxonNodes st !! i = Some n -> nodeId st (parentTaxId n) = Ok (Z.of_nat (par i)).
Proof.
  intros Hn. destruct (tree_record i n Hn) as (_ & _ & HD & (m & Hm & Hid) & _).
  destruct (tree_record _ m Hm) as (Hpos & _).
  apply nodeId_Ok. split; [lia|]. split; [done | lia].
Qed.

Lemma tree_par_lt i : (i < N)%nat -> (par i < N)%nat.
Proof.
  intros Hi. destruct (lookup_lt_is_Some_2 _ _ Hi) as [n Hn].
  destruct (tree_record i n Hn) as (_ & _ & _ & (m & Hm & _) & _).
  by apply lookup_lt_Some in Hm.
Qed.

Lemma tree_self_parent i n :
  taxonNodes st !! i = Some n -> (par i = i <-> parentTaxId n = taxId n).
Proof.
  intros Hn. destruct (tree_record i n Hn) as (_ & HD & HDp & (m & Hm & Hid) & _).
  split.
  - intros He. rewrite He in Hm. congruence.
  - intros He. rewrite He, HD in HDp. injection HDp as HDp. lia.
Qed.

Lemma tree_root_unique i : (i < N)%nat -> par i = i -> i = r.
Proof.
  intros Hi He. destruct (lookup_lt_is_Some_2 _ _ Hi) as [n Hn].
  destruct (tree_record i n Hn) as (_ & HD & _ & _ & H1 & _).
  apply (tree_self_parent i n Hn) in He. rewrite (H1 He) in HD.
  unfold root_index. rewrite HD. lia.
Qed.

Lemma tree_root : (r < N)%nat /\ par r = r /\ tid st r = 1.
Proof.
  pose proof Hwf as Hex. unfold tree_store in Hex. apply andb_prop in Hex as [_ Hex].
  apply bool_decide_eq_true in Hex. apply list_elem_of_fmap in Hex as (n & Hid & Hn).
  apply list_elem_of_lookup in Hn as [i Hn].
  destruct (tree_record i n Hn) as (_ & HD & _ & _ & _ & [d Hd]).
  assert (Hi : (i < N)%nat) by (by apply lookup_lt_Some in Hn).
  assert (Hir : i = r). { unfold root_index. rewrite Hid, HD. lia. }
  rewrite <- Hir. split; [done|]. split; [|unfold tid; by rewrite Hn].
  (* the parent links from [i] end at a record that is its own parent; that
     record has external id 1, as [i] has *)
  set (s := Nat.iter d par i).
  assert (Hs : par s = s) by (eapply depth_from_reaches_root; eauto).
  assert (HsN : (s < N)%nat).
  { unfold s. clear Hd Hs. induction d as [|d IH]; simpl; [done|]. by apply tree_par_lt. }
  pose proof (tree_root_unique s HsN Hs). congruence.
Qed.

Lemma tree_depth_Some i : (i < N)%nat -> is_Some (depth_from N par i).
Proof.
  intros Hi. destruct (lookup_lt_is_Some_2 _ _ Hi) as [n Hn].
  by destruct (tree_record i n Hn) as (_ & _ & _ & _ & _ & ?).
Qed.

End StoreTree.

(** ** The Euler tour *)

Lemma bind_ret {A} (m : res A) : bind m Ok = m.
Proof. by destruct m. Qed.

Lemma at_app_l {A} (v w : list A) (i : Z) (x : A) :
  at_ v i = Ok x -> at_ (v ++ w) i = Ok x.
Proof.
  intros [Hi Hx]%at_Ok. apply at_Ok. split; [done|]. by apply lookup_app_l_Some.
Qed.

Lemma at_app_end {A} (v : list A) (x : A) :
  at_ (v ++ [x]) (Z.of_nat (length v)) = Ok x.
Proof.
  apply at_Ok. split; [lia|]. rewrite Nat2Z.id. apply list_lookup_middle. done.
Qed.

Lemma tour_extends_refl st t : tour_extends st t t [] [].
Proof.
  unfold tour_extends. simpl. rewrite !app_nil_r.
  split; [done|]. split; [done|]. split; [done|]. intros Hinv.
  split; [done|]. split; [auto|]. intros u Hu. by apply elem_of_nil in Hu.
Qed.

Lemma tour_extends_trans st t1 t2 t3 seg1 seg2 e1 e2 :
  tour_extends st t1 t2 seg1 e1 -> tour_extends st t2 t3 seg2 e2 ->
  tour_extends st t1 t3 (seg1 ++ seg2) (e1 ++ e2).
Proof.
  intros (HE1 & HL1 & HH1 & H1) (HE2 & HL2 & HH2 & H2).
  unfold tour_extends. rewrite HE2, HE1, HL2, HL1, !fmap_app, !app_assoc.
  split; [done|]. split; [done|]. split; [congruence|].
  intros Hinv. destruct (H1 Hinv) as (Hinv2 & Hmono1 & Hent1).
  destruct (H2 Hinv2) as (Hinv3 & Hmono2 & Hent2).
  split; [done|]. split; [auto|].
  intros u [Hu|Hu]%elem_of_app; auto.
Qed.

Section Traversal.

Context (st : Store).
Hypothesis Hwf : tree_store st = true.

Local Abbreviation N := (length (taxonNodes st)).
Local Abbreviation par := (parent_index st).
Local Abbreviation r := (root_index st).
Local Abbreviation dep := (tree_depth st).

(** The children lists after the first [m] records. *)
Lemma make_children_prefix m :
  (m <= N)%nat ->
  exists ch, foldM (add_child st) (replicate N []) (take m (taxonNodes st)) = Ok ch
    /\ length ch = N
    /\ forall v, (v < N)%nat -> ch !! v = Some (tid st <$> kids m par v).
Proof.
  induction m as [|m IH]; intros Hm.
  - exists (replicate N []). split; [done|]. split; [apply length_replicate|].
    intros v Hv. rewrite lookup_replicate_2 by done. reflexivity.
  - destruct IH as (ch & Hrun & Hlen & Hch); [lia|].
    destruct (lookup_lt_is_Some_2 (taxonNodes st) m ltac:(lia)) as [n Hn].
    rewrite (take_S_r _ _ _ Hn), foldM_app, Hrun. simpl. rewrite bind_ret.
    assert (Hseq : forall v, kids (S m) par v
               = kids m par v ++ filter (fun i => par i = v /\ par i <> i) [m]).
    { intros v. unfold kids. rewrite seq_S, filter_app. reflexivity. }
    unfold add_child.
    destruct (Z.eqb_spec (parentTaxId n) (taxId n)) as [He|Hne].
    + apply (tree_self_parent st Hwf m n Hn) in He.
      exists ch. split; [done|]. split; [done|]. intros v Hv.
      rewrite Hseq, filter_cons_False, filter_nil, app_nil_r by tauto. auto.
    + assert (Hpm : par m <> m) by (by rewrite (tree_self_parent st Hwf m n Hn)).
      rewrite (tree_parent_nodeId st Hwf m n Hn). simpl.
      pose proof (tree_par_lt st Hwf m ltac:(lia)) as Hp.
      rewrite (at_of_nat _ _ _ (Hch _ Hp)). simpl.
      eexists. split; [apply set_Ok; split; [lia | reflexivity]|].
      split; [by rewrite length_insert|]. intros v Hv. rewrite Nat2Z.id.
      destruct (decide (par m = v)) as [<-|Hv'].
      * rewrite list_lookup_insert_eq by lia.
        rewrite Hseq, filter_cons_True, filter_nil, fmap_app by tauto.
        assert (Htid : tid st m = taxId n) by (unfold tid; by rewrite Hn).
        simpl. rewrite Htid. reflexivity.
      * rewrite list_lookup_insert_ne by done.
        rewrite Hseq, filter_cons_False, filter_nil, app_nil_r by tauto. auto.
Qed.

Lemma make_children_ok :
  exists ch, make_children st = Ok ch
    /\ forall v, (v < N)%nat -> at_ ch (Z.of_nat v) = Ok (tid st <$> kids N par v).
Proof.
  destruct (make_children_prefix N ltac:(lia)) as (ch & Hrun & _ & Hch).
  rewrite take_ge in Hrun by lia.
  exists ch. split; [done|]. intros v Hv. apply at_of_nat. auto.
Qed.

End Traversal.

Lemma store_rooted st :
  tree_store st = true ->
  rooted (length (taxonNodes st)) (parent_index st) (root_index st).
Proof.
  intros Hwf. destruct (tree_root st Hwf) as (Hr & Hrr & _).
  split; [done|]. split; [done|]. split; [apply (tree_par_lt st Hwf)|].
  split; [apply (tree_root_unique st Hwf) | apply (tree_depth_Some st Hwf)].
Qed.

Section Elh.

Context (st : Store) (ch : list (list TaxID)).
Hypothesis Hwf : tree_store st = true.

Local Abbreviation N := (length (taxonNodes st)).
Local Abbreviation par := (parent_index st).
Local Abbreviation r := (root_index st).
Local Abbreviation dep := (tree_depth st).

Hypothesis Hch : forall v, (v < N)%nat -> at_ ch (Z.of_nat v) = Ok (tid st <$> kids N par v).

Lemma registered_grow t u xs ys Hv :
  at_ Hv (Z.of_nat u) = at_ (tH t) (Z.of_nat u) ->
  registered st t u -> registered st (mkTour (tE t ++ xs) (tL t ++ ys) Hv) u.
Proof using Type.
  intros HH (p & Hp & HE & HL). exists p. simpl.
  split; [congruence|]. split; by apply at_app_l.
Qed.

Lemma enter_step t v h H' :
  at_ (tH t) (Z.of_nat v) = Ok h ->
  (if h =? 0 then set_ (tH t) (Z.of_nat v) (Z.of_nat (length (tE t))) else Ok (tH t)) = Ok H' ->
  tour_extends st t (mkTour (tE t ++ [Z.of_nat v]) (tL t ++ [Z.of_nat (dep v)]) H')
    [(v, Z.of_nat (dep v))] [v].
Proof using Type.
  intros Hh HH'. split; [done|]. split; [done|]. split.
  { simpl. destruct (h =? 0); [by apply set_length in HH' | by injection HH' as <-]. }
  intros [Hlen Hinv].
  assert (Hother : forall u, u <> v \/ h <> 0 -> at_ H' (Z.of_nat u) = at_ (tH t) (Z.of_nat u)).
  { intros u Hu. destruct (Z.eqb_spec h 0) as [->|Hh0].
    - destruct Hu as [Hu|?]; [|done]. eapply at_set_ne; [exact HH' | lia].
    - by injection HH' as <-. }
  assert (Hregv : registered st (mkTour (tE t ++ [Z.of_nat v]) (tL t ++ [Z.of_nat (dep v)]) H') v).
  { destruct (Z.eqb_spec h 0) as [->|Hh0].
    - exists (Z.of_nat (length (tE t))). simpl.
      split; [eapply at_set_eq; exact HH'|]. split; [apply at_app_end|].
      rewrite Hlen. apply at_app_end.
    - apply registered_grow; [apply Hother; auto|]. eapply Hinv; eauto. }
  assert (Hmono : forall u, registered st t u ->
            registered st (mkTour (tE t ++ [Z.of_nat v]) (tL t ++ [Z.of_nat (dep v)]) H') u).
  { intros u Hu. destruct (decide (u = v)) as [->|Hne]; [done|].
    apply registered_grow; [apply Hother; auto | done]. }
  split; [|split; [done|]].
  - split; [simpl; rewrite !length_app; simpl; lia|].
    intros u p Hp Hp0. destruct (decide (u = v)) as [->|Hne]; [done|].
    apply Hmono. simpl in Hp. rewrite Hother in Hp by auto. eapply Hinv; eauto.
  - intros u ->%list_elem_of_singleton. done.
Qed.

Lemma return_step t p l :
  tour_extends st t (mkTour (tE t ++ [Z.of_nat p]) (tL t ++ [l]) (tH t)) [(p, l)] [].
Proof using Type.
  split; [done|]. split; [done|]. split; [done|]. intros [Hlen Hinv].
  assert (Hmono : forall u, registered st t u ->
            registered st (mkTour (tE t ++ [Z.of_nat p]) (tL t ++ [l]) (tH t)) u).
  { intros u Hu. by apply registered_grow. }
  split; [|split; [done|]].
  - split; [simpl; rewrite !length_app; simpl; lia|].
    intros u q Hq Hq0. apply Hmono. eapply Hinv; eauto.
  - intros u Hu. by apply elem_of_nil in Hu.
Qed.

(** The loop over the children of [v], given the contract of the calls. *)
Lemma kids_loop f v :
  elh_spec st ch f ->
  (N < f + S (dep v))%nat ->
  forall cs t,
    (forall c, c ∈ cs -> c ∈ kids N par v) ->
    length (tH t) = N ->
    exists t',
      foldM (fun t' child => elh f st ch child (Z.of_nat (dep v) + 1) t') t (tid st <$> cs)
        = Ok t'
      /\ tour_extends st t t'
           (cs ≫= fun c => euler f N par c (Z.of_nat (dep v) + 1))
           (cs ≫= pre f N par).
Proof using Hwf.
  intros IH Hfuel. induction cs as [|c cs IHcs]; intros t Hcs HlenH.
  - exists t. split; [done|]. apply tour_extends_refl.
  - pose proof (kid_dep N par r (store_rooted st Hwf) v c
                  (Hcs c ltac:(apply list_elem_of_here))) as (Hc & _ & HS & _).
    fold (dep c) in HS. fold (dep v) in HS.
    destruct (lookup_lt_is_Some_2 _ _ Hc) as [n Hn].
    destruct (IH c n t Hn ltac:(lia) HlenH) as (t1 & Hrun1 & Hext1).
    destruct (IHcs t1) as (t2 & Hrun2 & Hext2).
    { intros c' Hc'. apply Hcs. by apply list_elem_of_further. }
    { destruct Hext1 as (_ & _ & -> & _). done. }
    exists t2. split.
    + rewrite fmap_cons. simpl.
      replace (tid st c) with (taxId n) by (unfold tid; by rewrite Hn).
      replace (Z.of_nat (dep v) + 1) with (Z.of_nat (dep c)) by lia.
      rewrite Hrun1. simpl.
      replace (Z.of_nat (dep c)) with (Z.of_nat (dep v) + 1) by lia. exact Hrun2.
    + rewrite !bind_cons.
      replace (Z.of_nat (dep v) + 1) with (Z.of_nat (dep c)) at 1 by lia.
      eapply tour_extends_trans; eauto.
Qed.

Lemma elh_spec_S f : elh_spec st ch f -> elh_spec st ch (S f).
Proof using Hwf Hch.
  intros IH v n t Hn Hfuel HlenH.
  assert (Hv : (v < N)%nat) by (by apply lookup_lt_Some in Hn).
  destruct (tree_record st Hwf v n Hn) as (Hpos & _).
  simpl. destruct (Z.ltb_spec 0 (taxId n)) as [_|?]; [|lia]. simpl.
  rewrite (tree_nodeId st Hwf v n Hn). simpl.
  destruct (at_in_range (tH t) (Z.of_nat v) ltac:(lia)) as [h Hh]. rewrite Hh. simpl.
  assert (HH' : exists H', (if h =? 0
                            then set_ (tH t) (Z.of_nat v) (Z.of_nat (length (tE t)))
                            else Ok (tH t)) = Ok H').
  { destruct (h =? 0); [|eauto]. eexists. apply set_Ok. split; [lia | reflexivity]. }
  destruct HH' as [H' HH']. rewrite HH'. simpl.
  pose proof (enter_step t v h H' Hh HH') as Hext1.
  rewrite (Hch v Hv). simpl.
  destruct (kids_loop f v IH ltac:(lia) (kids N par v)
              (mkTour (tE t ++ [Z.of_nat v]) (tL t ++ [Z.of_nat (dep v)]) H'))
    as (t2 & Hrun2 & Hext2); [done | |].
  { destruct Hext1 as (_ & _ & -> & _). done. }
  rewrite Hrun2. simpl.
  rewrite (at_of_nat _ _ _ Hn). simpl.
  rewrite (tree_parent_nodeId st Hwf v n Hn). simpl.
  eexists. split; [reflexivity|].
  pose proof (return_step t2 (par v) (Z.of_nat (dep v) - 1)) as Hext3.
  pose proof (tour_extends_trans _ _ _ _ _ _ _ _ Hext1
                (tour_extends_trans _ _ _ _ _ _ _ _ Hext2 Hext3)) as Hext.
  rewrite app_nil_r in Hext. exact Hext.
Qed.

Lemma elh_spec_all f : elh_spec st ch f.
Proof using Hwf Hch.
  induction f as [|f IH]; [|by apply elh_spec_S].
  intros v n t Hn Hfuel _. exfalso.
  assert (Hv : (v < N)%nat) by (by apply lookup_lt_Some in Hn).
  pose proof (dep_le N par r (store_rooted st Hwf) v Hv) as Hle.
  fold (dep v) in Hle. lia.
Qed.

End Elh.

Lemma resize_id {A} (v : list A) (n : Z) (x : A) :
  Z.of_nat (length v) = n -> resize_ v n x = v.
Proof.
  intros <-. unfold resize_. rewrite Nat2Z.id, Nat.sub_diag, take_ge by lia.
  apply app_nil_r.
Qed.

(** The engine of a tree store: the tour is the one of [euler] from the root,
    and every record is registered in [H]. *)
Lemma index_store_tour fuel st :
  tree_store st = true ->
  (length (taxonNodes st) < fuel)%nat ->
  exists t, index_store fuel st = Ok t
    /\ store t = st
    /\ maxNodes t = Z.of_nat (length (taxonNodes st))
    /\ E t = (fun e => Z.of_nat e.1)
               <$> euler fuel (length (taxonNodes st)) (parent_index st) (root_index st) 0
    /\ L t = snd <$> euler fuel (length (taxonNodes st)) (parent_index st) (root_index st) 0
    /\ Z.of_nat (length (E t)) = 2 * Z.of_nat (length (taxonNodes st))
    /\ forall u, (u < length (taxonNodes st))%nat ->
         registered st (mkTour (E t) (L t) (H t)) u.
Proof.
  intros Hwf Hfuel. pose proof (store_rooted st Hwf) as Hrooted.
  destruct (make_children_ok st Hwf) as (ch & Hch & Hkids).
  destruct (tree_root st Hwf) as (Hr & Hrr & Htid).
  destruct (lookup_lt_is_Some_2 _ _ Hr) as [n Hn].
  assert (Hn1 : taxId n = 1) by (unfold tid in Htid; by rewrite Hn in Htid).
  set (N := length (taxonNodes st)) in *.
  set (par := parent_index st) in *. set (r := root_index st) in *.
  assert (Hdr : tree_depth st r = O).
  { unfold tree_depth. apply (dep_root N par r Hrooted). }
  destruct (elh_spec_all st ch Hwf Hkids fuel r n (mkTour [] [] (replicate N 0)) Hn)
    as (t' & Hrun & HE & HL & HH & Hprops).
  { lia. } { apply length_replicate. }
  rewrite Hn1, Hdr in Hrun. rewrite Hdr in HE, HL.
  change (Z.of_nat 0) with 0 in Hrun, HE, HL. simpl in HE, HL, HH.
  destruct Hprops as (_ & _ & Hent).
  { split; [done|]. intros u p [_ Hp]%at_Ok Hp0. simpl in Hp.
    apply lookup_replicate in Hp as [-> _]. done. }
  assert (Hlen : Z.of_nat (length (tE t')) = 2 * Z.of_nat N).
  { rewrite HE, length_fmap, (euler_length N par r Hrooted), (pre_length N par r Hrooted) by lia.
    lia. }
  assert (HlenL : Z.of_nat (length (tL t')) = 2 * Z.of_nat N).
  { rewrite HL, length_fmap. rewrite HE, length_fmap in Hlen. done. }
  destruct (InitRangeMinimumQuery_ok (tL t') (Z.of_nat N) ltac:(lia) ltac:(lia)) as (M' & HM & _).
  exists (mkNcbiTaxonomy st (Z.of_nat N) (tE t') (tL t') (tH t') M').
  split.
  { unfold index_store. fold N. rewrite Hch. simpl. rewrite Hrun. simpl.
    rewrite !resize_id by lia. rewrite HM. reflexivity. }
  simpl. split; [done|]. split; [done|]. split; [done|]. split; [done|]. split; [done|].
  intros u Hu. destruct t' as [E' L' H']. apply Hent.
  apply (pre_all N par r Hrooted (tree_depth st u)); [done | done|].
  assert (Hle : (tree_depth st u <= N)%nat) by apply (dep_le N par r Hrooted u Hu).
  lia.
Qed.

(** C5.  For a store that holds a tree of [N] records rooted at taxon 1, the
    constructor succeeds (with fuel above [N]) and the Euler arrays have
    length [2 N], start and end at the internal index of the root, every
    record [v] has [H[v]] pointing at an entry that names [v] with the depth of
    [v] in the tree; and every entry naming [v], the last entry of the tour
    apart, carries that depth. *)
Theorem C5_euler_tour_arrays fuel st :
  tree_store st = true ->
  (length (taxonNodes st) < fuel)%nat ->
  exists t, index_store fuel st = Ok t
    /\ Z.of_nat (length (E t)) = 2 * Z.of_nat (length (taxonNodes st))
    /\ Z.of_nat (length (L t)) = 2 * Z.of_nat (length (taxonNodes st))
    /\ at_ (E t) 0 = Ok (Z.of_nat (root_index st))
    /\ at_ (E t) (2 * Z.of_nat (length (taxonNodes st)) - 1) = Ok (Z.of_nat (root_index st))
    /\ forall v, (v < length (taxonNodes st))%nat ->
         (exists p, at_ (H t) (Z.of_nat v) = Ok p
            /\ at_ (E t) p = Ok (Z.of_nat v)
            /\ at_ (L t) p = Ok (Z.of_nat (tree_depth st v)))
         /\ (forall pos, 0 <= pos < 2 * Z.of_nat (length (taxonNodes st)) - 1 ->
               at_ (E t) pos = Ok (Z.of_nat v) ->
               at_ (L t) pos = Ok (Z.of_nat (tree_depth st v))).
Proof.
  intros Hwf Hfuel. pose proof (store_rooted st Hwf) as Hrooted.
  destruct (index_store_tour fuel st Hwf Hfuel) as (t & Hrun & _ & _ & HE & HL & Hlen & Hreg).
  exists t. split; [done|]. split; [done|].
  set (N := length (taxonNodes st)) in *.
  set (par := parent_index st) in *. set (r := root_index st) in *.
  destruct fuel as [|f]; [lia|].
  destruct (euler_root N par r Hrooted f) as (body & Heul & Hbody).
  rewrite Heul in HE, HL. rewrite fmap_cons, fmap_app in HE, HL. simpl in HE, HL.
  assert (HlenL : length (L t) = length (E t)) by (rewrite HE, HL; simpl; by rewrite !length_app, !length_fmap).
  split; [lia|].
  assert (Hbl : Z.of_nat (length body) = 2 * Z.of_nat N - 2).
  { rewrite HE in Hlen. simpl in Hlen. rewrite length_app, length_fmap in Hlen. simpl in Hlen. lia. }
  split; [by rewrite HE|]. split.
  { rewrite HE. apply at_Ok. split; [lia|].
    replace (Z.to_nat (2 * Z.of_nat N - 1)) with (S (length body)) by lia.
    simpl. rewrite <- (length_fmap (fun e : nat * Z => Z.of_nat e.1) body) at 1.
    apply list_lookup_middle. done. }
  intros v Hv. split; [apply (Hreg v Hv)|].
  intros pos Hpos [_ Hat]%at_Ok. apply at_Ok. split; [lia|].
  rewrite HE in Hat. rewrite HL.
  destruct (Z.to_nat pos) as [|k] eqn:Hk.
  - simpl in *. injection Hat as Hat. assert (v = r) as -> by lia.
    unfold tree_depth. fold N par. by rewrite (dep_root N par r Hrooted).
  - simpl in *. rewrite lookup_app_l in Hat by (rewrite length_fmap; lia).
    rewrite lookup_app_l by (rewrite length_fmap; lia).
    rewrite list_lookup_fmap in Hat. rewrite list_lookup_fmap.
    destruct (body !! k) as [[u l]|] eqn:Hul; [|discriminate]. simpl in *.
    injection Hat as Hat. assert (u = v) as -> by lia.
    destruct (Hbody v l) as [_ ->]; [by eapply list_elem_of_lookup_2|]. done.
Qed.

(** C5 (instance): the tree of six records. *)
Lemma C5_witness :
  tree_store store6 = true
  /\ (length (taxonNodes store6) < 7)%nat
  /\ exists t, index_store 7 store6 = Ok t
    /\ Z.of_nat (length (E t)) = 2 * Z.of_nat (length (taxonNodes store6))
    /\ Z.of_nat (length (L t)) = 2 * Z.of_nat (length (taxonNodes store6))
    /\ at_ (E t) 0 = Ok (Z.of_nat (root_index store6))
    /\ at_ (E t) (2 * Z.of_nat (length (taxonNodes store6)) - 1)
       = Ok (Z.of_nat (root_index store6))
    /\ forall v, (v < length (taxonNodes store6))%nat ->
         (exists p, at_ (H t) (Z.of_nat v) = Ok p
            /\ at_ (E t) p = Ok (Z.of_nat v)
            /\ at_ (L t) p = Ok (Z.of_nat (tree_depth store6 v)))
         /\ (forall pos, 0 <= pos < 2 * Z.of_nat (length (taxonNodes store6)) - 1 ->
               at_ (E t) pos = Ok (Z.of_nat v) ->
               at_ (L t) pos = Ok (Z.of_nat (tree_depth store6 v))).
Proof.
  split; [vm_compute; reflexivity|]. split; [simpl; lia|].
  apply (C5_euler_tour_arrays 7 store6); [vm_compute; reflexivity | simpl; lia].
Defined.

(** ** The root absorbs *)

(** Every entry of the tour names a record on its depth, except the last
    one, which names the root on level -1. *)
Lemma tour_entries fuel st t pos :
  tree_store st = true ->
  (length (taxonNodes st) < fuel)%nat ->
  index_store fuel st = Ok t ->
  0 <= pos < 2 * Z.of_nat (length (taxonNodes st)) ->
  exists u l, at_ (E t) pos = Ok (Z.of_nat u) /\ at_ (L t) pos = Ok l
    /\ (u < length (taxonNodes st))%nat
    /\ (l = Z.of_nat (tree_depth st u) \/ (u = root_index st /\ l = -1)).
Proof.
  intros Hwf Hfuel Hrun Hpos. pose proof (store_rooted st Hwf) as Hrooted.
  destruct (index_store_tour fuel st Hwf Hfuel) as (t' & Hrun' & _ & _ & HE & HL & Hlen & _).
  rewrite Hrun in Hrun'. injection Hrun' as <-.
  destruct fuel as [|f]; [lia|].
  destruct (euler_root _ _ _ Hrooted f) as (body & Heul & Hbody).
  destruct (lookup_lt_is_Some_2 (E t) (Z.to_nat pos) ltac:(lia)) as [e He].
  rewrite HE, list_lookup_fmap in He.
  destruct (euler (S f) _ _ _ 0 !! Z.to_nat pos) as [[u l]|] eqn:Hul; [|discriminate].
  simpl in He. injection He as <-.
  exists u, l. split; [apply at_Ok; split; [lia|]; by rewrite HE, list_lookup_fmap, Hul|].
  split; [apply at_Ok; split; [lia|]; by rewrite HL, list_lookup_fmap, Hul|].
  apply list_elem_of_lookup_2 in Hul. rewrite Heul in Hul.
  apply elem_of_cons in Hul as [[= -> ->]|Hul].
  - split; [apply Hrooted|]. left. unfold tree_depth.
    by rewrite (dep_root _ _ _ Hrooted).
  - apply elem_of_app in Hul as [Hul|Hul].
    + destruct (Hbody u l Hul) as [Hu ->]. auto.
    + apply list_elem_of_singleton in Hul as [= -> ->]. split; [apply Hrooted | auto].
Qed.

Lemma nodeId_exists st a i : nodeId st a = Ok i -> nodeExists st a = Ok true.
Proof.
  intros (_ & Hd & Hne)%nodeId_Ok. apply nodeExists_Ok. exists i. split; [done|].
  destruct (Z.eqb_spec i (-1)); [contradiction | done].
Qed.

(** The helper on a record and the root, when the guard for index 0 does not
    hide the record. *)
Lemma lcaHelper_root fuel st t i :
  tree_store st = true ->
  (length (taxonNodes st) < fuel)%nat ->
  index_store fuel st = Ok t ->
  (i < length (taxonNodes st))%nat ->
  (i <> O \/ root_index st = O) ->
  lcaHelper t (Z.of_nat i) (Z.of_nat (root_index st)) = Ok (Z.of_nat (root_index st)).
Proof.
  intros Hwf Hfuel Hrun Hi Hguard. pose proof (store_rooted st Hwf) as Hrooted.
  set (r := root_index st) in *.
  unfold lcaHelper.
  destruct (Z.eqb_spec (Z.of_nat r) 0) as [Hr0|Hr0].
  { rewrite orb_true_r. by rewrite Hr0. }
  destruct (Z.eqb_spec (Z.of_nat i) 0) as [Hi0|Hi0]; [lia|]. simpl.
  destruct (Z.ltb_spec 0 (Z.of_nat i)) as [_|?]; [|lia].
  destruct (Z.ltb_spec 0 (Z.of_nat r)) as [_|?]; [|lia]. simpl.
  destruct (Z.eqb_spec (Z.of_nat i) (Z.of_nat r)) as [He|Hne]; [by rewrite He|].
  destruct (index_store_tour fuel st Hwf Hfuel) as (t' & Hrun' & _ & HN & _ & _ & Hlen & Hreg).
  rewrite Hrun in Hrun'. injection Hrun' as <-.
  destruct (Hreg i Hi) as (pi & HHi & HEi & HLi).
  destruct (Hreg r ltac:(apply Hrooted)) as (pr & HHr & HEr & HLr). simpl in *.
  rewrite HHi, HHr. simpl.
  pose proof (at_Ok_range _ _ _ HEi) as Hpi. pose proof (at_Ok_range _ _ _ HEr) as Hpr.
  assert (Hdr : tree_depth st r = O).
  { unfold tree_depth. by rewrite (dep_root _ _ _ Hrooted). }
  rewrite Hdr in HLr.
  (* whichever way the two positions are ordered, the window holds [pr] *)
  assert (Hwin : exists lo hi, 0 <= lo <= hi /\ hi < maxNodes t * 2 /\ lo <= pr <= hi
            /\ (if pr <? pi then RangeMinimumQuery t pr pi else RangeMinimumQuery t pi pr)
               = RangeMinimumQuery t lo hi).
  { destruct (Z.ltb_spec pr pi); [exists pr, pi | exists pi, pr]; repeat split; lia. }
  destruct Hwin as (lo & hi & Hlohi & Hhi & Hin & ->).
  destruct (RangeMinimumQuery_argmin t lo hi (index_store_rmq_ready _ _ _ Hrun) Hlohi Hhi)
    as (q & Hq & Hqr & lq & Hlq & Hmin).
  rewrite Hq. simpl.
  specialize (Hmin pr 0 ltac:(lia) HLr).
  destruct (tour_entries fuel st t q Hwf Hfuel Hrun ltac:(lia)) as (u & l & HEq & HLq & Hu & Hl).
  rewrite Hlq in HLq. injection HLq as ->.
  assert (u = r) as ->.
  { destruct Hl as [Hl|[-> _]]; [|done].
    apply (dep_zero _ _ _ Hrooted u Hu). fold (tree_depth st u). lia. }
  rewrite HEq. simpl. destruct (Z.leb_spec 0 (Z.of_nat r)) as [_|?]; [done | lia].
Qed.

(** C6 (amended).  In an engine built from a tree store, for every external
    id [a] that resolves to a record [i] (directly or as a merged alias),
    [LCA a 1] is the root's external id 1, provided the guard of [lcaHelper]
    for internal index 0 does not apply to [i], or the root itself has
    internal index 0. *)
Theorem C6_root_absorbs_outside_index_zero fuel st t a i :
  tree_store st = true ->
  (length (taxonNodes st) < fuel)%nat ->
  index_store fuel st = Ok t ->
  nodeId st a = Ok (Z.of_nat i) ->
  (i < length (taxonNodes st))%nat ->
  (i <> O \/ root_index st = O) ->
  LCA t a 1 = Ok 1.
Proof.
  intros Hwf Hfuel Hrun Ha Hi Hguard.
  destruct (index_store_start _ _ _ Hrun) as [Hst _].
  destruct (tree_root st Hwf) as (Hr & _ & Htid).
  destruct (lookup_lt_is_Some_2 _ _ Hr) as [n Hn].
  assert (Hn1 : taxId n = 1) by (unfold tid in Htid; by rewrite Hn in Htid).
  pose proof (tree_nodeId st Hwf _ n Hn) as H1. rewrite Hn1 in H1.
  unfold LCA. rewrite Hst.
  rewrite (nodeId_exists _ _ _ Ha), (nodeId_exists _ _ _ H1). simpl.
  rewrite Ha, H1. simpl.
  rewrite (lcaHelper_root fuel st t i Hwf Hfuel Hrun Hi Hguard). simpl.
  rewrite (at_of_nat _ _ _ Hn). simpl. by rewrite Hn1.
Qed.

(** C6 (instance): taxon 6 in the tree of six records. *)
Lemma C6_witness :
  exists t, index_store 7 store6 = Ok t /\ LCA t 6 1 = Ok 1.
Proof.
  eexists. split; [vm_compute; reflexivity|].
  apply (C6_root_absorbs_outside_index_zero 7 store6 _ 6 5%nat);
    [vm_compute; reflexivity | simpl; lia | vm_compute; reflexivity
    | vm_compute; reflexivity | simpl; lia | left; lia].
Defined.

(** C6 (counterexample).  When the first record of the nodes input is not
    the root, that record has internal index 0, which [lcaHelper] takes for
    the unassigned sentinel: for the tree [2 -> 1] with taxon 2 listed first,
    [LCA 2 1] is 2, not the root. *)
Lemma C6_counterexample_first_record_not_root :
  tree_store store_root_second = true
  /\ exists t, index_store 3 store_root_second = Ok t
       /\ nodeExists (store t) 2 = Ok true
       /\ LCA t 2 1 = Ok 2.
Proof.
  split; [vm_compute; reflexivity|].
  eexists. split; [vm_compute; reflexivity|]. split; vm_compute; reflexivity.
Qed.

(** ** Lineage strings *)

Lemma split_on_cons c s : exists x xs, split_on c s = x :: xs.
Proof.
  induction s as [|a r (x & xs & IH)]; simpl; [eauto|].
  destruct (Ascii.eqb a c); [eauto|]. rewrite IH. eauto.
Qed.

Lemma append_cons a (s t : string) : String a s +:+ t = String a (s +:+ t).
Proof. reflexivity. Qed.

Lemma append_empty_l (t : string) : EmptyString +:+ t = t.
Proof. reflexivity. Qed.

Lemma append_empty_r (s : string) : s +:+ EmptyString = s.
Proof. induction s as [|a s IH]; [done|]. by rewrite append_cons, IH. Qed.

Lemma split_on_token c t rest :
  has_char c t = false ->
  split_on c (t +:+ String c rest) = t :: split_on c rest.
Proof.
  induction t as [|a t IH]; intros Hno.
  - rewrite append_empty_l. simpl. by rewrite Ascii.eqb_refl.
  - simpl in Hno. apply orb_false_elim in Hno as [Ha Ht].
    rewrite append_cons. simpl. rewrite Ha, (IH Ht). reflexivity.
Qed.

Lemma split_on_single c t : has_char c t = false -> split_on c t = [t].
Proof.
  induction t as [|a t IH]; simpl; intros Hno; [done|].
  apply orb_false_elim in Hno as [Ha Ht]. rewrite Ha, (IH Ht). reflexivity.
Qed.

Lemma digit_char_no_semi d : 0 <= d < 10 -> Ascii.eqb (digit_char d) ";"%char = false.
Proof.
  intros Hd.
  assert (d = 0 \/ d = 1 \/ d = 2 \/ d = 3 \/ d = 4 \/ d = 5 \/ d = 6 \/ d = 7 \/ d = 8 \/ d = 9)
    as Hcases by lia.
  repeat (destruct Hcases as [-> | Hcases]; [reflexivity|]). subst d. reflexivity.
Qed.

Lemma has_char_cons c a s : has_char c (String a s) = Ascii.eqb a c || has_char c s.
Proof. reflexivity. Qed.

Lemma digits_fuel_S f n acc :
  digits_fuel (S f) n acc
  = if n / 10 =? 0 then String (digit_char (n mod 10)) acc
    else digits_fuel f (n / 10) (String (digit_char (n mod 10)) acc).
Proof. reflexivity. Qed.

Lemma digits_fuel_no_semi fuel : forall n acc,
  has_char ";"%char acc = false -> has_char ";"%char (digits_fuel fuel n acc) = false.
Proof.
  induction fuel as [|f IH]; intros n acc Hacc; [done|].
  rewrite digits_fuel_S.
  assert (Hstep : has_char ";"%char (String (digit_char (n mod 10)) acc) = false).
  { rewrite has_char_cons, digit_char_no_semi, Hacc; [done|]. apply Z.mod_pos_bound. lia. }
  destruct (n / 10 =? 0); [done | by apply IH].
Qed.

Lemma SSTR_no_semi x : has_char ";"%char (SSTR x) = false.
Proof.
  unfold SSTR. destruct (x <? 0); [rewrite has_char_cons; simpl (Ascii.eqb _ _)|];
    by apply digits_fuel_no_semi.
Qed.

(** Splitting the emitted string at [;] gives back the tokens. *)
Lemma split_lineage_emit shorts back :
  back <> [] ->
  split_on ";"%char (lineage_emit shorts false back) = (fun n => SSTR (taxId n)) <$> back.
Proof.
  induction back as [|n rest IH]; [done|]. intros _.
  destruct rest as [|m rest'].
  - change (lineage_emit shorts false [n])
      with (SSTR (taxId n) +:+ EmptyString +:+ EmptyString).
    rewrite !append_empty_r. apply split_on_single, SSTR_no_semi.
  - change (lineage_emit shorts false (n :: m :: rest'))
      with (SSTR (taxId n) +:+ String ";"%char (lineage_emit shorts false (m :: rest'))).
    rewrite split_on_token by apply SSTR_no_semi. rewrite IH by done. reflexivity.
Qed.

Lemma tree_taxonNode st i n :
  tree_store st = true -> taxonNodes st !! i = Some n ->
  taxonNode st (taxId n) true = Ok (Some n) /\ taxonNode st (taxId n) false = Ok (Some n).
Proof.
  intros Hwf Hn. destruct (tree_record st Hwf i n Hn) as (Hpos & _).
  pose proof (tree_nodeId st Hwf i n Hn) as Hid.
  unfold taxonNode. destruct (Z.eqb_spec (taxId n) 0) as [?|_]; [lia|].
  rewrite (nodeId_exists _ _ _ Hid). simpl.
  rewrite Hid. simpl. rewrite (at_of_nat _ _ _ Hn). done.
Qed.

Lemma tree_parent_record st i n :
  tree_store st = true -> taxonNodes st !! i = Some n ->
  exists m, taxonNodes st !! parent_index st i = Some m
    /\ taxId m = parentTaxId n
    /\ taxonNode_deref st (parentTaxId n) = Ok m
    /\ taxonNode_lenient st (parentTaxId n) = Ok m.
Proof.
  intros Hwf Hn. destruct (tree_record st Hwf i n Hn) as (_ & _ & _ & (m & Hm & Hid) & _).
  exists m. split; [done|]. split; [done|].
  destruct (tree_taxonNode st _ m Hwf Hm) as [Ht Hf].
  unfold taxonNode_deref, taxonNode_lenient. rewrite <- Hid, Ht, Hf. done.
Qed.

(** The walk of [taxLineage] from record [i]: it collects [i] and its
    ancestors up to the one just below the root. *)
Lemma lineage_walk_spec st fuel :
  tree_store st = true ->
  forall i n vec,
    taxonNodes st !! i = Some n ->
    (1 <= fuel)%nat -> (tree_depth st i <= fuel)%nat ->
    exists l m, lineage_walk fuel st n vec = Ok (vec ++ n :: l)
      /\ taxonNodes st !! top_index st i = Some m
      /\ last (n :: l) = Some m.
Proof.
  intros Hwf. pose proof (store_rooted st Hwf) as Hrooted.
  induction fuel as [|f IH]; intros i n vec Hn Hf1 Hfd; [lia|].
  assert (Hi : (i < length (taxonNodes st))%nat) by (by apply lookup_lt_Some in Hn).
  destruct (tree_parent_record st i n Hwf Hn) as (m & Hm & Hmid & Hderef & _).
  simpl. rewrite Hderef. simpl.
  destruct (Z.eqb_spec (parentTaxId m) (taxId m)) as [Hroot|Hnot]; simpl.
  - (* the parent is the root: the walk ends *)
    apply (tree_self_parent st Hwf _ m Hm) in Hroot.
    assert (Hd : (tree_depth st i <= 1)%nat).
    { destruct (decide (parent_index st i = i)) as [He|Hne].
      - rewrite (rooted_unique _ _ _ Hrooted i Hi He). unfold tree_depth.
        rewrite (dep_root _ _ _ Hrooted). lia.
      - destruct (dep_step _ _ _ Hrooted i Hi Hne) as [HS _].
        unfold tree_depth. rewrite HS.
        rewrite (rooted_unique _ _ _ Hrooted _ (rooted_par _ _ _ Hrooted i Hi) Hroot).
        rewrite (dep_root _ _ _ Hrooted). lia. }
    exists [], n. split; [done|]. split; [|done].
    unfold top_index. replace (tree_depth st i - 1)%nat with O by lia. done.
  - (* the parent is below the root: go on from it *)
    assert (Hpne : parent_index st (parent_index st i) <> parent_index st i).
    { intros He. by apply (tree_self_parent st Hwf _ m Hm) in He. }
    assert (Hne : parent_index st i <> i) by (intros He; rewrite He in Hpne; done).
    destruct (dep_step _ _ _ Hrooted i Hi Hne) as [HS _].
    destruct (dep_step _ _ _ Hrooted _ (rooted_par _ _ _ Hrooted i Hi) Hpne) as [HS' _].
    fold (tree_depth st i) in HS. fold (tree_depth st (parent_index st i)) in HS, HS'.
    destruct (IH (parent_index st i) m (vec ++ [n]) Hm ltac:(lia) ltac:(lia))
      as (l & m' & Hrun & Htop & Hlast).
    exists (m :: l), m'. split; [by rewrite Hrun, <- app_assoc|]. split.
    + unfold top_index in *. rewrite HS.
      replace (S (tree_depth st (parent_index st i)) - 1)%nat
        with (S (tree_depth st (parent_index st i) - 1)) by lia.
      rewrite Nat.iter_succ_r. exact Htop.
    + exact Hlast.
Qed.

(** C2 (amended).  In a tree store, for every record [a] the lineage string
    with ids, split at [;], ends with the external id of [a] and begins with
    the external id of the ancestor of [a] just below the root ([a] itself
    when [a] is the root or a child of the root). *)
Theorem C2_lineage_starts_below_root shorts fuel st i n :
  tree_store st = true ->
  taxonNodes st !! i = Some n ->
  (1 <= fuel)%nat -> (tree_depth st i <= fuel)%nat ->
  exists s, taxLineage shorts fuel st n false = Ok s
    /\ head (split_on ";"%char s) = Some (SSTR (tid st (top_index st i)))
    /\ last (split_on ";"%char s) = Some (SSTR (taxId n)).
Proof.
  intros Hwf Hn Hf1 Hfd.
  destruct (lineage_walk_spec st fuel Hwf i n [] Hn Hf1 Hfd) as (l & m & Hrun & Htop & Hlast).
  unfold taxLineage. rewrite Hrun. simpl. eexists. split; [reflexivity|].
  rewrite split_lineage_emit.
  2:{ intros Hnil. apply (f_equal length) in Hnil. rewrite length_reverse in Hnil. done. }
  rewrite fmap_reverse. split.
  - rewrite head_reverse, fmap_last, Hlast. simpl. unfold tid. by rewrite Htop.
  - rewrite last_reverse. done.
Qed.

(** C2 (instance): taxon 4 (internal index 3) in the tree of six records. *)
Lemma C2_witness :
  tree_store store6 = true
  /\ exists n, taxonNodes store6 !! 3%nat = Some n
    /\ exists s, taxLineage ∅ 7 store6 n false = Ok s
      /\ head (split_on ";"%char s) = Some (SSTR (tid store6 (top_index store6 3)))
      /\ last (split_on ";"%char s) = Some (SSTR (taxId n)).
Proof.
  split; [vm_compute; reflexivity|].
  eexists. split; [reflexivity|].
  apply (C2_lineage_starts_below_root ∅ 7 store6 3);
    [vm_compute; reflexivity | reflexivity | lia | vm_compute; lia].
Defined.

(** C2 (counterexample).  In the tree of six records the lineage string of
    taxon 4 is [2;4]: it begins with taxon 2, the child of the root on the
    path, and the root's id 1 does not occur in it. *)
Lemma C2_counterexample_root_is_left_out :
  tree_store store6 = true
  /\ exists n s, taxonNode_deref store6 4 = Ok n
       /\ taxLineage ∅ 7 store6 n false = Ok s
       /\ s = "2;4"%string
       /\ head (split_on ";"%char s) <> Some (SSTR 1).
Proof.
  split; [vm_compute; reflexivity|].
  do 2 eexists. split; [vm_compute; reflexivity|]. split; [vm_compute; reflexivity|].
  split; [reflexivity|]. vm_compute. discriminate.
Qed.

(** ** Clade counts *)

Lemma sumZ_empty : sumZ ∅ = 0.
Proof. unfold sumZ. apply map_fold_empty. Qed.

Lemma sumZ_insert (m : gmap Z Z) i x : m !! i = None -> sumZ (<[i:=x]> m) = x + sumZ m.
Proof.
  intros Hi. unfold sumZ. rewrite map_fold_insert_L; [done| |done].
  intros. lia.
Qed.

Lemma sumZ_delete (m : gmap Z Z) i : sumZ m = default 0 (m !! i) + sumZ (delete i m).
Proof.
  destruct (m !! i) as [x|] eqn:Hi; simpl.
  - rewrite <- (insert_delete_id m i x Hi) at 1. apply sumZ_insert, lookup_delete_eq.
  - by rewrite delete_id.
Qed.

Lemma sumZ_zero (m : gmap Z Z) : (forall k, default 0 (m !! k) = 0) -> sumZ m = 0.
Proof.
  induction m as [|i x m Hi IH] using map_ind; intros Hz; [apply sumZ_empty|].
  rewrite sumZ_insert by done. pose proof (Hz i) as Hx. rewrite lookup_insert_eq in Hx.
  simpl in Hx. rewrite IH; [lia|]. intros k. destruct (decide (k = i)) as [->|Hne].
  - by rewrite Hi.
  - specialize (Hz k). by rewrite lookup_insert_ne in Hz.
Qed.

(** Entries that are zero do not count. *)
Lemma sumZ_ext (m1 : gmap Z Z) : forall m2,
  (forall k, default 0 (m1 !! k) = default 0 (m2 !! k)) -> sumZ m1 = sumZ m2.
Proof.
  induction m1 as [|i x m1 Hi IH] using map_ind; intros m2 Heq.
  - rewrite sumZ_empty. symmetry. apply sumZ_zero. intros k. rewrite <- Heq.
    by rewrite lookup_empty.
  - rewrite sumZ_insert by done. rewrite (sumZ_delete m2 i).
    pose proof (Heq i) as Hx. rewrite lookup_insert_eq in Hx. simpl in Hx. rewrite <- Hx.
    f_equal. apply IH. intros k. destruct (decide (k = i)) as [->|Hne].
    + by rewrite Hi, lookup_delete_eq.
    + rewrite lookup_delete_ne by done. specialize (Heq k).
      by rewrite lookup_insert_ne in Heq.
Qed.

Lemma counts_at_set cc key c k :
  counts_at (set_taxCount cc key c) k
  = if decide (k = key)
    then mkTaxonCounts c (cladeCount (counts_at cc key)) (children (counts_at cc key))
    else counts_at cc k.
Proof.
  unfold set_taxCount, counts_at. destruct (decide (k = key)) as [->|Hne].
  - by rewrite lookup_insert_eq.
  - by rewrite lookup_insert_ne.
Qed.

Lemma counts_at_add cc key c k :
  counts_at (add_cladeCount cc key c) k
  = if decide (k = key)
    then mkTaxonCounts (taxCount (counts_at cc key))
           ((cladeCount (counts_at cc key) + c) mod UINT_RANGE)
           (children (counts_at cc key))
    else counts_at cc k.
Proof.
  unfold add_cladeCount, counts_at. destruct (decide (k = key)) as [->|Hne].
  - by rewrite lookup_insert_eq.
  - by rewrite lookup_insert_ne.
Qed.

Lemma lookup_set_None cc key c k :
  set_taxCount cc key c !! k = None <-> k <> key /\ cc !! k = None.
Proof.
  unfold set_taxCount. destruct (decide (k = key)) as [->|Hne].
  - rewrite lookup_insert_eq. split; [done | tauto].
  - rewrite lookup_insert_ne by done. tauto.
Qed.

Lemma lookup_add_None cc key c k :
  add_cladeCount cc key c !! k = None <-> k <> key /\ cc !! k = None.
Proof.
  unfold add_cladeCount. destruct (decide (k = key)) as [->|Hne].
  - rewrite lookup_insert_eq. split; [done | tauto].
  - rewrite lookup_insert_ne by done. tauto.
Qed.

Lemma lookup_add_Some cc key c k :
  is_Some (add_cladeCount cc key c !! k) <-> k = key \/ is_Some (cc !! k).
Proof.
  rewrite <- !not_eq_None_Some, lookup_add_None.
  destruct (decide (k = key)); tauto.
Qed.

Lemma lookup_set_Some cc key c k :
  is_Some (set_taxCount cc key c !! k) <-> k = key \/ is_Some (cc !! k).
Proof.
  rewrite <- !not_eq_None_Some, lookup_set_None.
  destruct (decide (k = key)); tauto.
Qed.

(** An addition to a clade counter, up to the wrap-around. *)
Lemma cladeCount_add cc key c k :
  cladeCount (counts_at (add_cladeCount cc key c) k) mod UINT_RANGE
  = (cladeCount (counts_at cc k) + (if decide (k = key) then c else 0)) mod UINT_RANGE.
Proof.
  rewrite counts_at_add. destruct (decide (k = key)) as [->|Hne]; simpl.
  - apply Z.mod_mod. unfold UINT_RANGE. lia.
  - by rewrite Z.add_0_r.
Qed.

Lemma cladeCount_set cc key c k :
  cladeCount (counts_at (set_taxCount cc key c) k) = cladeCount (counts_at cc k).
Proof.
  rewrite counts_at_set. by destruct (decide (k = key)) as [->|Hne].
Qed.

(** Two additions in a row. *)
Lemma mod_add_step a a' b x y :
  b mod UINT_RANGE = (a' + y) mod UINT_RANGE ->
  a' mod UINT_RANGE = (a + x) mod UINT_RANGE ->
  b mod UINT_RANGE = (a + (x + y)) mod UINT_RANGE.
Proof.
  intros -> H. rewrite <- Zplus_mod_idemp_l, H, Zplus_mod_idemp_l. f_equal. lia.
Qed.

Lemma add_in_range cc key c : counts_in_range cc -> counts_in_range (add_cladeCount cc key c).
Proof.
  intros Hcc k. rewrite counts_at_add. destruct (decide (k = key)); [|apply Hcc].
  simpl. apply Z.mod_pos_bound. unfold UINT_RANGE. lia.
Qed.

Lemma set_in_range cc key c : counts_in_range cc -> counts_in_range (set_taxCount cc key c).
Proof. intros Hcc k. rewrite cladeCount_set. apply Hcc. Qed.

Lemma clade_walk_in_range c st : forall fuel n cc cc',
  clade_walk fuel st n c cc = Ok cc' -> counts_in_range cc -> counts_in_range cc'.
Proof.
  induction fuel as [|f IH]; intros n cc cc' Hrun Hcc; simpl in Hrun;
    (destruct (parentTaxId n =? taxId n); [by injection Hrun as <-|]);
    bind_inv Hrun as ex Hex; (destruct ex; simpl in Hrun; [|by injection Hrun as <-]);
    [done|].
  bind_inv Hrun as taxon' Htaxon. eapply IH; [exact Hrun|]. by apply add_in_range.
Qed.

Lemma clade_entries_in_range fuel st : forall l cc cc',
  foldM (clade_entry fuel st) cc l = Ok cc' -> counts_in_range cc -> counts_in_range cc'.
Proof.
  induction l as [|[key c] l IH]; intros cc cc' Hrun Hcc.
  { simpl in Hrun. by injection Hrun as <-. }
  rewrite foldM_cons in Hrun. bind_inv Hrun as cc1 H1. eapply IH; [exact Hrun|].
  unfold clade_entry in H1. simpl in H1. bind_inv H1 as ex Hex.
  assert (Hcc2 : counts_in_range (add_cladeCount (set_taxCount cc key c) key c))
    by (by apply add_in_range, set_in_range).
  destruct ex; [|by injection H1 as <-].
  bind_inv H1 as taxon Htaxon. by eapply clade_walk_in_range.
Qed.

Lemma empty_in_range : counts_in_range ∅.
Proof. intros k. unfold counts_at. rewrite lookup_empty. simpl. unfold UINT_RANGE. lia. Qed.

Section Clade.

Context (st : Store).
Hypothesis Hwf : tree_store st = true.
Hypothesis Htab : table_ok st = true.

Local Abbreviation N := (length (taxonNodes st)).
Local Abbreviation par := (parent_index st).
Local Abbreviation r := (root_index st).
Local Abbreviation tc cc k := (taxCount (counts_at cc k)).
Local Abbreviation cl cc k := (cladeCount (counts_at cc k)).

Lemma tree_id_inj j j' m m' :
  taxonNodes st !! j = Some m -> taxonNodes st !! j' = Some m' ->
  taxId m = taxId m' -> j = j'.
Proof using Hwf.
  intros Hm Hm' He.
  destruct (tree_record st Hwf j m Hm) as (_ & HD & _).
  destruct (tree_record st Hwf j' m' Hm') as (_ & HD' & _).
  rewrite He, HD' in HD. injection HD as HD. lia.
Qed.

Lemma tree_root_id j m : taxonNodes st !! j = Some m -> (taxId m = 1 <-> j = r).
Proof using Hwf.
  intros Hm. destruct (tree_root st Hwf) as (Hr & _ & Htid).
  destruct (lookup_lt_is_Some_2 _ _ Hr) as [n Hn].
  assert (Hn1 : taxId n = 1) by (unfold tid in Htid; by rewrite Hn in Htid).
  split.
  - intros H1. eapply tree_id_inj; eauto. congruence.
  - intros ->. congruence.
Qed.

Lemma table_slot k d :
  at_ (D st) k = Ok d -> d <> -1 ->
  k <> 0 /\ exists i n, d = Z.of_nat i /\ taxonNodes st !! i = Some n.
Proof using Htab.
  intros Hd Hne. unfold table_ok in Htab. apply andb_prop in Htab as [Hall H0].
  apply bool_decide_eq_true in H0. split; [intros ->; congruence|].
  rewrite forallb_forall in Hall. apply at_Ok in Hd as [_ Hd].
  apply list_elem_of_lookup_2, list_elem_of_In, Hall in Hd.
  destruct (Z.eqb_spec d (-1)) as [?|_]; [done|]. simpl in Hd.
  apply andb_prop in Hd as [H1 H2].
  destruct (lookup_lt_is_Some_2 (taxonNodes st) (Z.to_nat d) ltac:(lia)) as [n Hn].
  exists (Z.to_nat d), n. split; [lia | done].
Qed.

(** The walk over the ancestors of record [i]. *)
Lemma clade_walk_spec c fuel : forall i n cc,
  taxonNodes st !! i = Some n ->
  (tree_depth st i <= fuel)%nat ->
  exists cc', clade_walk fuel st n c cc = Ok cc'
    /\ (forall k, tc cc' k = tc cc k)
    /\ cl cc' 1 mod UINT_RANGE = (cl cc 1 + (if decide (i = r) then 0 else c)) mod UINT_RANGE
    /\ (forall j, orphan st cc' j -> orphan st cc j /\ j <> i).
Proof using Hwf.
  pose proof (store_rooted st Hwf) as Hrooted.
  induction fuel as [|f IH]; intros i n cc Hn Hfuel;
    assert (Hi : (i < N)%nat) by (by apply lookup_lt_Some in Hn);
    pose proof (tree_self_parent st Hwf i n Hn) as Hself;
    pose proof (tree_root_unique st Hwf i Hi) as Huniq;
    destruct (tree_root st Hwf) as (_ & Hrr & _).
  - (* no fuel: the record has depth 0, it is the root *)
    assert (i = r) as Hir.
    { apply (dep_zero _ _ _ Hrooted i Hi). fold (tree_depth st i). lia. }
    simpl. destruct (Z.eqb_spec (parentTaxId n) (taxId n)) as [_|Hne].
    2:{ exfalso. apply Hne, Hself. rewrite Hir. done. }
    exists cc. split; [done|]. split; [done|].
    destruct (decide (i = r)); [|done]. split; [by rewrite Z.add_0_r|].
    intros j Hj. split; [done|]. intros ->. destruct Hj as (m & Hm & Hnot & _).
    rewrite Hn in Hm. injection Hm as <-. apply Hnot, Hself. rewrite Hir. done.
  - simpl. destruct (Z.eqb_spec (parentTaxId n) (taxId n)) as [He|Hne].
    + apply Hself in He. pose proof (Huniq He) as Hir.
      exists cc. split; [done|]. split; [done|].
      destruct (decide (i = r)); [|done]. split; [by rewrite Z.add_0_r|].
      intros j Hj. split; [done|]. intros ->. destruct Hj as (m & Hm & Hnot & _).
      rewrite Hn in Hm. injection Hm as <-. apply Hnot, Hself. done.
    + assert (Hpi : par i <> i) by (by rewrite Hself).
      assert (Hir : i <> r) by (intros ->; done).
      rewrite (nodeId_exists _ _ _ (tree_parent_nodeId st Hwf i n Hn)). simpl.
      destruct (tree_parent_record st i n Hwf Hn) as (m & Hm & Hmid & Hderef & _).
      rewrite Hderef. simpl.
      destruct (dep_step _ _ _ Hrooted i Hi Hpi) as [HS _].
      fold (tree_depth st i) in HS. fold (tree_depth st (par i)) in HS.
      destruct (IH (par i) m (add_cladeCount cc (taxId m) c) Hm ltac:(lia))
        as (cc' & Hrun & Htc & Hcl & Horph).
      exists cc'. split; [done|]. split; [|split].
      * intros k. rewrite Htc, counts_at_add. by destruct (decide (k = taxId m)) as [->|].
      * rewrite (mod_add_step _ _ _ _ _ Hcl (cladeCount_add cc (taxId m) c 1)). f_equal.
        pose proof (tree_root_id _ m Hm) as Hroot.
        destruct (decide (i = r)); [done|].
        repeat case_decide; try lia; exfalso; intuition congruence.
      * intros j Hj. destruct (Horph j Hj) as [(mj & Hmj & Hnot & Hsome & Hnone) Hjp].
        apply lookup_add_None in Hnone as [Hpne Hnone].
        apply lookup_add_Some in Hsome as [Hsame|Hsome].
        { exfalso. apply Hjp. eapply tree_id_inj; eauto. }
        split; [exists mj; done|]. intros ->. rewrite Hn in Hmj. injection Hmj as <-.
        congruence.
Qed.

Lemma clade_entry_spec fuel cc key c :
  (N <= fuel)%nat ->
  0 <= key < Z.of_nat (length (D st)) ->
  (forall j, ~ orphan st cc j) ->
  exists cc', clade_entry fuel st cc (key, c) = Ok cc'
    /\ (forall k, tc cc' k = if decide (k = key) then c else tc cc k)
    /\ cl cc' 1 mod UINT_RANGE = (cl cc 1 + (if reaches_root st key then c else 0)) mod UINT_RANGE
    /\ (forall j, ~ orphan st cc' j).
Proof using Hwf Htab.
  intros Hfuel Hkey Hclosed. pose proof (store_rooted st Hwf) as Hrooted.
  destruct (at_in_range (D st) key Hkey) as [d Hd].
  destruct (tree_root st Hwf) as (Hr & _ & Htid).
  destruct (lookup_lt_is_Some_2 _ _ Hr) as [nr Hnr].
  assert (H1 : at_ (D st) 1 = Ok (Z.of_nat r)).
  { destruct (tree_record st Hwf r nr Hnr) as (_ & HD & _).
    unfold tid in Htid. rewrite Hnr in Htid. by rewrite Htid in HD. }
  set (cc2 := add_cladeCount (set_taxCount cc key c) key c).
  assert (Htc2 : forall k, tc cc2 k = if decide (k = key) then c else tc cc k).
  { intros k. unfold cc2. rewrite counts_at_add.
    repeat case_decide; subst; simpl; rewrite ?counts_at_set;
      repeat case_decide; simpl; done. }
  assert (Hcl2 : cl cc2 1 mod UINT_RANGE
                 = (cl cc 1 + (if decide (1 = key) then c else 0)) mod UINT_RANGE).
  { unfold cc2. by rewrite cladeCount_add, cladeCount_set. }
  assert (Horph2 : forall j, orphan st cc2 j -> exists m, taxonNodes st !! j = Some m /\ taxId m = key).
  { intros j (m & Hm & Hnot & Hsome & Hnone). exists m. split; [done|].
    unfold cc2 in Hsome, Hnone.
    apply lookup_add_None in Hnone as [_ Hnone]. apply lookup_set_None in Hnone as [_ Hnone].
    apply lookup_add_Some in Hsome as [?|Hsome]; [done|].
    apply lookup_set_Some in Hsome as [?|Hsome]; [done|].
    exfalso. apply (Hclosed j). exists m. done. }
  unfold clade_entry. simpl. fold cc2. unfold nodeExists. rewrite Hd. simpl.
  destruct (Z.eqb_spec d (-1)) as [->|Hne]; simpl.
  - (* the id is not in the table *)
    exists cc2. split; [done|]. split; [done|]. split.
    + rewrite Hcl2. f_equal. unfold reaches_root. rewrite Hd. simpl.
      destruct (decide (1 = key)) as [<-|]; [|done]. rewrite H1 in Hd. injection Hd. lia.
    + intros j Hj. destruct (Horph2 j Hj) as (m & Hm & <-).
      destruct (tree_record st Hwf j m Hm) as (_ & HD & _). rewrite HD in Hd.
      injection Hd. lia.
  - (* the id resolves to the record [i] *)
    destruct (table_slot key d Hd Hne) as (Hk0 & i & n & -> & Hn).
    assert (Hderef : taxonNode_deref st key = Ok n).
    { unfold taxonNode_deref, taxonNode. destruct (Z.eqb_spec key 0); [done|]. simpl.
      assert (Hid : nodeId st key = Ok (Z.of_nat i)) by (apply nodeId_Ok; split; [lia | done]).
      rewrite Hid. simpl. rewrite (at_of_nat _ _ _ Hn). done. }
    rewrite Hderef. simpl.
    assert (Hi : (i < N)%nat) by (by apply lookup_lt_Some in Hn).
    assert (Hdi : (tree_depth st i <= fuel)%nat).
    { assert ((tree_depth st i <= N)%nat) by apply (dep_le _ _ _ Hrooted i Hi). lia. }
    destruct (clade_walk_spec c fuel i n cc2 Hn Hdi) as (cc' & Hrun & Htc & Hcl & Horph).
    exists cc'. split; [done|]. split; [|split].
    + intros k. by rewrite Htc, Htc2.
    + rewrite (mod_add_step _ _ _ _ _ Hcl Hcl2). f_equal.
      unfold reaches_root. rewrite Hd.
      destruct (Z.eqb_spec (Z.of_nat i) (-1)); [lia|]. simpl.
      destruct (decide (1 = key)) as [<-|Hk1].
      * rewrite H1 in Hd. injection Hd as Hd. simpl.
        destruct (decide (i = r)); [lia | lia].
      * destruct (Z.eqb_spec key 1); [done|]. simpl.
        destruct (decide (i = r)) as [->|Hir].
        -- rewrite Z.eqb_refl. simpl. lia.
        -- destruct (Z.eqb_spec (Z.of_nat i) (Z.of_nat r)); [lia|]. simpl. lia.
    + intros j Hj. destruct (Horph j Hj) as [Hj2 Hji].
      destruct (Horph2 j Hj2) as (m & Hm & <-).
      destruct (tree_record st Hwf j m Hm) as (_ & HD & _). rewrite HD in Hd.
      injection Hd. lia.
Qed.

(** The loop over the input entries. *)
Lemma clade_entries_spec fuel : forall l cc,
  (N <= fuel)%nat ->
  NoDup l.*1 ->
  (forall kv, kv ∈ l -> 0 <= kv.1 < Z.of_nat (length (D st))) ->
  (forall j, ~ orphan st cc j) ->
  exists cc', foldM (clade_entry fuel st) cc l = Ok cc'
    /\ (forall k, tc cc' k = default (tc cc k) ((list_to_map l : gmap Z Z) !! k))
    /\ cl cc' 1 mod UINT_RANGE
       = (cl cc 1
          + foldr (uncurry (fun k c acc => (if reaches_root st k then c else 0) + acc)) 0 l)
         mod UINT_RANGE
    /\ (forall j, ~ orphan st cc' j).
Proof using Hwf Htab.
  induction l as [|[key c] l IH]; intros cc Hfuel Hnd Hrange Hclosed.
  - exists cc. split; [done|]. split; [done|]. split; [simpl; by rewrite Z.add_0_r | done].
  - simpl in Hnd. apply NoDup_cons in Hnd as [Hnotin Hnd].
    destruct (clade_entry_spec fuel cc key c Hfuel
                (Hrange (key, c) ltac:(apply list_elem_of_here)) Hclosed)
      as (cc1 & Hrun1 & Htc1 & Hcl1 & Hclosed1).
    destruct (IH cc1 Hfuel Hnd) as (cc' & Hrun & Htc & Hcl & Hclosed').
    { intros kv Hkv. apply Hrange. by apply list_elem_of_further. }
    { done. }
    exists cc'. split.
    { rewrite foldM_cons. apply bind_Ok. exists cc1. split; [exact Hrun1 | exact Hrun]. }
    split; [|split; [|done]].
    + intros k. rewrite Htc, Htc1. simpl.
      destruct (decide (k = key)) as [->|Hne].
      * rewrite lookup_insert_eq. simpl.
        by rewrite (not_elem_of_list_to_map_1 _ _ Hnotin).
      * by rewrite lookup_insert_ne.
    + rewrite (mod_add_step _ _ _ _ _ Hcl Hcl1). reflexivity.
Qed.

(** The loop that fills the children lists changes no count and meets no
    missing parent entry. *)
Lemma clade_children_spec : forall l cc,
  (forall tn, tn ∈ l -> exists j, taxonNodes st !! j = Some tn) ->
  (forall j, ~ orphan st cc j) ->
  exists cc', foldM clade_child cc l = Ok cc'
    /\ forall k, tc cc' k = tc cc k /\ cl cc' k = cl cc k.
Proof using Type.
  induction l as [|tn l IH]; intros cc Hrec Hclosed.
  - exists cc. done.
  - destruct (Hrec tn ltac:(apply list_elem_of_here)) as [j Hj].
    assert (Hstep : exists cc1, clade_child cc tn = Ok cc1
              /\ (forall k, counts_at cc1 k = counts_at cc k
                            \/ (taxCount (counts_at cc1 k) = taxCount (counts_at cc k)
                                /\ cladeCount (counts_at cc1 k) = cladeCount (counts_at cc k)))
              /\ (forall k, cc1 !! k = None <-> cc !! k = None)).
    { unfold clade_child.
      destruct (negb (parentTaxId tn =? taxId tn)
                && bool_decide (is_Some (cc !! taxId tn))) eqn:Hcond.
      2:{ exists cc. split; [done|]. split; [auto | done]. }
      apply andb_prop in Hcond as [Hnot Hsome].
      apply bool_decide_eq_true in Hsome.
      destruct (cc !! parentTaxId tn) as [e|] eqn:He.
      2:{ exfalso. apply (Hclosed j). exists tn. split; [done|]. split; [|done].
          destruct (Z.eqb_spec (parentTaxId tn) (taxId tn)); done. }
      eexists. split; [reflexivity|]. split.
      - intros k. unfold counts_at, TaxID in *.
        destruct (decide (k = parentTaxId tn)) as [->|Hne].
        + right. rewrite lookup_insert_eq, He. done.
        + left. by rewrite lookup_insert_ne.
      - intros k. unfold TaxID in *. destruct (decide (k = parentTaxId tn)) as [->|Hne].
        + rewrite lookup_insert_eq, He. done.
        + by rewrite lookup_insert_ne. }
    destruct Hstep as (cc1 & Hrun1 & Hsame & Hkeys).
    destruct (IH cc1) as (cc' & Hrun & Hcounts).
    { intros tn' Htn'. apply Hrec. by apply list_elem_of_further. }
    { intros j' (m & Hm & Hnot & Hsome & Hnone). apply (Hclosed j'). exists m.
      split; [done|]. split; [done|]. split.
      - apply not_eq_None_Some. rewrite <- Hkeys. by apply not_eq_None_Some.
      - by apply Hkeys. }
    exists cc'. split.
    { rewrite foldM_cons. apply bind_Ok. exists cc1. split; [exact Hrun1 | exact Hrun]. }
    intros k. destruct (Hcounts k) as [-> ->].
    destruct (Hsame k) as [->|[-> ->]]; done.
Qed.

(** C7 (amended).  For a tree store whose table is sound (id 0 has no
    record, and a slot in use holds the index of a record), enough fuel and
    an input whose ids lie within the table, [getCladeCounts] returns a map in
    which the sum of [taxCount] over all entries is the total of the input
    counts, and the [cladeCount] of the root (id 1) is, modulo [2^32], the sum
    of the input counts of the known ids other than merged aliases of the
    root itself: the counter is an [unsigned int] and wraps. *)
Theorem C7_clade_conservation fuel (taxonCounts : gmap Z Z) :
  (N <= fuel)%nat ->
  (forall k c, taxonCounts !! k = Some c -> 0 <= k < Z.of_nat (length (D st))) ->
  exists cc, getCladeCounts fuel st taxonCounts = Ok cc
    /\ total_taxCount cc = total_input taxonCounts
    /\ cladeCount (counts_at cc 1) = total_reaching st taxonCounts mod 2 ^ 32.
Proof using Hwf Htab.
  intros Hfuel Hrange.
  destruct (clade_entries_spec fuel (map_to_list taxonCounts) ∅ Hfuel)
    as (cc1 & Hrun1 & Htc1 & Hcl1 & Hclosed1).
  { apply NoDup_fst_map_to_list. }
  { intros [k c] Hkv. apply elem_of_map_to_list in Hkv. eauto. }
  { intros j (m & _ & _ & Hsome & _). rewrite lookup_empty in Hsome. by destruct Hsome. }
  destruct (clade_children_spec (taxonNodes st) cc1) as (cc & Hrun & Hcounts).
  { intros tn Htn. by apply list_elem_of_lookup in Htn. }
  { done. }
  exists cc. split; [unfold getCladeCounts; by rewrite Hrun1|]. split.
  - unfold total_taxCount, total_input. apply sumZ_ext. intros k.
    rewrite lookup_fmap. transitivity (tc cc k).
    { unfold counts_at, TaxID. by destruct (cc !! k). }
    destruct (Hcounts k) as [-> _]. rewrite Htc1, list_to_map_to_list.
    unfold counts_at. by rewrite lookup_empty.
  - destruct (Hcounts 1) as [_ ->].
    rewrite <- (Z.mod_small (cl cc1 1) UINT_RANGE)
      by apply (clade_entries_in_range _ _ _ _ _ Hrun1 empty_in_range).
    rewrite Hcl1. unfold total_reaching. rewrite map_fold_foldr. unfold counts_at.
    rewrite lookup_empty. simpl. reflexivity.
Qed.

End Clade.

(** C7 (instance): counts for the taxa 4, 6 and 1 of the tree of six records. *)
Lemma C7_witness :
  tree_store store6 = true /\ table_ok store6 = true
  /\ exists cc, getCladeCounts 6 store6 (list_to_map [(4, 3); (6, 2); (1, 1)]) = Ok cc
    /\ total_taxCount cc = total_input (list_to_map [(4, 3); (6, 2); (1, 1)])
    /\ cladeCount (counts_at cc 1)
       = total_reaching store6 (list_to_map [(4, 3); (6, 2); (1, 1)]) mod 2 ^ 32.
Proof.
  split; [vm_compute; reflexivity|]. split; [vm_compute; reflexivity|].
  apply (C7_clade_conservation store6); [vm_compute; reflexivity | vm_compute; reflexivity
                                        | simpl; lia |].
  intros k c Hk. apply elem_of_list_to_map_2 in Hk.
  repeat (apply elem_of_cons in Hk as [[= -> ->]|Hk]; [simpl; lia|]).
  by apply elem_of_nil in Hk.
Defined.

(** C7 (counterexample).  Taxon 2 is a merged alias of the root 1.  It is
    known in the store, its input count is 5, and the output has no entry
    for the root at all: the clade count of the root is 0, not 5. *)
Lemma C7_counterexample_alias_of_root :
  tree_store store_alias_of_root = true
  /\ known_id store_alias_of_root 2 = true
  /\ total_known store_alias_of_root {[2 := 5]} = 5
  /\ exists cc, getCladeCounts 3 store_alias_of_root {[2 := 5]} = Ok cc
       /\ cc !! 1 = None
       /\ cladeCount (counts_at cc 1) = 0.
Proof.
  split; [vm_compute; reflexivity|]. split; [vm_compute; reflexivity|].
  split; [vm_compute; reflexivity|].
  eexists. split; [vm_compute; reflexivity|]. split; vm_compute; reflexivity.
Qed.

(** ** Weighted-majority LCA *)

(** The comparisons of [double] values are those of an order. *)
Ltac sf_compare :=
  unfold dge, dgt, SFleb, SFltb, SFcompare;
  repeat match goal with
         | |- context [Z.compare ?a ?b] => destruct (Z.compare_spec a b); subst
         | |- context [Pos.compare_cont Eq ?a ?b] =>
             change (Pos.compare_cont Eq a b) with (Pos.compare a b);
             destruct (Pos.compare_spec a b); subst
         end;
  simpl; intros; try done; try lia.

Lemma dgt_trans a b c : dgt a b = true -> dgt b c = true -> dgt a c = true.
Proof.
  destruct a as [[]|[]| |[] ma ea], b as [[]|[]| |[] mb eb], c as [[]|[]| |[] mc ec];
    try done; sf_compare.
Qed.

(** What does not beat [b] does not beat anything that beats [b]. *)
Lemma dgt_chain a b c : dgt a b = true -> dgt c b = false -> dgt c a = false.
Proof.
  intros Hab Hcb. destruct (dgt c a) eqn:Hca; [|done].
  by rewrite (dgt_trans c a b Hca Hab) in Hcb.
Qed.

Lemma dgt_irrefl x : dgt x x = false.
Proof. destruct x as [[]|[]| |[] m e]; try done; sf_compare. Qed.

Lemma dge_trans a b c : dge a b = true -> dge b c = true -> dge a c = true.
Proof.
  destruct a as [[]|[]| |[] ma ea], b as [[]|[]| |[] mb eb], c as [[]|[]| |[] mc ec];
    try done; sf_compare.
Qed.

(** What meets a cutoff meets every lower cutoff. *)
Lemma dge_mono x c1 c2 : dge c2 c1 = true -> dge x c2 = true -> dge x c1 = true.
Proof. intros H1 H2. by apply (dge_trans x c2 c1). Qed.

Lemma rank_walk_le ranks fuel st : forall k node cur rk,
  cur <= INT_MAX -> rank_walk ranks fuel st k node cur = Ok rk -> rk <= INT_MAX.
Proof.
  induction fuel as [|f IH]; intros k node cur rk Hcur; simpl.
  - destruct (parentTaxId node =? k); [|discriminate]. intros [= <-]. done.
  - destruct (parentTaxId node =? k); [intros [= <-]; done|].
    destruct ((0 <? findRankIndex ranks (rank node))
              && (findRankIndex ranks (rank node) <? cur)) eqn:Hc.
    + intros [= <-]. apply andb_prop in Hc as [_ Hlt]. apply Z.ltb_lt in Hlt. lia.
    + intros Hrun. bind_inv Hrun as node' Hnode. eapply IH; eauto.
Qed.

Lemma taxonNode_lenient_nonzero st k n : taxonNode_lenient st k = Ok n -> k <> 0.
Proof.
  intros Hn ->. unfold taxonNode_lenient, taxonNode in Hn. simpl in Hn. discriminate.
Qed.

Lemma select_step_inv ranks fuel st total cutoff seen s it s' :
  select_step ranks fuel st total cutoff s it = Ok s' ->
  sel_inv ranks fuel st total cutoff seen s ->
  sel_inv ranks fuel st total cutoff (seen ++ [it]) s'.
Proof.
  intros Hstep (Hbound & Hbest & Hsel).
  assert (Hkeep : qualifies total cutoff it.2 = false ->
            sel_inv ranks fuel st total cutoff (seen ++ [it]) s).
  { intros Hq. split; [done|]. split.
    - intros it' [Hin | ->%list_elem_of_singleton]%elem_of_app Hq'; [auto | congruence].
    - destruct Hsel as [?|(Hne & Hpos & tn & Hin & Hrest)]; [by left|].
      right. split; [done|]. split; [done|]. exists tn. split; [|done].
      apply elem_of_app. by left. }
  unfold select_step in Hstep. unfold qualifies in Hkeep.
  change (percent_of (weight it.2) total) with (currPercent_of it.2 total) in Hkeep.
  destruct (isCandidate it.2) eqn:Hcand; simpl in Hstep, Hkeep.
  2:{ injection Hstep as <-. by apply Hkeep. }
  destruct (dge (currPercent_of it.2 total) cutoff) eqn:Hge.
  2:{ injection Hstep as <-. by apply Hkeep. }
  clear Hkeep.
  bind_inv Hstep as node Hnode. bind_inv Hstep as rk Hrk.
  assert (Hlr : lineage_rank ranks fuel st it.1 = Ok rk).
  { unfold lineage_rank. rewrite Hnode. exact Hrk. }
  assert (Hrkle : rk <= INT_MAX).
  { eapply rank_walk_le; [|exact Hrk]. unfold ROOT_RANK. lia. }
  pose proof (taxonNode_lenient_nonzero _ _ _ Hnode) as Hk0.
  assert (Hq : qualifies total cutoff it.2 = true).
  { unfold qualifies. change (percent_of (weight it.2) total) with (currPercent_of it.2 total).
    by rewrite Hcand, Hge. }
  destruct ((rk <? minRank s)
            || ((rk =? minRank s) && dgt (currPercent_of it.2 total) (selectedPercent s)))
    eqn:Hupd; injection Hstep as <-.
  - (* the entry becomes the selection *)
    assert (Hcase : rk < minRank s
                    \/ (rk = minRank s
                        /\ dgt (currPercent_of it.2 total) (selectedPercent s) = true)).
    { apply orb_prop in Hupd as [Hlt|Heq]; [left; lia|].
      apply andb_prop in Heq as [Heq Hgt]. right. split; [lia | done]. }
    split; [done|]. simpl. split; [|right; split; [done|split]].
    + intros it' [Hin | ->%list_elem_of_singleton]%elem_of_app Hq'.
      * destruct (Hbest it' Hin Hq') as (rk' & Hrk' & Hcmp). exists rk'. split; [done|].
        destruct Hcase as [Hlt | [-> Hgt]].
        -- left. lia.
        -- destruct Hcmp as [? | [-> Hnot]]; [by left|]. right. split; [done|].
           eapply dgt_chain; eauto.
      * exists rk. split; [done|]. right. split; [done | apply dgt_irrefl].
    + destruct Hcase as [Hlt | [-> Hgt]]; [left; lia|].
      destruct Hsel as [(_ & _ & H0)|(_ & [?|Hpos] & _)].
      * right. by rewrite H0 in Hgt.
      * by left.
      * right. eapply dgt_trans; eauto.
    + exists it.2. split; [|done].
      apply elem_of_app. right. apply list_elem_of_singleton. by destruct it.
  - (* the selection stays *)
    apply orb_false_elim in Hupd as [Hlt Heq]. apply Z.ltb_ge in Hlt.
    split; [done|]. split.
    + intros it' [Hin | ->%list_elem_of_singleton]%elem_of_app Hq'; [auto|].
      exists rk. split; [done|].
      destruct (Z.eqb_spec rk (minRank s)) as [->|Hne]; [|left; lia].
      right. split; [done|]. by destruct (dgt _ _).
    + destruct Hsel as [?|(Hne & Hpos & tn & Hin & Hrest)]; [by left|].
      right. split; [done|]. split; [done|]. exists tn. split; [|done].
      apply elem_of_app. by left.
Qed.

Lemma select_fold_inv ranks fuel st total cutoff : forall es seen s s',
  foldM (select_step ranks fuel st total cutoff) s es = Ok s' ->
  sel_inv ranks fuel st total cutoff seen s ->
  sel_inv ranks fuel st total cutoff (seen ++ es) s'.
Proof.
  induction es as [|it es IH]; intros seen s s' Hrun Hinv.
  - injection Hrun as <-. by rewrite app_nil_r.
  - rewrite foldM_cons in Hrun. bind_inv Hrun as s1 Hs1.
    rewrite (cons_middle it seen es), app_assoc. eapply IH; [exact Hrun|].
    eapply select_step_inv; eauto.
Qed.

Lemma sel_inv_init ranks fuel st total cutoff :
  sel_inv ranks fuel st total cutoff [] (mkSel INT_MAX 0 dzero).
Proof.
  split; [done|]. split; [|by left]. intros it Hin. by apply elem_of_nil in Hin.
Qed.

Lemma in_key_order_elem {V} (m : gmap Z V) k v :
  (k, v) ∈ in_key_order m <-> m !! k = Some v.
Proof.
  unfold in_key_order. rewrite merge_sort_Permutation. apply elem_of_map_to_list.
Qed.

Section Weighted.

Context (st : Store) (ranks : gmap string Z).
Hypothesis Hwf : tree_store st = true.
Hypothesis Htab : table_ok st = true.

Local Abbreviation N := (length (taxonNodes st)).
Local Abbreviation par := (parent_index st).
Local Abbreviation r := (root_index st).
Local Abbreviation dep := (tree_depth st).

Lemma valid_key_record k :
  valid_key st k ->
  exists i n, taxonNodes st !! i = Some n
    /\ (k = taxId n \/ forall j m, taxonNodes st !! j = Some m -> taxId m <> k)
    /\ taxonNode st k false = Ok (Some n)
    /\ taxonNode_lenient st k = Ok n.
Proof using Hwf Htab.
  intros (d & Hd & Hne). destruct (table_slot st Htab k d Hd Hne) as (Hk0 & i & n & -> & Hn).
  exists i, n. split; [done|]. split.
  { destruct (decide (k = taxId n)) as [?|Hk]; [by left|]. right.
    intros j m Hm He. destruct (tree_record st Hwf j m Hm) as (_ & HD & _).
    rewrite He, Hd in HD. injection HD as HD. apply Nat2Z.inj in HD. subst j.
    rewrite Hn in Hm. injection Hm as <-. done. }
  assert (Hid : nodeId st k = Ok (Z.of_nat i)).
  { apply nodeId_Ok. split; [by apply at_Ok in Hd as [? _] | done]. }
  assert (Ht : taxonNode st k false = Ok (Some n)).
  { unfold taxonNode. destruct (Z.eqb_spec k 0); [done|].
    rewrite (nodeId_exists _ _ _ Hid). simpl. rewrite Hid. simpl.
    by rewrite (at_of_nat _ _ _ Hn). }
  split; [done|]. unfold taxonNode_lenient. by rewrite Ht.
Qed.

Lemma record_valid_key i n : taxonNodes st !! i = Some n -> valid_key st (taxId n).
Proof using Hwf.
  intros Hn. destruct (tree_record st Hwf i n Hn) as (_ & HD & _).
  exists (Z.of_nat i). split; [done | lia].
Qed.

(** One round of a walk towards the root: the loops test
    [parentTaxId node != currTaxId] and then step to the parent's record.
    [curr] is the id of the record or, in the first round, a merged id that
    resolves to it. *)
Lemma walk_step i n curr :
  taxonNodes st !! i = Some n ->
  parentTaxId n <> curr ->
  (curr = taxId n \/ forall j m, taxonNodes st !! j = Some m -> taxId m <> curr) ->
  exists m, taxonNodes st !! par i = Some m
    /\ taxonNode_lenient st (parentTaxId n) = Ok m
    /\ taxId m = parentTaxId n
    /\ (i <> r -> dep i = S (dep (par i)))
    /\ (i = r -> parentTaxId m = parentTaxId n).
Proof using Hwf.
  intros Hn Hne Hcurr. pose proof (store_rooted st Hwf) as Hrooted.
  assert (Hi : (i < N)%nat) by (by apply lookup_lt_Some in Hn).
  destruct (tree_parent_record st i n Hwf Hn) as (m & Hm & Hmid & _ & Hlen).
  exists m. split; [done|]. split; [done|]. split; [done|]. split.
  - intros Hir. apply (dep_step _ _ _ Hrooted i Hi). intros He.
    apply Hir. by apply (rooted_unique _ _ _ Hrooted).
  - intros ->. destruct (tree_root st Hwf) as (_ & Hrr & _).
    rewrite Hrr in Hm. rewrite Hn in Hm. by injection Hm as <-.
Qed.

(** A walk that starts at the id of its record does not start at the root
    when the loop test lets it in. *)
Lemma walk_not_root i n curr :
  taxonNodes st !! i = Some n -> parentTaxId n <> curr -> curr = taxId n -> i <> r.
Proof using Hwf.
  intros Hn Hne -> ->. destruct (tree_root st Hwf) as (_ & Hrr & _).
  by apply Hne, (tree_self_parent st Hwf _ n Hn).
Qed.

Lemma rank_walk_total fuel : forall i n curr cur,
  taxonNodes st !! i = Some n ->
  (curr = taxId n \/ forall j m, taxonNodes st !! j = Some m -> taxId m <> curr) ->
  (dep i < fuel)%nat ->
  exists rk, rank_walk ranks fuel st curr n cur = Ok rk.
Proof using Hwf.
  induction fuel as [|f IH]; intros i n curr cur Hn Hcurr Hfuel; [lia|].
  simpl. destruct (Z.eqb_spec (parentTaxId n) curr) as [?|Hne]; [eauto|].
  destruct ((0 <? findRankIndex ranks (rank n)) && (findRankIndex ranks (rank n) <? cur));
    [eauto|].
  destruct (walk_step i n curr Hn Hne Hcurr) as (m & Hm & Hlen & Hmid & Hdep & Hroot).
  rewrite Hlen. simpl.
  destruct (decide (i = r)) as [Hir|Hir].
  - (* a merged id of the root: the next test ends the loop *)
    exists cur. destruct f; simpl; rewrite (Hroot Hir), Z.eqb_refl; done.
  - apply (IH (par i) m); [done | by left|]. rewrite (Hdep Hir) in Hfuel. lia.
Qed.

Lemma agree_walk_total sel fuel : forall i n curr,
  taxonNodes st !! i = Some n ->
  (curr = taxId n \/ forall j m, taxonNodes st !! j = Some m -> taxId m <> curr) ->
  (dep i < fuel)%nat ->
  exists b, agree_walk fuel st sel curr n = Ok b.
Proof using Hwf.
  induction fuel as [|f IH]; intros i n curr Hn Hcurr Hfuel; [lia|].
  simpl. destruct (Z.eqb_spec (parentTaxId n) curr) as [?|Hne]; [eauto|].
  destruct (curr =? sel); [eauto|].
  destruct (walk_step i n curr Hn Hne Hcurr) as (m & Hm & Hlen & Hmid & Hdep & Hroot).
  rewrite Hlen. simpl.
  destruct (decide (i = r)) as [Hir|Hir].
  - exists false. destruct f; simpl; rewrite (Hroot Hir), Z.eqb_refl; done.
  - apply (IH (par i) m); [done | by left|]. rewrite (Hdep Hir) in Hfuel. lia.
Qed.

Lemma count_at_keys (m : gmap Z TaxNode) key w fresh child k :
  is_Some (count_at m key w fresh child !! k) -> k = key \/ is_Some (m !! k).
Proof using Type.
  unfold count_at. destruct (m !! key);
    (destruct (decide (k = key)) as [->|Hne]; [by left|]);
    rewrite lookup_insert_ne by done; auto.
Qed.

Lemma agg_walk_total w fuel : forall i n curr (m : gmap Z TaxNode),
  taxonNodes st !! i = Some n ->
  (curr = taxId n \/ forall j m', taxonNodes st !! j = Some m' -> taxId m' <> curr) ->
  (dep i < fuel)%nat ->
  (forall k, is_Some (m !! k) -> valid_key st k) ->
  exists m', agg_walk fuel st m curr (parentTaxId n) w = Ok m'
    /\ forall k, is_Some (m' !! k) -> valid_key st k.
Proof using Hwf.
  induction fuel as [|f IH]; intros i n curr m Hn Hcurr Hfuel Hkeys; [lia|].
  simpl. destruct (Z.eqb_spec (parentTaxId n) curr) as [?|Hne]; [eauto|].
  destruct (walk_step i n curr Hn Hne Hcurr) as (m1 & Hm1 & Hlen & Hmid & Hdep & Hroot).
  rewrite Hlen. simpl.
  assert (Hkeys1 : forall k, is_Some (count_at m (parentTaxId n) w false curr !! k) ->
                             valid_key st k).
  { intros k [->|Hk]%count_at_keys; [|auto]. rewrite <- Hmid. eapply record_valid_key; eauto. }
  destruct (decide (i = r)) as [Hir|Hir].
  - eexists. split; [|exact Hkeys1]. destruct f; simpl; rewrite (Hroot Hir), Z.eqb_refl; done.
  - apply (IH (par i) m1); [done | by left | | done]. rewrite (Hdep Hir) in Hfuel. lia.
Qed.

Lemma agg_hit_total fuel a h :
  (N < fuel)%nat ->
  taxon h = 0 \/ valid_key st (taxon h) ->
  (forall k, is_Some (ancTaxIdsCounts a !! k) -> valid_key st k) ->
  exists a', agg_hit fuel st a h = Ok a'
    /\ forall k, is_Some (ancTaxIdsCounts a' !! k) -> valid_key st k.
Proof using Hwf Htab.
  intros Hfuel Hh Hkeys. pose proof (store_rooted st Hwf) as Hrooted.
  unfold agg_hit. destruct (Z.eqb_spec (taxon h) 0) as [H0|H0]; [eauto|].
  destruct Hh as [?|Hvalid]; [done|].
  destruct (valid_key_record _ Hvalid) as (i & n & Hn & Hcurr & Ht & _).
  rewrite Ht. simpl.
  assert (Hi : (i < N)%nat) by (by apply lookup_lt_Some in Hn).
  assert (Hd : (dep i <= N)%nat) by apply (dep_le _ _ _ Hrooted i Hi).
  destruct (agg_walk_total (hit_weight h) fuel i n (taxon h)
              (count_at (ancTaxIdsCounts a) (taxon h) (hit_weight h) true 0) Hn Hcurr)
    as (m' & Hrun & Hkeys'); [lia | |].
  { intros k [->|Hk]%count_at_keys; auto. }
  rewrite Hrun. simpl. eauto.
Qed.

Lemma agg_total fuel : forall setTaxa a,
  (N < fuel)%nat ->
  hits_ok st setTaxa ->
  (forall k, is_Some (ancTaxIdsCounts a !! k) -> valid_key st k) ->
  exists a', foldM (agg_hit fuel st) a setTaxa = Ok a'
    /\ forall k, is_Some (ancTaxIdsCounts a' !! k) -> valid_key st k.
Proof using Hwf Htab.
  induction setTaxa as [|h hs IH]; intros a Hfuel Hhits Hkeys; [by exists a|].
  destruct (agg_hit_total fuel a h Hfuel (Hhits h ltac:(apply list_elem_of_here)) Hkeys)
    as (a1 & Hrun1 & Hkeys1).
  destruct (IH a1 Hfuel) as (a' & Hrun & Hkeys'); [|done|].
  { intros h' Hh'. apply Hhits. by apply list_elem_of_further. }
  exists a'. split; [|done]. rewrite foldM_cons, Hrun1. done.
Qed.

Lemma lineage_rank_total fuel k :
  (N < fuel)%nat -> valid_key st k -> exists rk, lineage_rank ranks fuel st k = Ok rk.
Proof using Hwf Htab.
  intros Hfuel Hvalid. pose proof (store_rooted st Hwf) as Hrooted.
  destruct (valid_key_record _ Hvalid) as (i & n & Hn & Hcurr & _ & Hlen).
  assert (Hi : (i < N)%nat) by (by apply lookup_lt_Some in Hn).
  assert (Hd : (dep i <= N)%nat) by apply (dep_le _ _ _ Hrooted i Hi).
  unfold lineage_rank. rewrite Hlen. simpl.
  apply (rank_walk_total fuel i n); [done | done | lia].
Qed.

Lemma select_total fuel total cutoff : forall (es : list (TaxID * TaxNode)) s,
  (N < fuel)%nat ->
  (forall it, it ∈ es -> valid_key st it.1) ->
  exists s', foldM (select_step ranks fuel st total cutoff) s es = Ok s'.
Proof using Hwf Htab.
  induction es as [|it es IH]; intros s Hfuel Hkeys; [by exists s|].
  assert (Hstep : exists s1, select_step ranks fuel st total cutoff s it = Ok s1).
  { unfold select_step. destruct (negb (isCandidate it.2)); [eauto|].
    destruct (dge _ cutoff); [|eauto].
    destruct (lineage_rank_total fuel it.1 Hfuel (Hkeys it ltac:(apply list_elem_of_here)))
      as (rk & Hrk).
    unfold lineage_rank in Hrk. bind_inv Hrk as node Hnode. rewrite Hnode. simpl.
    rewrite Hrk. simpl. destruct (_ || _); eauto. }
  destruct Hstep as (s1 & Hs1).
  destruct (IH s1 Hfuel) as (s' & Hrun).
  { intros it' Hit'. apply Hkeys. by apply list_elem_of_further. }
  exists s'. rewrite foldM_cons, Hs1. done.
Qed.

Lemma agree_total fuel sel : forall setTaxa n,
  (N < fuel)%nat ->
  hits_ok st setTaxa ->
  exists n', foldM (agree_hit fuel st sel) n setTaxa = Ok n'.
Proof using Hwf Htab.
  pose proof (store_rooted st Hwf) as Hrooted.
  induction setTaxa as [|h hs IH]; intros n Hfuel Hhits; [by exists n|].
  assert (Hstep : exists n1, agree_hit fuel st sel n h = Ok n1).
  { unfold agree_hit. destruct (Z.eqb_spec (taxon h) 0) as [?|H0]; [eauto|].
    destruct (Hhits h ltac:(apply list_elem_of_here)) as [?|Hvalid]; [done|].
    destruct (valid_key_record _ Hvalid) as (i & nd & Hn & Hcurr & _ & Hlen).
    assert (Hi : (i < N)%nat) by (by apply lookup_lt_Some in Hn).
    assert (Hd : (dep i <= N)%nat) by apply (dep_le _ _ _ Hrooted i Hi).
    rewrite Hlen. simpl.
    destruct (agree_walk_total sel fuel i nd (taxon h) Hn Hcurr ltac:(lia)) as (b & Hb).
    rewrite Hb. simpl. eauto. }
  destruct Hstep as (n1 & Hn1).
  destruct (IH n1 Hfuel) as (n' & Hrun).
  { intros h' Hh'. apply Hhits. by apply list_elem_of_further. }
  exists n'. rewrite foldM_cons, Hn1. done.
Qed.

(** The function returns, and its result is the final state of the
    selection loop, for which [sel_inv] holds over all entries of the map. *)
Lemma weighted_selection fuel setTaxa cutoff :
  (N < fuel)%nat ->
  hits_ok st setTaxa ->
  exists a s res,
    foldM (agg_hit fuel st) (mkAgg ∅ 0 0 dzero) setTaxa = Ok a
    /\ weightedMajorityLCA ranks fuel st setTaxa cutoff = Ok res
    /\ res_taxon res = selctedTaxon s
    /\ res_selectedPercent res = selectedPercent s
    /\ sel_inv ranks fuel st (totalAssignedSeqsWeights a) cutoff
         (in_key_order (ancTaxIdsCounts a)) s.
Proof using Hwf Htab.
  intros Hfuel Hhits.
  destruct (agg_total fuel setTaxa (mkAgg ∅ 0 0 dzero) Hfuel Hhits) as (a & Hagg & Hkeys).
  { intros k Hk. simpl in Hk. rewrite lookup_empty in Hk. by destruct Hk. }
  destruct (select_total fuel (totalAssignedSeqsWeights a) cutoff
              (in_key_order (ancTaxIdsCounts a)) (mkSel INT_MAX 0 dzero) Hfuel)
    as (s & Hsel).
  { intros [k tn] Hit. apply in_key_order_elem in Hit. apply Hkeys. exists tn. exact Hit. }
  pose proof (select_fold_inv _ _ _ _ _ _ [] _ _ Hsel (sel_inv_init _ _ _ _ _)) as Hinv.
  simpl in Hinv.
  destruct (agree_total fuel (selctedTaxon s) setTaxa 0 Hfuel Hhits) as (n & Hagree).
  exists a, s. unfold weightedMajorityLCA. rewrite Hagg. simpl. rewrite Hsel. simpl.
  assert (Hdone : forall res, res_taxon res = selctedTaxon s ->
            res_selectedPercent res = selectedPercent s ->
            exists res', Ok a = Ok a /\ Ok res = Ok res' /\ res_taxon res' = selctedTaxon s
              /\ res_selectedPercent res' = selectedPercent s
              /\ sel_inv ranks fuel st (totalAssignedSeqsWeights a) cutoff
                   (in_key_order (ancTaxIdsCounts a)) s).
  { intros res H1 H2. exists res. done. }
  destruct (selctedTaxon s =? ROOT_TAXID); [by apply Hdone|].
  destruct (selctedTaxon s =? 0); [by apply Hdone|].
  rewrite Hagree. simpl. by apply Hdone.
Qed.

End Weighted.

Lemma lineage_rank_le ranks fuel st k rk :
  lineage_rank ranks fuel st k = Ok rk -> rk <= INT_MAX.
Proof.
  unfold lineage_rank. intros Hrun. bind_inv Hrun as node Hnode.
  eapply rank_walk_le; [|exact Hrun]. unfold ROOT_RANK. lia.
Qed.

(** C8 (amended).  Over a tree store with a sound table, for hits that are
    unassigned or known and cutoffs [c1 <= c2]: the selection at [c2] is 0
    (unassigned), or the selection at [c1] is a taxon too and its lineage min
    rank, as the selection walk finds it, is at most that of the selection
    at [c2]. *)
Theorem C8_raising_the_cutoff st ranks fuel setTaxa (c1 c2 : double) :
  tree_store st = true -> table_ok st = true ->
  (length (taxonNodes st) < fuel)%nat ->
  hits_ok st setTaxa ->
  dge c2 c1 = true ->
  exists res1 res2,
    weightedMajorityLCA ranks fuel st setTaxa c1 = Ok res1
    /\ weightedMajorityLCA ranks fuel st setTaxa c2 = Ok res2
    /\ (res_taxon res2 = 0
        \/ (res_taxon res1 <> 0
            /\ exists rk1 rk2,
                 lineage_rank ranks fuel st (res_taxon res1) = Ok rk1
                 /\ lineage_rank ranks fuel st (res_taxon res2) = Ok rk2
                 /\ rk1 <= rk2)).
Proof.
  intros Hwf Htab Hfuel Hhits Hc.
  destruct (weighted_selection st ranks Hwf Htab fuel setTaxa c1 Hfuel Hhits)
    as (a & s1 & res1 & Hagg & Hrun1 & Htaxon1 & _ & Hbound1 & Hbest1 & Hsel1).
  destruct (weighted_selection st ranks Hwf Htab fuel setTaxa c2 Hfuel Hhits)
    as (a' & s2 & res2 & Hagg' & Hrun2 & Htaxon2 & _ & Hbound2 & _ & Hsel2).
  rewrite Hagg in Hagg'. injection Hagg' as <-.
  exists res1, res2. split; [done|]. split; [done|]. rewrite Htaxon1, Htaxon2.
  destruct Hsel2 as [(? & _)|(Hne2 & Hpos2 & tn2 & Hin2 & Hq2 & Hrk2 & Hp2)]; [by left|].
  right.
  assert (Hq1 : qualifies (totalAssignedSeqsWeights a) c1 tn2 = true).
  { unfold qualifies in *. apply andb_prop in Hq2 as [-> Hge]. simpl.
    eapply dge_mono; eauto. }
  destruct (Hbest1 _ Hin2 Hq1) as (rk & Hrk & Hcmp). simpl in Hrk, Hcmp.
  rewrite Hrk2 in Hrk. injection Hrk as <-. rewrite Hp2 in Hcmp.
  destruct Hsel1 as [(_ & Hmin1 & Hp1)|(Hne1 & _ & tn1 & _ & _ & Hrk1 & _)].
  - exfalso. rewrite Hmin1, Hp1 in Hcmp.
    destruct Hcmp as [?|[Heq Hnot]]; [lia|].
    destruct Hpos2 as [?|Hgt]; [lia | congruence].
  - split; [done|]. exists (minRank s1), (minRank s2). split; [done|]. split; [done|].
    destruct Hcmp as [?|[-> _]]; lia.
Qed.

(** Closes [hits_ok] for a list of hits written out. *)
Ltac hits_ok_by_lookup :=
  let h := fresh "h" in
  let Hh := fresh "Hh" in
  intros h Hh;
  repeat (apply elem_of_cons in Hh as [-> | Hh];
          [right; eexists; split; [vm_compute; reflexivity | lia] |]);
  by apply elem_of_nil in Hh.

(** C8 (instance): the same hits at the cutoffs 1/4 and 1/2. *)
Lemma C8_witness :
  exists res1 res2,
    weightedMajorityLCA ranks_genus_species 7 store6 hits_456 quarter = Ok res1
    /\ weightedMajorityLCA ranks_genus_species 7 store6 hits_456 half = Ok res2
    /\ (res_taxon res2 = 0
        \/ (res_taxon res1 <> 0
            /\ exists rk1 rk2,
                 lineage_rank ranks_genus_species 7 store6 (res_taxon res1) = Ok rk1
                 /\ lineage_rank ranks_genus_species 7 store6 (res_taxon res2) = Ok rk2
                 /\ rk1 <= rk2)).
Proof.
  apply (C8_raising_the_cutoff store6 ranks_genus_species 7 hits_456 quarter half);
    [vm_compute; reflexivity | vm_compute; reflexivity | simpl; lia | hits_ok_by_lookup
    | vm_compute; reflexivity].
Defined.

(** C8 (counterexample).  In the same taxonomy, with weight 2 on taxon 3 and
    weight 1 on taxon 5: at cutoff 1/4 the function selects 5, whose lineage
    has the lowest rank index 7; at cutoff 1/2 it selects 3, whose lineage
    has the lowest rank index 4.  Raising the cutoff has produced a taxon
    with a lower rank index on its lineage. *)
Lemma C8_counterexample_lower_rank_at_higher_cutoff :
  tree_store store_ranks_out_of_order = true
  /\ dge half quarter = true
  /\ exists res1 res2,
       weightedMajorityLCA sample_ranks 5 store_ranks_out_of_order hits_33_5 quarter = Ok res1
       /\ weightedMajorityLCA sample_ranks 5 store_ranks_out_of_order hits_33_5 half = Ok res2
       /\ res_taxon res1 = 5 /\ res_taxon res2 = 3
       /\ spec_lineage_min sample_ranks 5 store_ranks_out_of_order 3 = 7
       /\ spec_lineage_min sample_ranks 5 store_ranks_out_of_order 2 = 4.
Proof.
  split; [vm_compute; reflexivity|]. split; [vm_compute; reflexivity|].
  do 2 eexists. split; [vm_compute; reflexivity|]. split; [vm_compute; reflexivity|].
  repeat split; vm_compute; reflexivity.
Qed.

Section TreeLca.

Local Open Scope nat_scope.

Context (N : nat) (par : nat -> nat) (r : nat).
Hypothesis Htree : rooted N par r.

Local Abbreviation dep i := (default O (depth_from N par i)).

Lemma dep_iter k : forall x, x < N -> k <= dep x ->
  Nat.iter k par x < N /\ dep (Nat.iter k par x) = dep x - k.
Proof using Htree.
  induction k as [|k IH]; intros x Hx Hk; simpl.
  - split; [done | lia].
  - destruct (IH x Hx ltac:(lia)) as [Hy Hd].
    assert (Hne : par (Nat.iter k par x) <> Nat.iter k par x).
    { intros He. pose proof (rooted_unique N par r Htree _ Hy He) as Hr.
      rewrite Hr, (dep_root N par r Htree) in Hd. lia. }
    destruct (dep_step N par r Htree _ Hy Hne) as [HS _].
    split; [by apply (rooted_par N par r Htree)|]. lia.
Qed.

Lemma iter_root k : Nat.iter k par r = r.
Proof using Htree.
  induction k as [|k IH]; simpl; [done|]. rewrite IH. apply (rooted_self N par r Htree).
Qed.

Lemma iter_dep_root x : x < N -> Nat.iter (dep x) par x = r.
Proof using Htree.
  intros Hx. destruct (dep_iter (dep x) x Hx ltac:(lia)) as [Hy Hd].
  apply (dep_zero N par r Htree _ Hy). lia.
Qed.

Lemma iter_lt k x : x < N -> Nat.iter k par x < N.
Proof using Htree.
  intros Hx. induction k as [|k IH]; simpl; [done|]. by apply (rooted_par N par r Htree).
Qed.

Lemma ancestor_below w x : x < N -> (ancestor par w x <-> below N par w x).
Proof using Htree.
  intros Hx. split.
  - intros [k <-]. destruct (decide (k <= dep x)) as [Hk|Hk].
    + destruct (dep_iter k x Hx Hk) as [_ Hd]. unfold below. rewrite Hd.
      split; [lia|]. f_equal. lia.
    + replace k with ((k - dep x) + dep x) by lia.
      rewrite Nat.iter_add, (iter_dep_root x Hx), iter_root.
      unfold below. rewrite (dep_root N par r Htree). split; [lia|].
      rewrite Nat.sub_0_r. by apply iter_dep_root.
  - intros [_ Hit]. by eexists.
Qed.

Lemma below_refl x : below N par x x.
Proof using. unfold below. split; [lia|]. by rewrite Nat.sub_diag. Qed.

Lemma below_same_depth w x : below N par w x -> dep x <= dep w -> x = w.
Proof using.
  intros [Hle Hit] Hge. replace (dep x - dep w) with 0 in Hit by lia. done.
Qed.

Lemma below_trans v c a : below N par v c -> below N par c a -> below N par v a.
Proof using.
  intros [Hvc Hitv] [Hca Hitc]. split; [lia|].
  replace (dep a - dep v) with ((dep c - dep v) + (dep a - dep c)) by lia.
  by rewrite Nat.iter_add, Hitc.
Qed.

(** Two records that [a] lies below are comparable: the deeper one lies
    below the other. *)
Lemma below_chain w c a : below N par w a -> below N par c a -> dep c <= dep w -> below N par c w.
Proof using.
  intros [Hwa Hitw] [Hca Hitc] Hle. split; [done|].
  transitivity (Nat.iter (dep w - dep c) par (Nat.iter (dep a - dep w) par a));
    [by rewrite Hitw|].
  rewrite <- Nat.iter_add.
  replace (dep w - dep c + (dep a - dep w)) with (dep a - dep c) by lia. done.
Qed.

Lemma below_kid v c : c ∈ kids N par v -> below N par v c.
Proof using Htree.
  intros Hc. pose proof (kid_dep N par r Htree v c Hc) as (_ & _ & HS & _).
  apply (kids_spec N par r Htree) in Hc as (_ & Hp & _).
  split; [lia|]. replace (dep c - dep v) with 1 by lia. done.
Qed.

(** Records below two different children of [v] have no common ancestor
    below [v]. *)
Lemma below_two_kids v c c' a b w :
  c ∈ kids N par v -> c' ∈ kids N par v -> c <> c' ->
  below N par c a -> below N par c' b ->
  below N par w a -> below N par w b -> below N par w v.
Proof using Htree.
  intros Hc Hc' Hne Hca Hcb Hwa Hwb.
  pose proof (kid_dep N par r Htree v c Hc) as (_ & _ & HS & _).
  pose proof (kid_dep N par r Htree v c' Hc') as (_ & _ & HS' & _).
  destruct (decide (dep w <= dep v)) as [Hle|Hgt].
  - apply (below_chain v w a); [|done|done].
    apply (below_trans v c a); [by apply below_kid | done].
  - exfalso. apply Hne.
    pose proof (below_chain w c a Hwa Hca ltac:(lia)) as [_ H1].
    pose proof (below_chain w c' b Hwb Hcb ltac:(lia)) as [_ H2].
    rewrite <- H1, <- H2, HS, HS'. done.
Qed.

Lemma lca_windows_nil : lca_windows N par [].
Proof using. intros p q a b _ Ha. by rewrite lookup_nil in Ha. Qed.

Lemma lca_windows_single v : lca_windows N par [v].
Proof using.
  intros p q a b Hpq Ha Hb.
  apply list_lookup_singleton_Some in Ha as [-> <-].
  apply list_lookup_singleton_Some in Hb as [-> <-].
  exists 0, v. split; [lia|]. split; [done|]. split.
  - intros m' x Hm' Hx. apply list_lookup_singleton_Some in Hx as [_ <-]. apply below_refl.
  - auto.
Qed.

(** Two lists with the property, joined at an entry [v] that everything lies
    below. *)
Lemma lca_windows_app X Y v :
  lca_windows N par X -> lca_windows N par Y ->
  (X <> [] -> Y <> [] -> last X = Some v \/ head Y = Some v) ->
  (forall x, x ∈ X ++ Y -> below N par v x) ->
  (forall a b w', a ∈ X -> b ∈ Y -> below N par w' a -> below N par w' b -> below N par w' v) ->
  lca_windows N par (X ++ Y).
Proof using.
  intros HX HY Hjoin Hall Hleast p q a b Hpq Ha Hb.
  destruct (decide (q < length X)) as [Hq|Hq].
  { rewrite lookup_app_l in Ha by lia. rewrite lookup_app_l in Hb by lia.
    destruct (HX p q a b Hpq Ha Hb) as (m & w & Hm & Hw & Hwin & Hlow).
    exists m, w. split; [done|]. split; [rewrite lookup_app_l by lia; done|].
    split; [|done]. intros m' x Hm' Hx. rewrite lookup_app_l in Hx by lia. eauto. }
  destruct (decide (length X <= p)) as [Hp|Hp].
  { rewrite lookup_app_r in Ha by lia. rewrite lookup_app_r in Hb by lia.
    destruct (HY (p - length X) (q - length X) a b ltac:(lia) Ha Hb) as (m & w & Hm & Hw & Hwin & Hlow).
    exists (length X + m), w. split; [lia|].
    split; [rewrite lookup_app_r by lia; by replace (length X + m - length X) with m by lia|].
    split; [|done]. intros m' x Hm' Hx. rewrite lookup_app_r in Hx by lia.
    apply (Hwin (m' - length X)); [lia | done]. }
  assert (HXne : X <> []) by (intros ->; simpl in *; lia).
  assert (HYne : Y <> []).
  { intros ->. rewrite app_nil_r in Hb. apply lookup_lt_Some in Hb. lia. }
  assert (Hm : exists m, p <= m <= q /\ (X ++ Y) !! m = Some v).
  { destruct (Hjoin HXne HYne) as [Hl|Hh].
    - exists (pred (length X)). split; [lia|].
      rewrite lookup_app_l by lia. by rewrite <- last_lookup.
    - exists (length X). split; [lia|].
      rewrite lookup_app_r by lia. rewrite Nat.sub_diag. by rewrite <- head_lookup. }
  destruct Hm as (m & Hm & Hv). exists m, v. split; [done|]. split; [done|]. split.
  - intros m' x _ Hx. apply Hall. by eapply list_elem_of_lookup_2.
  - intros w' Hwa Hwb. apply (Hleast a b); [| |done|done].
    + rewrite lookup_app_l in Ha by lia. by eapply list_elem_of_lookup_2.
    + rewrite lookup_app_r in Hb by lia. by eapply list_elem_of_lookup_2.
Qed.

(** What the tour of a child [c] of [v] looks like: nothing (no fuel), or
    entries below [c] with the property, then [v]. *)
Local Abbreviation block v c B :=
  (B = [] \/ exists body, B = body ++ [v] /\ lca_windows N par body
                /\ forall x, x ∈ body -> x < N /\ below N par c x).

Lemma block_windows v c B :
  c ∈ kids N par v -> block v c B ->
  lca_windows N par B
  /\ (B <> [] -> last B = Some v)
  /\ (forall x, x ∈ B -> x = v \/ (x < N /\ below N par c x)).
Proof using Htree.
  intros Hc [->|(body & -> & Hwin & Hbody)].
  { split; [apply lca_windows_nil|]. split; [done|]. intros x Hx. by apply elem_of_nil in Hx. }
  split; [|split].
  - apply (lca_windows_app body [v] v); [done | apply lca_windows_single | by right | |].
    + intros x [Hx|Hx%list_elem_of_singleton]%elem_of_app.
      * apply (below_trans v c x); [by apply below_kid | by apply Hbody].
      * subst. apply below_refl.
    + intros a b w' _ Hb%list_elem_of_singleton _ Hwb. by subst.
  - intros _. by rewrite last_snoc.
  - intros x [Hx|Hx%list_elem_of_singleton]%elem_of_app; [right; by apply Hbody | by left].
Qed.

Lemma blocks_windows v (g : nat -> list nat) : forall cs,
  NoDup cs -> (forall c, c ∈ cs -> c ∈ kids N par v) ->
  (forall c, c ∈ cs -> block v c (g c)) ->
  lca_windows N par (cs ≫= g)
  /\ (forall x, x ∈ cs ≫= g -> x = v \/ exists c, c ∈ cs /\ x < N /\ below N par c x).
Proof using Htree.
  induction cs as [|c cs IH]; intros Hnd Hkids Hblk.
  { split; [apply lca_windows_nil|]. intros x Hx. by apply elem_of_nil in Hx. }
  apply NoDup_cons in Hnd as [Hc Hnd].
  destruct IH as [IHwin IHel]; [done | intros; apply Hkids; by right | intros; apply Hblk; by right|].
  destruct (block_windows v c (g c)) as (Bwin & Blast & Bel);
    [apply Hkids; by left | apply Hblk; by left|].
  rewrite bind_cons.
  assert (Hel : forall x, x ∈ g c ++ (cs ≫= g) ->
            x = v \/ exists c0, c0 ∈ c :: cs /\ x < N /\ below N par c0 x).
  { intros x [Hx|Hx]%elem_of_app.
    - destruct (Bel x Hx) as [->|?]; [by left|]. right. exists c. split; [by left | done].
    - destruct (IHel x Hx) as [->|(c0 & ? & ?)]; [by left|]. right. exists c0.
      split; [by right | done]. }
  split; [|done].
  apply (lca_windows_app (g c) (cs ≫= g) v); [done | done | intros; left; auto | |].
  - intros x Hx. destruct (Hel x Hx) as [->|(c0 & Hc0 & _ & Hb)]; [apply below_refl|].
    apply (below_trans v c0 x); [|done]. by apply below_kid, Hkids.
  - intros a b w' Ha Hb Hwa Hwb.
    destruct (Bel a Ha) as [->|[_ Hca]]; [done|].
    destruct (IHel b Hb) as [->|(c' & Hc' & _ & Hcb)]; [done|].
    apply (below_two_kids v c c' a b w'); try done.
    + apply Hkids. by left.
    + apply Hkids. by right.
    + intros ->. done.
Qed.

Lemma fmap_bind_list {A B C} (f : B -> C) (g : A -> list B) (l : list A) :
  f <$> (l ≫= g) = l ≫= (fun x => f <$> g x).
Proof using.
  induction l as [|x l IH]; [done|]. by rewrite !bind_cons, fmap_app, IH.
Qed.

(** The records named by a tour: nothing, or entries below [v] with the
    property, then the parent of [v]. *)
Lemma euler_windows f : forall v lvl,
  v < N ->
  (euler f N par v lvl).*1 = []
  \/ exists body, (euler f N par v lvl).*1 = body ++ [par v]
       /\ lca_windows N par body
       /\ forall x, x ∈ body -> x < N /\ below N par v x.
Proof using Htree.
  induction f as [|f IH]; intros v lvl Hv; [by left|]. right.
  set (g := fun c => (euler f N par c (lvl + 1)%Z).*1).
  exists (v :: (kids N par v ≫= g)). split.
  { simpl. rewrite fmap_app, fmap_bind_list. done. }
  destruct (blocks_windows v g (kids N par v)) as [Hwin Hel].
  { apply (kids_NoDup N par r Htree). } { done. }
  { intros c Hc. pose proof (kid_dep N par r Htree v c Hc) as (Hc' & _).
    destruct (IH c (lvl + 1)%Z Hc') as [?|(body & Hb & ? & ?)]; [by left|]. right.
    exists body. apply (kids_spec N par r Htree) in Hc as (_ & <- & _). done. }
  assert (Hall : forall x, x ∈ v :: (kids N par v ≫= g) -> x < N /\ below N par v x).
  { intros x [->|Hx]%elem_of_cons; [split; [done | apply below_refl]|].
    destruct (Hel x Hx) as [->|(c & Hc & HxN & Hb)]; [split; [done | apply below_refl]|].
    split; [done|]. apply (below_trans v c x); [by apply below_kid | done]. }
  split; [|done].
  apply (lca_windows_app [v] (kids N par v ≫= g) v);
    [apply lca_windows_single | done | by left | intros x Hx; by apply Hall|].
  intros a b w' Ha%list_elem_of_singleton _ Hwa _. by subst.
Qed.

End TreeLca.

(** The tour of an engine without its last entry: a list of records with
    [lca_windows], each position carrying the record in [E] and its depth in
    [L]; the last entry has level -1. *)
Lemma tour_windows fuel st t :
  tree_store st = true ->
  (length (taxonNodes st) < fuel)%nat ->
  index_store fuel st = Ok t ->
  exists T, lca_windows (length (taxonNodes st)) (parent_index st) T
    /\ Z.of_nat (length T) = 2 * Z.of_nat (length (taxonNodes st)) - 1
    /\ (forall p x, T !! p = Some x ->
          (x < length (taxonNodes st))%nat
          /\ at_ (E t) (Z.of_nat p) = Ok (Z.of_nat x)
          /\ at_ (L t) (Z.of_nat p) = Ok (Z.of_nat (tree_depth st x)))
    /\ at_ (L t) (2 * Z.of_nat (length (taxonNodes st)) - 1) = Ok (-1).
Proof.
  intros Hwf Hfuel Hrun. pose proof (store_rooted st Hwf) as Hrooted.
  destruct (index_store_tour fuel st Hwf Hfuel) as (t' & Hrun' & _ & _ & HE & HL & Hlen & _).
  rewrite Hrun in Hrun'. injection Hrun' as <-.
  set (N := length (taxonNodes st)) in *.
  set (par := parent_index st) in *. set (r := root_index st) in *.
  destruct fuel as [|f]; [lia|].
  destruct (euler_root N par r Hrooted f) as (body & Heul & Hbody).
  destruct (euler_windows N par r Hrooted (S f) r 0 ltac:(apply Hrooted))
    as [Hnil|(T & HT & Hwin & Hall)].
  { rewrite Heul in Hnil. discriminate. }
  assert (HTb : T = r :: body.*1).
  { rewrite Heul in HT. rewrite fmap_cons, fmap_app in HT. simpl in HT.
    rewrite (rooted_self N par r Hrooted) in HT.
    change (r :: body.*1 ++ [r]) with ((r :: body.*1) ++ [r]) in HT.
    apply app_inj_tail in HT as [HT _]. done. }
  assert (Hbl : Z.of_nat (length body) = 2 * Z.of_nat N - 2).
  { rewrite HE, Heul in Hlen. rewrite length_fmap in Hlen. simpl in Hlen.
    rewrite length_app in Hlen. simpl in Hlen. lia. }
  exists T. split; [done|]. split.
  { rewrite HTb. simpl. rewrite length_fmap. lia. }
  split.
  - intros p x Hp. rewrite HTb in Hp.
    assert (Hent : euler (S f) N par r 0 !! p = Some (x, Z.of_nat (tree_depth st x))
                   /\ (x < N)%nat).
    { rewrite Heul. destruct p as [|p]; simpl in Hp.
      - injection Hp as <-. simpl. split; [|apply Hrooted].
        unfold tree_depth. fold N par. by rewrite (dep_root N par r Hrooted).
      - simpl. rewrite list_lookup_fmap in Hp.
        destruct (body !! p) as [[u l]|] eqn:Hul; [|discriminate].
        simpl in Hp. injection Hp as ->.
        destruct (Hbody x l) as [Hx ->]; [by eapply list_elem_of_lookup_2|].
        split; [|done]. rewrite lookup_app_l; [done|]. by apply lookup_lt_Some in Hul. }
    destruct Hent as [Hent Hx]. split; [done|].
    split; apply at_of_nat; rewrite ?HE, ?HL, list_lookup_fmap, Hent; done.
  - apply at_Ok. split; [lia|]. rewrite HL, Heul, fmap_cons, fmap_app. simpl.
    replace (Z.to_nat (2 * Z.of_nat N - 1)) with (S (length body.*2))
      by (rewrite length_fmap; lia).
    simpl. apply list_lookup_middle. done.
Qed.

(** A position that [H] gives for a record lies in the tour without its last
    entry, and names the record there. *)
Lemma registered_position st t T u p :
  Z.of_nat (length T) = 2 * Z.of_nat (length (taxonNodes st)) - 1 ->
  (forall p x, T !! p = Some x ->
     (x < length (taxonNodes st))%nat
     /\ at_ (E t) (Z.of_nat p) = Ok (Z.of_nat x)
     /\ at_ (L t) (Z.of_nat p) = Ok (Z.of_nat (tree_depth st x))) ->
  at_ (L t) (2 * Z.of_nat (length (taxonNodes st)) - 1) = Ok (-1) ->
  Z.of_nat (length (E t)) = 2 * Z.of_nat (length (taxonNodes st)) ->
  at_ (E t) p = Ok (Z.of_nat u) ->
  at_ (L t) p = Ok (Z.of_nat (tree_depth st u)) ->
  0 <= p /\ T !! Z.to_nat p = Some u.
Proof.
  intros HlenT HT Hlast HlenE HEp HLp.
  pose proof (at_Ok_range _ _ _ HEp) as Hp.
  assert (Hne : p <> 2 * Z.of_nat (length (taxonNodes st)) - 1).
  { intros ->. rewrite Hlast in HLp. injection HLp as HLp. lia. }
  split; [lia|].
  destruct (lookup_lt_is_Some_2 T (Z.to_nat p) ltac:(lia)) as [x Hx].
  destruct (HT _ _ Hx) as (_ & HEx & _). rewrite Z2Nat.id in HEx by lia.
  rewrite HEp in HEx. injection HEx as HEx. apply Nat2Z.inj in HEx. by subst.
Qed.

(** The helper returns the lowest common ancestor of two records, when the
    guard for index 0 does not apply or index 0 is the root. *)
Lemma lcaHelper_lca fuel st t i j :
  tree_store st = true ->
  (length (taxonNodes st) < fuel)%nat ->
  index_store fuel st = Ok t ->
  (i < length (taxonNodes st))%nat ->
  (j < length (taxonNodes st))%nat ->
  ((i <> O /\ j <> O) \/ root_index st = O) ->
  exists w, lcaHelper t (Z.of_nat i) (Z.of_nat j) = Ok (Z.of_nat w)
    /\ (w < length (taxonNodes st))%nat
    /\ lowest_common_ancestor (parent_index st) w i j.
Proof.
  intros Hwf Hfuel Hrun Hi Hj Hguard. pose proof (store_rooted st Hwf) as Hrooted.
  set (N := length (taxonNodes st)) in *.
  set (par := parent_index st) in *. set (r := root_index st) in *.
  assert (Hanc_r : forall x, (x < N)%nat -> ancestor par r x).
  { intros x Hx. exists (default O (depth_from N par x)). by apply (iter_dep_root N par r Hrooted). }
  assert (Hr_top : forall w', ancestor par w' r -> w' = r).
  { intros w' [k <-]. apply (iter_root N par r Hrooted). }
  unfold lcaHelper.
  destruct (Z.eqb_spec (Z.of_nat i) 0) as [Hi0|Hi0].
  { destruct Hguard as [[? _]|Hr0]; [lia|]. simpl. exists r. rewrite Hr0.
    split; [done|]. split; [fold r; rewrite Hr0 in *; lia|]. fold r. rewrite <- Hr0.
    assert (i = r) as -> by lia.
    split; [by exists O|]. split; [by apply Hanc_r|].
    intros w' Hw' _. rewrite (Hr_top w' Hw'). by exists O. }
  destruct (Z.eqb_spec (Z.of_nat j) 0) as [Hj0|Hj0].
  { destruct Hguard as [[_ ?]|Hr0]; [lia|]. simpl. exists r. rewrite Hr0.
    split; [done|]. split; [fold r; rewrite Hr0 in *; lia|]. fold r. rewrite <- Hr0.
    assert (j = r) as -> by lia.
    split; [by apply Hanc_r|]. split; [by exists O|].
    intros w' _ Hw'. rewrite (Hr_top w' Hw'). by exists O. }
  simpl.
  destruct (Z.ltb_spec 0 (Z.of_nat i)) as [_|?]; [|lia].
  destruct (Z.ltb_spec 0 (Z.of_nat j)) as [_|?]; [|lia]. simpl.
  destruct (Z.eqb_spec (Z.of_nat i) (Z.of_nat j)) as [He|Hne].
  { exists i. split; [done|]. split; [done|]. assert (j = i) as -> by lia.
    split; [by exists O|]. split; [by exists O|]. auto. }
  destruct (index_store_tour fuel st Hwf Hfuel) as (t' & Hrun' & _ & HN & _ & _ & Hlen & Hreg).
  rewrite Hrun in Hrun'. injection Hrun' as <-.
  destruct (tour_windows fuel st t Hwf Hfuel Hrun) as (T & Hwin & HlenT & HT & Hlast).
  destruct (Hreg i Hi) as (pi & HHi & HEi & HLi).
  destruct (Hreg j Hj) as (pj & HHj & HEj & HLj). simpl in *.
  rewrite HHi, HHj. simpl.
  destruct (registered_position st t T i pi HlenT HT Hlast Hlen HEi HLi) as [Hpi HTi].
  destruct (registered_position st t T j pj HlenT HT Hlast Hlen HEj HLj) as [Hpj HTj].
  pose proof (lookup_lt_Some _ _ _ HTi) as Hpi'.
  pose proof (lookup_lt_Some _ _ _ HTj) as Hpj'.
  (* the window, its two ends and the records named there *)
  assert (Hw : exists lo hi a b,
            (lo <= hi)%nat /\ T !! lo = Some a /\ T !! hi = Some b
            /\ ((a = i /\ b = j) \/ (a = j /\ b = i))
            /\ (if pj <? pi then RangeMinimumQuery t pj pi else RangeMinimumQuery t pi pj)
               = RangeMinimumQuery t (Z.of_nat lo) (Z.of_nat hi)).
  { destruct (Z.ltb_spec pj pi).
    - exists (Z.to_nat pj), (Z.to_nat pi), j, i. rewrite !Z2Nat.id by lia.
      split; [lia|]. split; [done|]. split; [done|]. split; [by right | done].
    - exists (Z.to_nat pi), (Z.to_nat pj), i, j. rewrite !Z2Nat.id by lia.
      split; [lia|]. split; [done|]. split; [done|]. split; [by left | done]. }
  destruct Hw as (lo & hi & a & b & Hlohi & Ha & Hb & Hab & ->).
  pose proof (lookup_lt_Some _ _ _ Hb) as Hhi.
  destruct (Hwin lo hi a b Hlohi Ha Hb) as (m & w & Hm & Hw & Hbelow & Hlow).
  destruct (RangeMinimumQuery_argmin t (Z.of_nat lo) (Z.of_nat hi)
              (index_store_rmq_ready _ _ _ Hrun) ltac:(lia) ltac:(lia))
    as (q & Hq & Hqr & lq & Hlq & Hmin).
  rewrite Hq. simpl.
  destruct (HT _ _ Hw) as (HwN & _ & HLw). fold N in HwN.
  specialize (Hmin (Z.of_nat m) _ ltac:(lia) HLw).
  destruct (lookup_lt_is_Some_2 T (Z.to_nat q) ltac:(lia)) as [x Hx].
  destruct (HT _ _ Hx) as (HxN & HEx & HLx). rewrite Z2Nat.id in HEx, HLx by lia.
  rewrite Hlq in HLx. injection HLx as ->.
  pose proof (Hbelow (Z.to_nat q) x ltac:(lia) Hx) as Hwx.
  assert (x = w) as ->.
  { apply (below_same_depth N par w x Hwx). unfold tree_depth in Hmin. fold N par in Hmin. lia. }
  rewrite HEx. simpl. destruct (Z.leb_spec 0 (Z.of_nat w)) as [_|?]; [|lia]. simpl.
  exists w. split; [done|]. split; [done|].
  pose proof (Hbelow lo a ltac:(lia) Ha) as Hwa.
  pose proof (Hbelow hi b ltac:(lia) Hb) as Hwb.
  assert (HaN : (a < N)%nat) by (destruct Hab as [[-> _]|[-> _]]; done).
  assert (HbN : (b < N)%nat) by (destruct Hab as [[_ ->]|[_ ->]]; done).
  assert (Hgen : lowest_common_ancestor par w a b).
  { split; [by apply (ancestor_below N par r Hrooted)|].
    split; [by apply (ancestor_below N par r Hrooted)|].
    intros w' Hw'a Hw'b. apply (ancestor_below N par r Hrooted); [done|].
    apply Hlow; by apply (ancestor_below N par r Hrooted). }
  destruct Hab as [[-> ->]|[-> ->]]; [done|].
  destruct Hgen as (? & ? & Hl). split; [done|]. split; [done|]. auto.
Qed.

Lemma ancestor_refl par x : ancestor par x x.
Proof. by exists O. Qed.

Lemma ancestor_trans par u v x : ancestor par u v -> ancestor par v x -> ancestor par u x.
Proof. intros [k <-] [l <-]. exists (k + l)%nat. apply Nat.iter_add. Qed.

Lemma ancestor_antisym N par r u v :
  rooted N par r -> (u < N)%nat -> (v < N)%nat ->
  ancestor par u v -> ancestor par v u -> u = v.
Proof.
  intros Hrooted Hu Hv Huv Hvu.
  apply (ancestor_below N par r Hrooted) in Huv; [|done].
  apply (ancestor_below N par r Hrooted) in Hvu; [|done].
  symmetry. apply (below_same_depth N par u v Huv). apply Hvu.
Qed.

Lemma at_Err {A} (v : list A) (i : Z) (e : fault) : at_ v i = Err e -> e = OutOfBounds.
Proof. unfold at_. case_decide; [case_match|]; congruence. Qed.

Lemma lcaHelper_comm t i j : lcaHelper t i j = lcaHelper t j i.
Proof.
  unfold lcaHelper. rewrite (orb_comm (i =? 0) (j =? 0)).
  destruct ((j =? 0) || (i =? 0)); [done|].
  destruct (Z.ltb_spec 0 i) as [Hi|Hi], (Z.ltb_spec 0 j) as [Hj|Hj]; simpl; try done.
  rewrite (Z.eqb_sym j i).
  destruct (Z.eqb_spec i j) as [->|Hne]; [done|].
  destruct (at_ (H t) i) as [v1|e1] eqn:H1, (at_ (H t) j) as [v2|e2] eqn:H2; simpl; try done.
  - destruct (Z.ltb_spec v2 v1), (Z.ltb_spec v1 v2); try lia; try done.
    assert (v1 = v2) as -> by lia. done.
  - by rewrite (at_Err _ _ _ H1), (at_Err _ _ _ H2).
Qed.

(** ** Lowest common ancestors *)

(** In an engine built from a tree store, for ids [a] and [b] that resolve to
    the records [i] and [j] (directly or as merged aliases), [LCA a b] is the
    external id of the lowest common ancestor of [i] and [j], provided neither
    of them is the record with internal index 0, or that record is the root. *)
Theorem LCA_lowest_common_ancestor fuel st t a b i j :
  tree_store st = true ->
  (length (taxonNodes st) < fuel)%nat ->
  index_store fuel st = Ok t ->
  nodeId st a = Ok (Z.of_nat i) ->
  nodeId st b = Ok (Z.of_nat j) ->
  (i < length (taxonNodes st))%nat ->
  (j < length (taxonNodes st))%nat ->
  ((i <> O /\ j <> O) \/ root_index st = O) ->
  exists w, LCA t a b = Ok (tid st w)
    /\ (w < length (taxonNodes st))%nat
    /\ lowest_common_ancestor (parent_index st) w i j.
Proof.
  intros Hwf Hfuel Hrun Ha Hb Hi Hj Hguard.
  destruct (index_store_start _ _ _ Hrun) as [Hst _].
  destruct (lcaHelper_lca fuel st t i j Hwf Hfuel Hrun Hi Hj Hguard) as (w & Hw & HwN & Hlca).
  exists w. split; [|done].
  destruct (lookup_lt_is_Some_2 _ _ HwN) as [n Hn].
  unfold LCA. rewrite Hst.
  rewrite (nodeId_exists _ _ _ Ha), (nodeId_exists _ _ _ Hb). simpl.
  rewrite Ha, Hb. simpl. rewrite Hw. simpl.
  rewrite (at_of_nat _ _ _ Hn). simpl. unfold tid. by rewrite Hn.
Qed.

Lemma LCA_lowest_common_ancestor_witness :
  exists t, index_store 7 store6 = Ok t
    /\ exists w, LCA t 4 6 = Ok (tid store6 w)
         /\ (w < length (taxonNodes store6))%nat
         /\ lowest_common_ancestor (parent_index store6) w 3 5.
Proof.
  eexists. split; [vm_compute; reflexivity|].
  apply (LCA_lowest_common_ancestor 7 store6 _ 4 6 3%nat 5%nat);
    [vm_compute; reflexivity | simpl; lia | vm_compute; reflexivity
    | vm_compute; reflexivity | vm_compute; reflexivity | simpl; lia | simpl; lia
    | left; lia].
Defined.

(** For two ids within the table, [LCA a b] and [LCA b a] agree exactly when
    one of the two has a record or the two are the same: with no record for
    either, [LCA] returns its second argument. *)
Theorem LCA_symmetric_iff_one_is_known t a b :
  in_table (store t) a -> in_table (store t) b ->
  (LCA t a b = LCA t b a
   <-> (a = b \/ nodeExists (store t) a = Ok true \/ nodeExists (store t) b = Ok true)).
Proof.
  intros Hta Htb.
  destruct (at_in_range (D (store t)) a Hta) as [da Hda].
  destruct (at_in_range (D (store t)) b Htb) as [db Hdb].
  assert (Hea : nodeExists (store t) a = Ok (negb (da =? -1))) by (unfold nodeExists; by rewrite Hda).
  assert (Heb : nodeExists (store t) b = Ok (negb (db =? -1))) by (unfold nodeExists; by rewrite Hdb).
  unfold LCA. rewrite Hea, Heb.
  destruct (Z.eqb_spec da (-1)) as [Ha|Ha], (Z.eqb_spec db (-1)) as [Hb|Hb]; simpl.
  - split; [intros [= ->]; by left | intros [->|[?|?]]; done].
  - split; [auto | done].
  - split; [auto | done].
  - split; [auto|]. intros _.
    assert (Hia : nodeId (store t) a = Ok da).
    { apply nodeId_Ok. unfold in_table in Hta. split; [lia|]. done. }
    assert (Hib : nodeId (store t) b = Ok db).
    { apply nodeId_Ok. unfold in_table in Htb. split; [lia|]. done. }
    rewrite Hia, Hib. simpl. by rewrite lcaHelper_comm.
Qed.

Lemma LCA_symmetric_iff_one_is_known_witness :
  exists t, index_store 7 store6 = Ok t
    /\ (LCA t 4 6 = LCA t 6 4
        <-> (4 = 6 \/ nodeExists (store t) 4 = Ok true \/ nodeExists (store t) 6 = Ok true)).
Proof.
  eexists. split; [vm_compute; reflexivity|].
  apply LCA_symmetric_iff_one_is_known; unfold in_table; simpl; lia.
Defined.

(** In an engine built from a tree store, for ids [a] and [c] other than 0
    that resolve to the records [ia] and [ic], [IsAncestor a c] says whether
    [ia] is [ic] or an ancestor of it, provided neither is the record with
    internal index 0, or that record is the root. *)
Theorem IsAncestor_iff_ancestor fuel st t a c ia ic :
  tree_store st = true ->
  (length (taxonNodes st) < fuel)%nat ->
  index_store fuel st = Ok t ->
  a <> 0 -> c <> 0 ->
  nodeId st a = Ok (Z.of_nat ia) ->
  nodeId st c = Ok (Z.of_nat ic) ->
  (ia < length (taxonNodes st))%nat ->
  (ic < length (taxonNodes st))%nat ->
  ((ia <> O /\ ic <> O) \/ root_index st = O) ->
  exists b, IsAncestor t a c = Ok b /\ (b = true <-> ancestor (parent_index st) ia ic).
Proof.
  intros Hwf Hfuel Hrun Ha0 Hc0 Ha Hc Hia Hic Hguard.
  pose proof (store_rooted st Hwf) as Hrooted.
  destruct (index_store_start _ _ _ Hrun) as [Hst _].
  unfold IsAncestor. rewrite Hst.
  destruct (Z.eqb_spec a c) as [->|Hne].
  { exists true. split; [done|]. split; [|done]. intros _.
    rewrite Ha in Hc. injection Hc as Hc. apply Nat2Z.inj in Hc as ->. apply ancestor_refl. }
  destruct (Z.eqb_spec a 0) as [?|_]; [done|].
  destruct (Z.eqb_spec c 0) as [?|_]; [done|]. simpl.
  rewrite (nodeId_exists _ _ _ Ha), (nodeId_exists _ _ _ Hc). simpl.
  rewrite Ha, Hc. simpl.
  destruct (lcaHelper_lca fuel st t ic ia Hwf Hfuel Hrun Hic Hia ltac:(tauto))
    as (w & Hw & HwN & Hwc & Hwa & Hlow).
  rewrite Hw. simpl. eexists. split; [reflexivity|].
  destruct (Z.eqb_spec (Z.of_nat w) (Z.of_nat ia)) as [He|He].
  - apply Nat2Z.inj in He as ->. done.
  - split; [done|]. intros Hanc. exfalso. apply He. f_equal.
    apply (ancestor_antisym _ _ _ w ia Hrooted); [done | done | done|].
    apply Hlow; [done | apply ancestor_refl].
Qed.

Lemma IsAncestor_iff_ancestor_witness :
  exists t, index_store 7 store6 = Ok t
    /\ exists b, IsAncestor t 2 5 = Ok b /\ (b = true <-> ancestor (parent_index store6) 1 4).
Proof.
  eexists. split; [vm_compute; reflexivity|].
  apply (IsAncestor_iff_ancestor 7 store6 _ 2 5 1%nat 4%nat);
    [vm_compute; reflexivity | simpl; lia | vm_compute; reflexivity | lia | lia
    | vm_compute; reflexivity | vm_compute; reflexivity | simpl; lia | simpl; lia
    | left; lia].
Defined.

(** In any engine, an id that resolves to the record with internal index 0
    is reported as an ancestor of every other id that has a record, and no
    other id is reported as an ancestor of it: [lcaHelper] answers 0 as soon
    as one of its arguments is 0. *)
Theorem IsAncestor_internal_index_zero t a c ic :
  a <> c -> a <> 0 -> c <> 0 ->
  nodeId (store t) a = Ok 0 ->
  nodeId (store t) c = Ok ic ->
  IsAncestor t a c = Ok true
  /\ IsAncestor t c a = Ok (ic =? 0).
Proof.
  intros Hne Ha0 Hc0 Ha Hc.
  unfold IsAncestor.
  destruct (Z.eqb_spec a c) as [?|_]; [done|].
  destruct (Z.eqb_spec c a) as [?|_]; [done|].
  destruct (Z.eqb_spec a 0) as [?|_]; [done|].
  destruct (Z.eqb_spec c 0) as [?|_]; [done|]. simpl.
  rewrite (nodeId_exists _ _ _ Ha), (nodeId_exists _ _ _ Hc). simpl.
  rewrite Ha, Hc. simpl.
  unfold lcaHelper. rewrite orb_true_r. simpl. split; [done|].
  by destruct ic.
Qed.

(** Instance: taxon 2, a child of the root, listed first in the nodes input,
    is reported as an ancestor of the root 1. *)
Lemma IsAncestor_internal_index_zero_witness :
  exists t, index_store 3 store_root_second = Ok t
    /\ IsAncestor t 2 1 = Ok true
    /\ IsAncestor t 1 2 = Ok (1 =? 0).
Proof.
  eexists. split; [vm_compute; reflexivity|].
  apply (IsAncestor_internal_index_zero _ 2 1 1);
    [lia | lia | lia | vm_compute; reflexivity | vm_compute; reflexivity].
Defined.

(** ** The LCA of a list of ids *)

Lemma resolve_None st x :
  in_table st x -> resolve st x = None -> nodeExists st x = Ok false.
Proof.
  intros Hx Hr. destruct (at_in_range (D st) x Hx) as [d Hd].
  unfold resolve in Hr. rewrite Hd in Hr. unfold nodeExists. rewrite Hd. simpl.
  by destruct (d =? -1).
Qed.

Lemma resolve_Some st x i :
  table_ok st = true -> in_table st x -> resolve st x = Some i ->
  nodeExists st x = Ok true /\ nodeId st x = Ok (Z.of_nat i)
  /\ (i < length (taxonNodes st))%nat.
Proof.
  intros Htab Hx Hr. destruct (at_in_range (D st) x Hx) as [d Hd].
  unfold resolve in Hr. rewrite Hd in Hr.
  destruct (Z.eqb_spec d (-1)) as [?|Hne]; [done|]. injection Hr as <-.
  destruct (table_slot st Htab x d Hd Hne) as (_ & j & n & -> & Hn).
  rewrite Nat2Z.id. apply lookup_lt_Some in Hn.
  assert (Hid : nodeId st x = Ok (Z.of_nat j)).
  { apply nodeId_Ok. unfold in_table in Hx. split; [lia|]. done. }
  split; [by apply (nodeId_exists _ _ _ Hid)|]. done.
Qed.

Lemma skip_unknown_spec st : forall taxa,
  (forall x, x ∈ taxa -> in_table st x) ->
  exists it, skip_unknown st taxa = Ok it
    /\ omap (resolve st) it = omap (resolve st) taxa
    /\ (forall x, x ∈ it -> in_table st x)
    /\ match it with [] => True | x :: _ => is_Some (resolve st x) end.
Proof.
  induction taxa as [|x taxa IH]; intros Hin; [by exists []|].
  simpl. destruct (resolve st x) as [i|] eqn:Hr.
  - exists (x :: taxa). assert (Hex : nodeExists st x = Ok true).
    { destruct (at_in_range (D st) x (Hin x ltac:(by left))) as [d Hd].
      unfold resolve in Hr. rewrite Hd in Hr. unfold nodeExists. rewrite Hd. simpl.
      by destruct (d =? -1). }
    rewrite Hex. simpl. rewrite Hr. done.
  - rewrite (resolve_None st x (Hin x ltac:(by left)) Hr). simpl.
    apply IH. intros y Hy. apply Hin. by right.
Qed.

Lemma lca_of_snoc N par r w S j w' :
  rooted N par r ->
  lowest_common_ancestor_of par w S ->
  lowest_common_ancestor par w' w j ->
  lowest_common_ancestor_of par w' (S ++ [j]).
Proof.
  intros _ [Hall Hlow] (Hw & Hj & Hlow'). split.
  - intros i [Hi|Hi%list_elem_of_singleton]%elem_of_app.
    + apply (ancestor_trans par w' w i); [done | by apply Hall].
    + by subst.
  - intros w'' Hw''. apply Hlow'.
    + apply Hlow. intros i Hi. apply Hw''. apply elem_of_app. by left.
    + apply Hw''. apply elem_of_app. right. by apply list_elem_of_singleton.
Qed.

Lemma LCA_fold fuel st t :
  tree_store st = true -> table_ok st = true ->
  (length (taxonNodes st) < fuel)%nat ->
  index_store fuel st = Ok t ->
  root_index st = O ->
  forall rest w S,
    (forall x, x ∈ rest -> in_table st x) ->
    (w < length (taxonNodes st))%nat ->
    lowest_common_ancestor_of (parent_index st) w S ->
    exists w', foldM (LCA_step t) (Z.of_nat w) rest = Ok (Z.of_nat w')
      /\ (w' < length (taxonNodes st))%nat
      /\ lowest_common_ancestor_of (parent_index st) w' (S ++ omap (resolve st) rest).
Proof.
  intros Hwf Htab Hfuel Hrun Hr0. pose proof (store_rooted st Hwf) as Hrooted.
  destruct (index_store_start _ _ _ Hrun) as [Hst _].
  induction rest as [|x rest IH]; intros w S Hin Hw HS.
  { exists w. simpl. rewrite app_nil_r. done. }
  rewrite foldM_cons. unfold LCA_step at 1. rewrite Hst.
  assert (Hx : in_table st x) by (apply Hin; by left).
  assert (Hrest : forall y, y ∈ rest -> in_table st y) by (intros; apply Hin; by right).
  change (omap (resolve st) (x :: rest))
    with (match resolve st x with Some y => y :: omap (resolve st) rest
                             | None => omap (resolve st) rest end).
  destruct (resolve st x) as [j|] eqn:Hres.
  - destruct (resolve_Some st x j Htab Hx Hres) as (Hex & Hid & Hj).
    rewrite Hex. simpl. rewrite Hid. simpl.
    destruct (lcaHelper_lca fuel st t w j Hwf Hfuel Hrun Hw Hj ltac:(by right))
      as (w' & Hw' & Hw'N & Hlca).
    rewrite Hw'. simpl.
    destruct (IH w' (S ++ [j]) Hrest Hw'N) as (w'' & Hrun'' & Hw''N & Hlow).
    { by apply (lca_of_snoc _ _ _ w S j w' Hrooted). }
    exists w''. split; [done|]. split; [done|].
    by rewrite <- app_assoc in Hlow.
  - rewrite (resolve_None st x Hx Hres). simpl. by apply IH.
Qed.

(** In an engine built from a tree store whose first record is the root, for
    a list of ids within the table: if none of them has a record the result
    is NULL; otherwise it is the record of the lowest common ancestor of the
    records that the ids with a record resolve to, the others being ignored. *)
Theorem LCA_vector_lowest_common_ancestor fuel st t taxa :
  tree_store st = true -> table_ok st = true ->
  (length (taxonNodes st) < fuel)%nat ->
  index_store fuel st = Ok t ->
  root_index st = O ->
  (forall x, x ∈ taxa -> in_table st x) ->
  match omap (resolve st) taxa with
  | [] => LCA_vector t taxa = Ok None
  | _ :: _ =>
      exists w n, LCA_vector t taxa = Ok (Some n)
        /\ taxonNodes st !! w = Some n
        /\ lowest_common_ancestor_of (parent_index st) w (omap (resolve st) taxa)
  end.
Proof.
  intros Hwf Htab Hfuel Hrun Hr0 Hin.
  destruct (index_store_start _ _ _ Hrun) as [Hst _].
  destruct (skip_unknown_spec st taxa Hin) as (it & Hskip & Hsame & Hit & Hhead).
  unfold LCA_vector. rewrite Hst, Hskip. simpl. rewrite <- Hsame.
  destruct it as [|x rest]; [done|].
  destruct Hhead as [i Hres].
  change (omap (resolve st) (x :: rest))
    with (match resolve st x with Some y => y :: omap (resolve st) rest
                             | None => omap (resolve st) rest end).
  rewrite Hres.
  destruct (resolve_Some st x i Htab (Hit x ltac:(by left)) Hres) as (_ & Hid & Hi).
  rewrite Hid. simpl.
  destruct (LCA_fold fuel st t Hwf Htab Hfuel Hrun Hr0 rest i [i]) as (w & Hfold & Hw & Hlow).
  { intros y Hy. apply Hit. by right. } { done. }
  { split.
    - intros j ->%list_elem_of_singleton. apply ancestor_refl.
    - intros w' Hw'. apply Hw'. by apply list_elem_of_singleton. }
  rewrite Hfold. simpl.
  destruct (lookup_lt_is_Some_2 _ _ Hw) as [n Hn].
  exists w, n. split; [|done].
  destruct (Z.leb_spec 0 (Z.of_nat w)) as [_|?]; [|lia].
  destruct (Z.ltb_spec (Z.of_nat w) (Z.of_nat (length (taxonNodes st)))) as [_|?]; [|lia].
  simpl. by rewrite (at_of_nat _ _ _ Hn).
Qed.

(** Instance: the ids 0 (without a record), 4 and 5 in the
    tree of six records. *)
Lemma LCA_vector_lowest_common_ancestor_witness :
  exists t, index_store 7 store6 = Ok t
    /\ match omap (resolve store6) [0; 4; 5] with
       | [] => LCA_vector t [0; 4; 5] = Ok None
       | _ :: _ =>
           exists w n, LCA_vector t [0; 4; 5] = Ok (Some n)
             /\ taxonNodes store6 !! w = Some n
             /\ lowest_common_ancestor_of (parent_index store6) w (omap (resolve store6) [0; 4; 5])
       end.
Proof.
  eexists. split; [vm_compute; reflexivity|].
  apply (LCA_vector_lowest_common_ancestor 7 store6 _ [0; 4; 5]);
    [vm_compute; reflexivity | vm_compute; reflexivity | simpl; lia | vm_compute; reflexivity
    | vm_compute; reflexivity |].
  intros x Hx. unfold in_table.
  repeat (apply elem_of_cons in Hx as [-> | Hx]; [simpl; lia|]).
  by apply elem_of_nil in Hx.
Defined.

(** ** AllRanks *)

(** [AllRanks] leaves its loop only at a record with external id 1: on a
    record with another id that is its own parent it does not return. *)
Theorem AllRanks_needs_taxon_1 st node :
  taxId node <> 1 ->
  taxonNode_deref st (parentTaxId node) = Ok node ->
  forall fuel, AllRanks fuel st node = Err OutOfFuel.
Proof.
  intros H1 Hself fuel. unfold AllRanks. generalize (∅ : gmap string string).
  induction fuel as [|f IH]; intros result; [done|].
  simpl. destruct (Z.eqb_spec (taxId node) 1) as [?|_]; [done|].
  rewrite Hself. simpl. apply IH.
Qed.

(** Instance: the engine built from a nodes input whose only record is the
    self-parented taxon 2, with the merged row that makes 1 an alias of 2. *)
Lemma AllRanks_needs_taxon_1_witness :
  (exists t, NcbiTaxonomy_new 2 [] nodes_root2 merged_1_to_2 = Ok t
     /\ store t = store_root2_alias1)
  /\ forall fuel,
       AllRanks fuel store_root2_alias1 (mkTaxonNode 0 2 2 "no rank" EmptyString)
       = Err OutOfFuel.
Proof.
  split; [eexists; split; vm_compute; reflexivity|].
  apply AllRanks_needs_taxon_1; [simpl; lia | vm_compute; reflexivity].
Defined.

Lemma lookup_emplace {V} (m : gmap string V) k v k' :
  emplace m k v !! k' = match m !! k' with
                        | Some x => Some x
                        | None => if decide (k = k') then Some v else None
                        end.
Proof.
  unfold emplace. destruct (m !! k) as [x|] eqn:Hk.
  - destruct (m !! k') eqn:Hk'; [done|]. case_decide; [congruence | done].
  - destruct (decide (k = k')) as [->|Hne].
    + by rewrite lookup_insert_eq, Hk.
    + rewrite lookup_insert_ne by done. by destruct (m !! k').
Qed.

Lemma no_rank_cond s :
  negb (String.eqb s "no_rank") && negb (String.eqb s "no rank") = negb (no_rank s).
Proof. unfold no_rank. by rewrite negb_orb. Qed.

Section AllRanksTree.

Context (st : Store) (i : nat).
Hypothesis Hwf : tree_store st = true.
Hypothesis Hi : (i < length (taxonNodes st))%nat.

Local Abbreviation N := (length (taxonNodes st)).
Local Abbreviation par := (parent_index st).
Local Abbreviation r := (root_index st).
Local Abbreviation d := (tree_depth st i).
Local Abbreviation p := (nth_ancestor st i).

(** What the map holds when the loop is at the record [k] links above [i]:
    for each rank other than the two left out, the name of the lowest record
    below that one that has the rank. *)
Local Abbreviation filled k m :=
  ((forall key nm, m !! key = Some nm ->
      exists j nx, (j < k)%nat /\ taxonNodes st !! p j = Some nx
        /\ rank nx = key /\ name nx = nm /\ no_rank key = false
        /\ forall j' ny, (j' < j)%nat -> taxonNodes st !! p j' = Some ny -> rank ny <> key)
   /\ (forall j ny, (j < k)%nat -> taxonNodes st !! p j = Some ny ->
         no_rank (rank ny) = false -> is_Some (m !! rank ny))).

(** What [AllRanks] returns for record [i], whose depth is [d]. *)
Local Abbreviation all_ranks_of m :=
  ((forall key nm, m !! key = Some nm ->
      exists j nx, (j <= d)%nat /\ taxonNodes st !! p j = Some nx
        /\ rank nx = key /\ name nx = nm
        /\ (j = d \/ no_rank key = false)
        /\ forall j' ny, (j' < j)%nat -> taxonNodes st !! p j' = Some ny ->
             rank ny = key -> no_rank key = true)
   /\ (forall j ny, (j <= d)%nat -> taxonNodes st !! p j = Some ny ->
         j = d \/ no_rank (rank ny) = false -> is_Some (m !! rank ny))).

Lemma nth_ancestor_depth k :
  (k <= d)%nat -> (p k < N)%nat /\ tree_depth st (p k) = (d - k)%nat.
Proof using Hwf Hi.
  intros Hk. apply (dep_iter N par r (store_rooted st Hwf) k i Hi Hk).
Qed.

Lemma nth_ancestor_root k nk :
  (k <= d)%nat -> taxonNodes st !! p k = Some nk -> (taxId nk = 1 <-> k = d).
Proof using Hwf Hi.
  intros Hk Hnk. pose proof (store_rooted st Hwf) as Hrooted.
  destruct (nth_ancestor_depth k Hk) as [HpN Hdep].
  rewrite (tree_root_id st Hwf _ nk Hnk). split.
  - intros Hr. rewrite Hr in Hdep. unfold tree_depth in Hdep at 1.
    rewrite (dep_root N par r Hrooted) in Hdep. lia.
  - intros ->. apply (dep_zero N par r Hrooted _ HpN).
    change (tree_depth st (p d) = O). rewrite Hdep. lia.
Qed.

Lemma AllRanks_loop_tree : forall rem fuel k nk m,
  (k + rem = d)%nat -> (rem < fuel)%nat ->
  taxonNodes st !! p k = Some nk ->
  filled k m ->
  exists m', AllRanks_loop fuel st nk m = Ok m' /\ all_ranks_of m'.
Proof using Hwf Hi.
  induction rem as [|rem IH]; intros fuel k nk m Hk Hfuel Hnk [HA HB];
    (destruct fuel as [|f]; [lia|]); simpl.
  - (* at the root *)
    assert (Hkd : k = d) by lia.
    destruct (Z.eqb_spec (taxId nk) 1) as [_|Hne].
    2:{ exfalso. apply Hne. apply (nth_ancestor_root k nk); [lia | done | done]. }
    eexists. split; [reflexivity|]. split.
    + intros key nm. rewrite lookup_emplace.
      destruct (m !! key) as [x|] eqn:Hm.
      * intros [= <-]. destruct (HA key x Hm) as (j & nx & Hj & Hnx & Hrk & Hnm & Hnr & Hfirst).
        exists j, nx. split; [lia|]. split; [done|]. split; [done|]. split; [done|].
        split; [by right|]. intros j' ny Hj' Hny Hrny. exfalso. by apply (Hfirst j' ny).
      * case_decide as Hkey; [|done]. intros [= <-].
        exists k, nk. split; [lia|]. split; [done|]. split; [done|]. split; [done|].
        split; [by left|]. intros j' ny Hj' Hny Hrny.
        destruct (no_rank key) eqn:Hnr; [done|]. exfalso.
        destruct (HB j' ny Hj' Hny) as [x Hx]; [by rewrite Hrny|].
        rewrite Hrny in Hx. congruence.
    + intros j ny Hj Hny Hcase. rewrite lookup_emplace.
      destruct (m !! rank ny) as [x|] eqn:Hm; [by eexists|].
      destruct (decide (j = k)) as [->|Hjk].
      * rewrite Hnk in Hny. injection Hny as <-. rewrite decide_True by done. by eexists.
      * destruct Hcase as [->|Hnr]; [lia|].
        destruct (HB j ny ltac:(lia) Hny Hnr) as [x Hx]. congruence.
  - (* below the root *)
    destruct (Z.eqb_spec (taxId nk) 1) as [H1|_].
    { apply (nth_ancestor_root k nk) in H1; [lia | lia | done]. }
    destruct (tree_parent_record st _ nk Hwf Hnk) as (mk & Hmk & _ & Hderef & _).
    rewrite Hderef. simpl. rewrite no_rank_cond.
    apply (IH f (S k) mk); [lia | lia | done|].
    destruct (no_rank (rank nk)) eqn:Hnr; simpl.
    + split.
      * intros key nm Hm. destruct (HA key nm Hm) as (j & nx & Hj & Hrest).
        exists j, nx. split; [lia | done].
      * intros j ny Hj Hny Hnry. destruct (decide (j = k)) as [->|Hjk].
        -- rewrite Hnk in Hny. injection Hny as <-. congruence.
        -- apply (HB j ny); [lia | done | done].
    + split.
      * intros key nm. rewrite lookup_emplace.
        destruct (m !! key) as [x|] eqn:Hm.
        -- intros [= <-]. destruct (HA key x Hm) as (j & nx & Hj & Hrest).
           exists j, nx. split; [lia | done].
        -- case_decide as Hkey; [|done]. intros [= <-].
           exists k, nk. split; [lia|]. split; [done|]. split; [done|]. split; [done|].
           split; [by rewrite <- Hkey|]. intros j' ny Hj' Hny Hrny.
           destruct (HB j' ny Hj' Hny) as [x Hx]; [by rewrite Hrny, <- Hkey|].
           rewrite Hrny in Hx. congruence.
      * intros j ny Hj Hny Hnry. rewrite lookup_emplace.
        destruct (m !! rank ny) as [x|] eqn:Hm; [by eexists|].
        destruct (decide (j = k)) as [->|Hjk].
        -- rewrite Hnk in Hny. injection Hny as <-. rewrite decide_True by done. by eexists.
        -- destruct (HB j ny ltac:(lia) Hny Hnry) as [x Hx]. congruence.
Qed.

End AllRanksTree.

Lemma AllRanks_lowest_record_of_each_rank_aux fuel st i n :
  tree_store st = true ->
  taxonNodes st !! i = Some n ->
  (tree_depth st i < fuel)%nat ->
  exists m, AllRanks fuel st n = Ok m
    /\ (forall key nm, m !! key = Some nm ->
          exists j nx, (j <= tree_depth st i)%nat
            /\ taxonNodes st !! nth_ancestor st i j = Some nx
            /\ rank nx = key /\ name nx = nm
            /\ (j = tree_depth st i \/ no_rank key = false)
            /\ forall j' ny, (j' < j)%nat -> taxonNodes st !! nth_ancestor st i j' = Some ny ->
                 rank ny = key -> no_rank key = true)
    /\ (forall j ny, (j <= tree_depth st i)%nat ->
          taxonNodes st !! nth_ancestor st i j = Some ny ->
          j = tree_depth st i \/ no_rank (rank ny) = false -> is_Some (m !! rank ny)).
Proof.
  intros Hwf Hn Hfuel.
  assert (Hi : (i < length (taxonNodes st))%nat) by (by apply lookup_lt_Some in Hn).
  unfold AllRanks.
  apply (AllRanks_loop_tree st i Hwf Hi (tree_depth st i) fuel O n ∅); [lia | done | done|].
  split.
  - intros key nm Hm. by rewrite lookup_empty in Hm.
  - intros j ny Hj. lia.
Qed.

(** In a tree store, [AllRanks] on record [i] of depth [d] returns a map in
    which every entry is the rank and the name of one of the records on the
    path from [i] (0 links up) to the root ([d] links up): the root, if no
    record below it has its rank without being left out, and otherwise the
    lowest record with that rank, which is not one of the two spellings of
    no rank.  The root's rank and every rank on the path other than those two
    spellings have an entry. *)
Theorem AllRanks_lowest_record_of_each_rank fuel st i n :
  tree_store st = true ->
  taxonNodes st !! i = Some n ->
  (tree_depth st i < fuel)%nat ->
  exists m, AllRanks fuel st n = Ok m
    /\ (forall key nm, m !! key = Some nm ->
          exists j nx, (j <= tree_depth st i)%nat
            /\ taxonNodes st !! nth_ancestor st i j = Some nx
            /\ rank nx = key /\ name nx = nm
            /\ (j = tree_depth st i \/ no_rank key = false)
            /\ forall j' ny, (j' < j)%nat -> taxonNodes st !! nth_ancestor st i j' = Some ny ->
                 rank ny = key -> no_rank key = true)
    /\ (forall j ny, (j <= tree_depth st i)%nat ->
          taxonNodes st !! nth_ancestor st i j = Some ny ->
          j = tree_depth st i \/ no_rank (rank ny) = false -> is_Some (m !! rank ny)).
Proof. apply AllRanks_lowest_record_of_each_rank_aux. Qed.

Lemma AllRanks_lowest_record_of_each_rank_witness :
  exists n, taxonNodes store6 !! 3%nat = Some n
  /\ exists m, AllRanks 3 store6 n = Ok m
    /\ (forall key nm, m !! key = Some nm ->
          exists j nx, (j <= tree_depth store6 3)%nat
            /\ taxonNodes store6 !! nth_ancestor store6 3 j = Some nx
            /\ rank nx = key /\ name nx = nm
            /\ (j = tree_depth store6 3 \/ no_rank key = false)
            /\ forall j' ny, (j' < j)%nat -> taxonNodes store6 !! nth_ancestor store6 3 j' = Some ny ->
                 rank ny = key -> no_rank key = true)
    /\ (forall j ny, (j <= tree_depth store6 3)%nat ->
          taxonNodes store6 !! nth_ancestor store6 3 j = Some ny ->
          j = tree_depth store6 3 \/ no_rank (rank ny) = false -> is_Some (m !! rank ny)).
Proof.
  eexists. split; [reflexivity|].
  apply (AllRanks_lowest_record_of_each_rank 3 store6 3);
    [vm_compute; reflexivity | reflexivity | vm_compute; lia].
Defined.

(** ** AtRanks and parseRanks *)

Lemma ranks_checked (NcbiRanks : gmap string Z) (temp : list string) : forall u u',
  foldM (fun (_ : unit) r =>
           if findRankIndex NcbiRanks r =? -1 then Err ExitFailure else Ok tt) u temp = Ok u' ->
  forall level, level ∈ temp -> is_Some (NcbiRanks !! level).
Proof.
  induction temp as [|x temp IH]; intros u u' Hu level Hin.
  { by apply elem_of_nil in Hin. }
  rewrite foldM_cons in Hu. bind_inv Hu as u1 Hu1.
  apply elem_of_cons in Hin as [->|Hin]; [|by eapply IH].
  unfold findRankIndex in Hu1. destruct (NcbiRanks !! x) as [idx|]; [by eexists|].
  simpl in Hu1. discriminate.
Qed.

Lemma parseRanks_known NcbiRanks Util_split ranks levels :
  parseRanks NcbiRanks Util_split ranks = Ok levels ->
  levels = Util_split ranks "," /\ forall level, level ∈ levels -> is_Some (NcbiRanks !! level).
Proof.
  unfold parseRanks. intros Hrun. bind_inv Hrun as u Hu. injection Hrun as <-.
  split; [done|]. by eapply ranks_checked.
Qed.

Lemma AtRanks_levels_returns NcbiRanks allRanks baseRankIndex baseRank : forall levels result,
  (forall level, level ∈ levels -> is_Some (allRanks !! level) \/ is_Some (NcbiRanks !! level)) ->
  exists out, AtRanks_levels NcbiRanks allRanks baseRankIndex baseRank levels result = Returns out
    /\ length out = (length result + length levels)%nat.
Proof.
  induction levels as [|level rest IH]; intros result Hall; simpl.
  { exists result. split; [done | lia]. }
  assert (Hs : is_Some (AtRanks_level NcbiRanks allRanks baseRankIndex baseRank level)).
  { unfold AtRanks_level. destruct (allRanks !! level) as [nm|] eqn:Ha; [by eexists|].
    destruct (Hall level ltac:(by left)) as [[? ?]|[idx Hidx]]; [congruence|].
    rewrite Hidx. destruct (idx <? baseRankIndex); by eexists. }
  destruct Hs as [s ->].
  destruct (IH (result ++ [s])) as (out & Hout & Hlen).
  { intros l Hl. apply Hall. by right. }
  exists out. split; [done|]. rewrite length_app in Hlen. simpl in *. lia.
Qed.

Lemma AtRanks_levels_throws NcbiRanks allRanks baseRankIndex baseRank : forall levels result level,
  level ∈ levels -> allRanks !! level = None -> NcbiRanks !! level = None ->
  AtRanks_levels NcbiRanks allRanks baseRankIndex baseRank levels result = Throws_out_of_range.
Proof.
  induction levels as [|l rest IH]; intros result level Hin Ha Hn.
  { by apply elem_of_nil in Hin. }
  simpl. destruct (AtRanks_level NcbiRanks allRanks baseRankIndex baseRank l) as [s|] eqn:Hs; [|done].
  apply elem_of_cons in Hin as [->|Hin]; [|by eapply IH].
  unfold AtRanks_level in Hs. rewrite Ha, Hn in Hs. discriminate.
Qed.

(** Levels that [parseRanks] has accepted never make [AtRanks] throw: in a
    tree store it returns one entry for each level. *)
Theorem AtRanks_after_parseRanks NcbiRanks Util_split fuel st i n ranks levels :
  tree_store st = true ->
  taxonNodes st !! i = Some n ->
  (tree_depth st i < fuel)%nat ->
  parseRanks NcbiRanks Util_split ranks = Ok levels ->
  exists out, AtRanks NcbiRanks fuel st n levels = Ok (Returns out)
    /\ length out = length levels.
Proof.
  intros Hwf Hn Hfuel Hparse.
  destruct (parseRanks_known _ _ _ _ Hparse) as [_ Hknown].
  destruct (AllRanks_lowest_record_of_each_rank_aux fuel st i n Hwf Hn Hfuel) as (m & Hm & _).
  unfold AtRanks. rewrite Hm. simpl.
  destruct (AtRanks_levels_returns NcbiRanks m (findRankIndex NcbiRanks (rank n))
              ("uc_" +:+ name n) levels []) as (out & Hout & Hlen).
  { intros level Hl. right. by apply Hknown. }
  exists out. by rewrite Hout.
Qed.

Lemma AtRanks_after_parseRanks_witness :
  exists n levels,
    taxonNodes store6 !! 3%nat = Some n
    /\ parseRanks ranks_genus_species (fun s _ => split_on ","%char s) "genus,species" = Ok levels
    /\ exists out, AtRanks ranks_genus_species 3 store6 n levels = Ok (Returns out)
         /\ length out = length levels.
Proof.
  eexists. eexists. split; [reflexivity|]. split; [vm_compute; reflexivity|].
  apply (AtRanks_after_parseRanks ranks_genus_species (fun s _ => split_on ","%char s)
           3 store6 3 _ "genus,species");
    [vm_compute; reflexivity | reflexivity | vm_compute; lia | vm_compute; reflexivity].
Defined.

Lemma AtRanks_levels_entries NcbiRanks allRanks baseRankIndex baseRank :
  forall levels result out,
  AtRanks_levels NcbiRanks allRanks baseRankIndex baseRank levels result = Returns out ->
  forall q level, levels !! q = Some level ->
    exists s, AtRanks_level NcbiRanks allRanks baseRankIndex baseRank level = Some s
      /\ out !! (length result + q)%nat = Some s.
Proof.
  induction levels as [|l rest IH]; intros result out Hout q level Hq; [done|].
  simpl in Hout.
  destruct (AtRanks_level NcbiRanks allRanks baseRankIndex baseRank l) as [s|] eqn:Hs; [|done].
  assert (Hkeep : forall levels result out,
            AtRanks_levels NcbiRanks allRanks baseRankIndex baseRank levels result = Returns out ->
            result `prefix_of` out).
  { clear. induction levels as [|l rest IH]; intros result out Hout; simpl in Hout.
    - by injection Hout as <-.
    - destruct (AtRanks_level _ _ _ _ l); [|done]. apply IH in Hout.
      etrans; [|exact Hout]. by apply prefix_app_r. }
  destruct q as [|q]; simpl in Hq.
  - injection Hq as <-. exists s. split; [done|].
    apply Hkeep in Hout as [tl ->]. rewrite Nat.add_0_r.
    rewrite <- app_assoc. simpl. by apply list_lookup_middle.
  - destruct (IH _ _ Hout q level Hq) as (s' & Hs' & Hlook). exists s'. split; [done|].
    rewrite length_app in Hlook. simpl in Hlook.
    by replace (length result + S q)%nat with (length result + 1 + q)%nat by lia.
Qed.

(** In a tree store, for a record whose rank is not one of the two spellings
    of no rank, the entry of [AtRanks] for a level that is the record's own
    rank is the record's name, whatever [NcbiRanks] holds. *)
Theorem AtRanks_own_rank NcbiRanks fuel st i n levels out q :
  tree_store st = true ->
  taxonNodes st !! i = Some n ->
  (tree_depth st i < fuel)%nat ->
  no_rank (rank n) = false ->
  AtRanks NcbiRanks fuel st n levels = Ok (Returns out) ->
  levels !! q = Some (rank n) ->
  out !! q = Some (name n).
Proof.
  intros Hwf Hn Hfuel Hnr Hrun Hq.
  destruct (AllRanks_lowest_record_of_each_rank_aux fuel st i n Hwf Hn Hfuel) as (m & Hm & HA & HB).
  unfold AtRanks in Hrun. rewrite Hm in Hrun. simpl in Hrun. injection Hrun as Hrun.
  destruct (AtRanks_levels_entries _ _ _ _ _ _ _ Hrun q _ Hq) as (s & Hs & Hout).
  simpl in Hout. rewrite Hout. f_equal.
  destruct (HB O n ltac:(lia) Hn ltac:(by right)) as [nm Hnm].
  unfold AtRanks_level in Hs. rewrite Hnm in Hs. injection Hs as <-.
  destruct (HA _ _ Hnm) as (j & nx & _ & Hnx & Hrk & Hname & _ & Hfirst).
  destruct j as [|j].
  - simpl in Hnx. rewrite Hn in Hnx. by injection Hnx as <-.
  - specialize (Hfirst O n ltac:(lia) Hn eq_refl). congruence.
Qed.

Lemma AtRanks_own_rank_witness :
  exists n, taxonNodes store6 !! 3%nat = Some n
    /\ exists out, AtRanks ranks_genus_species 3 store6 n ["genus"; "species"]%string
                   = Ok (Returns out)
         /\ out !! 1%nat = Some (name n).
Proof.
  eexists. split; [reflexivity|]. eexists. split; [vm_compute; reflexivity|].
  apply (AtRanks_own_rank ranks_genus_species 3 store6 3 _ ["genus"; "species"]%string);
    [vm_compute; reflexivity | reflexivity | vm_compute; lia | vm_compute; reflexivity
    | vm_compute; reflexivity | reflexivity].
Defined.

(** In a tree store, [AtRanks] throws as soon as one of the levels is neither
    a key of [NcbiRanks] nor the rank of a record on the path from the node
    to the root: [NcbiRanks.at] is called for it. *)
Theorem AtRanks_throws_on_unknown_level NcbiRanks fuel st i n levels level :
  tree_store st = true ->
  taxonNodes st !! i = Some n ->
  (tree_depth st i < fuel)%nat ->
  level ∈ levels ->
  NcbiRanks !! level = None ->
  (forall j ny, (j <= tree_depth st i)%nat ->
     taxonNodes st !! nth_ancestor st i j = Some ny -> rank ny <> level) ->
  AtRanks NcbiRanks fuel st n levels = Ok Throws_out_of_range.
Proof.
  intros Hwf Hn Hfuel Hin Hnone Hpath.
  destruct (AllRanks_lowest_record_of_each_rank_aux fuel st i n Hwf Hn Hfuel) as (m & Hm & HA & _).
  unfold AtRanks. rewrite Hm. simpl. f_equal.
  apply (AtRanks_levels_throws _ _ _ _ levels [] level); [done | | done].
  destruct (m !! level) as [nm|] eqn:Hl; [|done].
  destruct (HA _ _ Hl) as (j & nx & Hj & Hnx & Hrk & _). by apply Hpath in Hnx.
Qed.

Lemma AtRanks_throws_on_unknown_level_witness :
  exists n, taxonNodes store6 !! 3%nat = Some n
    /\ AtRanks ranks_genus_species 3 store6 n ["species"; "family"]%string
       = Ok Throws_out_of_range.
Proof.
  eexists. split; [reflexivity|].
  apply (AtRanks_throws_on_unknown_level ranks_genus_species 3 store6 3 _ _ "family"%string);
    [vm_compute; reflexivity | reflexivity | vm_compute; lia
    | right; left | vm_compute; reflexivity |].
  intros j ny Hj Hny. change (tree_depth store6 3) with 2%nat in Hj.
  destruct j as [|[|[|j]]]; try lia; vm_compute in Hny; injection Hny as <-; discriminate.
Defined.

(** ** Lines of the nodes input with fewer than three fields *)

Lemma splitFrom_length more s delimiter : forall prev,
  (1 <= length (splitFrom more s delimiter prev) <= S more)%nat.
Proof.
  induction more as [|m IH]; intros prev; simpl; [lia|].
  case_match; simpl; [|lia]. specialize (IH (default (String.length s) (find s delimiter prev)
                                              + String.length delimiter)%nat). lia.
Qed.

Lemma loadNodes_line_fault a line e :
  loadNodes_line a line = Err e -> e = OutOfBounds.
Proof.
  unfold loadNodes_line.
  destruct (at_ _ 0) eqn:H0; simpl; [|intros [= <-]; by eapply at_Err].
  destruct (at_ _ 1) eqn:H1; simpl; [|intros [= <-]; by eapply at_Err].
  destruct (at_ _ 2) eqn:H2; simpl; [done|intros [= <-]; by eapply at_Err].
Qed.

Lemma loadNodes_line_short a line :
  (length (splitByDelimiter line SEP 3) < 3)%nat ->
  loadNodes_line a line = Err OutOfBounds.
Proof.
  intros Hlen. unfold loadNodes_line.
  destruct (at_ _ 0) eqn:H0; simpl; [|by rewrite (at_Err _ _ _ H0)].
  destruct (at_ _ 1) eqn:H1; simpl; [|by rewrite (at_Err _ _ _ H1)].
  rewrite at_beyond; [done|]. lia.
Qed.

(** The number of fields is at least one and at most [maxCol] (one, for
    [maxCol = 0]: the body of the [do ... while] runs before the test). *)
Theorem splitByDelimiter_field_count s delimiter maxCol :
  (1 <= length (splitByDelimiter s delimiter maxCol) <= Nat.max 1 maxCol)%nat.
Proof.
  unfold splitByDelimiter. pose proof (splitFrom_length (maxCol - 1) s delimiter 0). lia.
Qed.

(** A line of the nodes input that splits into fewer than three fields makes
    [loadNodes] read [result[1]] or [result[2]] outside the vector, whatever
    the other lines are. *)
Theorem loadNodes_line_with_missing_field lines line :
  line ∈ lines ->
  (length (splitByDelimiter line SEP 3) < 3)%nat ->
  loadNodes lines = Err OutOfBounds.
Proof.
  intros Hin Hlen. unfold loadNodes.
  enough (Hfold : forall a, foldM loadNodes_line a lines = Err OutOfBounds)
    by (by rewrite Hfold).
  induction lines as [|l lines IH]; intros a; [by apply elem_of_nil in Hin|].
  rewrite foldM_cons. apply elem_of_cons in Hin as [<-|Hin].
  - by rewrite loadNodes_line_short.
  - destruct (loadNodes_line a l) as [a'|e] eqn:Hl; simpl; [by apply IH|].
    by rewrite (loadNodes_line_fault _ _ _ Hl).
Qed.

(** Instance: an empty line after the root's line. *)
Lemma loadNodes_line_with_missing_field_witness :
  loadNodes [row3 "1" "1" "no rank"; EmptyString] = Err OutOfBounds.
Proof.
  apply (loadNodes_line_with_missing_field _ EmptyString);
    [right; left | vm_compute; lia].
Defined.

(** ** Merged ids never redirect an id that has a record *)

Lemma loadMerged_line_keeps st line st' :
  loadMerged_line st line = Ok st' ->
  taxonNodes st' = taxonNodes st
  /\ length (D st') = length (D st)
  /\ (forall k d, at_ (D st) k = Ok d -> d <> -1 -> at_ (D st') k = Ok d)
  /\ (forall k d, at_ (D st') k = Ok d -> d <> -1 -> exists k0, at_ (D st) k0 = Ok d).
Proof.
  unfold loadMerged_line. intros Hrun.
  bind_inv Hrun as ids Hids. destruct ids as [oldId mergedId]. simpl in Hrun.
  destruct (parseMerged_range _ _ _ Hids) as [HoldId _].
  bind_inv Hrun as exOld HexOld. destruct exOld.
  { injection Hrun as <-. eauto 10. }
  bind_inv Hrun as exNew HexNew. destruct exNew.
  2:{ injection Hrun as <-. eauto 10. }
  bind_inv Hrun as dm Hdm. bind_inv Hrun as D' HD'. injection Hrun as <-. simpl.
  rewrite (nodeExists_uint _ _ _ HoldId HexOld) in HexOld.
  apply nodeExists_Ok in HexOld as (dold & Hdold & Hold).
  assert (dold = -1) as -> by (destruct (Z.eqb_spec dold (-1)); [done | discriminate]).
  split; [done|]. split; [by eapply set_length|]. split.
  - intros k d Hk Hne. destruct (decide (oldId = k)) as [->|Hk'].
    + rewrite Hdold in Hk. congruence.
    + rewrite (at_set_ne _ _ _ _ _ HD' Hk'). done.
  - intros k d Hk Hne. destruct (decide (oldId = k)) as [->|Hk'].
    + rewrite (at_set_eq _ _ _ _ HD') in Hk. injection Hk as <-. eauto.
    + rewrite (at_set_ne _ _ _ _ _ HD' Hk') in Hk. eauto.
Qed.

Lemma loadMerged_keeps st lines : forall st',
  loadMerged st lines = Ok st' ->
  taxonNodes st' = taxonNodes st
  /\ length (D st') = length (D st)
  /\ (forall k d, at_ (D st) k = Ok d -> d <> -1 -> at_ (D st') k = Ok d)
  /\ (forall k d, at_ (D st') k = Ok d -> d <> -1 -> exists k0, at_ (D st) k0 = Ok d).
Proof.
  unfold loadMerged. revert st. induction lines as [|line lines IH]; intros st st' Hrun.
  { simpl in Hrun. injection Hrun as <-. eauto 10. }
  rewrite foldM_cons in Hrun. bind_inv Hrun as st1 H1.
  destruct (loadMerged_line_keeps _ _ _ H1) as (Hn1 & Hl1 & Hk1 & Ha1).
  destruct (IH _ _ Hrun) as (Hn2 & Hl2 & Hk2 & Ha2).
  split; [congruence|]. split; [congruence|]. split.
  - intros k d Hk Hne. apply Hk2; [|done]. by apply Hk1.
  - intros k d Hk Hne. destruct (Ha2 k d Hk Hne) as [k1 Hk1']. by apply (Ha1 k1 d).
Qed.

(** [loadMerged] leaves the records as they are and the table at its length;
    an id that has a record keeps it, and every id that has a record
    afterwards has the record of an id that had one before. *)
Theorem loadMerged_only_adds_aliases st lines st' :
  loadMerged st lines = Ok st' ->
  taxonNodes st' = taxonNodes st
  /\ length (D st') = length (D st)
  /\ (forall k d, at_ (D st) k = Ok d -> d <> -1 -> at_ (D st') k = Ok d)
  /\ (forall k d, at_ (D st') k = Ok d -> d <> -1 -> exists k0, at_ (D st) k0 = Ok d).
Proof. apply loadMerged_keeps. Qed.

Lemma loadMerged_only_adds_aliases_witness :
  exists st st',
    loadNodes nodes_1_3 = Ok st /\ loadMerged st merged_2_to_1 = Ok st'
    /\ taxonNodes st' = taxonNodes st
    /\ length (D st') = length (D st)
    /\ (forall k d, at_ (D st) k = Ok d -> d <> -1 -> at_ (D st') k = Ok d)
    /\ (forall k d, at_ (D st') k = Ok d -> d <> -1 -> exists k0, at_ (D st) k0 = Ok d).
Proof.
  eexists. eexists. split; [vm_compute; reflexivity|]. split; [vm_compute; reflexivity|].
  apply (loadMerged_only_adds_aliases _ merged_2_to_1). vm_compute; reflexivity.
Defined.

(** ** The constructor on a tree *)

Lemma depth_from_ext par par' : forall f i,
  (forall j, par' j = par j) -> depth_from f par' i = depth_from f par i.
Proof.
  induction f as [|f IH]; intros i Hext; simpl; rewrite Hext; [done|].
  destruct (par i =? i)%nat; [done|]. by rewrite IH.
Qed.

(** A store with the same ids, parents and ranks, and a table that agrees on
    every slot in use, holds the same tree. *)
Lemma tree_store_preserved st st' :
  skeleton <$> taxonNodes st' = skeleton <$> taxonNodes st ->
  (forall k d, at_ (D st) k = Ok d -> d <> -1 -> at_ (D st') k = Ok d) ->
  tree_store st = true ->
  tree_store st' = true /\ forall i, parent_index st' i = parent_index st i.
Proof.
  intros Hsk HD Hwf.
  assert (Hlen : length (taxonNodes st') = length (taxonNodes st)).
  { apply (f_equal length) in Hsk. by rewrite !length_fmap in Hsk. }
  assert (Hnode : forall i n', taxonNodes st' !! i = Some n' ->
            exists n, taxonNodes st !! i = Some n /\ skeleton n' = skeleton n).
  { intros i n' Hn'. apply (f_equal (fun l => l !! i)) in Hsk.
    rewrite !list_lookup_fmap, Hn' in Hsk. simpl in Hsk.
    destruct (taxonNodes st !! i) as [n|]; [|discriminate]. simpl in Hsk.
    exists n. split; [done|]. congruence. }
  assert (Hpar : forall i, parent_index st' i = parent_index st i).
  { intros i. unfold parent_index.
    destruct (taxonNodes st' !! i) as [n'|] eqn:Hn'.
    - destruct (Hnode i n' Hn') as (n & Hn & Heq). rewrite Hn.
      injection Heq as _ _ Hp _.
      destruct (tree_record st Hwf i n Hn) as (_ & _ & HDp & _).
      rewrite Hp, (HD _ _ HDp ltac:(lia)), HDp. done.
    - apply lookup_ge_None in Hn'. rewrite lookup_ge_None_2 by lia. done. }
  split; [|done].
  unfold tree_store. apply andb_true_intro. split.
  - apply forallb_forall. intros i Hi%in_seq. unfold record_ok.
    destruct (lookup_lt_is_Some_2 (taxonNodes st') i ltac:(lia)) as [n' Hn'].
    rewrite Hn'. destruct (Hnode i n' Hn') as (n & Hn & Heq).
    injection Heq as _ Ht Hp _.
    destruct (tree_record st Hwf i n Hn) as (Hpos & HDt & HDp & (m & Hm & Hmid) & Hself & Hdep).
    rewrite Hpar, Ht, Hp, Hlen.
    rewrite (HD _ _ HDt ltac:(lia)), (HD _ _ HDp ltac:(lia)).
    assert (Hm' : exists m', taxonNodes st' !! parent_index st i = Some m' /\ taxId m' = taxId m).
    { destruct (lookup_lt_is_Some_2 (taxonNodes st') (parent_index st i)) as [m' Hm'].
      { rewrite Hlen. by apply lookup_lt_Some in Hm. }
      destruct (Hnode _ m' Hm') as (m0 & Hm0 & Heq'). rewrite Hm in Hm0. injection Hm0 as <-.
      injection Heq' as _ Ht' _ _. eauto. }
    destruct Hm' as (m' & -> & Hm'id). rewrite Hm'id, Hmid.
    rewrite (depth_from_ext _ _ _ _ Hpar).
    repeat (apply andb_true_intro; split); try (apply bool_decide_eq_true; done).
    + lia.
    + lia.
    + destruct (Z.eqb_spec (taxId n) 1); [done|]. simpl.
      destruct (Z.eqb_spec (parentTaxId n) (taxId n)) as [He|]; [|done].
      by apply Hself in He.
  - apply bool_decide_eq_true.
    assert (Hids : taxId <$> taxonNodes st' = taxId <$> taxonNodes st).
    { apply (f_equal (fmap (fun s : Z * TaxID * TaxID * string => s.1.1.2))) in Hsk.
      rewrite <- !list_fmap_compose in Hsk. exact Hsk. }
    rewrite Hids. unfold tree_store in Hwf. apply andb_prop in Hwf as [_ H1].
    by apply bool_decide_eq_true in H1.
Qed.

(** When the nodes input loads into a store that holds a tree rooted at
    taxon 1, and the merged and the names input load, the constructor
    returns an engine (with fuel above the number of records); its store is
    the one left by the loaders, it holds the same tree, and ids with a record
    after [loadNodes] keep it. *)
Theorem NcbiTaxonomy_new_on_a_tree fuel names nodes merged st1 st2 st3 :
  loadNodes nodes = Ok st1 ->
  tree_store st1 = true ->
  loadMerged st1 merged = Ok st2 ->
  loadNames st2 names = Ok st3 ->
  (length (taxonNodes st1) < fuel)%nat ->
  exists t, NcbiTaxonomy_new fuel names nodes merged = Ok t
    /\ store t = st3
    /\ tree_store st3 = true
    /\ (forall i, parent_index st3 i = parent_index st1 i)
    /\ skeleton <$> taxonNodes st3 = skeleton <$> taxonNodes st1
    /\ (forall k i, nodeId st1 k = Ok i -> nodeId st3 k = Ok i).
Proof.
  intros H1 Hwf H2 H3 Hfuel.
  destruct (loadMerged_keeps _ _ _ H2) as (Hn2 & _ & Hk2 & _).
  pose proof (loadNames_D _ _ _ H3) as HD3.
  pose proof (loadNames_skeleton _ _ _ H3) as Hs3.
  assert (Hsk : skeleton <$> taxonNodes st3 = skeleton <$> taxonNodes st1) by congruence.
  assert (HD : forall k d, at_ (D st1) k = Ok d -> d <> -1 -> at_ (D st3) k = Ok d).
  { intros k d Hk Hne. rewrite HD3. by apply Hk2. }
  destruct (tree_store_preserved st1 st3 Hsk HD Hwf) as [Hwf3 Hpar].
  assert (Hlen : length (taxonNodes st3) = length (taxonNodes st1)).
  { apply (f_equal length) in Hsk. by rewrite !length_fmap in Hsk. }
  destruct (index_store_tour fuel st3 Hwf3 ltac:(lia)) as (t & Ht & Hst & _).
  exists t. split.
  { unfold NcbiTaxonomy_new. rewrite H1. simpl. rewrite H2. simpl. rewrite H3. done. }
  split; [done|]. split; [done|]. split; [done|]. split; [done|].
  intros k i (Hk0 & Hd & Hne)%nodeId_Ok. apply nodeId_Ok. auto.
Qed.

Lemma NcbiTaxonomy_new_on_a_tree_witness :
  exists st1 st2 st3,
    loadNodes nodes3 = Ok st1 /\ loadMerged st1 [row2 "0" "3"] = Ok st2
    /\ loadNames st2 names_twice = Ok st3
    /\ exists t, NcbiTaxonomy_new 4 names_twice nodes3 [row2 "0" "3"] = Ok t
         /\ store t = st3
         /\ tree_store st3 = true
         /\ (forall i, parent_index st3 i = parent_index st1 i)
         /\ skeleton <$> taxonNodes st3 = skeleton <$> taxonNodes st1
         /\ (forall k i, nodeId st1 k = Ok i -> nodeId st3 k = Ok i).
Proof.
  eexists. eexists. eexists.
  split; [vm_compute; reflexivity|]. split; [vm_compute; reflexivity|].
  split; [vm_compute; reflexivity|].
  eapply (NcbiTaxonomy_new_on_a_tree 4 names_twice nodes3 [row2 "0" "3"]);
    [vm_compute; reflexivity | vm_compute; reflexivity | vm_compute; reflexivity
    | vm_compute; reflexivity | simpl; lia].
Defined.

(** ** What [loadNodes] leaves *)

Lemma set_fold_spec (l : list (Z * Z)) : forall D0 D1,
  NoDup l.*1 ->
  foldM (fun Dv (kv : Z * Z) => set_ Dv kv.1 kv.2) D0 l = Ok D1 ->
  length D1 = length D0
  /\ (forall k d, (k, d) ∈ l -> at_ D1 k = Ok d)
  /\ (forall k, k ∉ l.*1 -> at_ D1 k = at_ D0 k).
Proof.
  induction l as [|[k0 d0] l IH]; intros D0 D1 Hnd Hrun.
  { simpl in Hrun. injection Hrun as <-. split; [done|]. split; [|done].
    intros k d Hin. by apply elem_of_nil in Hin. }
  rewrite foldM_cons in Hrun. bind_inv Hrun as D' HD'. simpl in HD'.
  rewrite fmap_cons in Hnd. apply NoDup_cons in Hnd as [Hk0 Hnd]. simpl in Hk0.
  destruct (IH _ _ Hnd Hrun) as (Hlen & Hin & Hout).
  split; [rewrite Hlen; by eapply set_length|]. split.
  - intros k d [[= -> ->]|Hkd]%elem_of_cons.
    + rewrite (Hout k0 Hk0). by eapply at_set_eq.
    + by apply Hin.
  - intros k Hk. rewrite fmap_cons in Hk. simpl in Hk.
    apply not_elem_of_cons in Hk as [Hne Hk].
    rewrite (Hout k Hk). eapply at_set_ne; eauto.
Qed.

Lemma loadNodes_line_inv a line a' :
  loadNodes_line a line = Ok a' -> nodes_acc_inv a ->
  nodes_acc_inv a' /\ length (acc_nodes a') = S (length (acc_nodes a)).
Proof.
  unfold loadNodes_line. intros Hrun (Hcur & Hmax & Hnodes & HDm).
  bind_inv Hrun as r0 Hr0. bind_inv Hrun as r1 Hr1. bind_inv Hrun as r2 Hr2.
  injection Hrun as <-. simpl. unfold TaxID in *.
  set (k0 := strtol r0) in *.
  set (new := mkTaxonNode (acc_currentId a) k0 (strtol r1) r2 EmptyString).
  split; [|rewrite length_app; simpl; lia].
  split; [simpl; rewrite length_app; simpl; lia|].
  split; [simpl; destruct (Z.ltb_spec (acc_maxTaxID a) k0); lia|].
  split; simpl.
  - intros i n Hi. apply lookup_app_Some in Hi as [Hi|[Hlen Hi]].
    + destruct (Hnodes i n Hi) as (Hid & Hle & [d Hd]). split; [done|].
      split; [destruct (Z.ltb_spec (acc_maxTaxID a) k0); lia|].
      destruct (acc_Dm a !! k0) eqn:Hk0; [by eexists|].
      destruct (decide (k0 = taxId n)) as [He|Hne]; [congruence|].
      rewrite lookup_insert_ne by done. by eexists.
    + apply list_lookup_singleton_Some in Hi as [Hi0 <-]. simpl.
      split; [lia|]. split; [destruct (Z.ltb_spec (acc_maxTaxID a) k0); lia|].
      destruct (acc_Dm a !! k0) eqn:Hk0; [by eexists|]. rewrite lookup_insert_eq. by eexists.
  - intros k d Hkd.
    assert (Hold : acc_Dm a !! k = Some d ->
              exists i n, d = Z.of_nat i /\ (acc_nodes a ++ [new]) !! i = Some n /\ taxId n = k
                /\ forall j m, (j < i)%nat -> (acc_nodes a ++ [new]) !! j = Some m -> taxId m <> k).
    { intros Hd. destruct (HDm k d Hd) as (i & n & -> & Hn & Hid & Hfirst).
      exists i, n. split; [done|]. split; [by apply lookup_app_l_Some|]. split; [done|].
      intros j m Hj Hm. apply lookup_lt_Some in Hn.
      rewrite lookup_app_l in Hm by lia. by eapply Hfirst. }
    destruct (acc_Dm a !! k0) eqn:Hk0; [by apply Hold|].
    destruct (decide (k0 = k)) as [<-|Hne].
    + rewrite lookup_insert_eq in Hkd. injection Hkd as <-.
      exists (length (acc_nodes a)), new. split; [done|].
      split; [by apply list_lookup_middle|]. split; [done|].
      intros j m Hj Hm. rewrite lookup_app_l in Hm by lia.
      destruct (Hnodes j m Hm) as (_ & _ & [d' Hd']). congruence.
    + rewrite lookup_insert_ne in Hkd by done. by apply Hold.
Qed.

Lemma loadNodes_fold_inv lines : forall a a',
  foldM loadNodes_line a lines = Ok a' -> nodes_acc_inv a ->
  nodes_acc_inv a' /\ length (acc_nodes a') = (length (acc_nodes a) + length lines)%nat.
Proof.
  induction lines as [|line lines IH]; intros a a' Hrun Hinv.
  { simpl in Hrun. injection Hrun as <-. split; [done | simpl; lia]. }
  rewrite foldM_cons in Hrun. bind_inv Hrun as a1 H1.
  destruct (loadNodes_line_inv _ _ _ H1 Hinv) as [Hinv1 Hlen1].
  destruct (IH _ _ Hrun Hinv1) as [Hinv' Hlen']. split; [done|]. simpl. lia.
Qed.

Lemma parents_checked st (nodes : list TaxonNode) : forall u u',
  foldM (fun (_ : unit) n =>
           let* ex := nodeExists st (parentTaxId n) in
           if (ex : bool) then Ok tt else Err ExitFailure) u nodes = Ok u' ->
  forall n, n ∈ nodes -> nodeExists st (parentTaxId n) = Ok true.
Proof.
  induction nodes as [|x nodes IH]; intros u u' Hrun n Hin.
  { by apply elem_of_nil in Hin. }
  rewrite foldM_cons in Hrun. bind_inv Hrun as u1 Hu1.
  apply elem_of_cons in Hin as [->|Hin]; [|by eapply IH].
  bind_inv Hu1 as ex Hex. by destruct ex.
Qed.

Lemma loadNodes_post lines st :
  loadNodes lines = Ok st ->
  length (taxonNodes st) = length lines
  /\ (forall i n, taxonNodes st !! i = Some n ->
        id n = Z.of_nat i
        /\ nodeExists st (parentTaxId n) = Ok true
        /\ exists d, nodeId st (taxId n) = Ok d /\ d <= Z.of_nat i)
  /\ (forall k d, at_ (D st) k = Ok d -> d <> -1 ->
        exists i n, d = Z.of_nat i /\ taxonNodes st !! i = Some n /\ taxId n = k
          /\ forall j m, (j < i)%nat -> taxonNodes st !! j = Some m -> taxId m <> k).
Proof.
  unfold loadNodes. intros Hrun.
  bind_inv Hrun as a Ha. bind_inv Hrun as D1 HD1. bind_inv Hrun as u Hu.
  injection Hrun as <-. simpl.
  destruct (loadNodes_fold_inv _ _ _ Ha) as [(Hcur & Hmax & Hnodes & HDm) Hlen].
  { split; [done|]. split; [done|]. split.
    - intros i n Hi. simpl in Hi. by rewrite lookup_nil in Hi.
    - intros k d Hk. simpl in Hk. by rewrite lookup_empty in Hk. }
  destruct (set_fold_spec _ _ _ (NoDup_fst_map_to_list _) HD1) as (HlenD & Hin & Hout).
  assert (HD0 : forall k d, at_ (resize_ [] (acc_maxTaxID a + 1) (-1)) k = Ok d -> d = -1).
  { intros k d [_ Hk]%at_Ok. unfold resize_ in Hk. rewrite take_nil in Hk. simpl in Hk.
    apply lookup_replicate in Hk as [-> _]. done. }
  assert (Htab : forall k d, at_ D1 k = Ok d -> d <> -1 -> acc_Dm a !! k = Some d).
  { intros k d Hk Hne. destruct (acc_Dm a !! k) as [d'|] eqn:Hd'.
    - apply elem_of_map_to_list in Hd'. rewrite (Hin _ _ Hd') in Hk. congruence.
    - exfalso. apply Hne. apply (HD0 k). rewrite <- Hout; [done|].
      intros ((k' & d'') & Hk' & Hel)%list_elem_of_fmap. simpl in Hk'. subst k'.
      apply elem_of_map_to_list in Hel. congruence. }
  split; [simpl in Hlen; done|]. split.
  - intros i n Hn. destruct (Hnodes i n Hn) as (Hid & Hle & [d Hd]).
    split; [done|]. split.
    { eapply parents_checked; [exact Hu|]. by eapply list_elem_of_lookup_2. }
    destruct (HDm _ _ Hd) as (i0 & n0 & -> & Hn0 & Hid0 & Hfirst).
    exists (Z.of_nat i0). split.
    + apply elem_of_map_to_list in Hd. pose proof (Hin _ _ Hd) as Hat.
      apply nodeId_Ok. simpl. pose proof (at_Ok_range _ _ _ Hat). split; [lia|].
      split; [done | lia].
    + destruct (decide (i0 <= i)%nat) as [?|Hgt]; [lia|]. exfalso.
      by apply (Hfirst i n ltac:(lia) Hn).
  - intros k d Hk Hne. apply HDm. by apply Htab.
Qed.

(** When [loadNodes] returns, there is one record for each line, numbered in
    the order of the lines; the parent id of every record has a record; and
    every id in use in the table resolves to the first record that carries
    it, so a later record with the same id is never found by its id. *)
Theorem loadNodes_resolves_ids_to_first_record lines st :
  loadNodes lines = Ok st ->
  length (taxonNodes st) = length lines
  /\ (forall i n, taxonNodes st !! i = Some n ->
        id n = Z.of_nat i
        /\ nodeExists st (parentTaxId n) = Ok true
        /\ exists d, nodeId st (taxId n) = Ok d /\ d <= Z.of_nat i)
  /\ (forall k d, at_ (D st) k = Ok d -> d <> -1 ->
        exists i n, d = Z.of_nat i /\ taxonNodes st !! i = Some n /\ taxId n = k
          /\ forall j m, (j < i)%nat -> taxonNodes st !! j = Some m -> taxId m <> k).
Proof. apply loadNodes_post. Qed.

Lemma loadNodes_resolves_ids_to_first_record_witness :
  exists st, loadNodes [row3 "1" "1" "no rank"; row3 "2" "1" "genus"; row3 "2" "1" "species"]
             = Ok st
  /\ length (taxonNodes st) = 3%nat
  /\ (forall i n, taxonNodes st !! i = Some n ->
        id n = Z.of_nat i
        /\ nodeExists st (parentTaxId n) = Ok true
        /\ exists d, nodeId st (taxId n) = Ok d /\ d <= Z.of_nat i)
  /\ (forall k d, at_ (D st) k = Ok d -> d <> -1 ->
        exists i n, d = Z.of_nat i /\ taxonNodes st !! i = Some n /\ taxId n = k
          /\ forall j m, (j < i)%nat -> taxonNodes st !! j = Some m -> taxId m <> k).
Proof.
  eexists. split; [vm_compute; reflexivity|].
  apply (loadNodes_resolves_ids_to_first_record
           [row3 "1" "1" "no rank"; row3 "2" "1" "genus"; row3 "2" "1" "species"]).
  vm_compute; reflexivity.
Defined.

Lemma agg_hit_counters fuel st a h a' :
  agg_hit fuel st a h = Ok a' ->
  agg_assigned a' = agg_assigned a + (if decide (taxon h <> 0) then 1 else 0)
  /\ agg_unassigned a' = agg_unassigned a + (if decide (taxon h = 0) then 1 else 0).
Proof.
  unfold agg_hit. destruct (Z.eqb_spec (taxon h) 0) as [He|Hne].
  - intros [= <-]. simpl. rewrite decide_False by tauto. rewrite decide_True by done. lia.
  - intros Hrun. bind_inv Hrun as o Ho. destruct o as [node|]; [|done].
    bind_inv Hrun as m2 Hm2. injection Hrun as <-. simpl.
    rewrite decide_True by done. rewrite decide_False by done. lia.
Qed.

Lemma agg_counters fuel st : forall setTaxa a a',
  foldM (agg_hit fuel st) a setTaxa = Ok a' ->
  agg_assigned a' = agg_assigned a + count_assigned setTaxa
  /\ agg_unassigned a' = agg_unassigned a + count_unassigned setTaxa.
Proof.
  unfold count_assigned, count_unassigned.
  induction setTaxa as [|h hs IH]; intros a a' Hrun.
  { simpl in Hrun. injection Hrun as <-. simpl. lia. }
  rewrite foldM_cons in Hrun. bind_inv Hrun as a1 H1.
  destruct (agg_hit_counters _ _ _ _ _ H1) as [Ha Hu].
  destruct (IH _ _ Hrun) as [Ha' Hu']. rewrite !filter_cons.
  repeat case_decide; simpl in *; try tauto; lia.
Qed.

Lemma agree_counters fuel st sel : forall setTaxa n n',
  foldM (agree_hit fuel st sel) n setTaxa = Ok n' ->
  n <= n' <= n + count_assigned setTaxa.
Proof.
  unfold count_assigned.
  induction setTaxa as [|h hs IH]; intros n n' Hrun.
  { simpl in Hrun. injection Hrun as <-. simpl. lia. }
  rewrite foldM_cons in Hrun. bind_inv Hrun as n1 H1.
  specialize (IH _ _ Hrun). rewrite filter_cons.
  unfold agree_hit in H1. destruct (Z.eqb_spec (taxon h) 0) as [He|Hne].
  - injection H1 as <-. rewrite decide_False by tauto. lia.
  - bind_inv H1 as node Hnode. bind_inv H1 as b Hb. injection H1 as <-.
    rewrite decide_True by done. simpl. destruct b; lia.
Qed.

Lemma count_assigned_unassigned setTaxa :
  count_assigned setTaxa + count_unassigned setTaxa = Z.of_nat (length setTaxa).
Proof.
  unfold count_assigned, count_unassigned.
  induction setTaxa as [|h hs IH]; [done|]. rewrite !filter_cons.
  repeat case_decide; simpl length; try tauto; lia.
Qed.

(** Whenever [weightedMajorityLCA] returns, [unassignedSeqs] is the number of
    hits with taxon 0, [assignedSeqs] the number of the others, the two sum
    to the number of hits, and [seqsAgreeWithSelectedTaxon] lies between 0
    and [assignedSeqs]: it is 0 when no taxon is selected and [assignedSeqs]
    when the root is. *)
Theorem weightedMajorityLCA_counters ranks fuel st setTaxa cutoff res :
  weightedMajorityLCA ranks fuel st setTaxa cutoff = Ok res ->
  unassignedSeqs res = count_unassigned setTaxa
  /\ assignedSeqs res = count_assigned setTaxa
  /\ assignedSeqs res + unassignedSeqs res = Z.of_nat (length setTaxa)
  /\ 0 <= seqsAgreeWithSelectedTaxon res <= assignedSeqs res
  /\ (res_taxon res = 0 -> seqsAgreeWithSelectedTaxon res = 0)
  /\ (res_taxon res = ROOT_TAXID -> seqsAgreeWithSelectedTaxon res = assignedSeqs res).
Proof.
  unfold weightedMajorityLCA. intros Hrun.
  bind_inv Hrun as a Ha. bind_inv Hrun as s Hs.
  destruct (agg_counters _ _ _ _ _ Ha) as [Hca Hcu]. simpl in Hca, Hcu.
  pose proof (count_assigned_unassigned setTaxa) as Hsum.
  assert (Hpos : 0 <= count_assigned setTaxa) by (unfold count_assigned; lia).
  destruct (Z.eqb_spec (selctedTaxon s) ROOT_TAXID) as [Hroot|Hnroot].
  { injection Hrun as <-. simpl. rewrite Hroot. unfold ROOT_TAXID.
    repeat split; try lia. }
  destruct (Z.eqb_spec (selctedTaxon s) 0) as [H0|Hn0].
  { injection Hrun as <-. simpl. repeat split; try lia. }
  bind_inv Hrun as agree Hagree. injection Hrun as <-. simpl.
  pose proof (agree_counters _ _ _ _ _ _ Hagree).
  repeat split; try lia; try done.
Qed.

Lemma weightedMajorityLCA_counters_witness :
  exists res, weightedMajorityLCA ranks_genus_species 7 store6 [hit 4 1; hit 0 1; hit 5 1] third
              = Ok res
  /\ unassignedSeqs res = count_unassigned [hit 4 1; hit 0 1; hit 5 1]
  /\ assignedSeqs res = count_assigned [hit 4 1; hit 0 1; hit 5 1]
  /\ assignedSeqs res + unassignedSeqs res = Z.of_nat (length [hit 4 1; hit 0 1; hit 5 1])
  /\ 0 <= seqsAgreeWithSelectedTaxon res <= assignedSeqs res
  /\ (res_taxon res = 0 -> seqsAgreeWithSelectedTaxon res = 0)
  /\ (res_taxon res = ROOT_TAXID -> seqsAgreeWithSelectedTaxon res = assignedSeqs res).
Proof.
  eexists. split; [vm_compute; reflexivity|].
  apply (weightedMajorityLCA_counters ranks_genus_species 7 store6
           [hit 4 1; hit 0 1; hit 5 1] third).
  vm_compute; reflexivity.
Defined.

(** In a tree store, when the hits before [h] name 0 or ids with a record
    and [h] names an id other than 0 that lies within the table and has no
    record, [weightedMajorityLCA] ends the process, whatever follows [h]. *)
Theorem weightedMajorityLCA_exits_on_unknown_taxon ranks fuel st pre h post cutoff :
  tree_store st = true -> table_ok st = true ->
  (length (taxonNodes st) < fuel)%nat ->
  hits_ok st pre ->
  taxon h <> 0 ->
  nodeExists st (taxon h) = Ok false ->
  weightedMajorityLCA ranks fuel st (pre ++ h :: post) cutoff = Err ExitFailure.
Proof.
  intros Hwf Htab Hfuel Hpre Hh0 Hex.
  destruct (agg_total st Hwf Htab fuel pre (mkAgg ∅ 0 0 dzero) Hfuel Hpre) as (a & Ha & _).
  { intros k [x Hx]. simpl in Hx. by rewrite lookup_empty in Hx. }
  unfold weightedMajorityLCA. rewrite foldM_app, Ha. simpl.
  unfold agg_hit at 1. destruct (Z.eqb_spec (taxon h) 0) as [?|_]; [done|].
  unfold taxonNode. destruct (Z.eqb_spec (taxon h) 0) as [?|_]; [done|].
  rewrite Hex. simpl. done.
Qed.

(** Instance: the taxonomy with the ids 1, 2, 3 and 5; id 4 has a slot in the
    table and no record. *)
Lemma weightedMajorityLCA_exits_on_unknown_taxon_witness :
  weightedMajorityLCA sample_ranks 5 store_ranks_out_of_order
    ([hit 3 1] ++ hit 4 1 :: [hit 5 1]) half
  = Err ExitFailure.
Proof.
  apply (weightedMajorityLCA_exits_on_unknown_taxon sample_ranks 5 store_ranks_out_of_order
           [hit 3 1] (hit 4 1) [hit 5 1] half);
    [vm_compute; reflexivity | vm_compute; reflexivity | simpl; lia
    | | simpl; lia | vm_compute; reflexivity].
  intros h Hh. apply list_elem_of_singleton in Hh as ->.
  right. eexists. split; [vm_compute; reflexivity | lia].
Defined.

Lemma alias_free_slot st k d :
  alias_free st = true -> at_ (D st) k = Ok d -> d <> -1 ->
  exists n, taxonNodes st !! Z.to_nat d = Some n /\ taxId n = k.
Proof.
  intros Hfree [Hk Hd]%at_Ok Hne. unfold alias_free in Hfree.
  rewrite forallb_forall in Hfree.
  assert (Hin : In (Z.to_nat k, d) (imap pair (D st))).
  { apply list_elem_of_In, elem_of_lookup_imap. eauto. }
  apply Hfree in Hin. simpl in Hin.
  destruct (Z.eqb_spec d (-1)) as [?|_]; [done|]. simpl in Hin.
  destruct (taxonNodes st !! Z.to_nat d) as [n|]; [|discriminate Hin].
  exists n. split; [done|]. apply Z.eqb_eq in Hin. lia.
Qed.

Lemma below_parent N par r i :
  rooted N par r -> (i < N)%nat -> par i <> i -> below N par (par i) i.
Proof.
  intros Hrooted Hi Hne. apply (below_kid N par r Hrooted).
  by apply (kids_spec N par r Hrooted).
Qed.

Lemma below_parent_step N par r s i :
  rooted N par r -> (i < N)%nat -> par i <> i -> s <> i ->
  (below N par s i <-> below N par s (par i)).
Proof.
  intros Hrooted Hi Hne Hsi. split.
  - intros Hb. apply (below_chain N par (par i) s i); [by eapply below_parent | done|].
    destruct (dep_step N par r Hrooted i Hi Hne) as [HS _].
    destruct Hb as [Hle Hit].
    destruct (decide (default O (depth_from N par s) = default O (depth_from N par i))) as [He|Hd].
    + exfalso. apply Hsi. rewrite He, Nat.sub_diag in Hit. done.
    + lia.
  - intros Hb. apply (below_trans N par s (par i) i); [done | by eapply below_parent].
Qed.

Lemma below_root N par r s :
  rooted N par r -> (s < N)%nat -> below N par s r -> s = r.
Proof.
  intros Hrooted Hs [Hle _]. rewrite (dep_root N par r Hrooted) in Hle.
  apply (dep_zero N par r Hrooted s Hs). lia.
Qed.

Lemma root_above N par r i :
  rooted N par r -> (i < N)%nat -> below N par r i.
Proof.
  intros Hrooted Hi. apply (ancestor_below N par r Hrooted r i Hi).
  exists (default O (depth_from N par i)). by apply (iter_dep_root N par r Hrooted).
Qed.

Section Agree.

Context (st : Store).
Hypothesis Hwf : tree_store st = true.
Hypothesis Htab : table_ok st = true.
Hypothesis Hfree : alias_free st = true.

Local Abbreviation N := (length (taxonNodes st)).
Local Abbreviation par := (parent_index st).
Local Abbreviation r := (root_index st).
Local Abbreviation dep := (tree_depth st).

Lemma valid_key_resolve k :
  valid_key st k ->
  exists i n, resolve st k = Some i /\ taxonNodes st !! i = Some n /\ taxId n = k
    /\ taxonNode_lenient st k = Ok n.
Proof using Hwf Htab Hfree.
  intros (d & Hd & Hne).
  destruct (alias_free_slot st k d Hfree Hd Hne) as (n & Hn & Hid).
  exists (Z.to_nat d), n. split.
  { unfold resolve. rewrite Hd. destruct (Z.eqb_spec d (-1)); done. }
  split; [done|]. split; [done|].
  destruct (tree_taxonNode st _ n Hwf Hn) as [_ Hl]. unfold taxonNode_lenient.
  rewrite <- Hid, Hl. done.
Qed.

Lemma agree_walk_spec sel s ns :
  taxonNodes st !! s = Some ns -> taxId ns = sel ->
  forall fuel i n,
    taxonNodes st !! i = Some n -> (dep i < fuel)%nat ->
    agree_walk fuel st sel (taxId n) n = Ok (bool_decide (s <> r /\ below N par s i)).
Proof using Hwf.
  intros Hs Hsel. pose proof (store_rooted st Hwf) as Hrooted.
  assert (HsN : (s < N)%nat) by (by apply lookup_lt_Some in Hs).
  induction fuel as [|f IH]; intros i n Hn Hfuel; [lia|].
  assert (Hi : (i < N)%nat) by (by apply lookup_lt_Some in Hn).
  simpl. destruct (Z.eqb_spec (parentTaxId n) (taxId n)) as [Hself|Hnself].
  - apply (tree_self_parent st Hwf i n Hn) in Hself.
    pose proof (tree_root_unique st Hwf i Hi Hself) as ->.
    rewrite bool_decide_eq_false_2; [done|]. intros [Hne Hb]. apply Hne.
    by apply (below_root N par r s Hrooted).
  - assert (Hpar : par i <> i) by (intros He; by apply (tree_self_parent st Hwf i n Hn) in He).
    destruct (Z.eqb_spec (taxId n) sel) as [He|Hne].
    + assert (i = s) as -> by (eapply (tree_id_inj st Hwf); eauto; congruence).
      rewrite bool_decide_eq_true_2; [done|]. split; [|apply below_refl].
      intros ->. apply Hpar. apply (rooted_self N par r Hrooted).
    + destruct (tree_parent_record st i n Hwf Hn) as (m & Hm & Hmid & _ & Hlen).
      rewrite Hlen. simpl. rewrite <- Hmid.
      destruct (dep_step N par r Hrooted i Hi Hpar) as [HS _].
      rewrite (IH _ m Hm) by (unfold tree_depth in *; lia). f_equal.
      apply bool_decide_ext.
      assert (Hsi : s <> i) by (intros ->; rewrite Hs in Hn; injection Hn as ->; congruence).
      by rewrite (below_parent_step N par r s i Hrooted Hi Hpar Hsi).
Qed.

Lemma agree_fold_spec fuel sel s ns :
  taxonNodes st !! s = Some ns -> taxId ns = sel -> s <> r ->
  (N < fuel)%nat ->
  forall setTaxa n,
    hits_ok st setTaxa ->
    foldM (agree_hit fuel st sel) n setTaxa
    = Ok (n + Z.of_nat (length (filter (fun h => hit_below st s h = true) setTaxa))).
Proof using Hwf Htab Hfree.
  intros Hs Hsel Hsr Hfuel. pose proof (store_rooted st Hwf) as Hrooted.
  induction setTaxa as [|h hs IH]; intros n Hok.
  { simpl. f_equal. lia. }
  rewrite foldM_cons, filter_cons.
  assert (Hhs : hits_ok st hs) by (intros h' Hh'; apply Hok; by right).
  unfold agree_hit at 1. destruct (Z.eqb_spec (taxon h) 0) as [H0|Hn0].
  - simpl. rewrite IH by done.
    assert (Hb : hit_below st s h = false).
    { unfold hit_below, resolve. rewrite H0.
      unfold table_ok in Htab. apply andb_prop in Htab as [_ HD0].
      apply bool_decide_eq_true in HD0. by rewrite HD0. }
    rewrite decide_False by (rewrite Hb; done). done.
  - destruct (Hok h ltac:(by left)) as [?|Hvalid]; [done|].
    destruct (valid_key_resolve _ Hvalid) as (i & n0 & Hres & Hn0' & Hid & Hlen).
    rewrite Hlen. simpl. rewrite <- Hid.
    rewrite (agree_walk_spec sel s ns Hs Hsel fuel i n0 Hn0').
    2:{ pose proof (dep_le N par r Hrooted i ltac:(by apply lookup_lt_Some in Hn0')).
        unfold tree_depth. lia. }
    simpl. rewrite IH by done. f_equal.
    assert (Hhb : hit_below st s h = bool_decide (below N par s i))
      by (unfold hit_below; by rewrite Hres).
    rewrite Hhb.
    destruct (decide (below N par s i)) as [Hb|Hb].
    + rewrite bool_decide_eq_true_2 by done. rewrite bool_decide_eq_true_2 by done.
      rewrite decide_True by done. simpl length. lia.
    + rewrite bool_decide_eq_false_2 by tauto. rewrite bool_decide_eq_false_2 by done.
      rewrite decide_False by done. lia.
Qed.

End Agree.

Lemma filter_ext_in {A} (P1 P2 : A -> Prop) `{!forall x, Decision (P1 x)}
    `{!forall x, Decision (P2 x)} (l : list A) :
  (forall x, x ∈ l -> P1 x <-> P2 x) -> filter P1 l = filter P2 l.
Proof.
  induction l as [|x l IH]; intros Hext; [done|].
  rewrite !filter_cons. rewrite IH by (intros y Hy; apply Hext; by right).
  pose proof (Hext x ltac:(by left)). repeat case_decide; tauto || done.
Qed.

Lemma weighted_agreeing_hits ranks fuel st setTaxa cutoff :
  tree_store st = true -> table_ok st = true -> alias_free st = true ->
  (length (taxonNodes st) < fuel)%nat ->
  hits_ok st setTaxa ->
  exists res, weightedMajorityLCA ranks fuel st setTaxa cutoff = Ok res
    /\ (res_taxon res <> 0 ->
        exists s, resolve st (res_taxon res) = Some s
          /\ seqsAgreeWithSelectedTaxon res
             = Z.of_nat (length (filter (fun h => hit_below st s h = true) setTaxa))).
Proof.
  intros Hwf Htab Hfree Hfuel Hhits. pose proof (store_rooted st Hwf) as Hrooted.
  destruct (agg_total st Hwf Htab fuel setTaxa (mkAgg ∅ 0 0 dzero) Hfuel Hhits)
    as (a & Hagg & Hkeys).
  { intros k Hk. simpl in Hk. rewrite lookup_empty in Hk. by destruct Hk. }
  destruct (select_total st ranks Hwf Htab fuel (totalAssignedSeqsWeights a) cutoff
              (in_key_order (ancTaxIdsCounts a)) (mkSel INT_MAX 0 dzero) Hfuel)
    as (s & Hsel).
  { intros [k tn] Hit. apply in_key_order_elem in Hit. apply Hkeys. exists tn. exact Hit. }
  pose proof (select_fold_inv _ _ _ _ _ _ [] _ _ Hsel (sel_inv_init _ _ _ _ _)) as Hinv.
  simpl in Hinv. destruct Hinv as (_ & _ & Hchosen).
  pose proof (agg_counters _ _ _ _ _ Hagg) as [Hca _]. simpl in Hca.
  unfold weightedMajorityLCA. rewrite Hagg. simpl. rewrite Hsel. simpl.
  destruct (Z.eqb_spec (selctedTaxon s) 0) as [H0|Hn0].
  { destruct (Z.eqb_spec (selctedTaxon s) ROOT_TAXID) as [H1|_]; [unfold ROOT_TAXID in H1; lia|].
    eexists. split; [reflexivity|]. simpl. done. }
  destruct Hchosen as [(? & _)|(_ & _ & tn & Hin & _)]; [done|].
  apply in_key_order_elem in Hin.
  destruct (valid_key_resolve st Hwf Htab Hfree (selctedTaxon s)) as (i & n & Hres & Hn & Hid & _).
  { apply Hkeys. by exists tn. }
  destruct (Z.eqb_spec (selctedTaxon s) ROOT_TAXID) as [H1|Hn1].
  - eexists. split; [reflexivity|]. simpl. intros _. exists i. split; [done|].
    assert (i = root_index st) as ->.
    { apply (tree_root_id st Hwf i n Hn). unfold ROOT_TAXID in H1. congruence. }
    rewrite Hca. unfold count_assigned. rewrite Z.add_0_l. do 2 f_equal.
    apply filter_ext_in. intros h Hh. split.
    + intros Hne. destruct (Hhits h Hh) as [?|Hv]; [done|].
      destruct (valid_key_resolve st Hwf Htab Hfree _ Hv) as (j & m & Hj & Hm & _).
      unfold hit_below. rewrite Hj. apply bool_decide_eq_true.
      apply (root_above _ _ _ j Hrooted). by apply lookup_lt_Some in Hm.
    + intros Hb He. unfold hit_below, resolve in Hb. rewrite He in Hb.
      unfold table_ok in Htab. apply andb_prop in Htab as [_ HD0].
      apply bool_decide_eq_true in HD0. by rewrite HD0 in Hb.
  - assert (Hir : i <> root_index st).
    { intros ->. apply Hn1. unfold ROOT_TAXID. rewrite <- Hid.
      by apply (tree_root_id st Hwf _ n Hn). }
    rewrite (agree_fold_spec st Hwf Htab Hfree fuel (selctedTaxon s) i n Hn Hid Hir Hfuel) by done.
    simpl. eexists. split; [reflexivity|]. simpl. intros _. exists i. split; [done | lia].
Qed.

(** In a tree store without merged aliases, for hits that name 0 or ids with
    a record, [weightedMajorityLCA] returns, and when a taxon is selected,
    [seqsAgreeWithSelectedTaxon] is the number of hits whose taxon is the
    selected one or lies below it. *)
Theorem weightedMajorityLCA_agreeing_hits ranks fuel st setTaxa cutoff :
  tree_store st = true -> table_ok st = true -> alias_free st = true ->
  (length (taxonNodes st) < fuel)%nat ->
  hits_ok st setTaxa ->
  exists res, weightedMajorityLCA ranks fuel st setTaxa cutoff = Ok res
    /\ (res_taxon res <> 0 ->
        exists s, resolve st (res_taxon res) = Some s
          /\ seqsAgreeWithSelectedTaxon res
             = Z.of_nat (length (filter (fun h => hit_below st s h = true) setTaxa))).
Proof. apply weighted_agreeing_hits. Qed.

Lemma weightedMajorityLCA_agreeing_hits_witness :
  exists res, weightedMajorityLCA ranks_genus_species 7 store6 hits_456 third = Ok res
    /\ (res_taxon res <> 0 ->
        exists s, resolve store6 (res_taxon res) = Some s
          /\ seqsAgreeWithSelectedTaxon res
             = Z.of_nat (length (filter (fun h => hit_below store6 s h = true) hits_456))).
Proof.
  apply (weightedMajorityLCA_agreeing_hits ranks_genus_species 7 store6 hits_456 third);
    [vm_compute; reflexivity | vm_compute; reflexivity | vm_compute; reflexivity
    | simpl; lia | hits_ok_by_lookup].
Defined.

Lemma lca_of_below N par r x a b :
  rooted N par r -> (x < N)%nat -> (a < N)%nat -> (b < N)%nat ->
  below N par x a -> below N par x b ->
  (forall w, below N par w a -> below N par w b -> below N par w x) ->
  lowest_common_ancestor par x a b.
Proof.
  intros Hrooted Hx Ha Hb Hxa Hxb Hlow.
  split; [by apply (ancestor_below N par r Hrooted)|].
  split; [by apply (ancestor_below N par r Hrooted)|].
  intros w Hwa Hwb. apply (ancestor_below N par r Hrooted); [done|].
  apply Hlow; by apply (ancestor_below N par r Hrooted).
Qed.

Lemma entry_inv_mono st hs hs' k tn :
  (forall h, h ∈ hs -> h ∈ hs') -> entry_inv st hs k tn -> entry_inv st hs' k tn.
Proof.
  intros Hsub (x & nx & Hx & Hid & (h & i & Hh & Hres & Harr) & Hcand).
  exists x, nx. split; [done|]. split; [done|]. split.
  - exists h, i. auto.
  - intros Hc. destruct (Hcand Hc) as (h1 & h2 & i1 & i2 & H1 & H2 & Hrest).
    exists h1, h2, i1, i2. auto.
Qed.

Lemma resolve_lt st k i :
  table_ok st = true -> resolve st k = Some i -> (i < length (taxonNodes st))%nat.
Proof.
  intros Htab Hres. unfold resolve in Hres.
  destruct (at_ (D st) k) as [d|] eqn:Hd; [|done].
  destruct (Z.eqb_spec d (-1)) as [?|Hne]; [done|]. injection Hres as <-.
  destruct (table_slot st Htab k d Hd Hne) as (_ & j & n & -> & Hn).
  rewrite Nat2Z.id. by apply lookup_lt_Some in Hn.
Qed.

Section Candidates.

Context (st : Store).
Hypothesis Hwf : tree_store st = true.
Hypothesis Htab : table_ok st = true.
Hypothesis Hfree : alias_free st = true.

Local Abbreviation N := (length (taxonNodes st)).
Local Abbreviation par := (parent_index st).
Local Abbreviation r := (root_index st).

(** The entry of the parent of record [i] after a hit [h] below [i] has come
    through [i]. *)
Lemma count_at_parent hs h i0 i n mp (m : gmap Z TaxNode) w :
  h ∈ hs -> resolve st (taxon h) = Some i0 -> (i0 < N)%nat ->
  taxonNodes st !! i = Some n -> below N par i i0 ->
  par i <> i -> taxonNodes st !! par i = Some mp ->
  (forall k tn, m !! k = Some tn -> entry_inv st hs k tn) ->
  forall k tn, count_at m (taxId mp) w false (taxId n) !! k = Some tn -> entry_inv st hs k tn.
Proof using Hwf Htab.
  intros Hh Hres Hi0 Hn Hbelow Hpar Hmp Hm k tn. pose proof (store_rooted st Hwf) as Hrooted.
  assert (Hi : (i < N)%nat) by (by apply lookup_lt_Some in Hn).
  assert (Hkid : i ∈ kids N par (par i)) by (by apply (kids_spec N par r Hrooted)).
  assert (Harr : forall tn', childTaxon tn' = taxId n ->
            exists h j, h ∈ hs /\ resolve st (taxon h) = Some j
              /\ ((childTaxon tn' = 0 /\ j = par i)
                  \/ (exists c nc, taxonNodes st !! c = Some nc /\ childTaxon tn' = taxId nc
                        /\ c ∈ kids N par (par i) /\ below N par c j))).
  { intros tn' Hc. exists h, i0. split; [done|]. split; [done|]. right. exists i, n.
    split; [done|]. split; [done|]. split; done. }
  unfold count_at. destruct (m !! taxId mp) as [old|] eqn:Hold.
  - destruct (decide (k = taxId mp)) as [->|Hne].
    2:{ rewrite lookup_insert_ne by done. apply Hm. }
    rewrite lookup_insert_eq. intros [= <-].
    destruct (Hm _ _ Hold) as (x & nx & Hx & Hid & (h0 & j0 & Hh0 & Hres0 & Harr0) & Hcand).
    assert (x = par i) as -> by (by eapply (tree_id_inj st Hwf)).
    exists (par i), mp. split; [done|]. split; [done|].
    unfold TaxNode_update. case_bool_decide as Hdiff; simpl.
    + split; [by apply (Harr (mkTaxNode dzero true (taxId n)))|]. intros _.
      exists h0, h, j0, i0. split; [done|]. split; [done|]. split; [done|]. split; [done|].
      assert (HpN : (par i < N)%nat) by (by apply lookup_lt_Some in Hmp).
      assert (Hup : below N par (par i) i0).
      { apply (below_trans N par (par i) i i0); [by apply (below_parent N par r) | done]. }
      destruct Harr0 as [[H0 ->]|(c & nc & Hnc & Hcid & Hckid & Hcb)].
      * apply (lca_of_below N par r (par i) (par i) i0 Hrooted HpN HpN Hi0
                 (below_refl _ _ _) Hup).
        intros w' Hw' _. exact Hw'.
      * assert (Hj0 : (j0 < N)%nat) by (by eapply resolve_lt).
        apply (lca_of_below N par r (par i) j0 i0 Hrooted HpN Hj0 Hi0); [|done|].
        -- apply (below_trans N par (par i) c j0); [by apply (below_kid N par r) | done].
        -- intros w' Hw0 Hw'. apply (below_two_kids N par r Hrooted (par i) c i j0 i0); try done.
           intros ->. apply Hdiff. rewrite Hcid. rewrite Hnc in Hn. by injection Hn as ->.
    + split; [|done].
      by apply (Harr (mkTaxNode dzero (isCandidate old) (childTaxon old))).
  - destruct (decide (k = taxId mp)) as [->|Hne].
    2:{ rewrite lookup_insert_ne by done. apply Hm. }
    rewrite lookup_insert_eq. intros [= <-].
    exists (par i), mp. split; [done|]. split; [done|]. simpl. split; [|done].
    by apply (Harr (mkTaxNode dzero false (taxId n))).
Qed.

Lemma agg_walk_inv hs h i0 w :
  h ∈ hs -> resolve st (taxon h) = Some i0 -> (i0 < N)%nat ->
  forall fuel i n (m m' : gmap Z TaxNode),
    taxonNodes st !! i = Some n -> below N par i i0 ->
    (forall k tn, m !! k = Some tn -> entry_inv st hs k tn) ->
    agg_walk fuel st m (taxId n) (parentTaxId n) w = Ok m' ->
    forall k tn, m' !! k = Some tn -> entry_inv st hs k tn.
Proof using Hwf Htab.
  intros Hh Hres Hi0. pose proof (store_rooted st Hwf) as Hrooted.
  induction fuel as [|f IH]; intros i n m m' Hn Hbelow Hm Hrun;
    assert (Hi : (i < N)%nat) by (by apply lookup_lt_Some in Hn);
    simpl in Hrun;
    destruct (Z.eqb_spec (parentTaxId n) (taxId n)) as [Hself|Hnself]; try discriminate.
  1,2: by injection Hrun as <-.
  assert (Hpar : par i <> i) by (intros He; by apply (tree_self_parent st Hwf i n Hn) in He).
  destruct (tree_parent_record st i n Hwf Hn) as (mp & Hmp & Hmid & _ & Hlen).
  rewrite Hlen in Hrun. simpl in Hrun. rewrite <- Hmid in Hrun.
  apply (IH (par i) mp (count_at m (taxId mp) w false (taxId n)) m' Hmp); [| |done].
  - apply (below_trans N par (par i) i i0); [by apply (below_parent N par r) | done].
  - by apply (count_at_parent hs h i0 i n mp m w).
Qed.

Lemma agg_hit_inv fuel hs a h a' :
  h ∈ hs ->
  taxon h = 0 \/ valid_key st (taxon h) ->
  (forall k tn, ancTaxIdsCounts a !! k = Some tn -> entry_inv st hs k tn) ->
  agg_hit fuel st a h = Ok a' ->
  forall k tn, ancTaxIdsCounts a' !! k = Some tn -> entry_inv st hs k tn.
Proof using Hwf Htab Hfree.
  intros Hh Hok Hm. pose proof (store_rooted st Hwf) as Hrooted. unfold agg_hit.
  destruct (Z.eqb_spec (taxon h) 0) as [H0|Hn0]; [by intros [= <-]|].
  destruct Hok as [?|Hvalid]; [done|].
  destruct (valid_key_resolve st Hwf Htab Hfree _ Hvalid) as (i & n & Hres & Hn & Hid & Hlen).
  assert (Hi : (i < N)%nat) by (by apply lookup_lt_Some in Hn).
  intros Hrun. bind_inv Hrun as o Ho.
  unfold taxonNode_lenient in Hlen. rewrite Ho in Hlen. simpl in Hlen.
  destruct o as [node|]; [|discriminate]. injection Hlen as ->.
  bind_inv Hrun as m2 Hm2. injection Hrun as <-. simpl.
  rewrite <- Hid in Hm2.
  apply (agg_walk_inv hs h i (hit_weight h) Hh Hres Hi fuel i n
           (count_at (ancTaxIdsCounts a) (taxId n) (hit_weight h) true 0) m2 Hn
           (below_refl _ _ _));
    [|done].
  intros k tn. unfold count_at.
  assert (Hnew : forall tn', childTaxon tn' = 0 -> entry_inv st hs (taxId n) tn').
  { intros tn' Hc. exists i, n. split; [done|]. split; [done|]. split.
    - exists h, i. split; [done|]. split; [done|]. by left.
    - intros _. exists h, h, i, i. split; [done|]. split; [done|]. split; [done|].
      split; [done|]. split; [apply ancestor_refl|]. split; [apply ancestor_refl|]. auto. }
  destruct (ancTaxIdsCounts a !! taxId n) as [old|] eqn:Hold.
  - destruct (decide (k = taxId n)) as [->|Hne].
    2:{ rewrite lookup_insert_ne by done. apply Hm. }
    rewrite lookup_insert_eq. intros [= <-]. apply Hnew.
    unfold TaxNode_update. case_bool_decide; simpl; done.
  - destruct (decide (k = taxId n)) as [->|Hne].
    2:{ rewrite lookup_insert_ne by done. apply Hm. }
    rewrite lookup_insert_eq. intros [= <-]. by apply Hnew.
Qed.

Lemma agg_inv fuel : forall rest pre a a',
  hits_ok st rest ->
  (forall k tn, ancTaxIdsCounts a !! k = Some tn -> entry_inv st pre k tn) ->
  foldM (agg_hit fuel st) a rest = Ok a' ->
  forall k tn, ancTaxIdsCounts a' !! k = Some tn -> entry_inv st (pre ++ rest) k tn.
Proof using Hwf Htab Hfree.
  induction rest as [|h rest IH]; intros pre a a' Hok Hm Hrun.
  { simpl in Hrun. injection Hrun as <-. by rewrite app_nil_r. }
  rewrite foldM_cons in Hrun. bind_inv Hrun as a1 H1.
  replace (pre ++ h :: rest) with ((pre ++ [h]) ++ rest) by (by rewrite <- app_assoc).
  apply (IH (pre ++ [h]) a1 a'); [intros h' Hh'; apply Hok; by right | | done].
  apply (agg_hit_inv fuel (pre ++ [h]) a h a1); [| apply Hok; by left | | done].
  - apply elem_of_app. right. by apply list_elem_of_singleton.
  - intros k tn Hk. apply (entry_inv_mono st pre); [|by apply Hm].
    intros h' Hh'. apply elem_of_app. by left.
Qed.

End Candidates.

(** In a tree store without merged aliases, for hits that name 0 or ids with
    a record, a selected taxon is the lowest common ancestor of the taxa of
    two of the hits (of one hit with itself, when the selected taxon is the
    taxon of a hit). *)
Theorem weightedMajorityLCA_selects_lca_of_hits ranks fuel st setTaxa cutoff :
  tree_store st = true -> table_ok st = true -> alias_free st = true ->
  (length (taxonNodes st) < fuel)%nat ->
  hits_ok st setTaxa ->
  exists res, weightedMajorityLCA ranks fuel st setTaxa cutoff = Ok res
    /\ (res_taxon res <> 0 ->
        exists s h1 h2 i1 i2,
          resolve st (res_taxon res) = Some s
          /\ h1 ∈ setTaxa /\ h2 ∈ setTaxa
          /\ resolve st (taxon h1) = Some i1 /\ resolve st (taxon h2) = Some i2
          /\ lowest_common_ancestor (parent_index st) s i1 i2).
Proof.
  intros Hwf Htab Hfree Hfuel Hhits.
  destruct (weighted_selection st ranks Hwf Htab fuel setTaxa cutoff Hfuel Hhits)
    as (a & s & res & Hagg & Hrun & Htaxon & _ & _ & _ & Hchosen).
  exists res. split; [done|]. rewrite Htaxon. intros Hn0.
  destruct Hchosen as [(? & _)|(_ & _ & tn & Hin & Hq & _)]; [done|].
  apply in_key_order_elem in Hin.
  pose proof (agg_inv st Hwf Htab Hfree fuel setTaxa [] (mkAgg ∅ 0 0 dzero) a Hhits) as Hinv.
  specialize (Hinv ltac:(intros k tn' Hk; simpl in Hk; by rewrite lookup_empty in Hk) Hagg).
  destruct (Hinv _ _ Hin) as (x & nx & Hx & Hid & _ & Hcand). simpl in Hcand.
  unfold qualifies in Hq. apply andb_prop in Hq as [Hc _].
  destruct (Hcand Hc) as (h1 & h2 & i1 & i2 & H1 & H2 & Hr1 & Hr2 & Hlca).
  destruct (tree_record st Hwf x nx Hx) as (Hpos & HD & _).
  exists x, h1, h2, i1, i2. split.
  { unfold resolve. rewrite <- Hid, HD. rewrite Nat2Z.id.
    destruct (Z.eqb_spec (Z.of_nat x) (-1)); [lia | done]. }
  done.
Qed.

Lemma weightedMajorityLCA_selects_lca_of_hits_witness :
  exists res, weightedMajorityLCA ranks_genus_species 7 store6 hits_456 third = Ok res
    /\ (res_taxon res <> 0 ->
        exists s h1 h2 i1 i2,
          resolve store6 (res_taxon res) = Some s
          /\ h1 ∈ hits_456 /\ h2 ∈ hits_456
          /\ resolve store6 (taxon h1) = Some i1 /\ resolve store6 (taxon h2) = Some i2
          /\ lowest_common_ancestor (parent_index store6) s i1 i2).
Proof.
  apply (weightedMajorityLCA_selects_lca_of_hits ranks_genus_species 7 store6 hits_456 third);
    [vm_compute; reflexivity | vm_compute; reflexivity | vm_compute; reflexivity
    | simpl; lia | hits_ok_by_lookup].
Defined.

Section CladeSums.

Context (st : Store).
Hypothesis Hwf : tree_store st = true.
Hypothesis Htab : table_ok st = true.

Local Abbreviation N := (length (taxonNodes st)).
Local Abbreviation par := (parent_index st).
Local Abbreviation r := (root_index st).
Local Abbreviation cl cc k := (cladeCount (counts_at cc k)).

Lemma clade_walk_clade c x nx :
  taxonNodes st !! x = Some nx ->
  forall fuel i n cc cc',
    taxonNodes st !! i = Some n ->
    clade_walk fuel st n c cc = Ok cc' ->
    cl cc' (taxId nx) mod UINT_RANGE
    = (cl cc (taxId nx) + (if decide (below N par x i /\ x <> i) then c else 0)) mod UINT_RANGE.
Proof using Hwf.
  intros Hx. pose proof (store_rooted st Hwf) as Hrooted.
  assert (HxN : (x < N)%nat) by (by apply lookup_lt_Some in Hx).
  induction fuel as [|f IH]; intros i n cc cc' Hn Hrun;
    assert (Hi : (i < N)%nat) by (by apply lookup_lt_Some in Hn);
    simpl in Hrun;
    (destruct (Z.eqb_spec (parentTaxId n) (taxId n)) as [Hself|Hnself];
     [injection Hrun as <-;
      apply (tree_self_parent st Hwf i n Hn) in Hself;
      pose proof (tree_root_unique st Hwf i Hi Hself) as ->;
      (rewrite decide_False; [by rewrite Z.add_0_r|]);
      intros [Hb Hne]; apply Hne; by apply (below_root N par r x Hrooted)|]).
  - rewrite (nodeId_exists _ _ _ (tree_parent_nodeId st Hwf i n Hn)) in Hrun. done.
  - rewrite (nodeId_exists _ _ _ (tree_parent_nodeId st Hwf i n Hn)) in Hrun. simpl in Hrun.
    assert (Hpar : par i <> i) by (intros He; by apply (tree_self_parent st Hwf i n Hn) in He).
    destruct (tree_parent_record st i n Hwf Hn) as (mp & Hmp & Hmid & Hderef & _).
    rewrite Hderef in Hrun. simpl in Hrun.
    rewrite (mod_add_step _ _ _ _ _ (IH _ mp _ _ Hmp Hrun)
               (cladeCount_add cc (taxId mp) c (taxId nx))).
    f_equal.
    assert (Hkey : taxId nx = taxId mp <-> x = par i).
    { split; [intros He; by eapply (tree_id_inj st Hwf) | intros ->; congruence]. }
    assert (Hup : below N par (par i) i) by (by apply (below_parent N par r)).
    assert (Hdown : ~ below N par i (par i)).
    { intros [Hle _]. destruct (dep_step N par r Hrooted i Hi Hpar) as [HS _]. lia. }
    assert (Hstep : x <> i -> (below N par x i <-> below N par x (par i))).
    { intros Hxi. by apply (below_parent_step N par r). }
    pose proof (below_refl N par (par i)) as Hrefl.
    destruct (decide (x = i)) as [Hxi|Hxi]; destruct (decide (x = par i)) as [Hxp|Hxp];
      [exfalso; congruence | subst x | subst x | specialize (Hstep Hxi)];
      repeat case_decide; try lia; exfalso; tauto.
Qed.

Lemma clade_entry_clade fuel cc key c cc' x nx :
  taxonNodes st !! x = Some nx ->
  0 <= key < Z.of_nat (length (D st)) ->
  clade_entry fuel st cc (key, c) = Ok cc' ->
  cl cc' (taxId nx) mod UINT_RANGE
  = (cl cc (taxId nx) + (if clade_reach st x key then c else 0)) mod UINT_RANGE.
Proof using Hwf Htab.
  intros Hx Hkey Hrun. unfold clade_entry in Hrun. simpl in Hrun.
  destruct (tree_record st Hwf x nx Hx) as (Hpos & HDx & _).
  destruct (at_in_range (D st) key Hkey) as [d Hd].
  unfold clade_reach, tid, resolve. rewrite Hx, Hd.
  bind_inv Hrun as ex Hex. apply nodeExists_Ok in Hex as (d' & Hd' & ->).
  rewrite Hd in Hd'. injection Hd' as <-.
  destruct (Z.eqb_spec d (-1)) as [Hm1|Hne]; simpl in Hrun.
  - injection Hrun as <-. rewrite cladeCount_add, cladeCount_set. rewrite orb_false_r.
    f_equal. destruct (Z.eqb_spec key (taxId nx)) as [->|Hk].
    + rewrite HDx in Hd. injection Hd as Hd. lia.
    + rewrite decide_False by congruence. lia.
  - destruct (table_slot st Htab key d Hd Hne) as (_ & i & n & -> & Hn).
    bind_inv Hrun as taxon Htaxon.
    assert (taxon = n) as ->.
    { unfold taxonNode_deref, taxonNode in Htaxon.
      destruct (Z.eqb_spec key 0) as [?|_]; [done|]. simpl in Htaxon.
      assert (Hid : nodeId st key = Ok (Z.of_nat i)).
      { apply nodeId_Ok. split; [lia|]. done. }
      rewrite Hid in Htaxon. simpl in Htaxon. rewrite (at_of_nat _ _ _ Hn) in Htaxon.
      simpl in Htaxon. by injection Htaxon as <-. }
    assert (Hcl2 : cl (add_cladeCount (set_taxCount cc key c) key c) (taxId nx) mod UINT_RANGE
                   = (cl cc (taxId nx) + (if decide (taxId nx = key) then c else 0))
                     mod UINT_RANGE)
      by (by rewrite cladeCount_add, cladeCount_set).
    rewrite (mod_add_step _ _ _ _ _ (clade_walk_clade c x nx Hx fuel i n _ cc' Hn Hrun) Hcl2).
    clear Hcl2. f_equal. rewrite Nat2Z.id.
    destruct (Z.eqb_spec key (taxId nx)) as [->|Hk]; simpl.
    + rewrite HDx in Hd. injection Hd as Hd. apply Nat2Z.inj in Hd as ->.
      rewrite decide_True by done. rewrite decide_False by tauto. lia.
    + rewrite decide_False by congruence.
      case_decide; [rewrite bool_decide_eq_true_2 by done | rewrite bool_decide_eq_false_2 by done];
        lia.
Qed.

Lemma clade_entries_clade fuel x nx :
  taxonNodes st !! x = Some nx ->
  forall l cc cc',
    (forall kv : Z * Z, kv ∈ l -> 0 <= kv.1 < Z.of_nat (length (D st))) ->
    foldM (clade_entry fuel st) cc l = Ok cc' ->
    cl cc' (taxId nx) mod UINT_RANGE
    = (cl cc (taxId nx)
       + foldr (uncurry (fun k c acc => (if clade_reach st x k then c else 0) + acc)) 0 l)
      mod UINT_RANGE.
Proof using Hwf Htab.
  intros Hx. induction l as [|[k c] l IH]; intros cc cc' Hrange Hrun.
  { simpl in Hrun. injection Hrun as <-. simpl. by rewrite Z.add_0_r. }
  rewrite foldM_cons in Hrun. bind_inv Hrun as cc1 H1.
  assert (Hrest : forall kv : Z * Z, kv ∈ l -> 0 <= kv.1 < Z.of_nat (length (D st)))
    by (intros kv Hkv; apply Hrange; by right).
  rewrite (mod_add_step _ _ _ _ _ (IH cc1 cc' Hrest Hrun)
             (clade_entry_clade fuel cc k c cc1 x nx Hx (Hrange (k, c) ltac:(by left)) H1)).
  reflexivity.
Qed.

End CladeSums.

(** In a tree store whose table is sound, for an input whose ids lie within
    the table, [getCladeCounts] returns a map in which the [cladeCount] under
    the id of each record [x] is, modulo [2^32], the sum of the input counts
    of the id of [x] itself and of the ids that resolve to records below [x]:
    the counter is an [unsigned int] and wraps. *)
Theorem getCladeCounts_sums_the_clade fuel st (taxonCounts : gmap Z Z) :
  tree_store st = true -> table_ok st = true ->
  (length (taxonNodes st) <= fuel)%nat ->
  (forall k c, taxonCounts !! k = Some c -> 0 <= k < Z.of_nat (length (D st))) ->
  exists cc, getCladeCounts fuel st taxonCounts = Ok cc
    /\ forall x nx, taxonNodes st !! x = Some nx ->
         cladeCount (counts_at cc (taxId nx)) = clade_total st x taxonCounts mod 2 ^ 32.
Proof.
  intros Hwf Htab Hfuel Hrange.
  destruct (clade_entries_spec st Hwf Htab fuel (map_to_list taxonCounts) ∅ Hfuel)
    as (cc1 & Hrun1 & _ & _ & Hclosed1).
  { apply NoDup_fst_map_to_list. }
  { intros [k c] Hkv. apply elem_of_map_to_list in Hkv. eauto. }
  { intros j (m & _ & _ & Hsome & _). rewrite lookup_empty in Hsome. by destruct Hsome. }
  destruct (clade_children_spec st (taxonNodes st) cc1) as (cc & Hrun & Hcounts).
  { intros tn Htn. by apply list_elem_of_lookup in Htn. }
  { done. }
  exists cc. split; [unfold getCladeCounts; by rewrite Hrun1|].
  intros x nx Hx. destruct (Hcounts (taxId nx)) as [_ ->].
  rewrite <- (Z.mod_small (cladeCount (counts_at cc1 (taxId nx))) UINT_RANGE)
    by apply (clade_entries_in_range _ _ _ _ _ Hrun1 empty_in_range).
  rewrite (clade_entries_clade st Hwf Htab fuel x nx Hx _ _ _ ltac:(
             intros [k c] Hkv; apply elem_of_map_to_list in Hkv; simpl; eauto) Hrun1).
  unfold clade_total. rewrite map_fold_foldr. unfold counts_at.
  rewrite lookup_empty. simpl. reflexivity.
Qed.

Lemma getCladeCounts_sums_the_clade_witness :
  exists cc, getCladeCounts 6 store6 (list_to_map [(4, 3); (6, 2); (1, 1)]) = Ok cc
    /\ forall x nx, taxonNodes store6 !! x = Some nx ->
         cladeCount (counts_at cc (taxId nx))
         = clade_total store6 x (list_to_map [(4, 3); (6, 2); (1, 1)]) mod 2 ^ 32.
Proof.
  apply (getCladeCounts_sums_the_clade 6 store6 (list_to_map [(4, 3); (6, 2); (1, 1)]));
    [vm_compute; reflexivity | vm_compute; reflexivity | simpl; lia |].
  intros k c Hk.
  assert (Hin : (k, c) ∈ [(4, 3); (6, 2); (1, 1)]).
  { apply elem_of_list_to_map_2 in Hk. exact Hk. }
  simpl. repeat (apply elem_of_cons in Hin as [[= -> ->] | Hin]; [lia|]).
  by apply elem_of_nil in Hin.
Defined.

(** ** Clade counts: the children lists *)

Lemma children_add cc key c k :
  children (counts_at (add_cladeCount cc key c) k) = children (counts_at cc k).
Proof.
  unfold add_cladeCount, counts_at, TaxID in *. destruct (decide (k = key)) as [->|Hne].
  - by rewrite lookup_insert_eq.
  - by rewrite lookup_insert_ne.
Qed.

Lemma children_set cc key c k :
  children (counts_at (set_taxCount cc key c) k) = children (counts_at cc k).
Proof.
  unfold set_taxCount, counts_at, TaxID in *. destruct (decide (k = key)) as [->|Hne].
  - by rewrite lookup_insert_eq.
  - by rewrite lookup_insert_ne.
Qed.

Lemma clade_walk_children c st : forall fuel n cc cc',
  clade_walk fuel st n c cc = Ok cc' ->
  forall k, children (counts_at cc' k) = children (counts_at cc k).
Proof.
  induction fuel as [|f IH]; intros n cc cc' Hrun k; simpl in Hrun;
    (destruct (parentTaxId n =? taxId n); [by injection Hrun as <-|]);
    bind_inv Hrun as ex Hex; (destruct ex; simpl in Hrun; [|by injection Hrun as <-]);
    [done|].
  bind_inv Hrun as taxon' Ht. rewrite (IH _ _ _ Hrun k). apply children_add.
Qed.

Lemma clade_entries_children fuel st : forall l cc cc',
  foldM (clade_entry fuel st) cc l = Ok cc' ->
  forall k, children (counts_at cc' k) = children (counts_at cc k).
Proof.
  induction l as [|[key c] l IH]; intros cc cc' Hrun k.
  { simpl in Hrun. by injection Hrun as <-. }
  rewrite foldM_cons in Hrun. bind_inv Hrun as cc1 H1.
  rewrite (IH _ _ Hrun k). unfold clade_entry in H1. simpl in H1.
  bind_inv H1 as ex Hex. destruct ex.
  - bind_inv H1 as taxon Ht. rewrite (clade_walk_children _ _ _ _ _ _ H1 k).
    by rewrite children_add, children_set.
  - injection H1 as <-. by rewrite children_add, children_set.
Qed.

Section CladeChildren.

Context (st : Store) (cc1 : gmap Z TaxonCounts).
Hypothesis Hwf : tree_store st = true.
Hypothesis Hempty : forall k, children (counts_at cc1 k) = [].

Local Abbreviation N := (length (taxonNodes st)).
Local Abbreviation par := (parent_index st).
Local Abbreviation listed m x :=
  (tid st <$> filter (fun c => is_Some (cc1 !! tid st c)) (kids m par x)).

Lemma clade_children_prefix m :
  (m <= N)%nat ->
  forall ccm, foldM clade_child cc1 (take m (taxonNodes st)) = Ok ccm ->
  (forall k, ccm !! k = None <-> cc1 !! k = None)
  /\ (forall x nx, taxonNodes st !! x = Some nx ->
        children (counts_at ccm (taxId nx)) = listed m x).
Proof using Hwf Hempty.
  induction m as [|m IH]; intros Hm ccm Hrun.
  { simpl in Hrun. injection Hrun as <-. split; [done|]. intros x nx Hx. apply Hempty. }
  destruct (lookup_lt_is_Some_2 (taxonNodes st) m ltac:(lia)) as [n Hn].
  rewrite (take_S_r _ _ _ Hn), foldM_app in Hrun. bind_inv Hrun as cc0 H0.
  destruct (IH ltac:(lia) cc0 H0) as [Hkeys Hch]. simpl in Hrun.
  assert (Hseq : forall v, kids (S m) par v
             = kids m par v ++ filter (fun i => par i = v /\ par i <> i) [m]).
  { intros v. unfold kids. rewrite seq_S, filter_app. reflexivity. }
  assert (Htid : tid st m = taxId n) by (unfold tid; by rewrite Hn).
  bind_inv Hrun as cc' Hstep. injection Hrun as <-. unfold clade_child in Hstep.
  destruct (Z.eqb_spec (parentTaxId n) (taxId n)) as [He|Hne]; simpl in Hstep.
  { injection Hstep as <-. split; [done|]. intros x nx Hx. rewrite (Hch x nx Hx).
    apply (tree_self_parent st Hwf m n Hn) in He.
    rewrite Hseq, filter_cons_False, filter_nil, app_nil_r by tauto. done. }
  assert (Hpm : par m <> m) by (by rewrite (tree_self_parent st Hwf m n Hn)).
  case_bool_decide as Hentry.
  2:{ injection Hstep as <-. split; [done|]. intros x nx Hx. rewrite (Hch x nx Hx).
      rewrite Hseq. rewrite filter_app, fmap_app.
      destruct (decide (par m = x)) as [Hx'|Hx'].
      - rewrite (filter_cons_True _ m) by tauto. rewrite filter_nil.
        rewrite filter_cons_False, filter_nil, app_nil_r; [done|].
        rewrite Htid. rewrite <- not_eq_None_Some, <- Hkeys, not_eq_None_Some. done.
      - rewrite (filter_cons_False _ m) by tauto. rewrite filter_nil.
        by rewrite filter_nil, app_nil_r. }
  destruct (cc0 !! parentTaxId n) as [e|] eqn:He; [|discriminate]. injection Hstep as <-.
  unfold TaxID in *. split.
  - intros k. destruct (decide (k = parentTaxId n)) as [->|Hk].
    + rewrite lookup_insert_eq. rewrite <- Hkeys, He. done.
    + rewrite lookup_insert_ne by done. apply Hkeys.
  - intros x nx Hx. destruct (tree_parent_record st m n Hwf Hn) as (mp & Hmp & Hmid & _).
    rewrite Hseq, filter_app, fmap_app. unfold counts_at.
    destruct (decide (x = par m)) as [->|Hx'].
    + rewrite Hmp in Hx. injection Hx as <-. rewrite Hmid, lookup_insert_eq. simpl.
      specialize (Hch _ _ Hmp). unfold counts_at in Hch. unfold TaxID in *.
      rewrite Hmid, He in Hch.
      simpl in Hch. rewrite Hch. f_equal.
      rewrite (filter_cons_True _ m) by tauto. rewrite filter_nil.
      rewrite filter_cons_True, filter_nil.
      * simpl. by rewrite Htid.
      * rewrite Htid. rewrite <- not_eq_None_Some, <- Hkeys, not_eq_None_Some. done.
    + assert (Hkne : parentTaxId n <> taxId nx).
      { intros Heq. apply Hx'. eapply (tree_id_inj st Hwf); eauto. congruence. }
      rewrite lookup_insert_ne by done.
      specialize (Hch _ _ Hx). unfold counts_at in Hch. rewrite Hch.
      rewrite (filter_cons_False _ m) by (intros [? _]; congruence).
      by rewrite !filter_nil, app_nil_r.
Qed.

End CladeChildren.

(** In a tree store whose table is sound, for an input whose ids lie within
    the table, the map that [getCladeCounts] returns lists under the id of
    each record, in the order of the records, the ids of its child records
    that have an entry; and the parent of a record with an entry has an entry. *)
Theorem getCladeCounts_lists_children fuel st (taxonCounts : gmap Z Z) :
  tree_store st = true -> table_ok st = true ->
  (length (taxonNodes st) <= fuel)%nat ->
  (forall k c, taxonCounts !! k = Some c -> 0 <= k < Z.of_nat (length (D st))) ->
  exists cc, getCladeCounts fuel st taxonCounts = Ok cc
    /\ (forall x nx, taxonNodes st !! x = Some nx ->
          children (counts_at cc (taxId nx))
          = tid st <$> filter (fun c => is_Some (cc !! tid st c))
                              (kids (length (taxonNodes st)) (parent_index st) x))
    /\ (forall x nx, taxonNodes st !! x = Some nx ->
          parentTaxId nx <> taxId nx ->
          is_Some (cc !! taxId nx) -> is_Some (cc !! parentTaxId nx)).
Proof.
  intros Hwf Htab Hfuel Hrange.
  destruct (clade_entries_spec st Hwf Htab fuel (map_to_list taxonCounts) ∅ Hfuel)
    as (cc1 & Hrun1 & _ & _ & Hclosed1).
  { apply NoDup_fst_map_to_list. }
  { intros [k c] Hkv. apply elem_of_map_to_list in Hkv. eauto. }
  { intros j (m & _ & _ & Hsome & _). rewrite lookup_empty in Hsome. by destruct Hsome. }
  destruct (clade_children_spec st (taxonNodes st) cc1) as (cc & Hrun & _).
  { intros tn Htn. by apply list_elem_of_lookup in Htn. }
  { done. }
  exists cc. split; [unfold getCladeCounts; by rewrite Hrun1|].
  assert (Hempty : forall k, children (counts_at cc1 k) = []).
  { intros k. rewrite (clade_entries_children _ _ _ _ _ Hrun1 k).
    unfold counts_at. by rewrite lookup_empty. }
  destruct (clade_children_prefix st cc1 Hwf Hempty (length (taxonNodes st)) ltac:(lia) cc)
    as [Hkeys Hch].
  { by rewrite firstn_all. }
  assert (Hsome : forall k, is_Some (cc !! k) <-> is_Some (cc1 !! k)).
  { intros k. rewrite <- !not_eq_None_Some, Hkeys. done. }
  split.
  - intros x nx Hx. rewrite (Hch x nx Hx). f_equal.
    apply list_filter_iff. intros c. by rewrite Hsome.
  - intros x nx Hx Hne. rewrite !Hsome. intros Hs.
    destruct (cc1 !! parentTaxId nx) eqn:Hp; [by eexists|]. exfalso.
    apply (Hclosed1 x). exists nx. done.
Qed.

Lemma getCladeCounts_lists_children_witness :
  exists cc, getCladeCounts 6 store6 (list_to_map [(4, 3); (6, 2); (1, 1)]) = Ok cc
    /\ (forall x nx, taxonNodes store6 !! x = Some nx ->
          children (counts_at cc (taxId nx))
          = tid store6 <$> filter (fun c => is_Some (cc !! tid store6 c))
                              (kids (length (taxonNodes store6)) (parent_index store6) x))
    /\ (forall x nx, taxonNodes store6 !! x = Some nx ->
          parentTaxId nx <> taxId nx ->
          is_Some (cc !! taxId nx) -> is_Some (cc !! parentTaxId nx)).
Proof.
  apply (getCladeCounts_lists_children 6 store6 (list_to_map [(4, 3); (6, 2); (1, 1)]));
    [vm_compute; reflexivity | vm_compute; reflexivity | simpl; lia |].
  intros k c Hk.
  assert (Hin : (k, c) ∈ [(4, 3); (6, 2); (1, 1)]).
  { apply elem_of_list_to_map_2 in Hk. exact Hk. }
  simpl. repeat (apply elem_of_cons in Hin as [[= -> ->] | Hin]; [lia|]).
  by apply elem_of_nil in Hin.
Defined.

Lemma nth_ancestor_parent st i k :
  nth_ancestor st (parent_index st i) k = nth_ancestor st i (S k).
Proof. unfold nth_ancestor. by rewrite Nat.iter_succ_r. Qed.

Lemma lineage_path_step st i :
  tree_store st = true -> (i < length (taxonNodes st))%nat ->
  (2 <= tree_depth st i)%nat ->
  lineage_path st i = i :: lineage_path st (parent_index st i).
Proof.
  intros Hwf Hi Hd. pose proof (store_rooted st Hwf) as Hrooted.
  assert (Hne : parent_index st i <> i).
  { intros He. rewrite (rooted_unique _ _ _ Hrooted i Hi He) in Hd.
    unfold tree_depth in Hd. rewrite (dep_root _ _ _ Hrooted) in Hd. lia. }
  destruct (dep_step _ _ _ Hrooted i Hi Hne) as [HS _].
  unfold lineage_path. fold (tree_depth st i) in HS.
  fold (tree_depth st (parent_index st i)) in HS. rewrite HS.
  replace (Nat.max 1 (S (tree_depth st (parent_index st i))))
    with (S (Nat.max 1 (tree_depth st (parent_index st i)))) by lia.
  simpl. f_equal. rewrite <- fmap_S_seq, <- list_fmap_compose.
  apply list_fmap_ext. intros _ k _. simpl. symmetry. apply nth_ancestor_parent.
Qed.

(** The walk of [taxLineage] from record [i] collects the records of
    [lineage_path]. *)
Lemma lineage_walk_path st fuel :
  tree_store st = true ->
  forall i n vec,
    taxonNodes st !! i = Some n ->
    (1 <= fuel)%nat -> (tree_depth st i <= fuel)%nat ->
    exists l, lineage_walk fuel st n vec = Ok (vec ++ l)
      /\ Forall2 (fun j m => taxonNodes st !! j = Some m) (lineage_path st i) l.
Proof.
  intros Hwf. pose proof (store_rooted st Hwf) as Hrooted.
  induction fuel as [|f IH]; intros i n vec Hn Hf1 Hfd; [lia|].
  assert (Hi : (i < length (taxonNodes st))%nat) by (by apply lookup_lt_Some in Hn).
  destruct (tree_parent_record st i n Hwf Hn) as (m & Hm & Hmid & Hderef & _).
  simpl. rewrite Hderef. simpl.
  destruct (Z.eqb_spec (parentTaxId m) (taxId m)) as [Hroot|Hnot]; simpl.
  - apply (tree_self_parent st Hwf _ m Hm) in Hroot.
    assert (Hd : (tree_depth st i <= 1)%nat).
    { destruct (decide (parent_index st i = i)) as [He|Hne].
      - rewrite (rooted_unique _ _ _ Hrooted i Hi He). unfold tree_depth.
        rewrite (dep_root _ _ _ Hrooted). lia.
      - destruct (dep_step _ _ _ Hrooted i Hi Hne) as [HS _].
        unfold tree_depth. rewrite HS.
        rewrite (rooted_unique _ _ _ Hrooted _ (rooted_par _ _ _ Hrooted i Hi) Hroot).
        rewrite (dep_root _ _ _ Hrooted). lia. }
    exists [n]. split; [done|]. unfold lineage_path.
    replace (Nat.max 1 (tree_depth st i)) with 1%nat by lia. simpl.
    constructor; [done | constructor].
  - assert (Hpne : parent_index st (parent_index st i) <> parent_index st i).
    { intros He. by apply (tree_self_parent st Hwf _ m Hm) in He. }
    assert (Hne : parent_index st i <> i) by (intros He; rewrite He in Hpne; done).
    destruct (dep_step _ _ _ Hrooted i Hi Hne) as [HS _].
    destruct (dep_step _ _ _ Hrooted _ (rooted_par _ _ _ Hrooted i Hi) Hpne) as [HS' _].
    fold (tree_depth st i) in HS. fold (tree_depth st (parent_index st i)) in HS, HS'.
    destruct (IH (parent_index st i) m (vec ++ [n]) Hm ltac:(lia) ltac:(lia))
      as (l & Hrun & Hall).
    exists (n :: l). split; [by rewrite Hrun, <- app_assoc|].
    rewrite (lineage_path_step st i Hwf Hi) by lia. by constructor.
Qed.

(** In a tree store, the lineage string with ids, split at [;], lists the
    ids of the record's ancestors below the root and of the record itself,
    the highest first: the depth of the record many tokens, and the single
    token of the root's id for the root. *)
Theorem taxLineage_lists_the_path shorts fuel st i n :
  tree_store st = true ->
  taxonNodes st !! i = Some n ->
  (1 <= fuel)%nat -> (tree_depth st i <= fuel)%nat ->
  exists s, taxLineage shorts fuel st n false = Ok s
    /\ split_on ";"%char s = (fun j => SSTR (tid st j)) <$> reverse (lineage_path st i).
Proof.
  intros Hwf Hn Hf1 Hfd.
  destruct (lineage_walk_path st fuel Hwf i n [] Hn Hf1 Hfd) as (l & Hrun & Hall).
  unfold taxLineage. rewrite Hrun. simpl. eexists. split; [reflexivity|].
  assert (Hl : l <> []).
  { intros ->. apply Forall2_nil_inv_r in Hall. unfold lineage_path in Hall.
    apply (f_equal length) in Hall. rewrite length_fmap, length_seq in Hall. simpl in Hall. lia. }
  rewrite split_lineage_emit.
  2:{ intros Hnil. apply Hl. apply (f_equal reverse) in Hnil.
      by rewrite reverse_involutive in Hnil. }
  rewrite !fmap_reverse. f_equal.
  clear -Hall. induction Hall as [|j m js ms Hjm _ IH]; [done|].
  rewrite !fmap_cons. f_equal; [unfold tid; by rewrite Hjm | exact IH].
Qed.

Lemma taxLineage_lists_the_path_witness :
  exists n, taxonNodes store6 !! 3%nat = Some n
    /\ exists s, taxLineage ∅ 3 store6 n false = Ok s
         /\ split_on ";"%char s
            = (fun j => SSTR (tid store6 j)) <$> reverse (lineage_path store6 3).
Proof.
  eexists. split; [reflexivity|].
  apply (taxLineage_lists_the_path ∅ 3 store6 3);
    [vm_compute; reflexivity | reflexivity | lia | vm_compute; lia].
Defined.

(** ** Reading back the decimal text of a number *)

Lemma digit_of_digit_char d : 0 <= d < 10 -> digit_of (digit_char d) = Some d.
Proof.
  intros Hd.
  assert (d = 0 \/ d = 1 \/ d = 2 \/ d = 3 \/ d = 4 \/ d = 5 \/ d = 6 \/ d = 7 \/ d = 8 \/ d = 9)
    as Hcases by lia.
  repeat (destruct Hcases as [-> | Hcases]; [reflexivity|]). subst d. reflexivity.
Qed.

Lemma isspace_digit_char d : 0 <= d < 10 -> isspace (digit_char d) = false.
Proof.
  intros Hd.
  assert (d = 0 \/ d = 1 \/ d = 2 \/ d = 3 \/ d = 4 \/ d = 5 \/ d = 6 \/ d = 7 \/ d = 8 \/ d = 9)
    as Hcases by lia.
  repeat (destruct Hcases as [-> | Hcases]; [reflexivity|]). subst d. reflexivity.
Qed.

Lemma digit_char_not_sign d :
  0 <= d < 10 -> digit_char d <> "-"%char /\ digit_char d <> "+"%char.
Proof.
  intros Hd.
  assert (d = 0 \/ d = 1 \/ d = 2 \/ d = 3 \/ d = 4 \/ d = 5 \/ d = 6 \/ d = 7 \/ d = 8 \/ d = 9)
    as Hcases by lia.
  repeat (destruct Hcases as [-> | Hcases]; [split; discriminate|]). subst d. split; discriminate.
Qed.

Lemma read_digits_rest_cons d r acc :
  0 <= d < 10 ->
  read_digits_rest (String (digit_char d) r) acc = read_digits_rest r (10 * acc + d).
Proof.
  intros Hd. change (read_digits_rest (String (digit_char d) r) acc)
    with (match digit_of (digit_char d) with
          | Some d' => read_digits_rest r (10 * acc + d')
          | None => (acc, String (digit_char d) r)
          end).
  by rewrite digit_of_digit_char.
Qed.

(** The digits written by [digits_fuel] are read back as the number. *)
Lemma read_digits_fuel f : forall n acc a,
  0 <= n < 2 ^ Z.of_nat f -> 0 <= a ->
  exists p, 1 <= p
    /\ read_digits_rest (digits_fuel f n acc) a = read_digits_rest acc (a * p + n).
Proof.
  induction f as [|f IH]; intros n acc a Hn Ha.
  { exists 1. split; [lia|]. change (2 ^ Z.of_nat 0) with 1 in Hn.
    assert (n = 0) as -> by lia. change (digits_fuel 0 0 acc) with acc. f_equal. lia. }
  rewrite digits_fuel_S.
  assert (Hd : 0 <= n mod 10 < 10) by (apply Z.mod_pos_bound; lia).
  pose proof (Z.div_mod n 10 ltac:(lia)) as Hdm.
  destruct (Z.eqb_spec (n / 10) 0) as [H0|Hne].
  - exists 10. split; [lia|]. rewrite read_digits_rest_cons by done. f_equal. lia.
  - destruct (IH (n / 10) (String (digit_char (n mod 10)) acc) a) as (p & Hp & Hread).
    { split; [apply Z.div_pos; lia|].
      rewrite Nat2Z.inj_succ, Z.pow_succ_r in Hn by lia.
      apply Z.div_lt_upper_bound; lia. }
    { done. }
    exists (10 * p). split; [lia|]. rewrite Hread, read_digits_rest_cons by done.
    f_equal. lia.
Qed.

Lemma digits_fuel_head f n acc :
  exists d r, 0 <= d < 10 /\ digits_fuel (S f) n acc = String (digit_char d) r.
Proof.
  revert n acc. induction f as [|f IH]; intros n acc; rewrite digits_fuel_S.
  - assert (Hd : 0 <= n mod 10 < 10) by (apply Z.mod_pos_bound; lia).
    destruct (n / 10 =? 0); [by eauto|]. change (digits_fuel 0 _ ?s) with s. eauto.
  - destruct (n / 10 =? 0); [|apply IH].
    assert (Hd : 0 <= n mod 10 < 10) by (apply Z.mod_pos_bound; lia). eauto.
Qed.

Lemma strtol_end_digit_head d r :
  0 <= d < 10 ->
  strtol_end (String (digit_char d) r)
  = Some ((read_digits_rest (String (digit_char d) r) 0).1,
          (read_digits_rest (String (digit_char d) r) 0).2)
  /\ strtol_end (String "-"%char (String (digit_char d) r))
    = Some (- (read_digits_rest (String (digit_char d) r) 0).1,
            (read_digits_rest (String (digit_char d) r) 0).2).
Proof.
  intros Hd.
  assert (d = 0 \/ d = 1 \/ d = 2 \/ d = 3 \/ d = 4 \/ d = 5 \/ d = 6 \/ d = 7 \/ d = 8 \/ d = 9)
    as Hcases by lia.
  repeat (destruct Hcases as [-> | Hcases]; [split; reflexivity|]).
  subst d. split; reflexivity.
Qed.

Lemma strtol_end_digits f n acc :
  0 <= n < 2 ^ Z.of_nat (S f) ->
  (forall v, read_digits_rest acc v = (v, acc)) ->
  strtol_end (digits_fuel (S f) n acc) = Some (n, acc)
  /\ strtol_end (String "-"%char (digits_fuel (S f) n acc)) = Some (- n, acc).
Proof.
  intros Hn Hacc.
  destruct (digits_fuel_head f n acc) as (d & r & Hd & Hhead).
  destruct (read_digits_fuel (S f) n acc 0 Hn ltac:(lia)) as (p & _ & Hread).
  rewrite Hacc in Hread.
  destruct (strtol_end_digit_head d r Hd) as [Hplus Hminus].
  rewrite Hhead, Hplus, Hminus, <- Hhead, Hread. cbn [fst snd].
  split; f_equal; f_equal; lia.
Qed.

Lemma digits_fuel_app f : forall n acc,
  digits_fuel f n acc = digits_fuel f n EmptyString +:+ acc.
Proof.
  induction f as [|f IH]; intros n acc; [reflexivity|].
  rewrite !digits_fuel_S. destruct (n / 10 =? 0); [reflexivity|].
  rewrite IH, (IH _ (String _ EmptyString)).
  generalize (digits_fuel f (n / 10) EmptyString). intros x.
  induction x as [|c x IHx]; [reflexivity|].
  change (String c (x +:+ String (digit_char (n `mod` 10)) acc)
          = String c ((x +:+ String (digit_char (n `mod` 10)) EmptyString) +:+ acc)).
  by f_equal.
Qed.

Lemma SSTR_app n acc :
  SSTR n +:+ acc
  = if n <? 0 then String "-"%char (digits_fuel (S (Z.to_nat (Z.log2 (- n)))) (- n) acc)
    else digits_fuel (S (Z.to_nat (Z.log2 n))) n acc.
Proof.
  unfold SSTR. destruct (n <? 0).
  - rewrite (digits_fuel_app _ _ acc). reflexivity.
  - by rewrite (digits_fuel_app _ _ acc).
Qed.

(** [strtol] on the text of a number followed by text that does not start
    with a digit: the number, and [rest] at the first character after it. *)
Lemma strtol_end_SSTR_app n acc :
  (forall v, read_digits_rest acc v = (v, acc)) ->
  strtol_end (SSTR n +:+ acc) = Some (n, acc).
Proof.
  intros Hacc. rewrite SSTR_app. destruct (Z.ltb_spec n 0) as [Hneg|Hpos].
  - destruct (strtol_end_digits (Z.to_nat (Z.log2 (- n))) (- n) acc) as [_ H]; [|done|].
    { split; [lia|]. rewrite Nat2Z.inj_succ, Z2Nat.id by apply Z.log2_nonneg.
      apply Z.log2_spec. lia. }
    rewrite H. f_equal. f_equal. lia.
  - destruct (decide (n = 0)) as [->|Hn0].
    { destruct (strtol_end_digits (Z.to_nat (Z.log2 0)) 0 acc) as [H _]; [|done|done].
      split; [lia|]. apply Z.pow_pos_nonneg; lia. }
    destruct (strtol_end_digits (Z.to_nat (Z.log2 n)) n acc) as [H _]; [|done|done].
    split; [lia|]. rewrite Nat2Z.inj_succ, Z2Nat.id by apply Z.log2_nonneg.
    apply Z.log2_spec. lia.
Qed.

Lemma strtol_end_SSTR n : strtol_end (SSTR n) = Some (n, EmptyString).
Proof. rewrite <- (append_empty_r (SSTR n)). by apply strtol_end_SSTR_app. Qed.

Lemma read_digits_rest_stop c r v :
  digit_of c = None -> read_digits_rest (String c r) v = (v, String c r).
Proof. intros H. cbn [read_digits_rest]. by rewrite H. Qed.

Lemma strip_sign_other c r :
  c <> "-"%char -> c <> "+"%char -> strip_sign (String c r) = (false, String c r).
Proof.
  intros Hm Hp. destruct c as [b0 b1 b2 b3 b4 b5 b6 b7].
  destruct b0, b1, b2, b3, b4, b5, b6, b7; try reflexivity; congruence.
Qed.

Lemma strtol_end_no_number value :
  (forall c r, value = String c r ->
     isspace c = false /\ c <> "-"%char /\ c <> "+"%char /\ digit_of c = None) ->
  strtol_end value = None.
Proof.
  intros H. destruct value as [|c r]; [reflexivity|].
  destruct (H c r eq_refl) as (Hsp & Hm & Hp & Hd).
  unfold strtol_end. cbn [skip_space]. rewrite Hsp, strip_sign_other by done.
  cbn [fst snd]. by rewrite Hd.
Qed.

(** ** Properties of [assign] *)

(** The text [SSTR] writes for a number that fits a [long] is accepted when
    [errno] is not [ERANGE] on entry, and [obj] becomes its low 32 bits: the
    number itself when it fits an [int], another number when it does not. *)
Theorem assign_int_reads_back_SSTR n obj :
  LONG_MIN <= n <= LONG_MAX ->
  assign_int false (SSTR n) obj = mkAssigned true (long_to_int n) false
  /\ (- 2 ^ 31 <= n < 2 ^ 31 -> long_to_int n = n)
  /\ (n < - 2 ^ 31 \/ 2 ^ 31 <= n -> long_to_int n <> n).
Proof.
  intros Hn. split; [|split].
  - unfold assign_int. rewrite strtol_end_SSTR.
    destruct (Z.ltb_spec n LONG_MIN); [lia|]. destruct (Z.ltb_spec LONG_MAX n); [lia|].
    reflexivity.
  - intros Hi. unfold long_to_int. rewrite Z.mod_small; lia.
  - intros Ho Heq. unfold long_to_int in Heq.
    pose proof (Z.mod_pos_bound (n + 2 ^ 31) (2 ^ 32) ltac:(lia)). lia.
Qed.

Lemma assign_int_reads_back_SSTR_witness :
  assign_int false (SSTR 4294967301) 7 = mkAssigned true (long_to_int 4294967301) false
  /\ (- 2 ^ 31 <= 4294967301 < 2 ^ 31 -> long_to_int 4294967301 = 4294967301)
  /\ (4294967301 < - 2 ^ 31 \/ 2 ^ 31 <= 4294967301 -> long_to_int 4294967301 <> 4294967301).
Proof. apply (assign_int_reads_back_SSTR 4294967301 7). unfold LONG_MIN, LONG_MAX. lia. Defined.

(** A number outside the range of a [long] is refused and [obj] is kept; as
    [errno] is never reset, the next call refuses whatever text it is given,
    and so does every call after it. *)
Theorem assign_int_out_of_range_blocks_later_calls erange n obj :
  n < LONG_MIN \/ LONG_MAX < n ->
  assign_int erange (SSTR n) obj = mkAssigned false obj true
  /\ forall value obj',
       assign_int (erange_after (assign_int erange (SSTR n) obj)) value obj'
       = mkAssigned false obj' true.
Proof.
  intros Hn.
  assert (H1 : assign_int erange (SSTR n) obj = mkAssigned false obj true).
  { unfold assign_int. rewrite strtol_end_SSTR.
    assert ((n <? LONG_MIN) || (LONG_MAX <? n) = true) as ->.
    { destruct (Z.ltb_spec n LONG_MIN), (Z.ltb_spec LONG_MAX n); try reflexivity. lia. }
    rewrite !orb_true_r. reflexivity. }
  split; [done|]. intros value obj'. rewrite H1. cbn [erange_after].
  unfold assign_int. cbn [orb]. rewrite !orb_true_r. reflexivity.
Qed.

Lemma assign_int_out_of_range_blocks_later_calls_witness :
  assign_int false (SSTR 9223372036854775808) 7 = mkAssigned false 7 true
  /\ forall value obj',
       assign_int (erange_after (assign_int false (SSTR 9223372036854775808) 7)) value obj'
       = mkAssigned false obj' true.
Proof.
  apply (assign_int_out_of_range_blocks_later_calls false 9223372036854775808 7).
  unfold LONG_MIN, LONG_MAX. lia.
Defined.

(** A number followed by a character that is neither a digit nor NUL is
    refused, whatever follows, and [obj] is kept. *)
Theorem assign_int_refuses_trailing_text erange n c r obj :
  digit_of c = None -> c <> Ascii.zero ->
  accepted (assign_int erange (SSTR n +:+ String c r) obj) = false
  /\ obj_after (assign_int erange (SSTR n +:+ String c r) obj) = obj.
Proof.
  intros Hd Hc. unfold assign_int.
  rewrite strtol_end_SSTR_app by (intros v; by apply read_digits_rest_stop).
  assert (at_nul (String c r) = false) as ->.
  { cbn [at_nul]. by apply Ascii.eqb_neq. }
  cbn [negb orb]. done.
Qed.

Lemma assign_int_refuses_trailing_text_witness :
  accepted (assign_int false (SSTR 12 +:+ String "x"%char "yz") 7) = false
  /\ obj_after (assign_int false (SSTR 12 +:+ String "x"%char "yz") 7) = 7.
Proof.
  apply (assign_int_refuses_trailing_text false 12 "x"%char "yz" 7);
    [reflexivity | discriminate].
Defined.

(** Text with no number in it, that is the empty text or text starting with
    a character other than white space, a sign and a digit, is accepted when
    [errno] is not [ERANGE] on entry, and [obj] becomes 0. *)
Theorem assign_int_accepts_text_without_number value obj :
  (forall c r, value = String c r ->
     isspace c = false /\ c <> "-"%char /\ c <> "+"%char /\ digit_of c = None) ->
  assign_int false value obj = mkAssigned true 0 false.
Proof.
  intros H. unfold assign_int. by rewrite (strtol_end_no_number value H).
Qed.

Lemma assign_int_accepts_text_without_number_witness :
  assign_int false "abc" 7 = mkAssigned true 0 false.
Proof.
  apply (assign_int_accepts_text_without_number "abc" 7).
  intros c r Heq. injection Heq as <- <-.
  repeat split; (reflexivity || discriminate).
Defined.

(** ** The selection walk finds the walk rank *)

Lemma rank_walk_S ranks f st curr node cur :
  rank_walk ranks (S f) st curr node cur
  = if parentTaxId node =? curr then Ok cur
    else if (0 <? findRankIndex ranks (rank node)) && (findRankIndex ranks (rank node) <? cur)
         then Ok (findRankIndex ranks (rank node))
         else bind (taxonNode_lenient st (parentTaxId node))
                   (fun node' => rank_walk ranks f st (parentTaxId node) node' cur).
Proof. reflexivity. Qed.

Lemma ancestors_cons st i d :
  nth_ancestor st i <$> seq 0 (S d) = i :: (nth_ancestor st (parent_index st i) <$> seq 0 d).
Proof.
  rewrite <- cons_seq, fmap_cons. f_equal. rewrite <- fmap_S_seq, <- list_fmap_compose.
  apply list_fmap_ext. intros _ k _. simpl. symmetry. apply nth_ancestor_parent.
Qed.

Section WalkRank.

Context (st : Store) (ranks : gmap string Z).
Hypothesis Hwf : tree_store st = true.

Local Abbreviation N := (length (taxonNodes st)).
Local Abbreviation par := (parent_index st).
Local Abbreviation r := (root_index st).
Local Abbreviation dep := (tree_depth st).

Lemma first_rank_cons i n rest :
  taxonNodes st !! i = Some n ->
  first_rank ranks st (i :: rest)
  = if (0 <? findRankIndex ranks (rank n)) && (findRankIndex ranks (rank n) <? INT_MAX)
    then findRankIndex ranks (rank n)
    else first_rank ranks st rest.
Proof using Type. intros Hn. cbn [first_rank]. unfold rank_index_at. by rewrite Hn. Qed.

(** The walk from a record under its own id. *)
Lemma rank_walk_own fuel : forall i n,
  taxonNodes st !! i = Some n ->
  (dep i < fuel)%nat ->
  rank_walk ranks fuel st (taxId n) n ROOT_RANK
  = Ok (first_rank ranks st (nth_ancestor st i <$> seq 0 (dep i))).
Proof using Hwf.
  pose proof (store_rooted st Hwf) as Hrooted.
  induction fuel as [|f IH]; intros i n Hn Hfuel; [lia|].
  assert (Hi : (i < N)%nat) by (by apply lookup_lt_Some in Hn).
  rewrite rank_walk_S. destruct (Z.eqb_spec (parentTaxId n) (taxId n)) as [Hself|Hnself].
  - apply (tree_self_parent st Hwf i n Hn) in Hself.
    pose proof (tree_root_unique st Hwf i Hi Hself) as ->.
    unfold tree_depth. rewrite (dep_root _ _ _ Hrooted). done.
  - assert (Hpar : par i <> i) by (intros He; by apply (tree_self_parent st Hwf i n Hn) in He).
    destruct (dep_step _ _ _ Hrooted i Hi Hpar) as [HS _].
    fold (tree_depth st i) in HS. fold (tree_depth st (par i)) in HS.
    rewrite HS, ancestors_cons, (first_rank_cons i n _ Hn). unfold ROOT_RANK.
    destruct ((0 <? findRankIndex ranks (rank n)) && (findRankIndex ranks (rank n) <? INT_MAX));
      [done|].
    destruct (tree_parent_record st i n Hwf Hn) as (m & Hm & Hmid & _ & Hlen).
    rewrite Hlen. simpl. rewrite <- Hmid. apply (IH (par i) m Hm). lia.
Qed.

(** The walk from a record under a merged id. *)
Lemma rank_walk_alias fuel i n k :
  taxonNodes st !! i = Some n ->
  (forall j m, taxonNodes st !! j = Some m -> taxId m <> k) ->
  (N < fuel)%nat ->
  rank_walk ranks fuel st k n ROOT_RANK
  = Ok (first_rank ranks st (nth_ancestor st i <$> seq 0 (Nat.max 1 (dep i)))).
Proof using Hwf.
  intros Hn Hk Hfuel. pose proof (store_rooted st Hwf) as Hrooted.
  assert (Hi : (i < N)%nat) by (by apply lookup_lt_Some in Hn).
  destruct fuel as [|f]; [lia|].
  destruct (tree_parent_record st i n Hwf Hn) as (m & Hm & Hmid & _ & Hlen).
  rewrite rank_walk_S. destruct (Z.eqb_spec (parentTaxId n) k) as [He|_].
  { exfalso. apply (Hk _ m Hm). congruence. }
  assert (Hd : (dep i <= N)%nat) by apply (dep_le _ _ _ Hrooted i Hi).
  assert (Hmax : Nat.max 1 (dep i) = S (dep (par i)) /\ (dep (par i) < f)%nat).
  { destruct (decide (par i = i)) as [Hself|Hpar].
    - pose proof (tree_root_unique st Hwf i Hi Hself) as Hir.
      rewrite Hself. rewrite Hir. unfold tree_depth. rewrite (dep_root _ _ _ Hrooted).
      split; [done | lia].
    - destruct (dep_step _ _ _ Hrooted i Hi Hpar) as [HS _].
      fold (tree_depth st i) in HS. fold (tree_depth st (par i)) in HS. lia. }
  destruct Hmax as [-> Hf].
  rewrite ancestors_cons, (first_rank_cons i n _ Hn). unfold ROOT_RANK.
  destruct ((0 <? findRankIndex ranks (rank n)) && (findRankIndex ranks (rank n) <? INT_MAX));
    [done|].
  rewrite Hlen. simpl. rewrite <- Hmid. by apply (rank_walk_own f (par i) m Hm).
Qed.

Hypothesis Htab : table_ok st = true.

(** An id of the table, the record it resolves to, and whether it is the
    record's own id. *)
Lemma valid_key_at k :
  valid_key st k ->
  exists i n, resolve st k = Some i /\ taxonNodes st !! i = Some n
    /\ (k = taxId n \/ forall j m, taxonNodes st !! j = Some m -> taxId m <> k)
    /\ taxonNode_lenient st k = Ok n.
Proof using Hwf Htab.
  intros (d & Hd & Hne). destruct (table_slot st Htab k d Hd Hne) as (Hk0 & i & n & -> & Hn).
  exists i, n. split.
  { unfold resolve. rewrite Hd. destruct (Z.eqb_spec (Z.of_nat i) (-1)); [lia|].
    by rewrite Nat2Z.id. }
  split; [done|]. split.
  { destruct (decide (k = taxId n)) as [?|Hk]; [by left|]. right.
    intros j m Hm He. destruct (tree_record st Hwf j m Hm) as (_ & HD & _).
    rewrite He, Hd in HD. injection HD as HD. apply Nat2Z.inj in HD. subst j.
    rewrite Hn in Hm. injection Hm as <-. done. }
  assert (Hid : nodeId st k = Ok (Z.of_nat i)).
  { apply nodeId_Ok. split; [by apply at_Ok in Hd as [? _] | done]. }
  unfold taxonNode_lenient, taxonNode. destruct (Z.eqb_spec k 0); [done|].
  rewrite (nodeId_exists _ _ _ Hid). simpl. rewrite Hid. simpl.
  by rewrite (at_of_nat _ _ _ Hn).
Qed.

(** The lineage min rank that the selection computes for a key of the table
    is the walk rank of the key. *)
Lemma lineage_rank_walk fuel k :
  (N < fuel)%nat -> valid_key st k ->
  lineage_rank ranks fuel st k = Ok (walk_rank ranks st k).
Proof using Hwf Htab.
  intros Hfuel Hvalid. pose proof (store_rooted st Hwf) as Hrooted.
  destruct (valid_key_at k Hvalid) as (i & n & Hres & Hn & Hcurr & Hlen).
  assert (Hi : (i < N)%nat) by (by apply lookup_lt_Some in Hn).
  assert (Hd : (dep i <= N)%nat) by apply (dep_le _ _ _ Hrooted i Hi).
  unfold lineage_rank, walk_rank, walk_records. rewrite Hlen, Hres. simpl.
  unfold tid. rewrite Hn. case_bool_decide as Hown.
  - subst k. apply (rank_walk_own fuel i n Hn). lia.
  - destruct Hcurr as [?|Hk]; [done|]. by apply (rank_walk_alias fuel i n k).
Qed.

End WalkRank.

(** ** The aggregation, record by record *)

Lemma count_at_lookup (m : gmap Z TaxNode) key w fresh child k :
  count_at m key w fresh child !! k
  = if decide (k = key) then Some (touch (m !! key) w fresh child) else m !! k.
Proof.
  unfold count_at, touch, TaxID in *.
  destruct (m !! key) eqn:Hk; destruct (decide (k = key)) as [->|Hne];
    by rewrite ?lookup_insert_eq, ?lookup_insert_ne.
Qed.

Lemma touch_weight o w fresh child :
  weight (touch o w fresh child)
  = match weight <$> o with Some a => dadd a w | None => w end.
Proof. destruct o as [tn|]; [|done]. simpl. unfold TaxNode_update. by case_bool_decide. Qed.

(** [two_differ] looks at the arrivals as a set. *)
Lemma two_differ_ext cs cs' :
  (forall c, c ∈ cs <-> c ∈ cs') -> two_differ cs = two_differ cs'.
Proof.
  intros Hext. unfold two_differ. f_equal; apply bool_decide_ext; [apply Hext|].
  rewrite !Exists_exists. split; intros (c & Hc & (c' & Hc' & Hne)%Exists_exists);
    exists c; (split; [by apply Hext|]); apply Exists_exists; exists c';
    (split; [by apply Hext | done]).
Qed.

Lemma two_differ_single c : two_differ [c] = bool_decide (c = 0).
Proof.
  unfold two_differ. rewrite (bool_decide_ext (0 ∈ [c]) (c = 0)).
  2:{ rewrite list_elem_of_singleton. split; congruence. }
  rewrite (bool_decide_eq_false_2 (Exists _ _)); [by rewrite orb_false_r|].
  intros (c1 & ->%list_elem_of_singleton & (c2 & ->%list_elem_of_singleton & Hne)%Exists_exists)%Exists_exists.
  done.
Qed.

Lemma two_differ_snoc_new cs c c0 :
  c0 ∈ cs -> c0 <> c -> two_differ (cs ++ [c]) = true.
Proof.
  intros Hin Hne. unfold two_differ. apply orb_true_intro. right. apply bool_decide_eq_true.
  apply Exists_exists. exists c0. split; [apply elem_of_app; by left|].
  apply Exists_exists. exists c. split; [|done]. apply elem_of_app. right.
  by apply list_elem_of_singleton.
Qed.

Lemma two_differ_snoc_same cs c : c ∈ cs -> two_differ (cs ++ [c]) = two_differ cs.
Proof.
  intros Hin. apply two_differ_ext. intros c'. rewrite elem_of_app, list_elem_of_singleton.
  split; [intros [?| ->]; done | by left].
Qed.

Lemma arrivals_snoc st x hs h :
  arrivals st x (hs ++ [h])
  = arrivals st x hs ++ (if hit_below st x h then [hit_child st x h] else []).
Proof.
  unfold arrivals. rewrite filter_app, fmap_app. f_equal.
  rewrite filter_cons, filter_nil. destruct (hit_below st x h); by case_decide.
Qed.

(** The entry of record [x] after the hits [hs], started from no entry:
    its weight, its child and its flag. *)
Lemma entry_fold_weight st x hs : forall o,
  weight <$> foldl (entry_step st x) o hs = foldl (weight_step st x) (weight <$> o) hs.
Proof.
  induction hs as [|h hs IH]; intros o; [done|]. simpl. rewrite IH. f_equal.
  unfold entry_step, weight_step. destruct (hit_below st x h); [|done].
  simpl. by rewrite touch_weight.
Qed.

Lemma entry_fold_flag st x hs :
  match foldl (entry_step st x) None hs with
  | Some tn => last (arrivals st x hs) = Some (childTaxon tn)
               /\ isCandidate tn = candidate_below st x hs
  | None => arrivals st x hs = []
  end.
Proof.
  unfold candidate_below.
  induction hs as [|h hs IH] using rev_ind; [done|].
  rewrite foldl_app, arrivals_snoc. simpl. unfold entry_step at 1.
  destruct (hit_below st x h); [|by rewrite app_nil_r].
  set (c := hit_child st x h).
  destruct (foldl (entry_step st x) None hs) as [tn|].
  - destruct IH as [Hlast Hflag]. rewrite last_snoc. simpl. unfold TaxNode_update.
    assert (Hin : childTaxon tn ∈ arrivals st x hs).
    { apply last_Some in Hlast as [l' ->]. apply elem_of_app. right.
      by apply list_elem_of_singleton. }
    case_bool_decide as Hdiff; simpl.
    + split; [done|]. symmetry. by apply (two_differ_snoc_new _ _ (childTaxon tn)).
    + split; [by rewrite Hdiff|]. rewrite Hflag. symmetry. apply two_differ_snoc_same.
      by rewrite <- Hdiff.
  - rewrite IH. simpl. split; [done|]. by rewrite two_differ_single.
Qed.

Section Aggregation.

Context (st : Store).
Hypothesis Hwf : tree_store st = true.
Hypothesis Htab : table_ok st = true.

Local Abbreviation N := (length (taxonNodes st)).
Local Abbreviation par := (parent_index st).
Local Abbreviation r := (root_index st).
Local Abbreviation dep := (tree_depth st).

Lemma child_toward_kid i : (i < N)%nat -> par i <> i -> child_toward st (par i) i = i.
Proof using Hwf.
  intros Hi Hpar. pose proof (store_rooted st Hwf) as Hrooted.
  destruct (dep_step _ _ _ Hrooted i Hi Hpar) as [HS _].
  unfold child_toward, tree_depth. rewrite HS.
  by replace (S (default O (depth_from N par (par i))) - default O (depth_from N par (par i)) - 1)%nat
    with O by lia.
Qed.

Lemma below_depth_lt x y : below N par x y -> x <> y -> (dep x < dep y)%nat.
Proof using Type.
  intros [Hle Hit] Hne. unfold tree_depth.
  destruct (decide (default O (depth_from N par x) = default O (depth_from N par y))) as [He|?];
    [|lia].
  exfalso. apply Hne. rewrite He, Nat.sub_diag in Hit. done.
Qed.

Lemma child_toward_parent x i :
  (i < N)%nat -> par i <> i -> below N par x (par i) -> x <> par i ->
  child_toward st x (par i) = child_toward st x i.
Proof using Hwf.
  intros Hi Hpar Hb Hne. pose proof (store_rooted st Hwf) as Hrooted.
  destruct (dep_step _ _ _ Hrooted i Hi Hpar) as [HS _].
  fold (tree_depth st i) in HS. fold (tree_depth st (par i)) in HS.
  pose proof (below_depth_lt x (par i) Hb Hne) as Hlt.
  unfold child_toward. rewrite nth_ancestor_parent. f_equal. lia.
Qed.

(** The child towards a record below is a record, so its id is not 0. *)
Lemma child_toward_id x i :
  (i < N)%nat -> tid st (child_toward st x i) <> 0.
Proof using Hwf.
  intros Hi.
  destruct (nth_ancestor_depth st i Hwf Hi (dep i - dep x - 1) ltac:(lia)) as [Hlt _].
  destruct (lookup_lt_is_Some_2 _ _ Hlt) as [nc Hnc].
  destruct (tree_record st Hwf _ nc Hnc) as (Hpos & _).
  unfold child_toward, tid. rewrite Hnc. lia.
Qed.

(** The walk over the ancestors of record [i] touches the entry of each
    record strictly above [i] once, coming from the child towards [i]. *)
Lemma agg_walk_entry w x nx :
  taxonNodes st !! x = Some nx ->
  forall fuel i n (m m' : gmap Z TaxNode),
    taxonNodes st !! i = Some n ->
    agg_walk fuel st m (taxId n) (parentTaxId n) w = Ok m' ->
    m' !! taxId nx
    = if decide (below N par x i /\ x <> i)
      then Some (touch (m !! taxId nx) w false (tid st (child_toward st x i)))
      else m !! taxId nx.
Proof using Hwf.
  intros Hx. pose proof (store_rooted st Hwf) as Hrooted.
  assert (HxN : (x < N)%nat) by (by apply lookup_lt_Some in Hx).
  induction fuel as [|f IH]; intros i n m m' Hn Hrun;
    assert (Hi : (i < N)%nat) by (by apply lookup_lt_Some in Hn);
    simpl in Hrun;
    destruct (Z.eqb_spec (parentTaxId n) (taxId n)) as [Hself|Hnself]; try discriminate.
  1,2: injection Hrun as <-;
       apply (tree_self_parent st Hwf i n Hn) in Hself;
       pose proof (tree_root_unique st Hwf i Hi Hself) as ->;
       (rewrite decide_False; [done|]);
       intros [Hb Hne]; apply Hne; by apply (below_root N par r x Hrooted).
  assert (Hpar : par i <> i) by (intros He; by apply (tree_self_parent st Hwf i n Hn) in He).
  destruct (tree_parent_record st i n Hwf Hn) as (mp & Hmp & Hmid & _ & Hlen).
  rewrite Hlen in Hrun. simpl in Hrun. rewrite <- Hmid in Hrun.
  rewrite (IH _ mp _ _ Hmp Hrun), count_at_lookup.
  assert (Hkey : taxId nx = taxId mp <-> x = par i).
  { split; [intros He; by eapply (tree_id_inj st Hwf) | intros ->; congruence]. }
  assert (Hup : below N par (par i) i) by (by apply (below_parent N par r)).
  assert (Hdown : ~ below N par i (par i)).
  { intros [Hle _]. destruct (dep_step N par r Hrooted i Hi Hpar) as [HS _]. lia. }
  assert (Hstep : x <> i -> (below N par x i <-> below N par x (par i))).
  { intros Hxi. by apply (below_parent_step N par r). }
  pose proof (below_refl N par (par i)) as Hrefl.
  destruct (decide (x = i)) as [Hxi|Hxi]; destruct (decide (x = par i)) as [Hxp|Hxp].
  - exfalso. congruence.
  - subst x. rewrite (decide_False (P := below N par i (par i) /\ _)) by tauto.
    rewrite (decide_False (P := taxId nx = taxId mp)) by tauto.
    rewrite decide_False by tauto. done.
  - subst x. rewrite Hx in Hmp. injection Hmp as ->.
    rewrite (decide_False (P := below N par (par i) (par i) /\ _)) by tauto.
    rewrite (decide_True (P := taxId mp = taxId mp)) by done.
    rewrite decide_True by tauto. rewrite (child_toward_kid i Hi Hpar).
    unfold tid. by rewrite Hn.
  - rewrite (decide_False (P := taxId nx = taxId mp)) by tauto.
    destruct (decide (below N par x (par i))) as [Hb|Hb].
    + rewrite decide_True by tauto. rewrite decide_True by tauto.
      by rewrite (child_toward_parent x i Hi Hpar Hb Hxp).
    + rewrite decide_False by tauto. rewrite decide_False by tauto. done.
Qed.

(** The weight of all hits that name a taxon. *)
Lemma agg_weight_total fuel : forall setTaxa a a',
  foldM (agg_hit fuel st) a setTaxa = Ok a' ->
  totalAssignedSeqsWeights a'
  = foldl (fun acc h => if decide (taxon h <> 0) then dadd acc (hit_weight h) else acc)
          (totalAssignedSeqsWeights a) setTaxa.
Proof using Type.
  induction setTaxa as [|h hs IH]; intros a a' Hrun.
  { simpl in Hrun. by injection Hrun as <-. }
  rewrite foldM_cons in Hrun. bind_inv Hrun as a1 H1. rewrite (IH _ _ Hrun). simpl. f_equal.
  unfold agg_hit in H1. destruct (Z.eqb_spec (taxon h) 0) as [H0|Hn0].
  - injection H1 as <-. simpl. by rewrite decide_False by tauto.
  - bind_inv H1 as o Ho. destruct o as [node|]; [|discriminate].
    bind_inv H1 as m2 Hm2. injection H1 as <-. simpl. by rewrite decide_True.
Qed.

Hypothesis Hfree : alias_free st = true.

Lemma agg_hit_entry fuel a h a' x nx :
  taxonNodes st !! x = Some nx ->
  taxon h = 0 \/ valid_key st (taxon h) ->
  agg_hit fuel st a h = Ok a' ->
  ancTaxIdsCounts a' !! taxId nx = entry_step st x (ancTaxIdsCounts a !! taxId nx) h.
Proof using Hwf Htab Hfree.
  intros Hx Hok. unfold agg_hit, entry_step.
  destruct (Z.eqb_spec (taxon h) 0) as [H0|Hn0].
  - intros [= <-]. simpl.
    assert (Hb : hit_below st x h = false).
    { unfold hit_below, resolve. rewrite H0.
      unfold table_ok in Htab. apply andb_prop in Htab as [_ HD0].
      apply bool_decide_eq_true in HD0. by rewrite HD0. }
    by rewrite Hb.
  - destruct Hok as [?|Hvalid]; [done|].
    destruct (valid_key_resolve st Hwf Htab Hfree _ Hvalid) as (i & n & Hres & Hn & Hid & Hlen).
    assert (Hi : (i < N)%nat) by (by apply lookup_lt_Some in Hn).
    intros Hrun. bind_inv Hrun as o Ho.
    unfold taxonNode_lenient in Hlen. rewrite Ho in Hlen. simpl in Hlen.
    destruct o as [node|]; [|discriminate]. injection Hlen as ->.
    bind_inv Hrun as m2 Hm2. injection Hrun as <-. simpl.
    rewrite <- Hid in Hm2.
    rewrite (agg_walk_entry _ x nx Hx _ i n _ _ Hn Hm2), count_at_lookup.
    unfold hit_below, hit_child. rewrite Hres.
    assert (Hkey : taxId nx = taxId n <-> x = i).
    { split; [intros He; eapply (tree_id_inj st Hwf); eauto | intros ->; congruence]. }
    pose proof (below_refl N par i) as Hrefl.
    destruct (decide (x = i)) as [Hxi|Hxi].
    + subst x. rewrite decide_False by tauto. rewrite decide_True by tauto.
      rewrite bool_decide_eq_true_2 by done. rewrite bool_decide_eq_true_2 by done.
      rewrite Hx in Hn. injection Hn as ->. by rewrite Hid.
    + rewrite (decide_False (P := taxId nx = taxId n)) by tauto.
      destruct (decide (below N par x i)) as [Hb|Hb].
      * rewrite decide_True by tauto. rewrite bool_decide_eq_true_2 by done.
        rewrite (bool_decide_eq_false_2 (_ = 0)) by (by apply child_toward_id). done.
      * rewrite decide_False by tauto. by rewrite bool_decide_eq_false_2.
Qed.

Lemma agg_entries fuel x nx :
  taxonNodes st !! x = Some nx ->
  forall setTaxa a a',
    hits_ok st setTaxa ->
    foldM (agg_hit fuel st) a setTaxa = Ok a' ->
    ancTaxIdsCounts a' !! taxId nx
    = foldl (entry_step st x) (ancTaxIdsCounts a !! taxId nx) setTaxa.
Proof using Hwf Htab Hfree.
  intros Hx. induction setTaxa as [|h hs IH]; intros a a' Hok Hrun.
  { simpl in Hrun. by injection Hrun as <-. }
  rewrite foldM_cons in Hrun. bind_inv Hrun as a1 H1.
  rewrite (IH a1 a') by (try done; intros h' Hh'; apply Hok; by right).
  simpl. f_equal. apply (agg_hit_entry fuel a h a1 x nx Hx); [|done]. apply Hok. by left.
Qed.

(** The entries of the aggregation, without merged aliases: the entry under
    the id of a record holds the weight of the hits at or below the record,
    and its flag tells whether the record is a candidate. *)
Lemma agg_characterized fuel setTaxa a :
  hits_ok st setTaxa ->
  foldM (agg_hit fuel st) (mkAgg ∅ 0 0 dzero) setTaxa = Ok a ->
  forall x nx, taxonNodes st !! x = Some nx ->
    match ancTaxIdsCounts a !! taxId nx with
    | Some tn => weight_below st x setTaxa = Some (weight tn)
                 /\ isCandidate tn = candidate_below st x setTaxa
    | None => weight_below st x setTaxa = None
    end.
Proof using Hwf Htab Hfree.
  intros Hok Hrun x nx Hx.
  pose proof (agg_entries fuel x nx Hx setTaxa _ _ Hok Hrun) as Hentry.
  simpl in Hentry. rewrite lookup_empty in Hentry.
  pose proof (entry_fold_weight st x setTaxa None) as Hw.
  pose proof (entry_fold_flag st x setTaxa) as Hf.
  unfold weight_below. rewrite Hentry.
  destruct (foldl (entry_step st x) None setTaxa) as [tn|]; simpl in Hw; rewrite <- Hw; [|done].
  split; [done | apply Hf].
Qed.

End Aggregation.

(** The result of the function, the state of the selection behind it, and
    the keys of the aggregation. *)
Lemma weighted_selection_keys st ranks fuel setTaxa cutoff :
  tree_store st = true -> table_ok st = true ->
  (length (taxonNodes st) < fuel)%nat ->
  hits_ok st setTaxa ->
  exists a s res,
    foldM (agg_hit fuel st) (mkAgg ∅ 0 0 dzero) setTaxa = Ok a
    /\ weightedMajorityLCA ranks fuel st setTaxa cutoff = Ok res
    /\ res_taxon res = selctedTaxon s
    /\ res_selectedPercent res = selectedPercent s
    /\ sel_inv ranks fuel st (totalAssignedSeqsWeights a) cutoff
         (in_key_order (ancTaxIdsCounts a)) s
    /\ (forall k, is_Some (ancTaxIdsCounts a !! k) -> valid_key st k).
Proof.
  intros Hwf Htab Hfuel Hhits.
  destruct (weighted_selection st ranks Hwf Htab fuel setTaxa cutoff Hfuel Hhits)
    as (a & s & res & Hagg & Hrun & Htaxon & Hpct & Hinv).
  destruct (agg_total st Hwf Htab fuel setTaxa (mkAgg ∅ 0 0 dzero) Hfuel Hhits)
    as (a' & Hagg' & Hkeys).
  { intros k Hk. simpl in Hk. rewrite lookup_empty in Hk. by destruct Hk. }
  rewrite Hagg in Hagg'. injection Hagg' as <-.
  exists a, s, res. done.
Qed.

(** C1 (amended).  Over a tree store with a sound table, for hits that are
    unassigned or known, the function returns.  If no candidate of the
    aggregation meets the cutoff with its percentage (the accumulated weight
    rounded to a [float], divided by the total weight as a [double]), the
    selected taxon is 0.  A selected taxon other than 0 is a candidate that
    meets the cutoff, and among all such candidates it has the least walk
    rank (the first positive rank index met from the candidate towards the
    root, the root not looked at except for a merged id of the root), no
    candidate of the same walk rank having a larger percentage.  And 0 is
    selected only if every candidate that meets the cutoff has no rank on
    its walk and a percentage that is not above 0.  The total weight is the
    sum of the weights of the hits that name a taxon; without merged aliases,
    the entries of the aggregation stand under ids of records, the entry of a
    record holds the sum of the weights of the hits at or below it, and it is
    a candidate exactly when a hit names the record or hits arrive through
    two different children of it. *)
Theorem C1_selection_by_walk_rank st ranks fuel setTaxa cutoff :
  tree_store st = true -> table_ok st = true ->
  (length (taxonNodes st) < fuel)%nat ->
  hits_ok st setTaxa ->
  exists a res,
    foldM (agg_hit fuel st) (mkAgg ∅ 0 0 dzero) setTaxa = Ok a
    /\ weightedMajorityLCA ranks fuel st setTaxa cutoff = Ok res
    /\ ((forall k tn, ancTaxIdsCounts a !! k = Some tn ->
           qualifies (totalAssignedSeqsWeights a) cutoff tn = false) ->
        res_taxon res = 0)
    /\ (res_taxon res <> 0 ->
        exists tn,
          ancTaxIdsCounts a !! res_taxon res = Some tn
          /\ qualifies (totalAssignedSeqsWeights a) cutoff tn = true
          /\ res_selectedPercent res = percent_of (weight tn) (totalAssignedSeqsWeights a)
          /\ forall k' tn', ancTaxIdsCounts a !! k' = Some tn' ->
               qualifies (totalAssignedSeqsWeights a) cutoff tn' = true ->
               walk_rank ranks st (res_taxon res) < walk_rank ranks st k'
               \/ (walk_rank ranks st (res_taxon res) = walk_rank ranks st k'
                   /\ dgt (percent_of (weight tn') (totalAssignedSeqsWeights a))
                          (percent_of (weight tn) (totalAssignedSeqsWeights a)) = false))
    /\ (res_taxon res = 0 ->
        forall k tn, ancTaxIdsCounts a !! k = Some tn ->
          qualifies (totalAssignedSeqsWeights a) cutoff tn = true ->
          walk_rank ranks st k = INT_MAX
          /\ dgt (percent_of (weight tn) (totalAssignedSeqsWeights a)) dzero = false)
    /\ totalAssignedSeqsWeights a = weight_assigned setTaxa
    /\ (alias_free st = true ->
        (forall k tn, ancTaxIdsCounts a !! k = Some tn ->
           exists x, resolve st k = Some x /\ tid st x = k)
        /\ forall x, (x < length (taxonNodes st))%nat ->
             match ancTaxIdsCounts a !! tid st x with
             | Some tn => weight_below st x setTaxa = Some (weight tn)
                          /\ isCandidate tn = candidate_below st x setTaxa
             | None => weight_below st x setTaxa = None
             end).
Proof.
  intros Hwf Htab Hfuel Hhits.
  destruct (weighted_selection_keys st ranks fuel setTaxa cutoff Hwf Htab Hfuel Hhits)
    as (a & s & res & Hagg & Hrun & Htaxon & Hpct & (Hbound & Hbest & Hsel) & Hkeys).
  assert (Hwalk : forall k tn, ancTaxIdsCounts a !! k = Some tn ->
            lineage_rank ranks fuel st k = Ok (walk_rank ranks st k)).
  { intros k tn Hk. apply (lineage_rank_walk st ranks Hwf Htab fuel k Hfuel).
    apply Hkeys. by exists tn. }
  exists a, res. split; [done|]. split; [done|]. rewrite Htaxon, Hpct.
  split; [|split; [|split; [|split]]].
  - intros Hnone. destruct Hsel as [(? & _)|(_ & _ & tn & Hin & Hq & _)]; [done|].
    apply in_key_order_elem in Hin. rewrite (Hnone _ _ Hin) in Hq. done.
  - intros Hne. destruct Hsel as [(? & _)|(_ & _ & tn & Hin & Hq & Hrk & Hp)]; [done|].
    exists tn. apply in_key_order_elem in Hin.
    split; [done|]. split; [done|]. split; [by rewrite <- Hp|].
    rewrite (Hwalk _ _ Hin) in Hrk. injection Hrk as Hrk.
    intros k' tn' Hin' Hq'. pose proof Hin' as Hk'. apply in_key_order_elem in Hin'.
    destruct (Hbest _ Hin' Hq') as (rk' & Hrk' & Hcmp). simpl in Hrk', Hcmp.
    rewrite (Hwalk _ _ Hk') in Hrk'. injection Hrk' as <-.
    rewrite <- Hrk, <- Hp in Hcmp. exact Hcmp.
  - intros H0 k tn Hin Hq. pose proof Hin as Hk. apply in_key_order_elem in Hin.
    destruct Hsel as [(_ & Hmin & Hp)|(? & _)]; [|done].
    destruct (Hbest _ Hin Hq) as (rk & Hrk & Hcmp). simpl in Hrk, Hcmp.
    pose proof (lineage_rank_le _ _ _ _ _ Hrk) as Hle.
    rewrite (Hwalk _ _ Hk) in Hrk. injection Hrk as <-. rewrite Hmin, Hp in Hcmp.
    destruct Hcmp as [?|[<- Hnot]]; [lia | done].
  - by rewrite (agg_weight_total st fuel setTaxa _ _ Hagg).
  - intros Hfree. split.
    + intros k tn Hk.
      destruct (valid_key_resolve st Hwf Htab Hfree k) as (x & nx & Hres & Hx & Hid & _).
      { apply Hkeys. by exists tn. }
      exists x. split; [done|]. unfold tid. by rewrite Hx.
    + intros x Hx. destruct (lookup_lt_is_Some_2 _ _ Hx) as [nx Hnx].
      unfold tid. rewrite Hnx.
      apply (agg_characterized st Hwf Htab Hfree fuel setTaxa a Hhits Hagg x nx Hnx).
Qed.

(** C1 (instance): one hit each on the taxa 4, 5 and 6 of the tree of six
    records, cutoff 0.34. *)
Lemma C1_witness :
  exists a res,
    foldM (agg_hit 7 store6) (mkAgg ∅ 0 0 dzero) hits_456 = Ok a
    /\ weightedMajorityLCA ranks_genus_species 7 store6 hits_456 third = Ok res
    /\ ((forall k tn, ancTaxIdsCounts a !! k = Some tn ->
           qualifies (totalAssignedSeqsWeights a) third tn = false) ->
        res_taxon res = 0)
    /\ (res_taxon res <> 0 ->
        exists tn,
          ancTaxIdsCounts a !! res_taxon res = Some tn
          /\ qualifies (totalAssignedSeqsWeights a) third tn = true
          /\ res_selectedPercent res = percent_of (weight tn) (totalAssignedSeqsWeights a)
          /\ forall k' tn', ancTaxIdsCounts a !! k' = Some tn' ->
               qualifies (totalAssignedSeqsWeights a) third tn' = true ->
               walk_rank ranks_genus_species store6 (res_taxon res)
               < walk_rank ranks_genus_species store6 k'
               \/ (walk_rank ranks_genus_species store6 (res_taxon res)
                   = walk_rank ranks_genus_species store6 k'
                   /\ dgt (percent_of (weight tn') (totalAssignedSeqsWeights a))
                          (percent_of (weight tn) (totalAssignedSeqsWeights a)) = false))
    /\ (res_taxon res = 0 ->
        forall k tn, ancTaxIdsCounts a !! k = Some tn ->
          qualifies (totalAssignedSeqsWeights a) third tn = true ->
          walk_rank ranks_genus_species store6 k = INT_MAX
          /\ dgt (percent_of (weight tn) (totalAssignedSeqsWeights a)) dzero = false)
    /\ totalAssignedSeqsWeights a = weight_assigned hits_456
    /\ (alias_free store6 = true ->
        (forall k tn, ancTaxIdsCounts a !! k = Some tn ->
           exists x, resolve store6 k = Some x /\ tid store6 x = k)
        /\ forall x, (x < length (taxonNodes store6))%nat ->
             match ancTaxIdsCounts a !! tid store6 x with
             | Some tn => weight_below store6 x hits_456 = Some (weight tn)
                          /\ isCandidate tn = candidate_below store6 x hits_456
             | None => weight_below store6 x hits_456 = None
             end).
Proof.
  apply (C1_selection_by_walk_rank store6 ranks_genus_species 7 hits_456 third);
    [vm_compute; reflexivity | vm_compute; reflexivity | simpl; lia | hits_ok_by_lookup].
Defined.

(** C1 (counterexample).  In a taxonomy where the genus 3 sits below the
    species 2, with one hit on taxon 3 and one on taxon 5 (a subgenus below
    the root) and cutoff 1/2: both are candidates that meet the cutoff; the
    lowest rank index on the lineage of 3 is 4 (the species above it), on the
    lineage of 5 it is 7; the function selects 5, whose walk rank 7 is below
    the walk rank 8 of taxon 3. *)
Lemma C1_counterexample_rank_above_is_not_seen :
  tree_store store_ranks_out_of_order = true
  /\ exists a res tn3 tn5,
       foldM (agg_hit 5 store_ranks_out_of_order) (mkAgg ∅ 0 0 dzero) hits_3_5 = Ok a
       /\ weightedMajorityLCA sample_ranks 5 store_ranks_out_of_order hits_3_5 half = Ok res
       /\ ancTaxIdsCounts a !! 3 = Some tn3
       /\ ancTaxIdsCounts a !! 5 = Some tn5
       /\ qualifies (totalAssignedSeqsWeights a) half tn3 = true
       /\ qualifies (totalAssignedSeqsWeights a) half tn5 = true
       /\ spec_lineage_min sample_ranks 5 store_ranks_out_of_order 2 = 4
       /\ spec_lineage_min sample_ranks 5 store_ranks_out_of_order 3 = 7
       /\ walk_rank sample_ranks store_ranks_out_of_order 3 = 8
       /\ walk_rank sample_ranks store_ranks_out_of_order 5 = 7
       /\ res_taxon res = 5.
Proof.
  split; [vm_compute; reflexivity|].
  do 4 eexists. split; [vm_compute; reflexivity|]. split; [vm_compute; reflexivity|].
  split; [vm_compute; reflexivity|]. split; [vm_compute; reflexivity|].
  repeat split; vm_compute; reflexivity.
Qed.

(** In a tree store without merged aliases, for hits that name 0 or ids with
    a record, when a taxon is selected, [selectedPercent] is the percentage
    of the selected record as the source computes it: the weights of the hits
    at or below the record, added up as [double] values in the order of the
    hits and rounded to a [float], divided by the sum of the weights of all
    hits that name a taxon; and it meets the cutoff. *)
Theorem weightedMajorityLCA_selected_percent ranks fuel st setTaxa cutoff :
  tree_store st = true -> table_ok st = true -> alias_free st = true ->
  (length (taxonNodes st) < fuel)%nat ->
  hits_ok st setTaxa ->
  exists res, weightedMajorityLCA ranks fuel st setTaxa cutoff = Ok res
    /\ (res_taxon res <> 0 ->
        exists s, resolve st (res_taxon res) = Some s
          /\ percent_below st s setTaxa = Some (res_selectedPercent res)
          /\ dge (res_selectedPercent res) cutoff = true).
Proof.
  intros Hwf Htab Hfree Hfuel Hhits.
  destruct (weighted_selection_keys st ranks fuel setTaxa cutoff Hwf Htab Hfuel Hhits)
    as (a & s & res & Hagg & Hrun & Htaxon & Hpct & (_ & _ & Hsel) & Hkeys).
  exists res. split; [done|]. rewrite Htaxon, Hpct. intros Hn0.
  destruct Hsel as [(? & _)|(_ & _ & tn & Hin & Hq & _ & Hcurr)]; [done|].
  apply in_key_order_elem in Hin.
  destruct (valid_key_resolve st Hwf Htab Hfree (selctedTaxon s)) as (i & n & Hres & Hn & Hid & _).
  { apply Hkeys. by exists tn. }
  exists i. split; [done|].
  pose proof (agg_characterized st Hwf Htab Hfree fuel setTaxa a Hhits Hagg i n Hn) as Hchar.
  unfold TaxID in *. rewrite Hid, Hin in Hchar. destruct Hchar as [Hw _].
  unfold qualifies in Hq. apply andb_prop in Hq as [_ Hge].
  pose proof (agg_weight_total st fuel setTaxa _ _ Hagg) as Ht.
  change (totalAssignedSeqsWeights a = weight_assigned setTaxa) in Ht.
  unfold percent_below. rewrite Hw, <- Ht, <- Hcurr. done.
Qed.

Lemma weightedMajorityLCA_selected_percent_witness :
  exists res, weightedMajorityLCA ranks_genus_species 7 store6 hits_456 third = Ok res
    /\ (res_taxon res <> 0 ->
        exists s, resolve store6 (res_taxon res) = Some s
          /\ percent_below store6 s hits_456 = Some (res_selectedPercent res)
          /\ dge (res_selectedPercent res) third = true).
Proof.
  apply (weightedMajorityLCA_selected_percent ranks_genus_species 7 store6 hits_456 third);
    [vm_compute; reflexivity | vm_compute; reflexivity | vm_compute; reflexivity
    | simpl; lia | hits_ok_by_lookup].
Defined.

(** Rounding at work.  Under a root with the two leaves 2 and 3, each leaf
    has one hit of weight [0.1f] and one of weight [0.3f], and the cutoff is
    [0.5f].  The weight of a leaf is half the total weight, but rounded to a
    [float] and divided by the total it comes out below one half, so no leaf
    meets the cutoff: the root is selected, with a percentage below 1. *)
Lemma weightedMajorityLCA_rounds_the_weight :
  let hits := [mkWeightedTaxHit 2 (float_of_ratio 1 10); mkWeightedTaxHit 2 (float_of_ratio 3 10);
               mkWeightedTaxHit 3 (float_of_ratio 1 10); mkWeightedTaxHit 3 (float_of_ratio 3 10)] in
  exists res p2 w2,
    weightedMajorityLCA ranks_genus_species 4 store3 hits half = Ok res
    /\ res_taxon res = 1
    /\ dgt (double_of_Z 1) (res_selectedPercent res) = true
    /\ weight_below store3 1 hits = Some w2
    /\ dadd w2 w2 = weight_assigned hits
    /\ percent_below store3 1 hits = Some p2
    /\ dge p2 half = false.
Proof.
  do 3 eexists. split; [vm_compute; reflexivity|]. split; [vm_compute; reflexivity|].
  split; [vm_compute; reflexivity|]. split; [vm_compute; reflexivity|].
  split; [vm_compute; reflexivity|]. split; vm_compute; reflexivity.
Qed.

(** ** The conversions at work *)

(** The counts 4294967295 and 1 of the two leaves under a root sum to [2^32]:
    the clade counter of the root wraps to 0. *)
Lemma getCladeCounts_wraps :
  total_reaching store3 (list_to_map [(2, 4294967295); (3, 1)]) = 2 ^ 32
  /\ exists cc, getCladeCounts 3 store3 (list_to_map [(2, 4294967295); (3, 1)]) = Ok cc
       /\ cladeCount (counts_at cc 1) = 0
       /\ cladeCount (counts_at cc 2) = 4294967295.
Proof.
  split; [vm_compute; reflexivity|].
  eexists. split; [vm_compute; reflexivity|]. split; vm_compute; reflexivity.
Qed.

(** An id outside the range of an [int] is read as another id. *)
Lemma strtol_keeps_the_low_bits :
  strtol "4294967297" = 1
  /\ strtol "2147483648" = -2147483648
  /\ strtol "99999999999999999999" = -1
  /\ strtoul "4294967297" = 1
  /\ strtoul "-1" = 4294967295.
Proof. repeat split; vm_compute; reflexivity. Qed.
